(** * A shallow embedding of the scanning engine of grep (src/grep.c)

    The C globals of grep.c become two records: [config], the flags that
    are fixed once option parsing is over, and [state], everything the
    scanner mutates.  The operating system is a third record, [world]:
    what [open], [fstat], [read], [savedir] ... answer for each path.

    Conventions.
    - [size_t] values are [Z] with the wrap-around of a 64-bit word written
      out ([wrap]); [off_t] is the signed 64-bit word ([swrap]).  [int]
      and [off_t] counters (line counts, [outleft], [pending]) are
      mathematical integers: C leaves their overflow undefined.
    - The buffer is the list of bytes in [[bufbeg, buflim)]; a pointer into
      the buffer is its offset from [bufbeg], a [nat].  A pointer that may
      be [NULL] is an [option nat].
    - The build modelled has neither [HAVE_MMAP] nor
      [HAVE_DOS_FILE_CONTENTS] (so [bufmapped] is the constant 0), and
      [BUFSALLOC] is not defined.
    - A function returns an [outcome]: a value and the new state, a call
      of [exit] or [abort], a use of a [NULL] pointer that [memchr]
      returned, or the exhaustion of the fuel that bounds a loop of the
      model which C does not bound. *)

From Stdlib Require Import ZArith List String Ascii Bool Lia.
Import ListNotations.
Open Scope Z_scope.

(** ** Machine integers *)

Definition SIZE_MAX : Z := 2 ^ 64 - 1.

(** Reduction modulo [2^64]: arithmetic on [size_t]. *)
Definition wrap (x : Z) : Z := x mod 2 ^ 64.

(** Conversion to the signed 64-bit [off_t]. *)
Definition swrap (x : Z) : Z := (x + 2 ^ 63) mod 2 ^ 64 - 2 ^ 63.

(** A C integer used as a condition. *)
Definition nz (x : Z) : bool := negb (x =? 0).

(** [!x] *)
Definition lnot (x : Z) : Z := if x =? 0 then 1 else 0.

Definition EINTR : Z := 4.
Definition EACCES : Z := 13.
Definition EISDIR : Z := 21.

(** ** Data *)

Inductive file_kind : Type := S_IFREG | S_IFDIR | S_IFOTHER.

(** The fields of [struct stat] that grep.c reads. *)
Record stat : Type := mkstat
  { st_mode : file_kind; st_dev : Z; st_ino : Z; st_size : Z }.

Definition S_ISDIR (m : file_kind) : bool :=
  match m with S_IFDIR => true | _ => false end.
Definition S_ISREG (m : file_kind) : bool :=
  match m with S_IFREG => true | _ => false end.

(** [static struct stats stats_base]: zero-initialised. *)
Definition stats_base : stat := mkstat S_IFOTHER 0 0 0.

Inductive directories_t : Type :=
  READ_DIRECTORIES | RECURSE_DIRECTORIES | SKIP_DIRECTORIES.

Inductive binary_files_t : Type :=
  BINARY_BINARY_FILES | TEXT_BINARY_FILES | WITHOUT_MATCH_BINARY_FILES.

Definition directories_eqb (a b : directories_t) : bool :=
  match a, b with
  | READ_DIRECTORIES, READ_DIRECTORIES => true
  | RECURSE_DIRECTORIES, RECURSE_DIRECTORIES => true
  | SKIP_DIRECTORIES, SKIP_DIRECTORIES => true
  | _, _ => false
  end.

Definition binary_files_eqb (a b : binary_files_t) : bool :=
  match a, b with
  | BINARY_BINARY_FILES, BINARY_BINARY_FILES => true
  | TEXT_BINARY_FILES, TEXT_BINARY_FILES => true
  | WITHOUT_MATCH_BINARY_FILES, WITHOUT_MATCH_BINARY_FILES => true
  | _, _ => false
  end.

(** What was handed to stdio on standard output, call by call. *)
Inductive stdout_call : Type :=
| Printf (bytes : list ascii)   (* the formatted text of a [printf] *)
| Fwrite (bytes : list ascii)
| Puts (line : list ascii).     (* [puts] adds the newline itself *)

Definition newline : ascii := ascii_of_nat 10.
Definition NUL : ascii := ascii_of_nat 0.

Definition bytes_of_call (c : stdout_call) : list ascii :=
  match c with
  | Printf b => b
  | Fwrite b => b
  | Puts l => l ++ [newline]
  end.

(** The bytes that reach standard output. *)
Definition stdout_bytes (l : list stdout_call) : list ascii :=
  flat_map bytes_of_call l.

(** The diagnostics written to standard error. *)
Inductive stderr_call : Type :=
| ErrorMsg (mesg : string) (errnum : Z)
    (* [error]: "prog: mesg: strerror (errnum)", or "prog: mesg" when
       errnum is 0 *)
| LoopWarning (dir : string).
    (* "prog: warning: dir: recursive directory loop" *)

(** The answers of successive [read] calls on a descriptor: an errno, or
    the bytes that are available (a [read] takes a prefix of them). *)
Definition read_script : Type := list (Z + list ascii).

(** The matcher behind [execute]: on the bytes of [[p, p + size)] it
    answers [None] for [(size_t) -1], or the offset of a match and its
    size. *)
Definition matcher : Type := list ascii -> option (nat * nat).

(** The flags set by option parsing and never written afterwards. *)
Record config : Type := mkconfig
  { execute : matcher;
    suppress_errors : Z;
    directories : directories_t;
    binary_files : binary_files_t;
    filename_mask : Z;
    out_invert : Z;
    out_line : Z;
    out_byte : Z;
    out_before : Z;
    out_after : Z;
    count_matches : Z;
    list_files : Z;
    no_filenames : Z;
    max_count : Z;
    eolbyte : ascii;
    exit_on_match : Z }.

(** The operating system, as far as grep.c asks it.  The retry loops
    around [open] and [close] on [EINTR] are folded into the answer: the
    world gives the result of the first attempt that is not interrupted. *)
Record world : Type := mkworld
  { w_pagesize : Z;                          (* getpagesize () *)
    w_alloc : Z -> option Z;                 (* malloc / realloc: address *)
    w_open : string -> Z + unit;             (* errno, or a descriptor *)
    w_fstat : option string -> Z + stat;     (* [None] is descriptor 0 *)
    w_stat : string -> Z + stat;
    w_lseek_cur : Z + Z;                     (* lseek (0, 0, SEEK_CUR) *)
    w_lseek_set : Z -> option Z;             (* lseek (0, off, SEEK_SET): errno *)
    w_read : string -> read_script;
    w_close : string -> option Z;            (* errno of a failed close *)
    w_savedir : string -> Z + list string;   (* errno (0: no memory), or names *)
    w_ferror_stdout : bool;                  (* ferror (stdout) *)
    w_fclose_stdout : option Z }.            (* errno of fclose (stdout) == EOF *)

(** The mutable globals of grep.c, and the two output streams. *)
Record state : Type := mkstate
  { errseen : Z;
    errno : Z;
    filename : string;
    out_quiet : Z;
    done_on_match : Z;
    out_file : Z;
    pagesize : Z;
    bufsalloc : Z;
    bufalloc : Z;
    buffer : Z;                   (* address of the aligned buffer *)
    bufdata : list ascii;         (* the bytes of [bufbeg, buflim) *)
    bufoffset : Z;
    after_last_match : Z;
    totalcc : Z;
    lastnl : nat;
    lastout : option nat;
    totalnl : Z;
    outleft : Z;
    pending : Z;
    used : Z;                     (* the [static int used] of prtext *)
    sout : list stdout_call;
    serr : list stderr_call;
    rd : read_script;             (* what [bufdesc] will still deliver *)
    stdin_rd : read_script }.     (* what descriptor 0 will still deliver *)

Definition set_errseen (v : Z) (s : state) : state :=
  {| errseen := v; errno := errno s; filename := filename s; out_quiet :=
     out_quiet s; done_on_match := done_on_match s; out_file := out_file s;
     pagesize := pagesize s; bufsalloc := bufsalloc s; bufalloc := bufalloc s;
     buffer := buffer s; bufdata := bufdata s; bufoffset := bufoffset s;
     after_last_match := after_last_match s; totalcc := totalcc s; lastnl :=
     lastnl s; lastout := lastout s; totalnl := totalnl s; outleft := outleft
     s; pending := pending s; used := used s; sout := sout s; serr := serr s;
     rd := rd s; stdin_rd := stdin_rd s |}.

Definition set_errno (v : Z) (s : state) : state :=
  {| errseen := errseen s; errno := v; filename := filename s; out_quiet :=
     out_quiet s; done_on_match := done_on_match s; out_file := out_file s;
     pagesize := pagesize s; bufsalloc := bufsalloc s; bufalloc := bufalloc s;
     buffer := buffer s; bufdata := bufdata s; bufoffset := bufoffset s;
     after_last_match := after_last_match s; totalcc := totalcc s; lastnl :=
     lastnl s; lastout := lastout s; totalnl := totalnl s; outleft := outleft
     s; pending := pending s; used := used s; sout := sout s; serr := serr s;
     rd := rd s; stdin_rd := stdin_rd s |}.

Definition set_filename (v : string) (s : state) : state :=
  {| errseen := errseen s; errno := errno s; filename := v; out_quiet :=
     out_quiet s; done_on_match := done_on_match s; out_file := out_file s;
     pagesize := pagesize s; bufsalloc := bufsalloc s; bufalloc := bufalloc s;
     buffer := buffer s; bufdata := bufdata s; bufoffset := bufoffset s;
     after_last_match := after_last_match s; totalcc := totalcc s; lastnl :=
     lastnl s; lastout := lastout s; totalnl := totalnl s; outleft := outleft
     s; pending := pending s; used := used s; sout := sout s; serr := serr s;
     rd := rd s; stdin_rd := stdin_rd s |}.

Definition set_out_quiet (v : Z) (s : state) : state :=
  {| errseen := errseen s; errno := errno s; filename := filename s; out_quiet
     := v; done_on_match := done_on_match s; out_file := out_file s; pagesize
     := pagesize s; bufsalloc := bufsalloc s; bufalloc := bufalloc s; buffer :=
     buffer s; bufdata := bufdata s; bufoffset := bufoffset s; after_last_match
     := after_last_match s; totalcc := totalcc s; lastnl := lastnl s; lastout
     := lastout s; totalnl := totalnl s; outleft := outleft s; pending :=
     pending s; used := used s; sout := sout s; serr := serr s; rd := rd s;
     stdin_rd := stdin_rd s |}.

Definition set_done_on_match (v : Z) (s : state) : state :=
  {| errseen := errseen s; errno := errno s; filename := filename s; out_quiet
     := out_quiet s; done_on_match := v; out_file := out_file s; pagesize :=
     pagesize s; bufsalloc := bufsalloc s; bufalloc := bufalloc s; buffer :=
     buffer s; bufdata := bufdata s; bufoffset := bufoffset s; after_last_match
     := after_last_match s; totalcc := totalcc s; lastnl := lastnl s; lastout
     := lastout s; totalnl := totalnl s; outleft := outleft s; pending :=
     pending s; used := used s; sout := sout s; serr := serr s; rd := rd s;
     stdin_rd := stdin_rd s |}.

Definition set_out_file (v : Z) (s : state) : state :=
  {| errseen := errseen s; errno := errno s; filename := filename s; out_quiet
     := out_quiet s; done_on_match := done_on_match s; out_file := v; pagesize
     := pagesize s; bufsalloc := bufsalloc s; bufalloc := bufalloc s; buffer :=
     buffer s; bufdata := bufdata s; bufoffset := bufoffset s; after_last_match
     := after_last_match s; totalcc := totalcc s; lastnl := lastnl s; lastout
     := lastout s; totalnl := totalnl s; outleft := outleft s; pending :=
     pending s; used := used s; sout := sout s; serr := serr s; rd := rd s;
     stdin_rd := stdin_rd s |}.

Definition set_pagesize (v : Z) (s : state) : state :=
  {| errseen := errseen s; errno := errno s; filename := filename s; out_quiet
     := out_quiet s; done_on_match := done_on_match s; out_file := out_file s;
     pagesize := v; bufsalloc := bufsalloc s; bufalloc := bufalloc s; buffer :=
     buffer s; bufdata := bufdata s; bufoffset := bufoffset s; after_last_match
     := after_last_match s; totalcc := totalcc s; lastnl := lastnl s; lastout
     := lastout s; totalnl := totalnl s; outleft := outleft s; pending :=
     pending s; used := used s; sout := sout s; serr := serr s; rd := rd s;
     stdin_rd := stdin_rd s |}.

Definition set_bufsalloc (v : Z) (s : state) : state :=
  {| errseen := errseen s; errno := errno s; filename := filename s; out_quiet
     := out_quiet s; done_on_match := done_on_match s; out_file := out_file s;
     pagesize := pagesize s; bufsalloc := v; bufalloc := bufalloc s; buffer :=
     buffer s; bufdata := bufdata s; bufoffset := bufoffset s; after_last_match
     := after_last_match s; totalcc := totalcc s; lastnl := lastnl s; lastout
     := lastout s; totalnl := totalnl s; outleft := outleft s; pending :=
     pending s; used := used s; sout := sout s; serr := serr s; rd := rd s;
     stdin_rd := stdin_rd s |}.

Definition set_bufalloc (v : Z) (s : state) : state :=
  {| errseen := errseen s; errno := errno s; filename := filename s; out_quiet
     := out_quiet s; done_on_match := done_on_match s; out_file := out_file s;
     pagesize := pagesize s; bufsalloc := bufsalloc s; bufalloc := v; buffer :=
     buffer s; bufdata := bufdata s; bufoffset := bufoffset s; after_last_match
     := after_last_match s; totalcc := totalcc s; lastnl := lastnl s; lastout
     := lastout s; totalnl := totalnl s; outleft := outleft s; pending :=
     pending s; used := used s; sout := sout s; serr := serr s; rd := rd s;
     stdin_rd := stdin_rd s |}.

Definition set_buffer (v : Z) (s : state) : state :=
  {| errseen := errseen s; errno := errno s; filename := filename s; out_quiet
     := out_quiet s; done_on_match := done_on_match s; out_file := out_file s;
     pagesize := pagesize s; bufsalloc := bufsalloc s; bufalloc := bufalloc s;
     buffer := v; bufdata := bufdata s; bufoffset := bufoffset s;
     after_last_match := after_last_match s; totalcc := totalcc s; lastnl :=
     lastnl s; lastout := lastout s; totalnl := totalnl s; outleft := outleft
     s; pending := pending s; used := used s; sout := sout s; serr := serr s;
     rd := rd s; stdin_rd := stdin_rd s |}.

Definition set_bufdata (v : list ascii) (s : state) : state :=
  {| errseen := errseen s; errno := errno s; filename := filename s; out_quiet
     := out_quiet s; done_on_match := done_on_match s; out_file := out_file s;
     pagesize := pagesize s; bufsalloc := bufsalloc s; bufalloc := bufalloc s;
     buffer := buffer s; bufdata := v; bufoffset := bufoffset s;
     after_last_match := after_last_match s; totalcc := totalcc s; lastnl :=
     lastnl s; lastout := lastout s; totalnl := totalnl s; outleft := outleft
     s; pending := pending s; used := used s; sout := sout s; serr := serr s;
     rd := rd s; stdin_rd := stdin_rd s |}.

Definition set_bufoffset (v : Z) (s : state) : state :=
  {| errseen := errseen s; errno := errno s; filename := filename s; out_quiet
     := out_quiet s; done_on_match := done_on_match s; out_file := out_file s;
     pagesize := pagesize s; bufsalloc := bufsalloc s; bufalloc := bufalloc s;
     buffer := buffer s; bufdata := bufdata s; bufoffset := v; after_last_match
     := after_last_match s; totalcc := totalcc s; lastnl := lastnl s; lastout
     := lastout s; totalnl := totalnl s; outleft := outleft s; pending :=
     pending s; used := used s; sout := sout s; serr := serr s; rd := rd s;
     stdin_rd := stdin_rd s |}.

Definition set_after_last_match (v : Z) (s : state) : state :=
  {| errseen := errseen s; errno := errno s; filename := filename s; out_quiet
     := out_quiet s; done_on_match := done_on_match s; out_file := out_file s;
     pagesize := pagesize s; bufsalloc := bufsalloc s; bufalloc := bufalloc s;
     buffer := buffer s; bufdata := bufdata s; bufoffset := bufoffset s;
     after_last_match := v; totalcc := totalcc s; lastnl := lastnl s; lastout
     := lastout s; totalnl := totalnl s; outleft := outleft s; pending :=
     pending s; used := used s; sout := sout s; serr := serr s; rd := rd s;
     stdin_rd := stdin_rd s |}.

Definition set_totalcc (v : Z) (s : state) : state :=
  {| errseen := errseen s; errno := errno s; filename := filename s; out_quiet
     := out_quiet s; done_on_match := done_on_match s; out_file := out_file s;
     pagesize := pagesize s; bufsalloc := bufsalloc s; bufalloc := bufalloc s;
     buffer := buffer s; bufdata := bufdata s; bufoffset := bufoffset s;
     after_last_match := after_last_match s; totalcc := v; lastnl := lastnl s;
     lastout := lastout s; totalnl := totalnl s; outleft := outleft s; pending
     := pending s; used := used s; sout := sout s; serr := serr s; rd := rd s;
     stdin_rd := stdin_rd s |}.

Definition set_lastnl (v : nat) (s : state) : state :=
  {| errseen := errseen s; errno := errno s; filename := filename s; out_quiet
     := out_quiet s; done_on_match := done_on_match s; out_file := out_file s;
     pagesize := pagesize s; bufsalloc := bufsalloc s; bufalloc := bufalloc s;
     buffer := buffer s; bufdata := bufdata s; bufoffset := bufoffset s;
     after_last_match := after_last_match s; totalcc := totalcc s; lastnl := v;
     lastout := lastout s; totalnl := totalnl s; outleft := outleft s; pending
     := pending s; used := used s; sout := sout s; serr := serr s; rd := rd s;
     stdin_rd := stdin_rd s |}.

Definition set_lastout (v : option nat) (s : state) : state :=
  {| errseen := errseen s; errno := errno s; filename := filename s; out_quiet
     := out_quiet s; done_on_match := done_on_match s; out_file := out_file s;
     pagesize := pagesize s; bufsalloc := bufsalloc s; bufalloc := bufalloc s;
     buffer := buffer s; bufdata := bufdata s; bufoffset := bufoffset s;
     after_last_match := after_last_match s; totalcc := totalcc s; lastnl :=
     lastnl s; lastout := v; totalnl := totalnl s; outleft := outleft s;
     pending := pending s; used := used s; sout := sout s; serr := serr s; rd
     := rd s; stdin_rd := stdin_rd s |}.

Definition set_totalnl (v : Z) (s : state) : state :=
  {| errseen := errseen s; errno := errno s; filename := filename s; out_quiet
     := out_quiet s; done_on_match := done_on_match s; out_file := out_file s;
     pagesize := pagesize s; bufsalloc := bufsalloc s; bufalloc := bufalloc s;
     buffer := buffer s; bufdata := bufdata s; bufoffset := bufoffset s;
     after_last_match := after_last_match s; totalcc := totalcc s; lastnl :=
     lastnl s; lastout := lastout s; totalnl := v; outleft := outleft s;
     pending := pending s; used := used s; sout := sout s; serr := serr s; rd
     := rd s; stdin_rd := stdin_rd s |}.

Definition set_outleft (v : Z) (s : state) : state :=
  {| errseen := errseen s; errno := errno s; filename := filename s; out_quiet
     := out_quiet s; done_on_match := done_on_match s; out_file := out_file s;
     pagesize := pagesize s; bufsalloc := bufsalloc s; bufalloc := bufalloc s;
     buffer := buffer s; bufdata := bufdata s; bufoffset := bufoffset s;
     after_last_match := after_last_match s; totalcc := totalcc s; lastnl :=
     lastnl s; lastout := lastout s; totalnl := totalnl s; outleft := v;
     pending := pending s; used := used s; sout := sout s; serr := serr s; rd
     := rd s; stdin_rd := stdin_rd s |}.

Definition set_pending (v : Z) (s : state) : state :=
  {| errseen := errseen s; errno := errno s; filename := filename s; out_quiet
     := out_quiet s; done_on_match := done_on_match s; out_file := out_file s;
     pagesize := pagesize s; bufsalloc := bufsalloc s; bufalloc := bufalloc s;
     buffer := buffer s; bufdata := bufdata s; bufoffset := bufoffset s;
     after_last_match := after_last_match s; totalcc := totalcc s; lastnl :=
     lastnl s; lastout := lastout s; totalnl := totalnl s; outleft := outleft
     s; pending := v; used := used s; sout := sout s; serr := serr s; rd := rd
     s; stdin_rd := stdin_rd s |}.

Definition set_used (v : Z) (s : state) : state :=
  {| errseen := errseen s; errno := errno s; filename := filename s; out_quiet
     := out_quiet s; done_on_match := done_on_match s; out_file := out_file s;
     pagesize := pagesize s; bufsalloc := bufsalloc s; bufalloc := bufalloc s;
     buffer := buffer s; bufdata := bufdata s; bufoffset := bufoffset s;
     after_last_match := after_last_match s; totalcc := totalcc s; lastnl :=
     lastnl s; lastout := lastout s; totalnl := totalnl s; outleft := outleft
     s; pending := pending s; used := v; sout := sout s; serr := serr s; rd :=
     rd s; stdin_rd := stdin_rd s |}.

Definition set_sout (v : list stdout_call) (s : state) : state :=
  {| errseen := errseen s; errno := errno s; filename := filename s; out_quiet
     := out_quiet s; done_on_match := done_on_match s; out_file := out_file s;
     pagesize := pagesize s; bufsalloc := bufsalloc s; bufalloc := bufalloc s;
     buffer := buffer s; bufdata := bufdata s; bufoffset := bufoffset s;
     after_last_match := after_last_match s; totalcc := totalcc s; lastnl :=
     lastnl s; lastout := lastout s; totalnl := totalnl s; outleft := outleft
     s; pending := pending s; used := used s; sout := v; serr := serr s; rd :=
     rd s; stdin_rd := stdin_rd s |}.

Definition set_serr (v : list stderr_call) (s : state) : state :=
  {| errseen := errseen s; errno := errno s; filename := filename s; out_quiet
     := out_quiet s; done_on_match := done_on_match s; out_file := out_file s;
     pagesize := pagesize s; bufsalloc := bufsalloc s; bufalloc := bufalloc s;
     buffer := buffer s; bufdata := bufdata s; bufoffset := bufoffset s;
     after_last_match := after_last_match s; totalcc := totalcc s; lastnl :=
     lastnl s; lastout := lastout s; totalnl := totalnl s; outleft := outleft
     s; pending := pending s; used := used s; sout := sout s; serr := v; rd :=
     rd s; stdin_rd := stdin_rd s |}.

Definition set_rd (v : read_script) (s : state) : state :=
  {| errseen := errseen s; errno := errno s; filename := filename s; out_quiet
     := out_quiet s; done_on_match := done_on_match s; out_file := out_file s;
     pagesize := pagesize s; bufsalloc := bufsalloc s; bufalloc := bufalloc s;
     buffer := buffer s; bufdata := bufdata s; bufoffset := bufoffset s;
     after_last_match := after_last_match s; totalcc := totalcc s; lastnl :=
     lastnl s; lastout := lastout s; totalnl := totalnl s; outleft := outleft
     s; pending := pending s; used := used s; sout := sout s; serr := serr s;
     rd := v; stdin_rd := stdin_rd s |}.

Definition set_stdin_rd (v : read_script) (s : state) : state :=
  {| errseen := errseen s; errno := errno s; filename := filename s; out_quiet
     := out_quiet s; done_on_match := done_on_match s; out_file := out_file s;
     pagesize := pagesize s; bufsalloc := bufsalloc s; bufalloc := bufalloc s;
     buffer := buffer s; bufdata := bufdata s; bufoffset := bufoffset s;
     after_last_match := after_last_match s; totalcc := totalcc s; lastnl :=
     lastnl s; lastout := lastout s; totalnl := totalnl s; outleft := outleft
     s; pending := pending s; used := used s; sout := sout s; serr := serr s;
     rd := rd s; stdin_rd := v |}.


(** ** Outcomes and the state monad *)

Inductive ub_site : Type := UB_nlscan | UB_prpending | UB_prtext.
Inductive fuel_kind : Type := ScanFuel | DepthFuel.

(** How a computation ends without returning. *)
Inductive stop : Type :=
| Exit (status : Z) (s : state)      (* exit (status) *)
| Abort (s : state)                  (* abort () *)
| Undef (site : ub_site)             (* memchr gave NULL and it was used *)
| OutOfFuel (k : fuel_kind).

Inductive outcome (A : Type) : Type :=
| Ret (a : A) (s : state)
| Stop (r : stop).

Arguments Ret {A} a s.
Arguments Stop {A} r.

Definition M (A : Type) : Type := state -> outcome A.

Definition ret {A} (a : A) : M A := fun s => Ret a s.

Definition bind {A B} (c : M A) (k : A -> M B) : M B :=
  fun s =>
    match c s with
    | Ret a s' => k a s'
    | Stop r => Stop r
    end.

Definition get : M state := fun s => Ret s s.
Definition modify (f : state -> state) : M unit := fun s => Ret tt (f s).
Definition exit {A} (status : Z) : M A := fun s => Stop (Exit status s).
Definition abort {A} : M A := fun s => Stop (Abort s).
Definition undef {A} (u : ub_site) : M A := fun _ => Stop (Undef u).
Definition out_of_fuel {A} (k : fuel_kind) : M A :=
  fun _ => Stop (OutOfFuel k).

Declare Scope monad_scope.
Delimit Scope monad_scope with monad.
Notation "x <- c ;; k" := (bind c (fun x => k))
  (at level 61, c at next level, right associativity) : monad_scope.
Notation "c ;; k" := (bind c (fun _ => k))
  (at level 61, right associativity) : monad_scope.
Open Scope monad_scope.

(** [if (c) body] *)
Definition when (c : bool) (body : M unit) : M unit :=
  if c then body else ret tt.

Definition fputs_stdout (c : stdout_call) : M unit :=
  modify (fun s => set_sout (sout s ++ [c]) s).

Definition fputs_stderr (c : stderr_call) : M unit :=
  modify (fun s => set_serr (serr s ++ [c]) s).

(** ** Bytes and pointers *)

Definition ascii_of_Z (x : Z) : ascii := ascii_of_N (Z.to_N (x mod 256)).
Definition Z_of_ascii (c : ascii) : Z := Z.of_N (N_of_ascii c).

(** The bytes of [[beg, lim)]. *)
Definition slice (buf : list ascii) (beg lim : nat) : list ascii :=
  firstn (lim - beg) (skipn beg buf).

(** [p[0]] for an offset inside the buffer. *)
Definition byte_at (buf : list ascii) (p : nat) : ascii := nth p buf NUL.

(** [memchr (p, c, n)]: the first offset in [[p, p + n)] that holds [c];
    [None] is the NULL pointer. *)
Fixpoint memchr (buf : list ascii) (p : nat) (c : ascii) (n : nat)
  : option nat :=
  match n with
  | O => None
  | S n' =>
      match nth_error buf p with
      | Some x => if Ascii.eqb x c then Some p else memchr buf (S p) c n'
      | None => None
      end
  end.

(** Equality of two pointers one of which may be NULL. *)
Definition ptr_eqb (a b : option nat) : bool :=
  match a, b with
  | Some x, Some y => Nat.eqb x y
  | None, None => true
  | _, _ => false
  end.

(** [lastout ? lastout : bufbeg], [bufbeg] being offset 0. *)
Definition ptr_or_bufbeg (a : option nat) : nat :=
  match a with Some x => x | None => O end.

(** The body of [do --p; while (p > bp && p[-1] != eol);] once the first
    decrement is done. *)
Fixpoint back_to_bol (fuel : nat) (buf : list ascii) (eol : ascii)
  (bp p : nat) : nat :=
  match fuel with
  | O => p
  | S fuel' =>
      if Nat.ltb bp p && negb (Ascii.eqb (byte_at buf (p - 1)) eol)
      then back_to_bol fuel' buf eol bp (p - 1)
      else p
  end.

(** ** Alignment and growth of the buffer *)

Definition PREFERRED_SAVE_FACTOR : Z := 5.

(** The macro [ALIGN_TO (val, alignment)], on [size_t]. *)
Definition ALIGN_TO (val alignment : Z) : Z :=
  if val mod alignment =? 0 then val
  else wrap (val + (alignment - val mod alignment)).

(** [page_alloc (size, &ubuffer)]: the aligned address, [None] for NULL. *)
Definition page_alloc (w : world) (pagesz size : Z) : option Z :=
  let asize := wrap (size + pagesz - 1) in
  if size <=? asize then
    match w_alloc w asize with
    | Some p => Some (ALIGN_TO p pagesz)
    | None => None
    end
  else None.

(** The upper bound [maxalloc] that fillbuf computes from the file. *)
Definition fillbuf_maxalloc (pagesz aligned_save : Z) (st : stat)
  (bufoff : Z) : Z :=
  if S_ISREG (st_mode st) then
    let to_be_read := swrap (st_size st - bufoff) in
    let slop := wrap to_be_read mod pagesz in
    let aligned_to_be_read :=
      swrap (to_be_read + (if slop =? 0 then 0 else pagesz - slop)) in
    let maxalloc_off := swrap (aligned_save + aligned_to_be_read) in
    if 0 <=? maxalloc_off then maxalloc_off else SIZE_MAX
  else SIZE_MAX.

(** [while (bufsalloc < save) if (bufsalloc < bufsalloc * 2) bufsalloc *= 2;
    else { bufsalloc = aligned_save; break; }].  A doubling that does not
    overflow at least doubles a nonzero value, so 64 rounds are enough. *)
Fixpoint grow_bufsalloc (fuel : nat) (bsa save aligned_save : Z) : Z :=
  match fuel with
  | O => bsa
  | S fuel' =>
      if bsa <? save then
        if bsa <? wrap (bsa * 2)
        then grow_bufsalloc fuel' (wrap (bsa * 2)) save aligned_save
        else aligned_save
      else bsa
  end.

(** What the block [if (bufsalloc < save) { ... }] of fillbuf decides:
    the new [bufsalloc], the size [newalloc], and [maxalloc]. *)
Record growth : Type := mkgrowth
  { g_bufsalloc : Z; g_newalloc : Z; g_maxalloc : Z }.

Definition fillbuf_growth (pagesz bsa save : Z) (st : stat) (bufoff : Z)
  : growth :=
  let aligned_save := ALIGN_TO save pagesz in
  let maxalloc := fillbuf_maxalloc pagesz aligned_save st bufoff in
  let bsa1 := grow_bufsalloc 65 bsa save aligned_save in
  let newalloc := wrap (PREFERRED_SAVE_FACTOR * bsa1) in
  if maxalloc <? newalloc
  then mkgrowth aligned_save maxalloc maxalloc
  else mkgrowth bsa1 newalloc maxalloc.

(** The answer of a [read] of at most [readsize] bytes, retried while it
    fails with [EINTR], and the rest of the script. *)
Fixpoint sys_read (readsize : nat) (script : read_script)
  : (Z + list ascii) * read_script :=
  match script with
  | [] => (inr [], [])
  | inl e :: rest =>
      if e =? EINTR then sys_read readsize rest else (inl e, rest)
  | inr chunk :: rest =>
      (inr (firstn readsize chunk),
       if Nat.leb (List.length chunk) readsize then rest
       else inr (skipn readsize chunk) :: rest)
  end.

(** Modelled from the spec: the macro [is_EISDIR] of system.h, which is not
    among the sources; the spec speaks of an open failure "classified as
    is a directory", which on a POSIX host is [errno == EISDIR]. *)
Definition is_EISDIR (e : Z) (file : option string) : bool := e =? EISDIR.

(** Modelled from the spec: [FILESYSTEM_PREFIX_LEN] and [IS_SLASH] of
    system.h, not among the sources; the spec omits the slash "if dir
    already ends in a separator or equals the filesystem-prefix boundary",
    which on a POSIX host is the empty prefix and the byte '/'. *)
Definition FILESYSTEM_PREFIX_LEN (dir : string) : nat := O.
Definition IS_SLASH (c : ascii) : bool := Ascii.eqb c "/"%char.

(** [dir[dirlen - 1]] *)
Fixpoint last_char (s : string) : ascii :=
  match s with
  | EmptyString => NUL
  | String c EmptyString => c
  | String _ s' => last_char s'
  end.

(** Decimal digits of [pos] in front of [acc], as print_offset_sep writes
    them from the end of its 64-byte array. *)
Fixpoint offset_digits (fuel : nat) (pos : Z) (acc : list ascii)
  : list ascii :=
  let acc' := ascii_of_Z (48 + Z.rem pos 10) :: acc in
  match fuel with
  | O => acc'
  | S fuel' =>
      if Z.quot pos 10 =? 0 then acc'
      else offset_digits fuel' (Z.quot pos 10) acc'
  end.

Arguments offset_digits : simpl never.

(** The text of [printf ("%d\n", count)]. *)
Definition printf_d_nl (count : Z) : list ascii :=
  (if count <? 0 then ["-"%char] else [])
    ++ offset_digits 62 (Z.abs count) [newline].

(** ** The functions of grep.c *)

Section Grep.

Variable cfg : config.
Variable w : world.

Let eol : ascii := eolbyte cfg.

(** [error (mesg, errnum)] *)
Definition error (mesg : string) (errnum : Z) : M unit :=
  fputs_stderr (ErrorMsg mesg errnum).

(** [suppressible_error (mesg, errnum)] *)
Definition suppressible_error (mesg : string) (errnum : Z) : M unit :=
  when (negb (nz (suppress_errors cfg))) (error mesg errnum) ;;
  modify (set_errseen 1).

(** [fatal (mesg, errnum)] *)
Definition fatal {A} (mesg : string) (errnum : Z) : M A :=
  error mesg errnum ;; exit 2.

(** The first-time branch of reset: find the page size and allocate. *)
Definition reset_first_time : M unit :=
  modify (set_pagesize (w_pagesize w)) ;;
  if w_pagesize w =? 0 then abort
  else
    let ubufsalloc := Z.max 8192 (w_pagesize w) in
    let bsa := ALIGN_TO ubufsalloc (w_pagesize w) in
    let ba := wrap (PREFERRED_SAVE_FACTOR * bsa) in
    modify (set_bufsalloc bsa) ;;
    modify (set_bufalloc ba) ;;
    if (bsa <? ubufsalloc) || negb (ba / PREFERRED_SAVE_FACTOR =? bsa)
    then fatal "memory exhausted" 0
    else
      match page_alloc w (w_pagesize w) ba with
      | None => fatal "memory exhausted" 0
      | Some b => modify (set_buffer b)
      end.

(** The first statement of reset: size the save region again, or set
    the buffer up the first time through. *)
Definition reset_buffer : M unit :=
  s <- get ;;
  if nz (pagesize s)
  then modify (set_bufsalloc
                 (ALIGN_TO (bufalloc s / PREFERRED_SAVE_FACTOR) (pagesize s)))
  else reset_first_time.

(** [reset (fd, file, stats)]: the int it returns and what it left in
    [stats->stat]. *)
Definition reset (file : option string) (st : stat) : M (Z * stat) :=
  reset_buffer ;;
  modify (set_bufdata []) ;;                       (* buflim = buffer *)
  match w_fstat w file with
  | inl e =>
      modify (set_errno e) ;;
      error "fstat" e ;;
      ret (0, st)
  | inr st' =>
      if directories_eqb (directories cfg) SKIP_DIRECTORIES
         && S_ISDIR (st_mode st')
      then ret (0, st')
      else if S_ISREG (st_mode st') then
        match file with
        | Some _ => modify (set_bufoffset 0) ;; ret (1, st')
        | None =>
            match w_lseek_cur w with
            | inr off => modify (set_bufoffset off) ;; ret (1, st')
            | inl e =>
                modify (set_errno e) ;;
                (* bufoffset = lseek (...) stored the -1 *)
                modify (set_bufoffset (-1)) ;;
                error "lseek" e ;;
                ret (0, st')
            end
        end
      else ret (1, st')
  end.

(** The block [if (bufsalloc < save) { ... }] of fillbuf. *)
Definition fillbuf_grow (save : Z) (st : stat) : M unit :=
  s <- get ;;
  let g := fillbuf_growth (pagesize s) (bufsalloc s) save st (bufoffset s) in
  modify (set_bufsalloc (g_bufsalloc g)) ;;
  if (g_bufsalloc g <? save) || (g_newalloc g <? save)
     || ((g_newalloc g =? save) && negb (g_newalloc g =? g_maxalloc g))
  then fatal "memory exhausted" 0
  else if bufalloc s <? g_newalloc g then
    modify (set_bufalloc (g_newalloc g)) ;;
    match page_alloc w (pagesize s) (wrap (g_newalloc g + 1)) with
    | None => fatal "memory exhausted" 0
    | Some b => modify (set_buffer b)
    end
  else ret tt.

(** [fillbuf (save, stats)]: the last [save] bytes of the buffer are kept
    and the bytes of one [read] follow them.  The block under
    [HAVE_MMAP] and the call of undossify_input under
    [HAVE_DOS_FILE_CONTENTS] are not part of the build modelled, in which
    [bufmapped] is the constant 0 and [fillsize] is 0 when the read is
    reached. *)
Definition fillbuf (save : nat) (st : stat) : M Z :=
  s0 <- get ;;
  let saved := skipn (List.length (bufdata s0) - save) (bufdata s0) in
  when (bufsalloc s0 <? wrap (Z.of_nat save))
       (fillbuf_grow (wrap (Z.of_nat save)) st) ;;
  s <- get ;;
  let readsize := wrap (bufalloc s - bufsalloc s) in
  let '(bytesread, rest) := sys_read (Z.to_nat readsize) (rd s) in
  modify (set_rd rest) ;;
  match bytesread with
  | inl e =>
      modify (set_errno e) ;;
      modify (set_bufdata saved) ;;
      ret 0
  | inr chunk =>
      modify (set_bufoffset (bufoffset s + Z.of_nat (List.length chunk))) ;;
      modify (set_bufdata (saved ++ chunk)) ;;
      ret 1
  end.

(** The loop of nlscan, from [beg]. *)
Fixpoint nlscan_loop (fuel : nat) (beg lim : nat) : M unit :=
  if Nat.eqb beg lim then ret tt
  else
    match fuel with
    | O => out_of_fuel ScanFuel
    | S fuel' =>
        modify (fun s => set_totalnl (totalnl s + 1) s) ;;
        s <- get ;;
        match memchr (bufdata s) beg eol (lim - beg) with
        | None => undef UB_nlscan                       (* beg++ on NULL *)
        | Some q => nlscan_loop fuel' (S q) lim
        end
    end.

(** [nlscan (lim)] *)
Definition nlscan (lim : nat) : M unit :=
  s <- get ;;
  nlscan_loop (S (lim - lastnl s)) (lastnl s) lim ;;
  modify (set_lastnl lim).

(** [print_offset_sep (pos, sep)] *)
Definition print_offset_sep (pos : Z) (sep : ascii) : M unit :=
  fputs_stdout (Fwrite (offset_digits 62 pos [sep])).

(** [sep & filename_mask], printed with [%c]. *)
Definition masked (sep : ascii) : ascii :=
  ascii_of_Z (Z.land (Z_of_ascii sep) (filename_mask cfg)).

(** [prline (beg, lim, sep)] *)
Definition prline (beg lim : nat) (sep : ascii) : M unit :=
  s <- get ;;
  when (nz (out_file s))
       (fputs_stdout
          (Printf (list_ascii_of_string (filename s) ++ [masked sep]))) ;;
  when (nz (out_line cfg))
       (nlscan beg ;;
        modify (fun s => set_totalnl (totalnl s + 1) s) ;;
        s <- get ;;
        print_offset_sep (totalnl s) sep ;;
        modify (set_lastnl lim)) ;;
  when (nz (out_byte cfg))
       (s <- get ;; print_offset_sep (totalcc s + Z.of_nat beg) sep) ;;
  s <- get ;;
  fputs_stdout (Fwrite (slice (bufdata s) beg lim)) ;;
  when (w_ferror_stdout w)
       (s <- get ;; error "writing output" (errno s)) ;;
  modify (set_lastout (Some lim)).

(** The loop of prpending. *)
Fixpoint prpending_loop (fuel : nat) (lim : nat) : M unit :=
  s <- get ;;
  let lo := ptr_or_bufbeg (lastout s) in
  if (0 <? pending s) && Nat.ltb lo lim then
    match fuel with
    | O => out_of_fuel ScanFuel
    | S fuel' =>
        match memchr (bufdata s) lo eol (lim - lo) with
        | None => undef UB_prpending       (* nl - lastout, nl + 1 on NULL *)
        | Some nl =>
            modify (set_pending (pending s - 1)) ;;
            (if nz (outleft s)
                || Bool.eqb
                     (match execute cfg (slice (bufdata s) lo nl) with
                      | None => true
                      | Some _ => false
                      end)
                     (negb (nz (out_invert cfg)))
             then prline lo (S nl) "-"%char
             else modify (set_pending 0)) ;;
            prpending_loop fuel' lim
        end
    end
  else ret tt.

(** [prpending (lim)] *)
Definition prpending (lim : nat) : M unit :=
  s <- get ;;
  when (match lastout s with None => true | Some _ => false end)
       (modify (set_lastout (Some O))) ;;
  s <- get ;;
  prpending_loop (lim - ptr_or_bufbeg (lastout s)) lim.

(** [for (i = 0; i < out_before; ++i) if (p > bp) do --p;
    while (p > bp && p[-1] != eol);] *)
Fixpoint leading_context_start (i : nat) (buf : list ascii) (bp p : nat)
  : nat :=
  match i with
  | O => p
  | S i' =>
      leading_context_start i' buf bp
        (if Nat.ltb bp p then back_to_bol p buf eol bp (p - 1) else p)
  end.

(** [while (p < beg) { nl = memchr (p, eol, beg - p); nl++;
    prline (p, nl, '-'); p = nl; }] *)
Fixpoint leading_context_loop (fuel : nat) (p beg : nat) : M nat :=
  if Nat.ltb p beg then
    match fuel with
    | O => out_of_fuel ScanFuel
    | S fuel' =>
        s <- get ;;
        match memchr (bufdata s) p eol (beg - p) with
        | None => undef UB_prtext                          (* nl++ on NULL *)
        | Some nl =>
            prline p (S nl) "-"%char ;;
            leading_context_loop fuel' (S nl) beg
        end
    end
  else ret p.

(** [for (n = 0; p < lim && n < outleft; n++) { ... }]: the final [n]
    and [p]. *)
Fixpoint count_loop (fuel : nat) (p lim : nat) (n : Z) : M (Z * nat) :=
  s <- get ;;
  if Nat.ltb p lim && (n <? outleft s) then
    match fuel with
    | O => out_of_fuel ScanFuel
    | S fuel' =>
        match memchr (bufdata s) p eol (lim - p) with
        | None => undef UB_prtext                          (* nl++ on NULL *)
        | Some nl =>
            when (negb (nz (out_quiet s))) (prline p (S nl) ":"%char) ;;
            count_loop fuel' (S nl) lim (n + 1)
        end
    end
  else ret (n, p).

(** The [--] line of prtext, printed with [puts]. *)
Definition separator : stdout_call := Puts ["-"%char; "-"%char].

(** [prtext (beg, lim, nlinesp)].  [nlinesp] tells whether the pointer is
    non-null; the value is what is stored through it (0 when it is null). *)
Definition prtext (beg lim : nat) (nlinesp : bool) : M Z :=
  s <- get ;;
  when (negb (nz (out_quiet s)) && (0 <? pending s)) (prpending beg) ;;
  s <- get ;;
  p <- (if negb (nz (out_quiet s)) then
          let bp := ptr_or_bufbeg (lastout s) in
          let p := leading_context_start (Z.to_nat (out_before cfg))
                     (bufdata s) bp beg in
          when ((nz (out_before cfg) || nz (out_after cfg))
                && nz (used s)
                && negb (ptr_eqb (Some p) (lastout s)))
               (fputs_stdout separator) ;;
          leading_context_loop (beg - p) p beg
        else ret beg) ;;
  n <- (if nlinesp then
          np <- count_loop (lim - p) p lim 0 ;;
          modify (fun s =>
            set_after_last_match
              (bufoffset s
               - (Z.of_nat (List.length (bufdata s)) - Z.of_nat (snd np))) s) ;;
          ret (fst np)
        else
          s <- get ;;
          when (negb (nz (out_quiet s))) (prline beg lim ":"%char) ;;
          ret 0) ;;
  modify (fun s => set_pending (if nz (out_quiet s) then 0 else out_after cfg) s) ;;
  modify (set_used 1) ;;
  ret n.

(** How the [while] loop of grepbuf is left: by [break] or by its
    condition, with [p] and [nlines]; or by a [return nlines]. *)
Inductive loop_exit : Type :=
| LoopDone (p : nat) (nlines : Z)
| LoopReturn (nlines : Z).

(** The [while] loop of grepbuf.  C does not bound it; [fuel] does. *)
Fixpoint grepbuf_loop (fuel : nat) (lim p : nat) (nlines : Z)
  : M loop_exit :=
  match fuel with
  | O => out_of_fuel ScanFuel
  | S fuel' =>
      s <- get ;;
      match execute cfg (slice (bufdata s) p lim) with
      | None => ret (LoopDone p nlines)
      | Some (match_offset, match_size) =>
          let b := (p + match_offset)%nat in
          let endp := (b + match_size)%nat in
          if Nat.eqb b lim then ret (LoopDone p nlines)
          else if negb (nz (out_invert cfg)) then
            prtext b endp false ;;
            modify (fun s => set_outleft (outleft s - 1) s) ;;
            s <- get ;;
            if negb (nz (outleft s)) || nz (done_on_match s) then
              if nz (exit_on_match cfg) then exit 0
              else
                modify (set_after_last_match
                          (bufoffset s
                           - (Z.of_nat (List.length (bufdata s))
                              - Z.of_nat endp))) ;;
                ret (LoopReturn (nlines + 1))
            else grepbuf_loop fuel' lim endp (nlines + 1)
          else if Nat.ltb p b then
            n <- prtext p b true ;;
            modify (fun s => set_outleft (outleft s - n) s) ;;
            s <- get ;;
            if negb (nz (outleft s)) then ret (LoopReturn (nlines + n))
            else grepbuf_loop fuel' lim endp (nlines + n)
          else grepbuf_loop fuel' lim endp nlines
      end
  end.

(** [grepbuf (beg, lim)] *)
Definition grepbuf (fuel : nat) (beg lim : nat) : M Z :=
  r <- grepbuf_loop fuel lim beg 0 ;;
  match r with
  | LoopReturn nlines => ret nlines
  | LoopDone p nlines =>
      if nz (out_invert cfg) && Nat.ltb p lim then
        n <- prtext p lim true ;;
        modify (fun s => set_outleft (outleft s - n) s) ;;
        ret (nlines + n)
      else ret nlines
  end.

(** [for (lim = buflim; lim > beg && lim[-1] != eol; --lim);] *)
Fixpoint last_eol (fuel : nat) (buf : list ascii) (beg lim : nat) : nat :=
  match fuel with
  | O => lim
  | S fuel' =>
      if Nat.ltb beg lim && negb (Ascii.eqb (byte_at buf (lim - 1)) eol)
      then last_eol fuel' buf beg (lim - 1)
      else lim
  end.

(** [while (i < out_before && beg > bufbeg && beg != lastout)
    { ++i; do --beg; while (beg > bufbeg && beg[-1] != eol); }] with
    [n] the rounds that [i] still allows. *)
Fixpoint context_reserve (n : nat) (buf : list ascii) (lo : option nat)
  (beg : nat) : nat :=
  match n with
  | O => beg
  | S n' =>
      if Nat.ltb 0 beg && negb (ptr_eqb (Some beg) lo)
      then context_reserve n' buf lo (back_to_bol beg buf eol 0 (beg - 1))
      else beg
  end.

(** How the [for (;;)] loop of grep is left: by [break], with [nlines],
    [residue] and [save]; or by [goto finish_grep]. *)
Inductive scan_exit : Type :=
| ScanBreak (nlines : Z) (residue save : nat)
| ScanFinish (nlines : Z).

(** The [for (;;)] loop of grep. *)
Fixpoint grep_loop (fuel : nat) (file : option string) (st : stat)
  (nlines : Z) (residue save : nat) : M scan_exit :=
  match fuel with
  | O => out_of_fuel ScanFuel
  | S fuel' =>
      modify (set_lastnl O) ;;
      modify (fun s => match lastout s with
                       | Some _ => set_lastout (Some O) s
                       | None => s
                       end) ;;
      s <- get ;;
      let buflim := List.length (bufdata s) in
      if Nat.eqb buflim save then ret (ScanBreak nlines residue save)
      else
        let beg := (save - residue)%nat in
        let lim := last_eol buflim (bufdata s) beg buflim in
        let residue := (buflim - lim)%nat in
        r <- (if Nat.ltb beg lim then
                n <- (if nz (outleft s) then grepbuf fuel beg lim
                      else ret 0) ;;
                s <- get ;;
                when (nz (pending s)) (prpending lim) ;;
                s <- get ;;
                ret (nlines + n,
                     (negb (nz (outleft s)) && negb (nz (pending s)))
                     || (nz (nlines + n) && nz (done_on_match s)
                         && negb (nz (out_invert cfg))))
              else ret (nlines, false)) ;;
        let '(nlines, finish) := r in
        if finish then ret (ScanFinish nlines)
        else
          s <- get ;;
          let beg := context_reserve (Z.to_nat (out_before cfg)) (bufdata s)
                       (lastout s) lim in
          when (negb (ptr_eqb (Some beg) (lastout s)))
               (modify (set_lastout None)) ;;
          let save := (residue + lim - beg)%nat in
          modify (fun s =>
            set_totalcc (totalcc s + Z.of_nat buflim - Z.of_nat save) s) ;;
          when (nz (out_line cfg)) (nlscan beg) ;;
          cc <- fillbuf save st ;;
          if cc =? 0 then
            s <- get ;;
            when (negb (is_EISDIR (errno s) file))
                 (suppressible_error (filename s) (errno s)) ;;
            ret (ScanFinish nlines)
          else grep_loop fuel' file st nlines residue save
  end.

(** The label [finish_grep] of grep. *)
Definition finish_grep (not_text nlines : Z) : M Z :=
  modify (fun s => set_done_on_match (done_on_match s - not_text) s) ;;
  modify (fun s => set_out_quiet (out_quiet s - not_text) s) ;;
  s <- get ;;
  when (nz (Z.land not_text (Z.lnot (out_quiet s))) && nz nlines)
       (fputs_stdout
          (Printf (list_ascii_of_string
                     ("Binary file " ++ filename s ++ " matches")
                   ++ [newline]))) ;;
  ret nlines.

(** A directory walker: [grepdir (dir, stats)] with [stats->stat] and
    the stat buffers of the ancestors, nearest first. *)
Definition grepdir_t : Type := string -> stat -> list stat -> M Z.

(** [grep (fd, file, stats)]: the int it returns and what it left in
    [stats->stat]; [anc] are the stat buffers up the [parent] links. *)
Definition grep (grepdir : grepdir_t) (fuel : nat) (file : option string)
  (st : stat) (anc : list stat) : M (Z * stat) :=
  r <- reset file st ;;
  let '(ok, st) := r in
  if ok =? 0 then ret (0, st)
  else
    let recurse :=
      match file with
      | Some f =>
          if directories_eqb (directories cfg) RECURSE_DIRECTORIES
             && S_ISDIR (st_mode st)
          then Some f else None
      | None => None
      end in
    match recurse with
    | Some f =>
        match w_close w f with
        | Some e => modify (set_errno e) ;; error f e
        | None => ret tt
        end ;;
        status <- grepdir f st anc ;;
        ret (status - 2, st)
    | None =>
        modify (set_totalcc 0) ;;
        modify (set_lastout None) ;;
        modify (set_totalnl 0) ;;
        modify (set_outleft (max_count cfg)) ;;
        modify (set_after_last_match 0) ;;
        modify (set_pending 0) ;;
        cc <- fillbuf O st ;;
        if cc =? 0 then
          s <- get ;;
          when (negb (is_EISDIR (errno s) file))
               (suppressible_error (filename s) (errno s)) ;;
          ret (0, st)
        else
          s <- get ;;
          let not_text : Z :=
            if ((binary_files_eqb (binary_files cfg) BINARY_BINARY_FILES
                 && negb (nz (out_quiet s)))
                || binary_files_eqb (binary_files cfg)
                     WITHOUT_MATCH_BINARY_FILES)
               && match memchr (bufdata s) O
                          (if Ascii.eqb eol NUL then ascii_of_nat 128 else NUL)
                          (List.length (bufdata s)) with
                  | Some _ => true
                  | None => false
                  end
            then 1 else 0 in
          if nz not_text
             && binary_files_eqb (binary_files cfg) WITHOUT_MATCH_BINARY_FILES
          then ret (0, st)
          else
            modify (fun s => set_done_on_match (done_on_match s + not_text) s) ;;
            modify (fun s => set_out_quiet (out_quiet s + not_text) s) ;;
            r <- grep_loop fuel file st 0 O O ;;
            match r with
            | ScanFinish nlines =>
                n <- finish_grep not_text nlines ;; ret (n, st)
            | ScanBreak nlines residue save =>
                n <- (if Nat.ltb 0 residue then
                        modify (fun s => set_bufdata (bufdata s ++ [eol]) s) ;;
                        s <- get ;;
                        n <- (if nz (outleft s)
                              then grepbuf fuel (save - residue)
                                     (List.length (bufdata s))
                              else ret 0) ;;
                        s <- get ;;
                        when (nz (pending s))
                             (prpending (List.length (bufdata s))) ;;
                        ret (nlines + n)
                      else ret nlines) ;;
                n <- finish_grep not_text n ;; ret (n, st)
            end
    end.

(** A file driver: [grepfile (file, stats)] with [stats->stat] and the
    ancestors; it answers the status and what it left in [stats->stat]. *)
Definition grepfile_t : Type :=
  option string -> stat -> list stat -> M (Z * stat).

(** What [open] led to in grepfile: an early [return], or a descriptor. *)
Inductive opened : Type :=
| Returned (status : Z) (st : stat)
| Opened.

(** The part of grepfile up to [count = grep (desc, file, stats)]. *)
Definition grepfile_open (grepdir : grepdir_t) (file : option string)
  (st : stat) (anc : list stat) : M opened :=
  match file with
  | None =>
      modify (set_filename "(standard input)") ;;
      modify (fun s => set_rd (stdin_rd s) s) ;;
      ret Opened
  | Some f =>
      match w_open w f with
      | inr _ =>
          modify (set_filename f) ;;
          modify (set_rd (w_read w f)) ;;
          ret Opened
      | inl e =>
          modify (set_errno e) ;;
          if is_EISDIR e file
             && directories_eqb (directories cfg) RECURSE_DIRECTORIES
          then
            match w_stat w f with
            | inl e' =>
                modify (set_errno e') ;; error f e' ;; ret (Returned 1 st)
            | inr st' =>
                status <- grepdir f st' anc ;; ret (Returned status st')
            end
          else if negb (nz (suppress_errors cfg))
                  && directories_eqb (directories cfg) SKIP_DIRECTORIES
                  && (e =? EISDIR)
          then ret (Returned 1 st)
          else if negb (nz (suppress_errors cfg))
                  && directories_eqb (directories cfg) SKIP_DIRECTORIES
                  && (e =? EACCES)
          then
            match w_stat w f with
            | inr st' =>
                if S_ISDIR (st_mode st') then ret (Returned 1 st')
                else suppressible_error f e ;; ret (Returned 1 st')
            | inl e' =>
                (* the failed stat overwrote errno, not the saved e *)
                modify (set_errno e') ;;
                suppressible_error f e ;; ret (Returned 1 st)
            end
          else suppressible_error f e ;; ret (Returned 1 st)
      end
  end.

(** The part of grepfile after a [count] that is not negative. *)
Definition grepfile_report (file : option string) (st : stat) (count : Z)
  : M Z :=
  s <- get ;;
  when (nz (count_matches cfg))
       (when (nz (out_file s))
             (fputs_stdout
                (Printf (list_ascii_of_string (filename s)
                         ++ [masked ":"%char]))) ;;
        fputs_stdout (Printf (printf_d_nl count))) ;;
  let status := lnot count in
  when (list_files cfg =? 1 - 2 * status)
       (fputs_stdout
          (Printf (list_ascii_of_string (filename s) ++ [masked newline]))) ;;
  match file with
  | None =>
      let required_offset :=
        if nz (outleft s) then bufoffset s else after_last_match s in
      (if negb (required_offset =? bufoffset s) then
         match w_lseek_set w required_offset with
         | Some e =>
             modify (set_errno e) ;;
             when (S_ISREG (st_mode st)) (error (filename s) e)
         | None => ret tt
         end
       else ret tt) ;;
      modify (fun s => set_stdin_rd (rd s) s)
  | Some f =>
      match w_close w f with
      | Some e => modify (set_errno e) ;; error f e
      | None => ret tt
      end
  end ;;
  ret status.

(** [grepfile (file, stats)], over a directory walker. *)
Definition grepfile_with (grepdir : grepdir_t) (fuel : nat) : grepfile_t :=
  fun file st anc =>
    o <- grepfile_open grepdir file st anc ;;
    match o with
    | Returned status st' => ret (status, st')
    | Opened =>
        r <- grep grepdir fuel file st anc ;;
        let '(count, st') := r in
        if count <? 0 then ret (count + 2, st')
        else
          status <- grepfile_report file st' count ;;
          ret (status, st')
    end.

(** The [for] loop of grepdir over the ancestors: is one of them the
    directory [st] itself? *)
Fixpoint ancestor_loop (st : stat) (ancestors : list stat) : bool :=
  match ancestors with
  | [] => false
  | ancestor :: up =>
      if (st_ino ancestor =? st_ino st) && (st_dev ancestor =? st_dev st)
      then true
      else ancestor_loop st up
  end.

(** The [while] loop of grepdir over the packed names, which end at the
    first empty one: [status &= grepfile (file, &child)]. *)
Fixpoint grepdir_loop (grepfile : grepfile_t) (dir : string)
  (needs_slash : bool) (parents : list stat) (names : list string)
  (child : stat) (status : Z) : M Z :=
  match names with
  | [] => ret status
  | EmptyString :: _ => ret status
  | name :: rest =>
      let file := (dir ++ (if needs_slash then "/" else "") ++ name)%string in
      r <- grepfile (Some file) child parents ;;
      grepdir_loop grepfile dir needs_slash parents rest (snd r)
        (Z.land status (fst r))
  end.

(** [grepdir (dir, stats)], over a file driver.  The stat buffer of
    [child], which C leaves uninitialised, starts as zeroes. *)
Definition grepdir_with (grepfile : grepfile_t) : grepdir_t :=
  fun dir st anc =>
    if ancestor_loop st anc then
      when (negb (nz (suppress_errors cfg))) (fputs_stderr (LoopWarning dir)) ;;
      ret 1
    else
      match w_savedir w dir with
      | inl e =>
          modify (set_errno e) ;;
          if nz e then suppressible_error dir e ;; ret 1
          else fatal "Memory exhausted" 0
      | inr names =>
          let dirlen := String.length dir in
          let needs_slash :=
            negb (Nat.eqb dirlen (FILESYSTEM_PREFIX_LEN dir)
                  || IS_SLASH (last_char dir)) in
          modify (fun s => set_out_file (out_file s + lnot (no_filenames cfg)) s) ;;
          status <- grepdir_loop grepfile dir needs_slash (st :: anc) names
                      stats_base 1 ;;
          modify (fun s => set_out_file (out_file s - lnot (no_filenames cfg)) s) ;;
          ret status
      end.

(** grepfile and grepdir call each other; [depth] bounds the nesting of
    directories, [fuel] each scanning loop. *)
Fixpoint grepfile (depth fuel : nat) : grepfile_t :=
  match depth with
  | O => grepfile_with (fun _ _ _ => out_of_fuel DepthFuel) fuel
  | S depth' => grepfile_with (grepdir_with (grepfile depth' fuel)) fuel
  end.

Definition grepdir (depth fuel : nat) : grepdir_t :=
  match depth with
  | O => fun _ _ _ => out_of_fuel DepthFuel
  | S depth' => grepdir_with (grepfile depth' fuel)
  end.

(** [do { ...; status &= grepfile (...); } while (++optind < argc);] *)
Fixpoint main_loop (depth fuel : nat) (files : list string) (st : stat)
  (status : Z) : M Z :=
  match files with
  | [] => ret status
  | file :: rest =>
      r <- grepfile depth fuel
             (if String.eqb file "-" then None else Some file) st [] ;;
      main_loop depth fuel rest (snd r) (Z.land status (fst r))
  end.

(** The end of main, from [if (max_count == 0)] on, over the file
    operands [argv[optind..argc)].  The status that main hands to its
    final [exit] is the value returned; an [Exit] outcome is an [exit]
    that was called before that point. *)
Definition main_scan (depth fuel : nat) (files : list string) : M Z :=
  if max_count cfg =? 0 then exit 1
  else
    status <- match files with
              | [] =>
                  r <- grepfile depth fuel None stats_base [] ;; ret (fst r)
              | _ => main_loop depth fuel files stats_base 1
              end ;;
    match w_fclose_stdout w with
    | Some e => modify (set_errno e) ;; error "writing output" e
    | None => ret tt
    end ;;
    s <- get ;;
    ret (if nz (errseen s) then 2 else status).

End Grep.

(** The status with which the process ends. *)
Definition exit_status (o : outcome Z) : option Z :=
  match o with
  | Ret status _ => Some status
  | Stop (Exit status _) => Some status
  | Stop _ => None
  end.

(** ** Concrete configurations, worlds and matchers *)

(** A matcher in the manner of the matchers of grep: it reports the first
    whole line, terminator included, that holds the byte [c]. *)
Fixpoint line_matcher_from (c eol : ascii) (data : list ascii)
  (start len : nat) (hit : bool) : option (nat * nat) :=
  match data with
  | [] => if hit then Some (start, len) else None
  | x :: rest =>
      if Ascii.eqb x eol then
        if hit then Some (start, S len)
        else line_matcher_from c eol rest (start + S len) 0 false
      else line_matcher_from c eol rest start (S len) (hit || Ascii.eqb x c)
  end.

Definition line_matcher (c eol : ascii) : matcher :=
  fun data => line_matcher_from c eol data 0 0 false.

(** A matcher that reports the first byte [c] alone, wherever in its
    line it stands. *)
Fixpoint byte_matcher_from (c : ascii) (data : list ascii) (off : nat)
  : option (nat * nat) :=
  match data with
  | [] => None
  | x :: rest =>
      if Ascii.eqb x c then Some (off, 1%nat)
      else byte_matcher_from c rest (S off)
  end.

Definition byte_matcher (c : ascii) : matcher :=
  fun data => byte_matcher_from c data 0.

(** A matcher that finds an empty match at the first byte of any region. *)
Definition empty_at_start : matcher := fun _ => Some (O, O).

(** A matcher that finds only the empty match at the end of a region. *)
Definition empty_at_end : matcher := fun data => Some (List.length data, O).

(** The flags as main leaves them for the given options, the others at
    the values main gives them before it parses the options
    ([filename_mask = ~0], [max_count] the greatest [off_t], ...). *)
Definition make_config (m : matcher) (dirs : directories_t)
  (suppress invert line before after : Z) (eol : ascii) (exit_on : Z)
  : config :=
  {| execute := m; suppress_errors := suppress; directories := dirs;
     binary_files := BINARY_BINARY_FILES; filename_mask := -1;
     out_invert := invert; out_line := line; out_byte := 0;
     out_before := before; out_after := after; count_matches := 0;
     list_files := 0; no_filenames := 0; max_count := 2 ^ 63 - 1;
     eolbyte := eol; exit_on_match := exit_on |}.

Definition default_config (m : matcher) : config :=
  make_config m READ_DIRECTORIES 0 0 0 0 0 newline 0.

(** The globals when main starts scanning: all zero. *)
Definition initial_state (stdin : read_script) : state :=
  {| errseen := 0; errno := 0; filename := ""; out_quiet := 0;
     done_on_match := 0; out_file := 0; pagesize := 0; bufsalloc := 0;
     bufalloc := 0; buffer := 0; bufdata := []; bufoffset := 0;
     after_last_match := 0; totalcc := 0; lastnl := O; lastout := None;
     totalnl := 0; outleft := 0; pending := 0; used := 0; sout := [];
     serr := []; rd := []; stdin_rd := stdin |}.

Definition ENOENT : Z := 2.
Definition EIO : Z := 5.
Definition ENOSPC : Z := 28.
Definition ESPIPE : Z := 29.

(** A world with 4096-byte pages and enough memory, whose descriptors
    are not seekable; the rest is given. *)
Definition make_world (open : string -> Z + unit)
  (fstat : option string -> Z + stat) (read : string -> read_script)
  (savedir : string -> Z + list string) (fclose : option Z) : world :=
  {| w_pagesize := 4096;
     w_alloc := fun _ => Some 65536;
     w_open := open;
     w_fstat := fstat;
     w_stat := fun f => fstat (Some f);
     w_lseek_cur := inl ESPIPE;
     w_lseek_set := fun _ => Some ESPIPE;
     w_read := read;
     w_close := fun _ => None;
     w_savedir := savedir;
     w_ferror_stdout := false;
     w_fclose_stdout := fclose |}.

(** No file but standard input, a pipe. *)
Definition pipe_world : world :=
  make_world (fun _ => inl ENOENT)
    (fun _ => inr (mkstat S_IFOTHER 0 0 0))
    (fun _ => []) (fun _ => inl ENOENT) None.

(** The same, on a full disk: closing standard output fails. *)
Definition full_disk_world : world :=
  make_world (fun _ => inl ENOENT)
    (fun _ => inr (mkstat S_IFOTHER 0 0 0))
    (fun _ => []) (fun _ => inl ENOENT) (Some ENOSPC).

(** Files open, but [fstat] fails on every descriptor. *)
Definition fstat_fails_world : world :=
  make_world (fun _ => inr tt) (fun _ => inl EIO)
    (fun _ => []) (fun _ => inl ENOENT) None.

Definition bytes (s : string) : list ascii := list_ascii_of_string s.

Definition nl : string := String newline EmptyString.

(** The bytes on standard output and the status at the end of main. *)
Definition run (cfg : config) (w : world) (files : list string)
  (s : state) : option (string * Z) :=
  match main_scan cfg w 8 64 files s with
  | Ret status s' =>
      Some (string_of_list_ascii (stdout_bytes (sout s')), status)
  | Stop (Exit status s') =>
      Some (string_of_list_ascii (stdout_bytes (sout s')), status)
  | Stop _ => None
  end.

(** The globals after [-q]: on top of the zeroes, [done_on_match] and
    [out_quiet] are set ([exit_on_match] is in the configuration). *)
Definition quiet_state (stdin : read_script) : state :=
  set_done_on_match 1 (set_out_quiet 1 (initial_state stdin)).

(** A tree with a loop: every path that does not end in [f] is the one
    directory (device 1, inode 2), whose entries are [loop], a link back
    to it, and the regular file [f], which holds one line. *)
Definition loop_dir : stat := mkstat S_IFDIR 1 2 4096.
Definition loop_file : stat := mkstat S_IFREG 1 3 4.

Definition is_f (path : option string) : bool :=
  match path with
  | Some p => Ascii.eqb (last_char p) "f"%char
  | None => false
  end.

Definition loop_world : world :=
  make_world (fun _ => inr tt)
    (fun p => inr (if is_f p then loop_file else loop_dir))
    (fun p => if is_f (Some p) then [inr (bytes ("foo" ++ nl))]
              else [inl EISDIR])
    (fun _ => inr ["loop"%string; "f"%string]) None.

Definition a_line : read_script := [inr (bytes ("a" ++ nl))].

(** Configurations and states of the examples. *)

(** [grep -r o]: recursion into directories. *)
Definition recursive_config : config :=
  make_config (line_matcher "o" newline) RECURSE_DIRECTORIES
    0 0 0 0 0 newline 0.

(** [grep -q a] *)
Definition quiet_config : config :=
  make_config (line_matcher "a" newline) READ_DIRECTORIES
    0 0 0 0 0 newline 1.

(** [grep -s a] *)
Definition no_messages_config : config :=
  make_config (line_matcher "a" newline) READ_DIRECTORIES
    1 0 0 0 0 newline 0.

(** [grep -v] over a matcher that finds the empty string everywhere. *)
Definition stuck_config : config :=
  make_config empty_at_start READ_DIRECTORIES 0 1 0 0 0 newline 0.

(** [grep -n b] over a matcher that reports the matching bytes alone. *)
Definition midline_config : config :=
  make_config (byte_matcher "b") READ_DIRECTORIES 0 0 1 0 0 newline 0.

(** A scan under way: the buffer holds [data], nothing was printed yet,
    and [outleft] lines may still be output. *)
Definition scanning (data : string) (outleft : Z) : state :=
  set_outleft outleft (set_bufdata (bytes data) (initial_state [])).

(** The inodes of [loop_world]. *)
Definition loop_ids : list (Z * Z) := [(1, 2); (1, 3)].

(** [grep -A 1 3] *)
Definition context_config : config :=
  make_config (line_matcher "3" newline) READ_DIRECTORIES
    0 0 0 0 1 newline 0.

(** [grep -z -A 1 3]: lines end in NUL. *)
Definition null_data_config : config :=
  make_config (line_matcher "3" NUL) READ_DIRECTORIES 0 0 0 0 1 NUL 0.

Definition six_lines : string :=
  ("1" ++ nl ++ "2" ++ nl ++ "3" ++ nl ++ "4" ++ nl ++ "5" ++ nl
   ++ "3" ++ nl)%string.

(** The lines [3] and [4] were printed, up to offset 8; the next match
    is the line at offset 10. *)
Definition after_first_group : state :=
  set_used 1 (set_lastout (Some 8%nat) (scanning six_lines 5)).

Definition nul : string := String NUL EmptyString.

Definition three_records : string :=
  ("1" ++ nul ++ "2" ++ nul ++ "3" ++ nul)%string.

(** The record [1] was printed, up to offset 2; the next match is the
    record at offset 4. *)
Definition after_first_record : state :=
  set_used 1 (set_lastout (Some 2%nat) (scanning three_records 5)).

(** The same under [-c]: [out_quiet] is set. *)
Definition counting_records : state :=
  set_out_quiet 1 after_first_record.

(** A regular file of 8194 bytes without a line terminator has been read
    whole into the initial buffer of 5 * 8192 bytes. *)
Definition long_line_file : stat := mkstat S_IFREG 1 3 8194.

Definition long_line_read : state :=
  set_bufoffset 8194
    (set_bufalloc 40960
       (set_bufsalloc 8192 (set_pagesize 4096 (initial_state [])))).

(** [grep -n b], over a matcher that reports whole lines. *)
Definition numbering_config : config :=
  make_config (line_matcher "b" newline) READ_DIRECTORIES
    0 0 1 0 0 newline 0.

(** Standard input holding the two lines [ab] and [c]. *)
Definition two_lines : read_script := [inr (bytes ("ab" ++ nl ++ "c" ++ nl))].

(** ** Specification vocabulary *)

(** Hoare-style judgement on an outcome: [Q] holds of the value returned
    and the final state, [ok] of any other way to end. *)
Definition post {A} (ok : stop -> Prop) (Q : A -> state -> Prop)
  (o : outcome A) : Prop :=
  match o with
  | Ret a s => Q a s
  | Stop r => ok r
  end.

(** The ways to end that are admitted: an [exit] is [exit (2)] of fatal,
    or [exit (0)] under [exit_on_match]; [d], [sc] and [u] tell whether
    running out of depth fuel, running out of scan fuel, and the use of a
    NULL pointer are admitted. *)
Definition ok_tame (cfg : config) (d sc u : bool) (r : stop) : Prop :=
  match r with
  | Exit c _ => c = 2 \/ (c = 0 /\ exit_on_match cfg <> 0)
  | Abort _ => True
  | Undef _ => u = true
  | OutOfFuel DepthFuel => d = true
  | OutOfFuel ScanFuel => sc = true
  end.

(** Anything but the use of a NULL pointer. *)
Definition ok_safe (r : stop) : Prop :=
  match r with
  | Undef _ => False
  | _ => True
  end.

(** A stdio call that prtext makes through prline: everything but [puts]. *)
Definition line_write (c : stdout_call) : Prop :=
  match c with
  | Puts _ => False
  | _ => True
  end.

(** What printing lines leaves alone: [s'] has the buffer, [used] and
    [out_quiet] of [s], and standard output grew by line writes only. *)
Definition frame (s s' : state) : Prop :=
  bufdata s' = bufdata s /\ used s' = used s /\ out_quiet s' = out_quiet s
  /\ exists l, sout s' = sout s ++ l /\ Forall line_write l.

(** The test that prtext makes before it prints [--], on the state [s1]
    that the pending trailing context left: context is asked for, prtext
    has run before, and the group, leading context included, does not
    start where the last output ended. *)
Definition separator_due (cfg : config) (beg : nat) (s1 : state) : bool :=
  let p := leading_context_start cfg (Z.to_nat (out_before cfg)) (bufdata s1)
             (ptr_or_bufbeg (lastout s1)) beg in
  (nz (out_before cfg) || nz (out_after cfg))
  && nz (used s1)
  && negb (ptr_eqb (Some p) (lastout s1)).

(** What prtext does to standard output: nothing in quiet mode; otherwise
    the pending trailing context [pre], then [--] exactly when
    [separator_due], then the lines [grp] of the group. *)
Definition prtext_output (cfg : config) (w : world) (beg : nat)
  (s s' : state) : Prop :=
  (out_quiet s <> 0 -> sout s' = sout s)
  /\ (out_quiet s = 0 ->
      exists s1 pre grp,
        when (0 <? pending s) (prpending cfg w beg) s = Ret tt s1
        /\ sout s1 = sout s ++ pre
        /\ Forall line_write pre
        /\ Forall line_write grp
        /\ sout s' = sout s1
                     ++ (if separator_due cfg beg s1 then [separator] else [])
                     ++ grp).

(** A matcher whose every match lies in the region it was given and ends
    at least one byte into it: the scan position moves on after it. *)
Definition advancing (m : matcher) : Prop :=
  forall data off sz,
    m data = Some (off, sz) ->
    (1 <= off + sz /\ off + sz <= List.length data)%nat.

(** The value of a [loop_exit]. *)
Definition exit_nlines (r : loop_exit) : Z :=
  match r with
  | LoopDone _ n => n
  | LoopReturn n => n
  end.

(** The identity of a file: device and inode. *)
Definition stat_id (st : stat) : Z * Z := (st_dev st, st_ino st).

(** [ids] lists every (device, inode) pair that [fstat] or [stat] can
    answer in the world [w]: the file system is finite. *)
Definition finite_inodes (w : world) (ids : list (Z * Z)) : Prop :=
  forall f st,
    w_fstat w (Some f) = inr st \/ w_stat w f = inr st ->
    In (stat_id st) ids.

(** A status that grepfile and grepdir return. *)
Definition is_status (status : Z) : Prop := status = 0 \/ status = 1.

(** A value that grep returns: a count of lines, or the status of a
    directory less 2. *)
Definition is_count (count : Z) : Prop :=
  0 <= count \/ is_status (count + 2).

(** The value of a [scan_exit]. *)
Definition scan_nlines (r : scan_exit) : Z :=
  match r with
  | ScanBreak n _ _ => n
  | ScanFinish n => n
  end.


(** The operand as grepfile gets it: [-] is standard input. *)
Definition operand_file (operand : string) : option string :=
  if String.eqb operand "-" then None else Some operand.

(** [x] rounded up to a multiple of [ps], without wrap-around. *)
Definition round_up (x ps : Z) : Z :=
  if x mod ps =? 0 then x else x + (ps - x mod ps).

(** [q] is the offset of a line boundary of [buf]: its beginning, or one
    byte past an end-of-line byte. *)
Definition bol (eol : ascii) (buf : list ascii) (q : nat) : Prop :=
  (q <= List.length buf)%nat
  /\ (q = O \/ byte_at buf (q - 1) = eol).

(** [data] consists of complete lines: it is empty or ends in [eol]. *)
Definition complete (eol : ascii) (data : list ascii) : Prop :=
  bol eol data (List.length data).

(** A matcher that reports whole lines, as the matchers of grep do: in a
    region of complete lines, a match begins and ends at line
    boundaries. *)
Definition on_lines (eol : ascii) (m : matcher) : Prop :=
  forall data off sz,
    complete eol data ->
    m data = Some (off, sz) ->
    bol eol data off /\ bol eol data (off + sz).

(** The pointers of the output cursor in the buffer [buf]: [lastnl] is
    not beyond [lastout] (or [bufbeg]), which is a line boundary. *)
Definition scan_inv (cfg : config) (buf : list ascii) (s : state) : Prop :=
  bufdata s = buf
  /\ (lastnl s <= ptr_or_bufbeg (lastout s))%nat
  /\ bol (eolbyte cfg) buf (ptr_or_bufbeg (lastout s)).

(** ** Reading the options *)

Section Options.

(** The macro [ISSPACE] of system.h, which is not among the sources: the
    [isspace] of the C library on an [unsigned char]. *)
Variable ISSPACE : ascii -> bool.

(** [while (ISSPACE ((unsigned char) *o)) o++;] on the bytes of a C
    string before its NUL. *)
Fixpoint skip_space (o : list ascii) : list ascii :=
  match o with
  | [] => []
  | c :: o' => if ISSPACE c then skip_space o' else o
  end.

(** The [do ... while] loop of prepend_args, which runs up to the NUL
    or the next space and copies one option, a backslash giving way to the byte after it unless
    that is the NUL; it is entered where [*o] is the byte [c], not NUL,
    and [o1] follows it.  The result: the bytes stored through [b], and
    what is left of [o]. *)
Fixpoint copy_option (c : ascii) (o1 : list ascii) {struct o1}
  : list ascii * list ascii :=
  if Ascii.eqb c "\"%char then
    match o1 with
    | [] => ([c], [])
    | d :: o2 =>
        match o2 with
        | [] => ([d], [])
        | x :: o3 =>
            if ISSPACE x then ([d], o2)
            else let '(t, rest) := copy_option x o3 in (d :: t, rest)
        end
    end
  else
    match o1 with
    | [] => ([c], [])
    | x :: o2 =>
        if ISSPACE x then ([c], o1)
        else let '(t, rest) := copy_option x o2 in (c :: t, rest)
    end.

(** [prepend_args (options, buf, argv)]: the strings that [argv[0]],
    [argv[1]], ... point to, each without the NUL that ends it; the
    value returned is their number.  [None] when the rounds of the
    [for (;;)] outnumber [fuel]. *)
Fixpoint prepend_args (fuel : nat) (options : list ascii)
  : option (list (list ascii)) :=
  match skip_space options with
  | [] => Some []
  | c :: o1 =>
      match fuel with
      | O => None
      | S fuel' =>
          let '(arg, rest) := copy_option c o1 in
          match prepend_args fuel' rest with
          | Some args => Some (arg :: args)
          | None => None
          end
      end
  end.

(** What prepend_args has stored in [buf]: every option and its NUL. *)
Definition buf_bytes (args : list (list ascii)) : list ascii :=
  List.concat (map (fun arg => arg ++ [NUL]) args).

(** [prepend_default_options (options, &argc, &argv)]: the new [argc] and
    the strings of the new [argv], before its NULL; [options] is [None]
    for NULL, [argv] has its [argv[0]] apart. *)
Definition prepend_default_options (options : option (list ascii))
  (argv0 : list ascii) (argv : list (list ascii))
  : option (Z * list (list ascii)) :=
  match options with
  | None => Some (1 + Z.of_nat (List.length argv), argv0 :: argv)
  | Some o =>
      match prepend_args (List.length o) o with
      | Some counted =>
          let prepended := Z.of_nat (List.length counted) in
          let argc := 1 + Z.of_nat (List.length argv) in
          match prepend_args (List.length o) o with
          | Some args => Some (prepended + argc, argv0 :: args ++ argv)
          | None => None
          end
      | None => None
      end
  end.

End Options.

(** The loop of get_nondigit_option over the answers [opts] of the
    successive calls of [getopt_long]: [buf] holds the bytes of the array
    below [p]; the result is [buf] at the end of the loop, the last
    [opt], and the answers not yet asked for. *)
Fixpoint digit_options (opts : list Z) (buf : list ascii)
  : list ascii * Z * list Z :=
  match opts with
  | [] => (buf, -1, [])
  | opt :: rest =>
      if (48 <=? opt) && (opt <=? 57) then
        (* p -= buf[0] == '0'; *)
        let buf1 := if Ascii.eqb (hd NUL buf) "0"%char
                    then removelast buf else buf in
        (* then opt is stored and p moves on *)
        let buf2 := buf1 ++ [ascii_of_Z opt] in
        (* if (p == buf + sizeof buf - 4) *)
        if Nat.eqb (List.length buf2) 64
        then (buf2 ++ ["."%char; "."%char; "."%char], opt, rest)
        else digit_options rest buf2
      else (buf, opt, rest)
  end.

(** [get_nondigit_option (argc, argv, &default_context)]: the string
    handed to context_length_arg, if any, the option returned, and the
    answers of [getopt_long] not yet asked for. *)
Definition get_nondigit_option (opts : list Z)
  : option (list ascii) * Z * list Z :=
  let '(buf, opt, rest) := digit_options opts [] in
  (match buf with [] => None | _ => Some buf end, opt, rest).

(** ** More vocabulary *)

(** Any way to end is admitted: the judgement speaks of the runs that
    return. *)
Definition any_stop (r : stop) : Prop := True.

(** A decimal digit. *)
Definition is_digit (c : ascii) : Prop := 48 <= Z_of_ascii c <= 57.

(** The number that decimal digits denote, most significant first, after
    the number [acc] of the digits before them. *)
Fixpoint decimal_value (acc : Z) (ds : list ascii) : Z :=
  match ds with
  | [] => acc
  | d :: ds' => decimal_value (10 * acc + (Z_of_ascii d - 48)) ds'
  end.

(** The number of end-of-line bytes in [[beg, lim)]. *)
Definition eol_count (eol : ascii) (buf : list ascii) (beg lim : nat) : Z :=
  Z.of_nat (count_occ ascii_dec (slice buf beg lim) eol).

(** What scanning a buffer does not touch: the flags, the buffer and its
    bookkeeping, the count of bytes, and the input. *)
Definition scan_core (s : state) :=
  (errseen s, errno s, filename s, out_quiet s, done_on_match s,
   out_file s, (pagesize s, bufsalloc s, bufalloc s, buffer s),
   bufdata s, bufoffset s, totalcc s, rd s, stdin_rd s).

(** What prline writes before the line: the file name, the line number
    and the byte offset, each with the separator, as the flags ask. *)
Definition prline_prefix (cfg : config) (beg : nat) (sep : ascii)
  (s : state) : list stdout_call :=
  (if nz (out_file s)
   then [Printf (list_ascii_of_string (filename s) ++ [masked cfg sep])]
   else [])
  ++ (if nz (out_line cfg)
      then [Fwrite (offset_digits 62
                      (totalnl s
                       + eol_count (eolbyte cfg) (bufdata s) (lastnl s) beg
                       + 1) [sep])]
      else [])
  ++ (if nz (out_byte cfg)
      then [Fwrite (offset_digits 62 (totalcc s + Z.of_nat beg) [sep])]
      else []).

(** No way to end but to return. *)
Definition never (r : stop) : Prop := False.

(** Neither [exit] nor [abort]. *)
Definition no_exit (r : stop) : Prop :=
  match r with
  | Exit _ _ => False
  | Abort _ => False
  | _ => True
  end.

(** No [abort], and no [exit] but the [exit (0)] of [-q]. *)
Definition quiet_exit (cfg : config) (r : stop) : Prop :=
  match r with
  | Exit c _ => c = 0 /\ exit_on_match cfg <> 0
  | Abort _ => False
  | _ => True
  end.

(** The [exit (0)] of [-q] and nothing else. *)
Definition only_quiet_exit (cfg : config) (r : stop) : Prop :=
  match r with
  | Exit c _ => c = 0 /\ exit_on_match cfg <> 0
  | _ => False
  end.

(** The [exit (2)] of fatal and nothing else. *)
Definition only_fatal (r : stop) : Prop :=
  match r with
  | Exit c _ => c = 2
  | _ => False
  end.

(** What printing a line does not touch. *)
Definition prints (s s' : state) : Prop :=
  scan_core s' = scan_core s /\ outleft s' = outleft s
  /\ used s' = used s /\ after_last_match s' = after_last_match s.

(** Examples: two lines of trailing context are pending after the line
    [1] of [six_lines] was printed. *)
Definition context_pending : state :=
  set_pending 2 (set_lastout (Some 2%nat) (scanning six_lines 5)).

(** [grep -v 3] *)
Definition invert_config : config :=
  make_config (line_matcher "3" newline) READ_DIRECTORIES
    0 1 0 0 0 newline 0.

(** A descriptor that will deliver [data] and then the end of file. *)
Definition reading (data : string) : state :=
  set_rd [inr (bytes data)] (initial_state []).

(** The byte that escapes a space in [GREP_OPTIONS]. *)
Definition backslash : ascii := "\"%char.

(** An option written so that prepend_args reads it back: a backslash
    goes before every space and every backslash. *)
Definition escape_option (ISSPACE : ascii -> bool) (arg : list ascii)
  : list ascii :=
  flat_map (fun c => if ISSPACE c || Ascii.eqb c backslash
                     then [backslash; c] else [c]) arg.

(** Options in one string, a blank between two of them. *)
Fixpoint join_options (args : list (list ascii)) : list ascii :=
  match args with
  | [] => []
  | [arg] => arg
  | arg :: rest => arg ++ " "%char :: join_options rest
  end.

(** [isspace] in the C locale. *)
Definition c_isspace (c : ascii) : bool :=
  let n := Z_of_ascii c in (n =? 32) || ((9 <=? n) && (n <=? 13)).

(** The sizes of the buffer as reset and fillbuf keep them: the save
    region and the whole are multiples of the page size, and the save
    region lies inside the whole. *)
Definition buffer_ok (s : state) : Prop :=
  0 < pagesize s <= SIZE_MAX
  /\ (pagesize s | bufsalloc s)
  /\ (pagesize s | bufalloc s)
  /\ 0 <= bufsalloc s <= bufalloc s
  /\ bufalloc s <= SIZE_MAX.

(** The digits kept so far: none, the one digit 0, or digits that start
    with another digit than 0. *)
Definition kept_digits (buf : list ascii) : Prop :=
  Forall is_digit buf
  /\ ((buf = [] \/ buf = ["0"%char])
      \/ (hd NUL buf <> "0"%char
          /\ 10 ^ (Z.of_nat (List.length buf) - 1) <= decimal_value 0 buf)).

(** Examples: the options [-i], [a b] and [c\d]. *)
Definition three_options : list (list ascii) :=
  [bytes "-i"; bytes "a b"; bytes "c\d"].

(** The flags that grep and grepdir change while they work on a file:
    [out_file], [out_quiet] and [done_on_match]. *)
Definition scan_flags (s : state) : Z * Z * Z :=
  (out_file s, out_quiet s, done_on_match s).

(** An [exit] or [abort] with standard output as [out]. *)
Definition silent (out : list stdout_call) (r : stop) : Prop :=
  match r with
  | Exit _ s' => sout s' = out
  | Abort s' => sout s' = out
  | _ => True
  end.

(** Standard output holds [out], and [out_quiet] is [q]. *)
Definition hushed (out : list stdout_call) (q : Z) (s : state) : Prop :=
  sout s = out /\ out_quiet s = q.

(** ** Lines, and the lines that grep selects *)

(** The lines of [data], each with its terminator; the last one lacks it
    when [data] does not end in [eol]. *)
Fixpoint lines (eol : ascii) (data : list ascii) : list (list ascii) :=
  match data with
  | [] => []
  | x :: rest =>
      if Ascii.eqb x eol then [x] :: lines eol rest
      else
        match lines eol rest with
        | [] => [[x]]
        | l :: ls => (x :: l) :: ls
        end
  end.

(** A line with its terminator: bytes other than [eol], then [eol]. *)
Definition is_line (eol : ascii) (l : list ascii) : Prop :=
  exists c, l = c ++ [eol] /\ ~ In eol c.

(** The first of the lines [ls] that [sel] accepts: its offset, counted
    from the offset [off] of the first line, and its length. *)
Fixpoint first_line (sel : list ascii -> bool) (ls : list (list ascii))
  (off : nat) : option (nat * nat) :=
  match ls with
  | [] => None
  | l :: rest =>
      if sel l then Some (off, List.length l)
      else first_line sel rest (off + List.length l)
  end.

(** A matcher that works line by line, as the matchers of grep do, [sel]
    telling which lines match: in a region of complete lines it reports
    the first line that matches, terminator included. *)
Definition linewise (eol : ascii) (sel : list ascii -> bool) (m : matcher)
  : Prop :=
  forall data,
    complete eol data -> m data = first_line sel (lines eol data) 0.

(** A line that grep selects: one that matches, or under [-v] one that
    does not. *)
Definition selected (cfg : config) (sel : list ascii -> bool)
  (l : list ascii) : bool :=
  if nz (out_invert cfg) then negb (sel l) else sel l.

(** Does [data] hold a line that grep selects? *)
Definition any_selected (cfg : config) (sel : list ascii -> bool)
  (data : list ascii) : bool :=
  existsb (selected cfg sel) (lines (eolbyte cfg) data).

(** The input as grep scans it: a last line that lacks its terminator
    is given one. *)
Definition terminated (eol : ascii) (data : list ascii) : list ascii :=
  if Ascii.eqb (last data eol) eol then data else data ++ [eol].







(** Trouble seen is not forgotten: [errseen] is as it was, or it has
    been set. *)
Definition errseen_kept (s s' : state) : Prop :=
  errseen s' = errseen s \/ errseen s' = 1.





(** * Proofs *)

(** ** The judgement [post] *)

Lemma post_bind {A B} (ok : stop -> Prop) (c : M A) (k : A -> M B)
  (Q : A -> state -> Prop) (R : B -> state -> Prop) (s : state) :
  post ok Q (c s) ->
  (forall a s', Q a s' -> post ok R (k a s')) ->
  post ok R (bind c k s).
Proof.
  unfold bind. destruct (c s) as [a s'|r]; simpl; auto.
Qed.

Lemma post_weaken {A} (ok ok' : stop -> Prop) (Q Q' : A -> state -> Prop)
  (o : outcome A) :
  post ok Q o ->
  (forall a s, Q a s -> Q' a s) ->
  (forall r, ok r -> ok' r) ->
  post ok' Q' o.
Proof.
  destruct o; simpl; auto.
Qed.

Lemma post_when (ok : stop -> Prop) (b : bool) (c : M unit)
  (Q : unit -> state -> Prop) (s : state) :
  (b = true -> post ok Q (c s)) ->
  (b = false -> Q tt s) ->
  post ok Q (when b c s).
Proof.
  destruct b; simpl; auto.
Qed.

Lemma ok_tame_mono (cfg : config) (d sc u d' sc' u' : bool) (r : stop) :
  ok_tame cfg d sc u r ->
  (d = true -> d' = true) -> (sc = true -> sc' = true) ->
  (u = true -> u' = true) ->
  ok_tame cfg d' sc' u' r.
Proof.
  destruct r as [c s|s|site|[|]]; simpl; auto.
Qed.

Lemma frame_refl (s : state) : frame s s.
Proof.
  repeat split. exists []. rewrite app_nil_r. auto.
Qed.

Lemma frame_trans (s1 s2 s3 : state) :
  frame s1 s2 -> frame s2 s3 -> frame s1 s3.
Proof.
  intros (B1 & U1 & Q1 & l1 & O1 & F1) (B2 & U2 & Q2 & l2 & O2 & F2).
  repeat split; try congruence.
  exists (l1 ++ l2). split.
  - rewrite O2, O1, app_assoc. reflexivity.
  - apply Forall_app; auto.
Qed.

Lemma frame_write (s : state) (c : stdout_call) :
  line_write c -> frame s (set_sout (sout s ++ [c]) s).
Proof.
  intros H. repeat split. exists [c]. auto.
Qed.

(** The monad's primitives in front of a [bind], as equations: rewriting
    with them keeps the proof terms small. *)
Lemma bind_ret {A B} (a : A) (k : A -> M B) (s : state) :
  bind (ret a) k s = k a s.
Proof. reflexivity. Qed.

Lemma bind_get {B} (k : state -> M B) (s : state) :
  bind get k s = k s s.
Proof. reflexivity. Qed.

Lemma bind_modify {B} (f : state -> state) (k : unit -> M B) (s : state) :
  bind (modify f) k s = k tt (f s).
Proof. reflexivity. Qed.

Lemma bind_fputs_stdout {B} (c : stdout_call) (k : unit -> M B)
  (s : state) :
  bind (fputs_stdout c) k s = k tt (set_sout (sout s ++ [c]) s).
Proof. reflexivity. Qed.

Lemma bind_fputs_stderr {B} (c : stderr_call) (k : unit -> M B)
  (s : state) :
  bind (fputs_stderr c) k s = k tt (set_serr (serr s ++ [c]) s).
Proof. reflexivity. Qed.

Lemma bind_error {B} (mesg : string) (e : Z) (k : unit -> M B) (s : state) :
  bind (error mesg e) k s = k tt (set_serr (serr s ++ [ErrorMsg mesg e]) s).
Proof. reflexivity. Qed.

Lemma bind_exit {A B} (status : Z) (k : A -> M B) (s : state) :
  bind (exit status) k s = Stop (Exit status s).
Proof. reflexivity. Qed.

Lemma bind_bind {A B C} (c : M A) (k : A -> M B) (k' : B -> M C)
  (s : state) :
  bind (bind c k) k' s = bind c (fun a => bind (k a) k') s.
Proof. unfold bind. destruct (c s); reflexivity. Qed.

Lemma bind_of_ret {A B} (c : M A) (k : A -> M B) (s s' : state) (a : A) :
  c s = Ret a s' -> bind c k s = k a s'.
Proof. unfold bind. intros ->. reflexivity. Qed.

Lemma bind_of_stop {A B} (c : M A) (k : A -> M B) (s : state) (r : stop) :
  c s = Stop r -> bind c k s = Stop r.
Proof. unfold bind. intros ->. reflexivity. Qed.

Lemma bind_when_true {B} (c : M unit) (k : unit -> M B) (s : state) :
  bind (when true c) k s = bind c k s.
Proof. reflexivity. Qed.

Lemma bind_when_false {B} (c : M unit) (k : unit -> M B) (s : state) :
  bind (when false c) k s = k tt s.
Proof. reflexivity. Qed.

Ltac mred :=
  repeat (first [ rewrite bind_ret | rewrite bind_get | rewrite bind_modify
                | rewrite bind_fputs_stdout | rewrite bind_fputs_stderr
                | rewrite bind_error | rewrite bind_exit
                | rewrite bind_when_true | rewrite bind_when_false
                | progress cbn [negb andb orb] ]; cbv beta iota);
  cbn [ret get modify when exit abort undef out_of_fuel
       fputs_stdout fputs_stderr error post fst snd].

Ltac mred_in H :=
  repeat (first [ rewrite bind_ret in H | rewrite bind_get in H
                | rewrite bind_modify in H | rewrite bind_fputs_stdout in H
                | rewrite bind_fputs_stderr in H | rewrite bind_error in H
                | rewrite bind_exit in H
                | rewrite bind_when_true in H | rewrite bind_when_false in H
                | progress cbn [negb andb orb] in H ]; cbv beta iota in H);
  cbn [ret get modify when exit abort undef out_of_fuel
       fputs_stdout fputs_stderr error post fst snd] in H.

(** Case analysis on the condition of an [if] or a [when]. *)
Ltac split_cond :=
  match goal with
  | |- context [when ?b _] =>
      lazymatch b with
      | true => fail
      | false => fail
      | _ => destruct b
      end
  | |- context [if ?b then _ else _] =>
      lazymatch b with
      | true => fail
      | false => fail
      | _ => destruct b
      end
  end.

(** [frame] between a state and the same state after setters. *)
Ltac frame_solve :=
  repeat split; cbn;
  first [ exists []; rewrite app_nil_r; split; [reflexivity|constructor]
        | eexists [_]; split; [reflexivity|repeat constructor] ].

(** ** Bytes and pointers *)

Lemma memchr_some (buf : list ascii) (c : ascii) (n : nat) :
  forall p q,
    memchr buf p c n = Some q ->
    (p <= q < p + n)%nat /\ nth_error buf q = Some c.
Proof.
  induction n as [|n IH]; intros p q H; simpl in H; [discriminate|].
  destruct (nth_error buf p) as [x|] eqn:E; [|discriminate].
  destruct (Ascii.eqb x c) eqn:Ex.
  - injection H as <-. apply Ascii.eqb_eq in Ex. subst x. split; [lia|auto].
  - apply IH in H. destruct H as [H1 H2]. split; [lia|auto].
Qed.

Lemma memchr_finds (buf : list ascii) (c : ascii) (n : nat) :
  forall p q,
    (p <= q < p + n)%nat -> nth_error buf q = Some c ->
    (forall i, (p <= i < q)%nat -> nth_error buf i <> None) ->
    exists r, memchr buf p c n = Some r.
Proof.
  induction n as [|n IH]; intros p q Hq Hc Hin; [lia|].
  simpl. destruct (Nat.eq_dec p q) as [->|Hne].
  - rewrite Hc, Ascii.eqb_refl. eauto.
  - destruct (nth_error buf p) as [x|] eqn:E.
    + destruct (Ascii.eqb x c); eauto.
      apply (IH (S p) q); auto; try lia. intros i Hi. apply Hin. lia.
    + exfalso. apply (Hin p); auto. lia.
Qed.

(** ** What the printing functions leave alone *)

Section Frames.

Variable cfg : config.
Variable w : world.

Lemma nlscan_loop_frame (fuel : nat) :
  forall beg lim s,
    (lim - beg < fuel)%nat ->
    post (ok_tame cfg false false true)
      (fun _ s' => frame s s' /\ lastout s' = lastout s
                   /\ pending s' = pending s /\ outleft s' = outleft s)
      (nlscan_loop cfg fuel beg lim s).
Proof.
  induction fuel as [|fuel IH]; intros beg lim s Hf; [lia|].
  cbn [nlscan_loop]. destruct (Nat.eqb beg lim) eqn:E.
  - mred. split; [apply frame_refl|auto].
  - apply Nat.eqb_neq in E. mred. cbn [bufdata set_totalnl].
    destruct (memchr (bufdata s) beg (eolbyte cfg) (lim - beg)) as [q|] eqn:Hm;
      [|reflexivity].
    apply memchr_some in Hm. destruct Hm as [Hq _].
    eapply post_weaken; [apply IH; lia| |auto].
    cbn beta. intros _ s' (F & L & P & O). split; [|auto].
    eapply frame_trans; [|exact F]. repeat split. exists []. 
    rewrite app_nil_r. auto.
Qed.

Lemma nlscan_frame (lim : nat) (s : state) :
  post (ok_tame cfg false false true)
    (fun _ s' => frame s s' /\ lastout s' = lastout s
                 /\ pending s' = pending s /\ outleft s' = outleft s)
    (nlscan cfg lim s).
Proof.
  unfold nlscan. mred.
  eapply post_bind; [apply nlscan_loop_frame; lia|].
  cbn beta. intros _ s' (F & L & P & O). mred. split; [|auto].
  eapply frame_trans; [exact F|]. repeat split. exists [].
  rewrite app_nil_r. auto.
Qed.

Lemma prline_frame (beg lim : nat) (sep : ascii) (s : state) :
  post (ok_tame cfg false false true)
    (fun _ s' => frame s s' /\ lastout s' = Some lim
                 /\ pending s' = pending s /\ outleft s' = outleft s)
    (prline cfg w beg lim sep s).
Proof.
  unfold prline. mred.
  eapply post_bind with
    (Q := fun _ s' => frame s s' /\ pending s' = pending s
                      /\ outleft s' = outleft s).
  { apply post_when; intros _; mred.
    - split; [apply frame_write; exact I|auto].
    - split; [apply frame_refl|auto]. }
  cbn beta. intros _ s1 (F1 & P1 & O1).
  eapply post_bind with
    (Q := fun _ s' => frame s s' /\ pending s' = pending s
                      /\ outleft s' = outleft s).
  { apply post_when; intros _; [|auto].
    eapply post_bind; [apply nlscan_frame|].
    cbn beta. intros _ s2 (F2 & L2 & P2 & O2). mred.
    unfold print_offset_sep. mred. cbn.
    split; [|split; congruence].
    eapply frame_trans; [exact F1|]. eapply frame_trans; [exact F2|].
    destruct F2 as (B2 & U2 & Q2 & l2 & S2 & A2).
    repeat split. cbn. eexists [_]. split; [reflexivity|].
    constructor; [exact I|constructor]. }
  cbn beta. intros _ s2 (F2 & P2 & O2).
  eapply post_bind with
    (Q := fun _ s' => frame s s' /\ pending s' = pending s
                      /\ outleft s' = outleft s).
  { apply post_when; intros _; [|auto]. mred.
    unfold print_offset_sep. mred.
    split; [|auto]. eapply frame_trans; [exact F2|].
    apply frame_write. exact I. }
  cbn beta. intros _ s3 (F3 & P3 & O3). mred.
  eapply post_bind with
    (Q := fun _ s' => frame s s' /\ pending s' = pending s
                      /\ outleft s' = outleft s).
  { apply post_when; intros _; mred.
    - split; [|auto]. eapply frame_trans; [exact F3|]. frame_solve.
    - split; [|auto]. eapply frame_trans; [exact F3|]. frame_solve. }
  cbn beta. intros _ s4 (F4 & P4 & O4). mred.
  split; [|auto]. eapply frame_trans; [exact F4|].
  repeat split. exists []. rewrite app_nil_r. auto.
Qed.

Lemma prpending_loop_frame (fuel : nat) :
  forall lim s,
    (lim - ptr_or_bufbeg (lastout s) <= fuel)%nat \/ pending s <= 0 ->
    post (ok_tame cfg false false true)
      (fun _ s' => frame s s' /\ outleft s' = outleft s)
      (prpending_loop cfg w fuel lim s).
Proof.
  induction fuel as [|fuel IH]; intros lim s Hf; cbn [prpending_loop]; mred.
  - destruct ((0 <? pending s) && Nat.ltb (ptr_or_bufbeg (lastout s)) lim)
      eqn:C; mred.
    + apply andb_prop in C. destruct C as [C1 C2].
      apply Z.ltb_lt in C1. apply Nat.ltb_lt in C2. lia.
    + split; [apply frame_refl|auto].
  - destruct ((0 <? pending s) && Nat.ltb (ptr_or_bufbeg (lastout s)) lim)
      eqn:C; mred; [|split; [apply frame_refl|auto]].
    apply andb_prop in C. destruct C as [C1 C2].
    apply Z.ltb_lt in C1. apply Nat.ltb_lt in C2.
    destruct (memchr (bufdata s) (ptr_or_bufbeg (lastout s)) (eolbyte cfg)
                (lim - ptr_or_bufbeg (lastout s))) as [nl|] eqn:Hm;
      [|reflexivity].
    apply memchr_some in Hm. destruct Hm as [Hq _]. mred.
    match goal with
    | |- context [if ?b then _ else _] => destruct b
    end.
    + eapply post_bind; [apply prline_frame|].
      cbn beta. intros _ s1 (F1 & L1 & P1 & O1).
      eapply post_weaken; [apply IH| |auto].
      * left. rewrite L1. cbn. lia.
      * cbn beta. intros _ s2 (F2 & O2). split; [|cbn in *; congruence].
        eapply frame_trans; [|exact F2].
        eapply frame_trans; [|exact F1]. frame_solve.
    + mred. eapply post_weaken; [apply IH| |auto].
      * right. cbn. lia.
      * cbn beta. intros _ s2 (F2 & O2). split; [|cbn in *; congruence].
        eapply frame_trans; [|exact F2]. frame_solve.
Qed.

Lemma prpending_frame (lim : nat) (s : state) :
  post (ok_tame cfg false false true)
    (fun _ s' => frame s s' /\ outleft s' = outleft s)
    (prpending cfg w lim s).
Proof.
  unfold prpending. mred.
  destruct (lastout s) as [lo|] eqn:L; mred.
  - eapply post_weaken; [apply prpending_loop_frame; left; lia| |auto].
    auto.
  - cbn [lastout set_lastout ptr_or_bufbeg].
    eapply post_weaken; [apply prpending_loop_frame; left; cbn; lia| |auto].
    cbn beta. intros _ s' (F & O). split; [|cbn in *; congruence].
    eapply frame_trans; [|exact F]. frame_solve.
Qed.

Lemma leading_context_loop_frame (fuel : nat) :
  forall p beg s,
    (beg - p <= fuel)%nat ->
    post (ok_tame cfg false false true)
      (fun _ s' => frame s s' /\ outleft s' = outleft s)
      (leading_context_loop cfg w fuel p beg s).
Proof.
  induction fuel as [|fuel IH]; intros p beg s Hf;
    cbn [leading_context_loop]; destruct (Nat.ltb p beg) eqn:C; mred;
    try (split; [apply frame_refl|reflexivity]).
  - apply Nat.ltb_lt in C. lia.
  - apply Nat.ltb_lt in C.
    destruct (memchr (bufdata s) p (eolbyte cfg) (beg - p)) as [nl|] eqn:Hm;
      [|reflexivity].
    apply memchr_some in Hm. destruct Hm as [Hq _].
    eapply post_bind; [apply prline_frame|].
    cbn beta. intros _ s1 (F1 & L1 & P1 & O1).
    eapply post_weaken; [apply IH; lia| |auto].
    cbn beta. intros _ s2 (F2 & O2). split; [|congruence].
    eapply frame_trans; eauto.
Qed.

Lemma count_loop_frame (fuel : nat) :
  forall p lim n s,
    (lim - p <= fuel)%nat ->
    post (ok_tame cfg false false true)
      (fun r s' => frame s s' /\ outleft s' = outleft s /\ n <= fst r)
      (count_loop cfg w fuel p lim n s).
Proof.
  induction fuel as [|fuel IH]; intros p lim n s Hf;
    cbn [count_loop]; mred;
    destruct (Nat.ltb p lim && (n <? outleft s)) eqn:C; mred;
    try (split; [apply frame_refl|split; [reflexivity|lia]]);
    apply andb_prop in C; destruct C as [C _]; apply Nat.ltb_lt in C.
  - lia.
  - destruct (memchr (bufdata s) p (eolbyte cfg) (lim - p)) as [nl|] eqn:Hm;
      [|reflexivity].
    apply memchr_some in Hm. destruct Hm as [Hq _].
    eapply post_bind with
      (Q := fun _ s' => frame s s' /\ outleft s' = outleft s).
    { apply post_when; intros _.
      - eapply post_weaken; [apply prline_frame| |auto].
        cbn beta. intros _ s1 (F1 & L1 & P1 & O1). auto.
      - split; [apply frame_refl|reflexivity]. }
    cbn beta. intros _ s1 (F1 & O1).
    eapply post_weaken; [apply IH; lia| |auto].
    cbn beta. intros r s2 (F2 & O2 & N2).
    split; [|split; [congruence|lia]].
    eapply frame_trans; eauto.
Qed.

End Frames.

(** ** prtext and the separator *)

Lemma post_self {A} (ok : stop -> Prop) (Q : A -> state -> Prop)
  (o : outcome A) :
  post ok Q o -> post ok (fun a s' => o = Ret a s' /\ Q a s') o.
Proof.
  destruct o; simpl; auto.
Qed.

Section Prtext.

Variable cfg : config.
Variable w : world.

Lemma count_loop_quiet (fuel : nat) :
  forall p lim n s,
    (lim - p <= fuel)%nat ->
    out_quiet s <> 0 ->
    post (ok_tame cfg false false true) (fun r s' => s' = s /\ n <= fst r)
      (count_loop cfg w fuel p lim n s).
Proof.
  induction fuel as [|fuel IH]; intros p lim n s Hf Hq;
    cbn [count_loop]; mred;
    destruct (Nat.ltb p lim && (n <? outleft s)) eqn:C; mred;
    try (split; [reflexivity|lia]);
    apply andb_prop in C; destruct C as [C _]; apply Nat.ltb_lt in C.
  - lia.
  - destruct (memchr (bufdata s) p (eolbyte cfg) (lim - p)) as [nl|] eqn:Hm;
      [|reflexivity].
    apply memchr_some in Hm. destruct Hm as [Hm _].
    unfold nz. destruct (out_quiet s =? 0) eqn:E;
      [apply Z.eqb_eq in E; contradiction|].
    mred. eapply post_weaken; [apply IH; auto; lia| |auto].
    cbn beta. intros r s' (-> & N). split; [reflexivity|lia].
Qed.

Lemma prtext_post (beg lim : nat) (nlinesp : bool) (s : state) :
  post (ok_tame cfg false false true)
    (fun n s' => bufdata s' = bufdata s /\ out_quiet s' = out_quiet s
                 /\ prtext_output cfg w beg s s' /\ 0 <= n)
    (prtext cfg w beg lim nlinesp s).
Proof.
  unfold prtext, prtext_output. mred. unfold nz at 1.
  destruct (out_quiet s =? 0) eqn:Eq.
  - (* output is wanted *)
    apply Z.eqb_eq in Eq. cbn [negb andb].
    eapply post_bind.
    { apply post_self. apply post_when with
        (Q := fun _ s' => frame s s'); intros _.
      - eapply post_weaken; [apply prpending_frame| |auto].
        cbn beta. tauto.
      - apply frame_refl. }
    cbn beta. intros [] s1 (E1 & F1). mred.
    pose proof F1 as (B1 & U1 & Q1 & pre & S1 & P1).
    unfold nz at 1. rewrite Q1, Eq. cbn [Z.eqb negb].
    eapply post_bind with
      (Q := fun p s2 =>
              bufdata s2 = bufdata s1 /\ out_quiet s2 = out_quiet s1 /\
              exists grp, Forall line_write grp /\
                sout s2 = sout s1
                  ++ (if separator_due cfg beg s1 then [separator] else [])
                  ++ grp).
    { eapply post_bind with
        (Q := fun _ s2 =>
                bufdata s2 = bufdata s1 /\ out_quiet s2 = out_quiet s1
                /\ sout s2 = sout s1
                     ++ (if separator_due cfg beg s1 then [separator] else [])).
      { unfold separator_due. apply post_when; intros ->; mred.
        - auto.
        - rewrite app_nil_r. auto. }
      cbn beta. intros _ s2 (B2 & Q2 & S2).
      eapply post_weaken; [apply leading_context_loop_frame; lia| |auto].
      cbn beta. intros _ s3 ((B3 & U3 & Q3 & l3 & S3 & P3) & _).
      repeat split; try congruence.
      exists l3. split; [auto|]. rewrite S3, S2, app_assoc. reflexivity. }
    cbn beta. intros p s2 (B2 & Q2 & grp & G2 & S2).
    assert (Hend : forall s3 : state,
               frame s2 s3 ->
               bufdata s3 = bufdata s /\ out_quiet s3 = out_quiet s /\
               exists grp', Forall line_write grp' /\
                 sout s3 = sout s1
                   ++ (if separator_due cfg beg s1 then [separator] else [])
                   ++ grp').
    { intros s3 (B3 & U3 & Q3 & l3 & S3 & P3).
      repeat split; try congruence.
      exists (grp ++ l3). split; [apply Forall_app; auto|].
      rewrite S3, S2, <- !app_assoc. reflexivity. }
    eapply post_bind with
      (Q := fun n s3 =>
              0 <= n /\
              bufdata s3 = bufdata s /\ out_quiet s3 = out_quiet s /\
              exists grp', Forall line_write grp' /\
                sout s3 = sout s1
                  ++ (if separator_due cfg beg s1 then [separator] else [])
                  ++ grp').
    { destruct nlinesp.
      - eapply post_bind; [apply count_loop_frame; lia|].
        cbn beta. intros np s3 (F3 & _ & N3). mred.
        destruct (Hend s3 F3) as (B & Q & H). auto.
      - mred. eapply post_bind with (Q := fun _ s3 => frame s2 s3).
        { apply post_when; intros _; [|apply frame_refl].
          eapply post_weaken; [apply prline_frame| |auto].
          cbn beta. tauto. }
        cbn beta. intros _ s3 F3. mred. split; [lia|].
        apply Hend. exact F3. }
    cbn beta. intros n s3 (N3 & B3 & Q3 & grp' & G3 & S3). mred.
    split; [cbn; congruence|]. split; [cbn; congruence|].
    split; [|exact N3].
    split; [intros H; congruence|].
    intros _. exists s1, pre, grp'. cbn. repeat split; auto.
  - (* quiet *)
    apply Z.eqb_neq in Eq. cbn [negb andb]. mred.
    unfold nz at 1.
    destruct (out_quiet s =? 0) eqn:Eq'; [apply Z.eqb_eq in Eq'; lia|].
    cbn [negb]. mred.
    eapply post_bind with (Q := fun n s3 => 0 <= n /\ sout s3 = sout s
                                  /\ bufdata s3 = bufdata s
                                  /\ out_quiet s3 = out_quiet s).
    { destruct nlinesp.
      - eapply post_bind; [apply count_loop_quiet; auto; lia|].
        cbn beta. intros np s3 (-> & N). mred. auto.
      - mred. unfold nz. rewrite Eq'. cbn [negb]. mred.
        repeat split; auto. lia. }
    cbn beta. intros n s3 (N3 & S3 & B3 & Q3). mred.
    split; [cbn; congruence|]. split; [cbn; congruence|].
    split; [|exact N3].
    split; [intros _; cbn; congruence|].
    intros H. congruence.
Qed.

End Prtext.

(** ** The ways in which the scanner ends *)

Lemma post_tame_mono {A} (cfg : config) (d sc : bool)
  (Q Q' : A -> state -> Prop) (o : outcome A) :
  post (ok_tame cfg false false true) Q o ->
  (forall a s, Q a s -> Q' a s) ->
  post (ok_tame cfg d sc true) Q' o.
Proof.
  intros H HQ. eapply post_weaken; [exact H|exact HQ|].
  intros r Hr. eapply ok_tame_mono; [exact Hr| | |]; auto; discriminate.
Qed.

Lemma post_tame_weaken {A} (cfg : config) (d0 sc0 u0 d sc u : bool)
  (Q Q' : A -> state -> Prop) (o : outcome A) :
  post (ok_tame cfg d0 sc0 u0) Q o ->
  (d0 = true -> d = true) -> (sc0 = true -> sc = true) ->
  (u0 = true -> u = true) ->
  (forall a s, Q a s -> Q' a s) ->
  post (ok_tame cfg d sc u) Q' o.
Proof.
  intros H Hd Hsc Hu HQ. eapply post_weaken; [exact H|exact HQ|].
  intros r Hr. eapply ok_tame_mono; eauto.
Qed.

Lemma slice_length_le (buf : list ascii) (p lim : nat) :
  (List.length (slice buf p lim) <= lim - p)%nat.
Proof.
  unfold slice. rewrite length_firstn. lia.
Qed.

Section Tame.

Variable cfg : config.
Variable w : world.

Lemma grepbuf_loop_tame (sc : bool) (fuel : nat) :
  forall lim p nlines s,
    (sc = false -> advancing (execute cfg) /\ (lim - p < fuel)%nat) ->
    0 <= nlines ->
    post (ok_tame cfg false sc true)
      (fun r s' => bufdata s' = bufdata s /\ 0 <= exit_nlines r)
      (grepbuf_loop cfg w fuel lim p nlines s).
Proof.
  induction fuel as [|fuel IH]; intros lim p nlines s Hsc Hn;
    cbn [grepbuf_loop].
  - destruct sc; [reflexivity|]. destruct Hsc as [_ H]; [reflexivity|lia].
  - mred.
    destruct (execute cfg (slice (bufdata s) p lim)) as [[off sz]|] eqn:Ex;
      [|mred; auto].
    assert (Hadv : sc = false ->
                   (lim - (p + off + sz) < fuel)%nat).
    { intros E. destruct (Hsc E) as [Ha Hf].
      apply Ha in Ex. pose proof (slice_length_le (bufdata s) p lim). lia. }
    destruct (Nat.eqb (p + off) lim) eqn:Eb; [mred; auto|].
    destruct (negb (nz (out_invert cfg))) eqn:Einv.
    + eapply post_bind;
        [eapply post_tame_mono; [apply prtext_post|]; cbn beta; intros a s1 H;
         exact H|].
      cbn beta. intros _ s1 (B1 & Q1 & _ & _). mred.
      cbn [outleft done_on_match set_outleft bufoffset bufdata].
      destruct (negb (nz (outleft s1 - 1)) || nz (done_on_match s1)).
      * destruct (nz (exit_on_match cfg)) eqn:Ee; mred.
        -- right. split; [reflexivity|]. unfold nz in Ee.
           destruct (exit_on_match cfg =? 0) eqn:E0; [discriminate|].
           apply Z.eqb_neq in E0. exact E0.
        -- cbn. split; [congruence|lia].
      * eapply post_weaken; [apply IH| |auto].
        -- intros E. split; [apply Hsc; auto|apply Hadv; auto].
        -- lia.
        -- cbn beta. intros r s2 (B2 & N2). cbn in B2. split; congruence.
    + destruct (Nat.ltb p (p + off)).
      * eapply post_bind;
          [eapply post_tame_mono; [apply prtext_post|]; cbn beta;
           intros a s1 H; exact H|].
        cbn beta. intros n s1 (B1 & Q1 & _ & N1). mred.
        cbn [outleft set_outleft].
        destruct (negb (nz (outleft s1 - n))); mred.
        -- cbn. split; [congruence|lia].
        -- eapply post_weaken; [apply IH| |auto].
           ++ intros E. split; [apply Hsc; auto|apply Hadv; auto].
           ++ lia.
           ++ cbn beta. intros r s2 (B2 & N2). cbn in B2. split; congruence.
      * eapply post_weaken; [apply IH| |auto]; auto.
        intros E. split; [apply Hsc; auto|apply Hadv; auto].
Qed.

Lemma grepbuf_tame (sc : bool) (fuel : nat) (beg lim : nat) (s : state) :
  (sc = false -> advancing (execute cfg) /\ (lim - beg < fuel)%nat) ->
  post (ok_tame cfg false sc true)
    (fun n s' => bufdata s' = bufdata s /\ 0 <= n)
    (grepbuf cfg w fuel beg lim s).
Proof.
  intros Hsc. unfold grepbuf.
  eapply post_bind; [apply grepbuf_loop_tame; [exact Hsc|lia]|].
  cbn beta. intros [p nlines|nlines] s1 (B1 & N1); cbn in N1; [|mred; auto].
  destruct (nz (out_invert cfg) && Nat.ltb p lim); [|mred; auto].
  eapply post_bind;
    [eapply post_tame_mono; [apply prtext_post|]; cbn beta; intros a s2 H;
     exact H|].
  cbn beta. intros n s2 (B2 & Q2 & _ & N2). mred. cbn.
  split; [congruence|lia].
Qed.

End Tame.

Section TameDrivers.

Variable cfg : config.
Variable w : world.
Variables d sc u : bool.

Lemma fatal_tame {A} (Q : A -> state -> Prop) (mesg : string) (e : Z)
  (s : state) :
  post (ok_tame cfg d sc u) Q (fatal mesg e s).
Proof.
  unfold fatal. mred. left. reflexivity.
Qed.

Lemma suppressible_error_tame (mesg : string) (e : Z) (s : state) :
  post (ok_tame cfg d sc u) (fun _ _ => True) (suppressible_error cfg mesg e s).
Proof.
  unfold suppressible_error.
  destruct (negb (nz (suppress_errors cfg))); mred; exact I.
Qed.

Lemma reset_first_time_tame (s : state) :
  post (ok_tame cfg d sc u) (fun _ _ => True) (reset_first_time w s).
Proof.
  unfold reset_first_time. mred.
  destruct (w_pagesize w =? 0); [mred; exact I|]. mred.
  match goal with
  | |- context [if ?b then _ else _] => destruct b
  end; [apply fatal_tame|].
  destruct (page_alloc w (w_pagesize w) _); [mred; exact I|apply fatal_tame].
Qed.

Lemma reset_tame (file : option string) (st : stat) (s : state) :
  post (ok_tame cfg d sc u)
    (fun r _ => fst r <> 0 -> w_fstat w file = inr (snd r))
    (reset cfg w file st s).
Proof.
  unfold reset.
  eapply post_bind with (Q := fun _ _ => True).
  { unfold reset_buffer. mred.
    destruct (nz (pagesize s)); [mred; exact I|apply reset_first_time_tame]. }
  cbn beta. intros _ s1 _. mred.
  destruct (w_fstat w file) as [e|st'] eqn:Ef; mred; [intros H; lia|].
  destruct (directories_eqb (directories cfg) SKIP_DIRECTORIES
            && S_ISDIR (st_mode st')); [mred; intros H; lia|].
  destruct (S_ISREG (st_mode st')); [|mred; auto].
  destruct file as [f|]; [mred; auto|].
  destruct (w_lseek_cur w); mred; auto.
Qed.

Lemma fillbuf_grow_tame (save : Z) (st : stat) (s : state) :
  post (ok_tame cfg d sc u) (fun _ _ => True) (fillbuf_grow w save st s).
Proof.
  unfold fillbuf_grow. mred.
  match goal with
  | |- context [if ?b then _ else _] => destruct b
  end; [apply fatal_tame|].
  match goal with
  | |- context [if ?b then _ else _] => destruct b
  end; [|mred; exact I].
  mred. destruct (page_alloc w _ _); [mred; exact I|apply fatal_tame].
Qed.

Lemma fillbuf_tame (save : nat) (st : stat) (s : state) :
  post (ok_tame cfg d sc u) (fun _ _ => True) (fillbuf w save st s).
Proof.
  unfold fillbuf. mred.
  eapply post_bind with (Q := fun _ _ => True).
  { apply post_when; intros _; [apply fillbuf_grow_tame|exact I]. }
  cbn beta. intros _ s1 _. mred.
  destruct (sys_read _ _) as [[e|chunk] rest]; mred; exact I.
Qed.

Lemma finish_grep_tame (not_text nlines : Z) (s : state) :
  post (ok_tame cfg d sc u) (fun n _ => n = nlines)
    (finish_grep not_text nlines s).
Proof.
  unfold finish_grep. mred.
  match goal with
  | |- context [when ?b _] => destruct b
  end; mred; reflexivity.
Qed.

Lemma prpending_tame (lim : nat) (s : state) :
  post (ok_tame cfg d sc true) (fun _ _ => True) (prpending cfg w lim s).
Proof.
  eapply post_tame_mono; [apply prpending_frame|auto].
Qed.

Lemma nlscan_tame (lim : nat) (s : state) :
  post (ok_tame cfg d sc true) (fun _ _ => True) (nlscan cfg lim s).
Proof.
  eapply post_tame_mono; [apply nlscan_frame|auto].
Qed.

End TameDrivers.

Section TameGrep.

Variable cfg : config.
Variable w : world.
Variable d : bool.

Lemma grep_loop_tame (fuel : nat) :
  forall file st nlines residue save s,
    0 <= nlines ->
    post (ok_tame cfg d true true) (fun r _ => 0 <= scan_nlines r)
      (grep_loop cfg w fuel file st nlines residue save s).
Proof.
  induction fuel as [|fuel IH]; intros file st nlines residue save s Hn;
    cbn [grep_loop]; [reflexivity|].
  mred.
  match goal with
  | |- context [if Nat.eqb ?a ?b then _ else _] => destruct (Nat.eqb a b)
  end; [mred; exact Hn|].
  eapply post_bind with (Q := fun r _ => 0 <= fst r).
  { match goal with
    | |- context [if Nat.ltb ?a ?b then _ else _] => destruct (Nat.ltb a b)
    end; [|mred; exact Hn].
    eapply post_bind with (Q := fun n _ => 0 <= n).
    { match goal with
      | |- context [if ?b then _ else _] => destruct b
      end; [|mred; lia].
      eapply post_tame_weaken;
        [apply grepbuf_tame with (sc := true); discriminate
        |discriminate|auto|auto|].
      cbn beta. tauto. }
    cbn beta. intros n s1 N1. mred.
    eapply post_bind; [apply post_when; intros _;
                       [apply prpending_tame|exact I]|].
    cbn beta. intros _ s2 _. mred. lia. }
  cbn beta. intros [nlines' finish] s1 N1. cbn [fst] in N1.
  destruct finish; [mred; exact N1|].
  mred.
  eapply post_bind with (Q := fun _ _ => True).
  { apply post_when; intros _; mred; exact I. }
  cbn beta. intros _ s2 _. mred.
  eapply post_bind with (Q := fun _ _ => True).
  { apply post_when; intros _; [apply nlscan_tame|exact I]. }
  cbn beta. intros _ s3 _.
  eapply post_bind; [apply fillbuf_tame|].
  cbn beta. intros cc s4 _.
  destruct (cc =? 0).
  - mred.
    eapply post_bind with (Q := fun _ _ => True).
    { apply post_when; intros _; [apply suppressible_error_tame|exact I]. }
    cbn beta. intros _ s5 _. mred. exact N1.
  - apply IH. exact N1.
Qed.

Lemma grep_tame (grepdir : grepdir_t) (fuel : nat) (file : option string)
  (st : stat) (anc : list stat) (s : state) :
  (forall f st' s',
      w_fstat w (Some f) = inr st' ->
      post (ok_tame cfg d true true) (fun status _ => is_status status)
        (grepdir f st' anc s')) ->
  post (ok_tame cfg d true true) (fun r _ => is_count (fst r))
    (grep cfg w grepdir fuel file st anc s).
Proof.
  intros Hdir. unfold grep.
  eapply post_bind; [apply reset_tame|].
  cbn beta. intros [ok st'] s1 Hok. cbn [fst snd] in Hok.
  destruct (ok =? 0) eqn:Eok; [mred; left; lia|].
  apply Z.eqb_neq in Eok. specialize (Hok Eok).
  match goal with
  | |- post _ _ (match ?x with _ => _ end _) => destruct x as [f|] eqn:Erec
  end.
  - assert (file = Some f) as ->.
    { destruct file as [f'|]; [|discriminate].
      destruct (_ && _); congruence. }
    eapply post_bind with (Q := fun _ _ => True).
    { destruct (w_close w f); mred; exact I. }
    cbn beta. intros _ s2 _.
    eapply post_bind; [apply Hdir; exact Hok|].
    cbn beta. intros status s3 Hs. mred. right.
    replace (status - 2 + 2) with status by lia. exact Hs.
  - mred.
    eapply post_bind; [apply fillbuf_tame|].
    cbn beta. intros cc s2 _.
    destruct (cc =? 0).
    { mred.
      eapply post_bind with (Q := fun _ _ => True).
      { apply post_when; intros _; [apply suppressible_error_tame|exact I]. }
      cbn beta. intros _ s3 _. mred. left. lia. }
    mred.
    match goal with
    | |- context [if ?b then ret (0, st') else _] => destruct b
    end; [mred; left; lia|].
    mred.
    eapply post_bind; [apply grep_loop_tame; lia|].
    cbn beta. intros [nlines residue save|nlines] s3 N3; cbn in N3.
    + eapply post_bind with (Q := fun n _ => 0 <= n).
      { destruct (Nat.ltb 0 residue); [|mred; exact N3].
        mred.
        eapply post_bind with (Q := fun n _ => 0 <= n).
        { match goal with
          | |- context [if ?b then _ else _] => destruct b
          end; [|mred; lia].
          eapply post_tame_weaken;
            [apply grepbuf_tame with (sc := true); discriminate
            |discriminate|auto|auto|].
          cbn beta. tauto. }
        cbn beta. intros n s4 N4. mred.
        eapply post_bind; [apply post_when; intros _;
                           [apply prpending_tame|exact I]|].
        cbn beta. intros _ s5 _. mred. lia. }
      cbn beta. intros n s4 N4.
      eapply post_bind; [apply finish_grep_tame|].
      cbn beta. intros n' s5 ->. mred. left. exact N4.
    + eapply post_bind; [apply finish_grep_tame|].
      cbn beta. intros n' s5 ->. mred. left. exact N3.
Qed.

End TameGrep.

Lemma is_status_land (a b : Z) :
  is_status a -> is_status b -> is_status (Z.land a b).
Proof.
  intros [->| ->] [->| ->]; cbn; unfold is_status; auto.
Qed.

Lemma is_status_lnot (count : Z) : is_status (lnot count).
Proof.
  unfold lnot, is_status. destruct (count =? 0); auto.
Qed.

Lemma ancestor_loop_false (st : stat) (anc : list stat) :
  ancestor_loop st anc = false -> ~ In (stat_id st) (map stat_id anc).
Proof.
  induction anc as [|a anc IH]; cbn; [tauto|].
  destruct ((st_ino a =? st_ino st) && (st_dev a =? st_dev st)) eqn:E;
    [discriminate|].
  intros H [Ha|Hin]; [|exact (IH H Hin)].
  unfold stat_id in Ha. injection Ha as Hd Hi.
  rewrite Hd, Hi, !Z.eqb_refl in E. discriminate.
Qed.

Lemma ancestor_loop_true (st : stat) (anc : list stat) :
  In (stat_id st) (map stat_id anc) -> ancestor_loop st anc = true.
Proof.
  induction anc as [|a anc IH]; cbn; [tauto|].
  intros [Ha|Hin].
  - unfold stat_id in Ha. injection Ha as Hd Hi.
    rewrite Hd, Hi, !Z.eqb_refl. reflexivity.
  - destruct (_ && _); auto.
Qed.

Section TameFiles.

Variable cfg : config.
Variable w : world.
Variables d u : bool.

Lemma grepfile_open_tame (grepdir : grepdir_t) (file : option string)
  (st : stat) (anc : list stat) (s : state) :
  (forall f st' s',
      w_stat w f = inr st' ->
      post (ok_tame cfg d true u) (fun status _ => is_status status)
        (grepdir f st' anc s')) ->
  post (ok_tame cfg d true u)
    (fun o _ => match o with
                | Returned status _ => is_status status
                | Opened => True
                end)
    (grepfile_open cfg w grepdir file st anc s).
Proof.
  intros Hdir. unfold grepfile_open.
  destruct file as [f|]; [|mred; exact I].
  destruct (w_open w f) as [e|[]]; [|mred; exact I].
  mred.
  assert (Hsup : forall st1 s1,
             post (ok_tame cfg d true u)
               (fun o _ => match o with
                           | Returned status _ => is_status status
                           | Opened => True
                           end)
               ((suppressible_error cfg f e;; ret (Returned 1 st1)) s1)).
  { intros st1 s1.
    eapply post_bind; [apply suppressible_error_tame|].
    cbn beta. intros _ s2 _. mred. right. reflexivity. }
  destruct (is_EISDIR e (Some f)
            && directories_eqb (directories cfg) RECURSE_DIRECTORIES).
  { destruct (w_stat w f) as [e'|st'] eqn:Es; mred.
    - right. reflexivity.
    - eapply post_bind; [apply Hdir; exact Es|].
      cbn beta. intros status s1 Hs. mred. exact Hs. }
  match goal with
  | |- context [if ?b then ret (Returned 1 st) else _] => destruct b
  end; [mred; right; reflexivity|].
  match goal with
  | |- context [if ?b then _ else _] => destruct b
  end; [|apply Hsup].
  destruct (w_stat w f) as [e'|st'] eqn:Es.
  - mred. apply Hsup.
  - destruct (S_ISDIR (st_mode st')); [mred; right; reflexivity|apply Hsup].
Qed.

Lemma grepfile_report_tame (file : option string) (st : stat) (count : Z)
  (s : state) :
  post (ok_tame cfg d true u) (fun status _ => is_status status)
    (grepfile_report cfg w file st count s).
Proof.
  unfold grepfile_report. mred.
  eapply post_bind with (Q := fun _ _ => True).
  { apply post_when; intros _; [|exact I].
    eapply post_bind with (Q := fun _ _ => True).
    - apply post_when; intros _; mred; exact I.
    - cbn beta. intros _ s1 _. mred. exact I. }
  cbn beta. intros _ s1 _.
  eapply post_bind with (Q := fun _ _ => True).
  { apply post_when; intros _; mred; exact I. }
  cbn beta. intros _ s2 _.
  eapply post_bind with (Q := fun _ _ => True).
  { destruct file as [f|].
    - destruct (w_close w f); mred; exact I.
    - eapply post_bind with (Q := fun _ _ => True).
      + match goal with
        | |- context [if ?b then _ else _] => destruct b
        end; [|mred; exact I].
        destruct (w_lseek_set w _); [|mred; exact I].
        mred. apply post_when; intros _; mred; exact I.
      + cbn beta. intros _ s3 _. mred. exact I. }
  cbn beta. intros _ s3 _. mred. apply is_status_lnot.
Qed.

Lemma grepfile_with_post (grepdir : grepdir_t) (fuel : nat)
  (file : option string) (st : stat) (anc : list stat) (s : state) :
  (forall s1,
      post (ok_tame cfg d true u) (fun r _ => is_count (fst r))
        (grep cfg w grepdir fuel file st anc s1)) ->
  (forall f st' s',
      w_fstat w (Some f) = inr st' \/ w_stat w f = inr st' ->
      post (ok_tame cfg d true u) (fun status _ => is_status status)
        (grepdir f st' anc s')) ->
  post (ok_tame cfg d true u) (fun r _ => is_status (fst r))
    (grepfile_with cfg w grepdir fuel file st anc s).
Proof.
  intros Hgrep Hdir. unfold grepfile_with.
  eapply post_bind; [apply grepfile_open_tame; intros; apply Hdir; auto|].
  cbn beta. intros [status st'|] s1 Ho; [mred; exact Ho|].
  eapply post_bind; [apply Hgrep|].
  cbn beta. intros [count st'] s2 Hc. cbn [fst] in Hc.
  destruct (count <? 0) eqn:Ec.
  - mred. apply Z.ltb_lt in Ec. destruct Hc as [Hc|Hc]; [lia|exact Hc].
  - eapply post_bind; [apply grepfile_report_tame|].
    cbn beta. intros status s3 Hs. mred. exact Hs.
Qed.

Lemma grepdir_loop_tame (grepfile : grepfile_t) (dir : string)
  (needs_slash : bool) (parents : list stat) (names : list string) :
  (forall file st s,
      post (ok_tame cfg d true u) (fun r _ => is_status (fst r))
        (grepfile file st parents s)) ->
  forall child status s,
    is_status status ->
    post (ok_tame cfg d true u) (fun status' _ => is_status status')
      (grepdir_loop grepfile dir needs_slash parents names child status s).
Proof.
  intros Hf. induction names as [|name rest IH]; intros child status s Hs;
    cbn [grepdir_loop]; [mred; exact Hs|].
  destruct name as [|c name]; [mred; exact Hs|].
  eapply post_bind; [apply Hf|].
  cbn beta. intros r s1 Hr. apply IH. apply is_status_land; auto.
Qed.

Lemma grepdir_with_tame (grepfile : grepfile_t) (dir : string) (st : stat)
  (anc : list stat) (s : state) :
  (ancestor_loop st anc = false ->
   forall file st1 s1,
     post (ok_tame cfg d true u) (fun r _ => is_status (fst r))
       (grepfile file st1 (st :: anc) s1)) ->
  post (ok_tame cfg d true u) (fun status _ => is_status status)
    (grepdir_with cfg w grepfile dir st anc s).
Proof.
  intros Hf. unfold grepdir_with.
  destruct (ancestor_loop st anc) eqn:El.
  - eapply post_bind with (Q := fun _ _ => True).
    + apply post_when; intros _; mred; exact I.
    + cbn beta. intros _ s1 _. mred. right. reflexivity.
  - destruct (w_savedir w dir) as [e|names]; mred.
    + destruct (nz e); [|apply fatal_tame].
      eapply post_bind; [apply suppressible_error_tame|].
      cbn beta. intros _ s1 _. mred. right. reflexivity.
    + eapply post_bind;
        [apply grepdir_loop_tame; [apply Hf; reflexivity|right; reflexivity]|].
      cbn beta. intros status s1 Hs. mred. exact Hs.
Qed.

(** The driver satisfies what grep satisfies: [Hgrep] is the property
    of grep over any walker that has it; the chain of ancestors has no
    two entries with the same identity, which bounds the depth. *)
Lemma grepfile_post (ids : list (Z * Z)) (fuel : nat) :
  (forall (grepdir : grepdir_t) file st anc s,
      (forall f st' s',
          w_fstat w (Some f) = inr st' \/ w_stat w f = inr st' ->
          post (ok_tame cfg d true u) (fun status _ => is_status status)
            (grepdir f st' anc s')) ->
      post (ok_tame cfg d true u) (fun r _ => is_count (fst r))
        (grep cfg w grepdir fuel file st anc s)) ->
  forall depth file st anc s,
    (d = false ->
     finite_inodes w ids /\ NoDup (map stat_id anc)
     /\ incl (map stat_id anc) ids
     /\ (List.length ids < depth + List.length anc)%nat) ->
    post (ok_tame cfg d true u) (fun r _ => is_status (fst r))
      (grepfile cfg w depth fuel file st anc s).
Proof.
  intros Hgrep.
  induction depth as [|depth IH]; intros file st anc s Hd; cbn [grepfile].
  - assert (Hdir : forall f st' s',
               w_fstat w (Some f) = inr st' \/ w_stat w f = inr st' ->
               post (ok_tame cfg d true u) (fun status _ => is_status status)
                 (@out_of_fuel Z DepthFuel s')).
    { intros f st' s' _. cbn. destruct d; [reflexivity|].
      destruct Hd as (_ & Hnd & Hin & Hlen); [reflexivity|].
      apply NoDup_incl_length in Hin; [|exact Hnd].
      rewrite length_map in Hin. lia. }
    apply grepfile_with_post; [|exact Hdir].
    intros s1. apply Hgrep. exact Hdir.
  - assert (Hdir : forall f st' s',
               w_fstat w (Some f) = inr st' \/ w_stat w f = inr st' ->
               post (ok_tame cfg d true u) (fun status _ => is_status status)
                 (grepdir_with cfg w (grepfile cfg w depth fuel) f st' anc
                    s')).
    { intros f st' s' Hans.
      apply grepdir_with_tame. intros Hloop file1 st1 s1. apply IH.
      intros Ed. destruct (Hd Ed) as (Hfin & Hnd & Hin & Hlen).
      split; [exact Hfin|]. cbn [map List.length]. repeat split.
      + constructor; [apply ancestor_loop_false; exact Hloop|exact Hnd].
      + intros x [<-|Hx]; [apply (Hfin f); exact Hans|apply Hin; exact Hx].
      + lia. }
    apply grepfile_with_post; [|exact Hdir].
    intros s1. apply Hgrep. exact Hdir.
Qed.

End TameFiles.

Lemma grepfile_tame (cfg : config) (w : world) (d : bool)
  (ids : list (Z * Z)) (fuel : nat) (depth : nat) :
  forall file st anc s,
    (d = false ->
     finite_inodes w ids /\ NoDup (map stat_id anc)
     /\ incl (map stat_id anc) ids
     /\ (List.length ids < depth + List.length anc)%nat) ->
    post (ok_tame cfg d true true) (fun r _ => is_status (fst r))
      (grepfile cfg w depth fuel file st anc s).
Proof.
  apply grepfile_post.
  intros grepdir file st anc s Hdir. apply grep_tame.
  intros f st' s' Hf. apply Hdir. left. exact Hf.
Qed.

(** ** The two drivers *)

Section Drivers.

Variable cfg : config.
Variable w : world.

Lemma grepfile_unfold (depth fuel : nat) :
  grepfile cfg w depth fuel
  = grepfile_with cfg w (grepdir cfg w depth fuel) fuel.
Proof.
  destruct depth; reflexivity.
Qed.

End Drivers.

(** ** Directory loops *)

Section Loops.

Variable cfg : config.
Variable w : world.

(** C9.  When an ancestor in the stats chain has the device and inode of
    [dir], grepdir only warns (unless suppressed) and returns 1: neither
    [savedir] nor the file driver is consulted.  Hence, in a file system
    with finitely many inodes, the nesting of grepdir inside grepfile is
    bounded by their number: with fuel for one level more, the recursion
    never runs out of depth. *)
Theorem directory_loop (grepfile_rec : grepfile_t) (dir : string)
  (st : stat) (anc : list stat) (s : state) (ids : list (Z * Z))
  (depth fuel : nat) (file : option string) (st0 : stat) (s0 : state) :
  In (stat_id st) (map stat_id anc) ->
  finite_inodes w ids ->
  (List.length ids < depth)%nat ->
  grepdir_with cfg w grepfile_rec dir st anc s
  = Ret 1 (if nz (suppress_errors cfg) then s
           else set_serr (serr s ++ [LoopWarning dir]) s)
  /\ grepfile cfg w depth fuel file st0 [] s0 <> Stop (OutOfFuel DepthFuel).
Proof.
  intros Hin Hfin Hlen. split.
  - unfold grepdir_with. rewrite (@ancestor_loop_true _ _ Hin).
    destruct (nz (suppress_errors cfg)); reflexivity.
  - pose proof (@grepfile_tame cfg w false ids fuel depth file st0 [] s0) as P.
    intros E. rewrite E in P. cbn in P.
    assert (false = true); [|discriminate].
    apply P. intros _. cbn. repeat split; auto.
    + constructor.
    + intros x [].
    + lia.
Qed.

End Loops.

(** ** The scan loop of grepbuf *)

Section Grepbuf.

Variable cfg : config.
Variable w : world.

(** C8.  A match that starts at [lim] ends the loop of grepbuf at once,
    with the state, and so standard output, untouched; without
    [out_invert] grepbuf then returns with nothing printed, and with it
    only the lines of [[p, lim)] in front of the match are output. *)
Theorem match_at_lim_ends_scan (fuel : nat) (lim p : nat) (nlines : Z)
  (s : state) (off sz : nat) :
  execute cfg (slice (bufdata s) p lim) = Some (off, sz) ->
  (p + off = lim)%nat ->
  grepbuf_loop cfg w (S fuel) lim p nlines s = Ret (LoopDone p nlines) s
  /\ (out_invert cfg = 0 -> grepbuf cfg w (S fuel) p lim s = Ret 0 s)
  /\ (out_invert cfg <> 0 ->
      grepbuf cfg w (S fuel) p lim s
      = (if Nat.ltb p lim
         then n <- prtext cfg w p lim true ;;
              modify (fun s => set_outleft (outleft s - n) s) ;;
              ret (0 + n)
         else ret 0) s).
Proof.
  intros Hex Hb.
  assert (L : forall n, grepbuf_loop cfg w (S fuel) lim p n s
                        = Ret (LoopDone p n) s).
  { intros n. cbn [grepbuf_loop]. rewrite bind_get. cbv beta.
    rewrite Hex. cbv beta iota.
    apply Nat.eqb_eq in Hb. rewrite Hb. reflexivity. }
  split; [apply L|].
  unfold grepbuf. rewrite (@bind_of_ret _ _ _ _ _ _ _ (L 0)). unfold nz.
  split; intros H.
  - rewrite H. reflexivity.
  - destruct (out_invert cfg =? 0) eqn:E;
      [apply Z.eqb_eq in E; contradiction|].
    cbn [negb andb]. reflexivity.
Qed.

(** C2 (as amended).  Over a matcher whose every match ends at least one
    byte into the region it was given, each iteration moves the scan
    position forward by at least one byte, so the loop of grepbuf makes
    at most [lim - beg] iterations: with fuel for one more round it never
    runs out of fuel. *)
Theorem grepbuf_terminates (fuel : nat) (beg lim : nat) (s : state) :
  advancing (execute cfg) ->
  (lim - beg < fuel)%nat ->
  grepbuf cfg w fuel beg lim s <> Stop (OutOfFuel ScanFuel).
Proof.
  intros Hadv Hf E.
  pose proof (@grepbuf_tame cfg w false fuel beg lim s) as P.
  rewrite E in P. cbn in P.
  assert (false = true); [|discriminate].
  apply P. intros _. auto.
Qed.

End Grepbuf.

Lemma line_matcher_from_advancing (c eol : ascii) (data : list ascii) :
  forall start len hit off sz,
    (hit = true -> (1 <= len)%nat) ->
    line_matcher_from c eol data start len hit = Some (off, sz) ->
    (1 <= sz /\ start <= off
     /\ off + sz <= start + len + List.length data)%nat.
Proof.
  induction data as [|x rest IH]; intros start len hit off sz Hh H;
    cbn [line_matcher_from] in H.
  - destruct hit; [|discriminate]. injection H as <- <-.
    cbn. specialize (Hh eq_refl). lia.
  - destruct (Ascii.eqb x eol).
    + destruct hit.
      * injection H as <- <-. cbn. lia.
      * apply IH in H; [|discriminate]. cbn [List.length]. lia.
    + apply IH in H; [|intros _; lia]. cbn [List.length]. lia.
Qed.

Lemma line_matcher_advancing (c eol : ascii) :
  advancing (line_matcher c eol).
Proof.
  intros data off sz H. unfold line_matcher in H.
  apply line_matcher_from_advancing in H; [|discriminate]. lia.
Qed.

(** ** A failing fstat *)

Section Fstat.

Variable cfg : config.
Variable w : world.

Lemma reset_buffer_ret (s s1 : state) :
  reset_buffer w s = Ret tt s1 ->
  serr s1 = serr s /\ rd s1 = rd s /\ sout s1 = sout s.
Proof.
  unfold reset_buffer. rewrite bind_get. cbv beta.
  destruct (nz (pagesize s)).
  - unfold modify. intros H. injection H as <-. auto.
  - unfold reset_first_time, fatal. mred.
    destruct (w_pagesize w =? 0); [discriminate|]. mred.
    match goal with
    | |- context [if ?b then _ else _] => destruct b
    end; mred; [discriminate|].
    destruct (page_alloc w (w_pagesize w) _); mred; [|discriminate].
    intros H. injection H as <-. auto.
Qed.

Lemma grepfile_open_opened (grepdir_rec : grepdir_t) (file : option string)
  (st : stat) (anc : list stat) (s s0 : state) :
  grepfile_open cfg w grepdir_rec file st anc s = Ret Opened s0 ->
  serr s0 = serr s /\ sout s0 = sout s.
Proof.
  unfold grepfile_open. destruct file as [f|].
  - destruct (w_open w f) as [e|[]]; mred.
    + assert (Hsup : forall st1 s1,
                 (suppressible_error cfg f e;; ret (Returned 1 st1)) s1
                 <> Ret Opened s0).
      { intros st1 s1. unfold suppressible_error. rewrite bind_bind.
        destruct (negb (nz (suppress_errors cfg))); mred; discriminate. }
      repeat match goal with
             | |- (if ?b then _ else _) _ = _ -> _ => destruct b
             | |- match w_stat w f with _ => _ end _ = _ -> _ =>
                 destruct (w_stat w f)
             end; mred; try discriminate;
        try (intros H; exfalso; exact (Hsup _ _ H)).
      unfold bind. destruct (grepdir_rec f s1 anc _); discriminate.
    + intros H. injection H as <-. auto.
  - mred. intros H. injection H as <-. auto.
Qed.

Lemma grepfile_report_returns (file : option string) (st : stat) (count : Z)
  (s : state) :
  exists s',
    grepfile_report cfg w file st count s = Ret (lnot count) s'
    /\ (exists more, serr s' = serr s ++ more)
    /\ rd s' = rd s /\ bufdata s' = bufdata s.
Proof.
  unfold grepfile_report.
  destruct file as [f|];
    repeat (rewrite ?bind_bind; mred;
            try first
              [ split_cond
              | match goal with
                | |- context [match w_close w ?f with _ => _ end] =>
                    destruct (w_close w f)
                | |- context [match w_lseek_set w ?o with _ => _ end] =>
                    destruct (w_lseek_set w o)
                end ]);
    eexists; (split; [reflexivity|]); cbn;
    (split; [|split; reflexivity]);
    first [ exists []; rewrite app_nil_r; reflexivity
          | eexists [_]; reflexivity ].
Qed.

(** C5 (as amended).  When [fstat] fails in reset on an input that was
    opened, the failure is reported on standard error whatever
    [suppress_errors] holds, nothing is read from the input or written to
    standard output by the scanner, and grepfile returns 1 to its
    caller, whose loop goes on with the next operand. *)
Theorem fstat_failure (depth fuel : nat) (operand : string)
  (rest : list string) (st : stat) (status : Z) (s s0 s1 : state) (e : Z) :
  grepfile_open cfg w (grepdir cfg w depth fuel) (operand_file operand)
    st [] s = Ret Opened s0 ->
  reset_buffer w s0 = Ret tt s1 ->
  w_fstat w (operand_file operand) = inl e ->
  exists s',
    grepfile cfg w depth fuel (operand_file operand) st [] s
    = Ret (1, st) s'
    /\ (exists more, serr s' = serr s ++ ErrorMsg "fstat" e :: more)
    /\ rd s' = rd s0
    /\ bufdata s' = []
    /\ main_loop cfg w depth fuel (operand :: rest) st status s
       = main_loop cfg w depth fuel rest st (Z.land status 1) s'.
Proof.
  intros Ho Hb Hf.
  destruct (grepfile_open_opened _ _ _ _ _ _ Ho) as [So _].
  destruct (reset_buffer_ret _ _ Hb) as (Sb & Rb & _).
  set (s2 := set_serr (serr s1 ++ [ErrorMsg "fstat" e])
               (set_errno e (set_bufdata [] s1))).
  assert (Hg : grep cfg w (grepdir cfg w depth fuel) fuel
                 (operand_file operand) st [] s0 = Ret (0, st) s2).
  { unfold grep, reset. rewrite bind_bind.
    rewrite (@bind_of_ret _ _ _ _ _ _ _ Hb). mred. rewrite Hf. mred.
    reflexivity. }
  destruct (grepfile_report_returns (operand_file operand) st 0 s2)
    as (s' & Hr & (more & Sr) & Rr & Br).
  assert (Hgf : grepfile cfg w depth fuel (operand_file operand) st [] s
                = Ret (1, st) s').
  { rewrite grepfile_unfold. unfold grepfile_with.
    rewrite (@bind_of_ret _ _ _ _ _ _ _ Ho). cbv beta iota.
    rewrite (@bind_of_ret _ _ _ _ _ _ _ Hg). cbv beta iota.
    cbn [Z.ltb Z.compare].
    rewrite (@bind_of_ret _ _ _ _ _ _ _ Hr). reflexivity. }
  exists s'. split; [exact Hgf|]. split; [|split; [|split]].
  - exists more. rewrite Sr. subst s2. cbn. rewrite Sb, So.
    rewrite <- app_assoc. reflexivity.
  - rewrite Rr. subst s2. cbn. exact Rb.
  - rewrite Br. reflexivity.
  - cbn [main_loop]. fold (operand_file operand).
    rewrite (@bind_of_ret _ _ _ _ _ _ _ Hgf). reflexivity.
Qed.

End Fstat.

(** ** Growth of the buffer *)

Lemma wrap_small (x : Z) : 0 <= x <= SIZE_MAX -> wrap x = x.
Proof.
  unfold wrap, SIZE_MAX. intros H. apply Z.mod_small. lia.
Qed.

Lemma wrap_range (x : Z) : 0 <= wrap x <= SIZE_MAX.
Proof.
  unfold wrap, SIZE_MAX.
  pose proof (Z.mod_pos_bound x (2 ^ 64) ltac:(lia)). lia.
Qed.

Lemma swrap_small (x : Z) : - 2 ^ 63 <= x < 2 ^ 63 -> swrap x = x.
Proof.
  unfold swrap. intros H. rewrite Z.mod_small; lia.
Qed.

Lemma round_up_spec (x ps : Z) :
  0 < ps -> 0 <= x ->
  x <= round_up x ps < x + ps /\ (ps | round_up x ps).
Proof.
  intros Hps Hx. unfold round_up.
  pose proof (Z.mod_pos_bound x ps Hps) as Hm.
  destruct (x mod ps =? 0) eqn:E.
  - apply Z.eqb_eq in E. split; [lia|].
    apply Z.mod_divide; [lia|exact E].
  - apply Z.eqb_neq in E. split; [lia|].
    exists (x / ps + 1). pose proof (Z.div_mod x ps ltac:(lia)). lia.
Qed.

Lemma ALIGN_TO_round_up (x ps : Z) :
  0 < ps -> 0 <= x -> round_up x ps <= SIZE_MAX ->
  ALIGN_TO x ps = round_up x ps.
Proof.
  intros Hps Hx Hr. unfold ALIGN_TO, round_up in *.
  destruct (x mod ps =? 0); [reflexivity|].
  apply wrap_small.
  pose proof (Z.mod_pos_bound x ps Hps). lia.
Qed.

(** An aligned value that is not below [x] did not wrap around. *)
Lemma ALIGN_TO_no_wrap (x ps : Z) :
  0 < ps <= SIZE_MAX -> 0 <= x <= SIZE_MAX ->
  x <= ALIGN_TO x ps ->
  ALIGN_TO x ps = round_up x ps.
Proof.
  intros Hps Hx Hle. unfold ALIGN_TO, round_up in *.
  destruct (x mod ps =? 0); [reflexivity|].
  pose proof (Z.mod_pos_bound x ps ltac:(lia)) as Hm.
  unfold wrap, SIZE_MAX in *.
  destruct (Z_lt_ge_dec (x + (ps - x mod ps)) (2 ^ 64)) as [Hlt|Hge].
  - apply Z.mod_small. lia.
  - exfalso.
    assert (E : (x + (ps - x mod ps)) mod 2 ^ 64
                = x + (ps - x mod ps) - 2 ^ 64).
    { symmetry. apply Z.mod_unique with (q := 1); lia. }
    rewrite E in Hle. lia.
Qed.

Lemma grow_bufsalloc_spec (save aligned_save : Z) (fuel : nat) :
  forall bsa,
    0 <= bsa <= SIZE_MAX ->
    (bsa = 0 /\ (0 < fuel)%nat) \/ 2 ^ 64 <= bsa * 2 ^ Z.of_nat fuel ->
    grow_bufsalloc fuel bsa save aligned_save = aligned_save
    \/ (save <= grow_bufsalloc fuel bsa save aligned_save <= SIZE_MAX
        /\ exists k,
             0 <= k
             /\ grow_bufsalloc fuel bsa save aligned_save = bsa * 2 ^ k
             /\ (k = 0 \/ bsa * 2 ^ (k - 1) < save)).
Proof.
  induction fuel as [|fuel IH]; intros bsa Hb Hf.
  - cbn [grow_bufsalloc]. destruct Hf as [[_ Hf]|Hf]; [lia|].
    unfold SIZE_MAX in Hb. cbn in Hf. lia.
  - cbn [grow_bufsalloc]. destruct (bsa <? save) eqn:Es.
    + apply Z.ltb_lt in Es.
      destruct (bsa <? wrap (bsa * 2)) eqn:Ew; [|left; reflexivity].
      apply Z.ltb_lt in Ew.
      assert (Hno : bsa * 2 <= SIZE_MAX).
      { unfold wrap, SIZE_MAX in *.
        destruct (Z_lt_ge_dec (bsa * 2) (2 ^ 64)) as [Hlt|Hge]; [lia|].
        exfalso.
        assert (E : (bsa * 2) mod 2 ^ 64 = bsa * 2 - 2 ^ 64).
        { symmetry. apply Z.mod_unique with (q := 1); lia. }
        rewrite E in Ew. lia. }
      rewrite wrap_small in * by lia.
      destruct (IH (bsa * 2)) as [H|(Hs & k & Hk & Hg & Hm)].
      * lia.
      * right. destruct Hf as [[-> _]|Hf]; [lia|].
        rewrite Nat2Z.inj_succ, Z.pow_succ_r in Hf by lia. lia.
      * left. exact H.
      * right. split; [exact Hs|]. exists (k + 1). split; [lia|].
        split.
        -- rewrite Hg, Z.pow_add_r by lia. lia.
        -- right. replace (k + 1 - 1) with k by lia.
           destruct Hm as [->|Hm]; [rewrite Z.pow_0_r; lia|].
           destruct (Z.eq_dec k 0) as [->|Hk0]; [rewrite Z.pow_0_r; lia|].
           replace k with (k - 1 + 1) by lia.
           rewrite Z.pow_add_r by lia. lia.
    + apply Z.ltb_ge in Es. right. split; [lia|].
      exists 0. rewrite Z.pow_0_r. split; [lia|]. split; [lia|]. left.
      reflexivity.
Qed.

Lemma fillbuf_maxalloc_regular (ps aligned_save : Z) (st : stat) (off : Z) :
  0 < ps -> 0 <= aligned_save ->
  S_ISREG (st_mode st) = true ->
  0 <= off <= st_size st ->
  st_size st + aligned_save + ps < 2 ^ 63 ->
  fillbuf_maxalloc ps aligned_save st off
  = aligned_save + round_up (st_size st - off) ps.
Proof.
  intros Hps Has Hreg Hoff Hsz. unfold fillbuf_maxalloc. rewrite Hreg.
  rewrite (swrap_small (st_size st - off)) by lia.
  rewrite wrap_small by (unfold SIZE_MAX; lia).
  pose proof (round_up_spec (st_size st - off) ps Hps ltac:(lia)) as [Hr _].
  unfold round_up in *.
  pose proof (Z.mod_pos_bound (st_size st - off) ps Hps) as Hm.
  destruct ((st_size st - off) mod ps =? 0) eqn:E.
  - rewrite Z.add_0_r. rewrite (swrap_small (st_size st - off)) by lia.
    rewrite swrap_small by lia.
    destruct (0 <=? aligned_save + (st_size st - off)) eqn:E0;
      [reflexivity|apply Z.leb_gt in E0; lia].
  - rewrite (swrap_small (st_size st - off + _)) by lia.
    rewrite swrap_small by lia.
    match goal with
    | |- (if ?b then _ else _) = _ => destruct b eqn:E0
    end; [reflexivity|apply Z.leb_gt in E0; lia].
Qed.

Lemma fillbuf_maxalloc_cases (ps aligned_save : Z) (st : stat) (off : Z) :
  fillbuf_maxalloc ps aligned_save st off = SIZE_MAX
  \/ S_ISREG (st_mode st) = true.
Proof.
  unfold fillbuf_maxalloc. destruct (S_ISREG (st_mode st)); auto.
Qed.

Lemma round_up_le_multiple (x ps m : Z) :
  0 < ps -> 0 <= x <= m -> (ps | m) -> round_up x ps <= m.
Proof.
  intros Hps Hx [k Hk].
  destruct (round_up_spec x ps Hps ltac:(lia)) as [[H1 H2] [j Hj]].
  rewrite Hj in *. subst m.
  assert (Hjk : j < Z.succ k).
  { apply (Z.mul_lt_mono_pos_r ps); [exact Hps|]. lia. }
  apply Z.mul_le_mono_nonneg_r; lia.
Qed.

(** The loop that grows [bufsalloc]: when the [k]-th doubling is the
    first to reach [save], the loop gives it if it fits [size_t], and
    falls back on [aligned_save] if not. *)
Lemma grow_bufsalloc_exact (save aligned_save : Z) (fuel : nat) :
  forall bsa k,
    0 < bsa <= SIZE_MAX ->
    0 <= k <= Z.of_nat fuel ->
    (0 < k -> bsa * 2 ^ (k - 1) < save) ->
    save <= bsa * 2 ^ k ->
    grow_bufsalloc fuel bsa save aligned_save
    = if bsa * 2 ^ k <=? SIZE_MAX then bsa * 2 ^ k else aligned_save.
Proof.
  induction fuel as [|fuel IH]; intros bsa k Hb Hk Hlo Hhi.
  - assert (k = 0) as -> by lia. rewrite Z.pow_0_r, Z.mul_1_r.
    cbn [grow_bufsalloc].
    destruct (bsa <=? SIZE_MAX) eqn:E; [reflexivity|].
    apply Z.leb_gt in E. lia.
  - cbn [grow_bufsalloc].
    destruct (Z.eq_dec k 0) as [->|Hk0].
    + rewrite Z.pow_0_r, Z.mul_1_r in *.
      destruct (bsa <? save) eqn:Es; [apply Z.ltb_lt in Es; lia|].
      destruct (bsa <=? SIZE_MAX) eqn:E; [reflexivity|].
      apply Z.leb_gt in E. lia.
    + assert (Hpow : 2 ^ k = 2 * 2 ^ (k - 1)).
      { replace k with (k - 1 + 1) at 1 by lia.
        rewrite Z.pow_add_r by lia. lia. }
      assert (Hp1 : 1 <= 2 ^ (k - 1))
        by (pose proof (Z.pow_pos_nonneg 2 (k - 1)); lia).
      assert (Es : bsa < save) by nia.
      apply Z.ltb_lt in Es. rewrite Es.
      destruct (Z_le_gt_dec (bsa * 2) SIZE_MAX) as [Hno|Hov].
      * rewrite wrap_small by lia.
        assert (Ed : (bsa <? bsa * 2) = true) by (apply Z.ltb_lt; lia).
        rewrite Ed.
        rewrite (IH (bsa * 2) (k - 1)); try lia.
        -- replace (bsa * 2 * 2 ^ (k - 1)) with (bsa * 2 ^ k) by lia.
           reflexivity.
        -- intros Hk1.
           assert (Hpow' : 2 ^ (k - 1) = 2 * 2 ^ (k - 1 - 1)).
           { replace (k - 1) with (k - 1 - 1 + 1) at 1 by lia.
             rewrite Z.pow_add_r by lia. lia. }
           specialize (Hlo ltac:(lia)). nia.
      * assert (Ew : (bsa <? wrap (bsa * 2)) = false).
        { apply Z.ltb_ge. unfold wrap, SIZE_MAX in *.
          assert (E : (bsa * 2) mod 2 ^ 64 = bsa * 2 - 2 ^ 64).
          { symmetry. apply Z.mod_unique with (q := 1); lia. }
          rewrite E. lia. }
        rewrite Ew.
        destruct (bsa * 2 ^ k <=? SIZE_MAX) eqn:E; [|reflexivity].
        apply Z.leb_le in E. nia.
Qed.

(** C7 (as amended).  When fillbuf finds [bufsalloc < save] and does not
    end in "memory exhausted": let the [k]-th doubling of [bufsalloc] be
    the first that reaches [save].  The loop takes [bufsalloc] to that
    doubling when it fits [size_t], and to the page-aligned [save] when
    it does not; the size aimed at, [newalloc], is 5 times that, modulo
    [2^64].  The cap applies exactly when [maxalloc] is below this
    [newalloc]: then [newalloc] is [maxalloc] and [bufsalloc] is the
    page-aligned [save].  For a file that is not regular [maxalloc] is
    the greatest [size_t] and the cap never applies; for a regular file
    it is the page-aligned [save] plus the rest of the file rounded up
    to a page, so that under the cap [newalloc - bufsalloc] is less than
    one page more than what is left to read.  In every case [bufsalloc]
    ends as a multiple of the page size that is at least [save], and
    [bufalloc] as the greater of its old value and [newalloc]: the
    buffer never shrinks, and it is reallocated, to a page-aligned
    address, only when [newalloc] exceeds the old [bufalloc]. *)
Theorem fillbuf_grow_spec (w : world) (save : Z) (st : stat)
  (s s' : state) (k : Z) :
  0 < pagesize s <= SIZE_MAX ->
  (pagesize s | bufsalloc s) ->
  bufsalloc s <= SIZE_MAX ->
  save <= SIZE_MAX ->
  0 < k ->
  bufsalloc s * 2 ^ (k - 1) < save <= bufsalloc s * 2 ^ k ->
  fillbuf_grow w save st s = Ret tt s' ->
  let aligned := round_up save (pagesize s) in
  let grown :=
    if bufsalloc s * 2 ^ k <=? SIZE_MAX then bufsalloc s * 2 ^ k
    else aligned in
  let maxalloc := fillbuf_maxalloc (pagesize s) aligned st (bufoffset s) in
  let capped := maxalloc <? wrap (PREFERRED_SAVE_FACTOR * grown) in
  let newalloc :=
    if capped then maxalloc else wrap (PREFERRED_SAVE_FACTOR * grown) in
  bufsalloc s' = (if capped then aligned else grown)
  /\ save <= bufsalloc s' <= SIZE_MAX
  /\ (pagesize s | bufsalloc s')
  /\ bufalloc s' = Z.max (bufalloc s) newalloc
  /\ (S_ISREG (st_mode st) = false -> capped = false)
  /\ (S_ISREG (st_mode st) = true ->
      0 <= bufoffset s <= st_size st ->
      st_size st + save + 2 * pagesize s < 2 ^ 63 ->
      maxalloc
      = aligned + round_up (st_size st - bufoffset s) (pagesize s)
      /\ (capped = true ->
          newalloc - bufsalloc s'
          < st_size st - bufoffset s + pagesize s))
  /\ (bufalloc s < newalloc ->
      exists p,
        buffer s' = ALIGN_TO p (pagesize s)
        /\ (0 <= p -> p + pagesize s <= SIZE_MAX ->
            (pagesize s | buffer s')))
  /\ (newalloc <= bufalloc s -> buffer s' = buffer s).
Proof.
  intros Hps Hdiv Hbmax Hsmax Hk Hfirst H.
  assert (Hp1 : 1 <= 2 ^ (k - 1))
        by (pose proof (Z.pow_pos_nonneg 2 (k - 1)); lia).
  assert (Hpow : 2 ^ k = 2 * 2 ^ (k - 1)).
  { replace k with (k - 1 + 1) at 1 by lia.
    rewrite Z.pow_add_r by lia. lia. }
  assert (Hb : 0 < bufsalloc s) by nia.
  assert (Hsave : 0 < save) by nia.
  assert (Hk64 : k <= 65).
  { destruct (Z_le_gt_dec k 65) as [Hle|Hgt]; [exact Hle|exfalso].
    assert (2 ^ 64 <= 2 ^ (k - 1))
      by (apply Z.pow_le_mono_r; lia).
    unfold SIZE_MAX in *. nia. }
  unfold fillbuf_grow in H. rewrite bind_get in H. cbv beta in H.
  rewrite bind_modify in H. cbv beta in H.
  unfold fillbuf_growth in H.
  rewrite (grow_bufsalloc_exact save (ALIGN_TO save (pagesize s)) 65
             (bufsalloc s) k) in H;
    [|lia|change (Z.of_nat 65) with 65; lia|intros _; lia|lia].
  pose proof (round_up_spec save (pagesize s) (proj1 Hps) ltac:(lia))
    as [Hru Hrd].
  (* the aligned save did not wrap around *)
  assert (Hal : ALIGN_TO save (pagesize s) = round_up save (pagesize s)
                /\ round_up save (pagesize s) <= SIZE_MAX).
  { destruct (bufsalloc s * 2 ^ k <=? SIZE_MAX) eqn:Ed.
    - apply Z.leb_le in Ed.
      assert (Hr : round_up save (pagesize s) <= bufsalloc s * 2 ^ k).
      { apply round_up_le_multiple; [lia|lia|].
        apply Z.divide_mul_l. exact Hdiv. }
      split; [|lia]. apply ALIGN_TO_round_up; lia.
    - assert (Hle : save <= ALIGN_TO save (pagesize s)).
      { match type of H with
        | context [if ?c then mkgrowth _ _ _ else _] => destruct c
        end; cbn [g_bufsalloc g_newalloc g_maxalloc] in H;
          match type of H with
          | (if ?c then _ else _) _ = _ =>
              destruct c eqn:Ec; [discriminate|]
          end;
          apply orb_false_elim in Ec; destruct Ec as [Ec _];
          apply orb_false_elim in Ec; destruct Ec as [Ec _];
          apply Z.ltb_ge in Ec; exact Ec. }
      assert (E : ALIGN_TO save (pagesize s) = round_up save (pagesize s))
        by (apply ALIGN_TO_no_wrap; lia).
      split; [exact E|]. rewrite <- E.
      unfold ALIGN_TO. destruct (save mod pagesize s =? 0); [lia|].
      apply wrap_range. }
  destruct Hal as [Hal Hamax]. rewrite Hal in H.
  cbv zeta.
  set (aligned := round_up save (pagesize s)) in *.
  set (grown := if bufsalloc s * 2 ^ k <=? SIZE_MAX
                then bufsalloc s * 2 ^ k else aligned) in *.
  set (maxalloc := fillbuf_maxalloc (pagesize s) aligned st (bufoffset s))
    in *.
  assert (Hg : save <= grown <= SIZE_MAX /\ (pagesize s | grown)).
  { subst grown. destruct (bufsalloc s * 2 ^ k <=? SIZE_MAX) eqn:Ed.
    - apply Z.leb_le in Ed. split; [lia|].
      apply Z.divide_mul_l. exact Hdiv.
    - split; [lia|exact Hrd]. }
  assert (Hnew : 0 <= wrap (PREFERRED_SAVE_FACTOR * grown) <= SIZE_MAX)
    by apply wrap_range.
  assert (Hnoreg : S_ISREG (st_mode st) = false -> maxalloc = SIZE_MAX).
  { intros Hr. subst maxalloc. unfold fillbuf_maxalloc. rewrite Hr.
    reflexivity. }
  assert (Hreg : S_ISREG (st_mode st) = true ->
                 0 <= bufoffset s <= st_size st ->
                 st_size st + save + 2 * pagesize s < 2 ^ 63 ->
                 maxalloc
                 = aligned
                   + round_up (st_size st - bufoffset s) (pagesize s)).
  { intros Hr Hoff Hsz. subst maxalloc.
    apply fillbuf_maxalloc_regular; try assumption; lia. }
  (* the two tests of fillbuf *)
  set (capped := maxalloc <? wrap (PREFERRED_SAVE_FACTOR * grown)) in *.
  set (nb := if capped then aligned else grown).
  set (na := if capped then maxalloc
             else wrap (PREFERRED_SAVE_FACTOR * grown)).
  assert (Hgr : (if capped
                 then mkgrowth aligned maxalloc maxalloc
                 else mkgrowth grown (wrap (PREFERRED_SAVE_FACTOR * grown))
                        maxalloc)
                = mkgrowth nb na maxalloc)
    by (subst nb na; destruct capped; reflexivity).
  rewrite Hgr in H. cbn [g_bufsalloc g_newalloc g_maxalloc] in H.
  assert (Hnb : save <= nb <= SIZE_MAX /\ (pagesize s | nb)).
  { subst nb. destruct capped; [|exact Hg]. split; [lia|exact Hrd]. }
  assert (Hcap : S_ISREG (st_mode st) = false -> capped = false).
  { intros Hr. subst capped. rewrite (Hnoreg Hr). apply Z.ltb_ge. lia. }
  assert (Hone : S_ISREG (st_mode st) = true ->
                 0 <= bufoffset s <= st_size st ->
                 st_size st + save + 2 * pagesize s < 2 ^ 63 ->
                 maxalloc
                 = aligned
                   + round_up (st_size st - bufoffset s) (pagesize s)
                 /\ (capped = true ->
                     na - nb < st_size st - bufoffset s + pagesize s)).
  { intros Hr Hoff Hsz. split; [apply Hreg; assumption|].
    intros Ec. subst na nb. rewrite Ec. rewrite (Hreg Hr Hoff Hsz).
    pose proof (round_up_spec (st_size st - bufoffset s) (pagesize s)
                  (proj1 Hps) ltac:(lia)) as [Hrt _].
    lia. }
  match type of H with
  | (if ?c then _ else _) _ = _ => destruct c; [discriminate|]
  end.
  destruct (bufalloc s <? na) eqn:Eb.
  - apply Z.ltb_lt in Eb.
    rewrite bind_modify in H. cbv beta in H.
    destruct (page_alloc w (pagesize s) (wrap (na + 1))) as [b|] eqn:Ep;
      [|discriminate].
    unfold modify in H. injection H as <-.
    cbn [bufsalloc bufalloc buffer pagesize bufoffset
         set_buffer set_bufalloc set_bufsalloc].
    split; [reflexivity|]. split; [exact (proj1 Hnb)|].
    split; [exact (proj2 Hnb)|]. split; [lia|].
    split; [exact Hcap|]. split; [exact Hone|].
    split; [|lia]. intros _.
    unfold page_alloc in Ep.
    destruct (wrap (na + 1) <=? _); [|discriminate].
    destruct (w_alloc w _) as [p|]; [|discriminate].
    injection Ep as <-. exists p. split; [reflexivity|].
    intros Hp0 Hp1'.
    pose proof (round_up_spec p (pagesize s) (proj1 Hps) Hp0) as [Hr Hdv].
    rewrite ALIGN_TO_round_up; try lia. exact Hdv.
  - apply Z.ltb_ge in Eb. unfold ret in H. injection H as <-.
    cbn [bufsalloc bufalloc buffer pagesize bufoffset
         set_buffer set_bufalloc set_bufsalloc].
    split; [reflexivity|]. split; [exact (proj1 Hnb)|].
    split; [exact (proj2 Hnb)|]. split; [lia|].
    split; [exact Hcap|]. split; [exact Hone|].
    split; [lia|]. reflexivity.
Qed.

(** ** Memory safety of the scanner over whole-line matchers *)

Lemma byte_at_nth_error (buf : list ascii) (q : nat) :
  (q < List.length buf)%nat -> nth_error buf q = Some (byte_at buf q).
Proof.
  intros H. unfold byte_at. apply nth_error_nth'. exact H.
Qed.

Lemma nth_error_byte_at (buf : list ascii) (q : nat) (c : ascii) :
  nth_error buf q = Some c -> byte_at buf q = c.
Proof.
  intros H. unfold byte_at. apply nth_error_nth. exact H.
Qed.

Lemma bol_0 (eol : ascii) (buf : list ascii) : bol eol buf 0.
Proof.
  split; [lia|left; reflexivity].
Qed.

(** Below a line boundary [lim], [memchr] finds an end of line, and the
    byte after it is a line boundary in turn. *)
Lemma memchr_bol (eol : ascii) (buf : list ascii) (p lim : nat) :
  bol eol buf lim -> (p < lim)%nat ->
  exists q,
    memchr buf p eol (lim - p) = Some q
    /\ (p <= q < lim)%nat /\ bol eol buf (S q).
Proof.
  intros [Hl [H0|He]] Hp; [lia|].
  destruct (memchr_finds buf eol (lim - p) p (lim - 1)) as [q Hq].
  - lia.
  - rewrite byte_at_nth_error by lia. rewrite He. reflexivity.
  - intros i Hi. rewrite byte_at_nth_error by lia. discriminate.
  - exists q. split; [exact Hq|].
    apply memchr_some in Hq. destruct Hq as [Hr Hn].
    split; [lia|]. split; [lia|]. right.
    replace (S q - 1)%nat with q by lia.
    apply nth_error_byte_at. exact Hn.
Qed.

(** [back_to_bol] stops at the nearest line boundary at or below [p],
    not below [bp]. *)
Lemma back_to_bol_spec (eol : ascii) (buf : list ascii) (bp : nat)
  (fuel : nat) :
  forall p,
    (bp <= p)%nat -> (p <= List.length buf)%nat -> (p - bp <= fuel)%nat ->
    bol eol buf bp ->
    let r := back_to_bol fuel buf eol bp p in
    (bp <= r <= p)%nat /\ bol eol buf r
    /\ (forall q, (r < q <= p)%nat -> ~ bol eol buf q).
Proof.
  induction fuel as [|fuel IH]; intros p Hbp Hlen Hf Hb; cbn [back_to_bol].
  - assert (p = bp) by lia. subst p. cbn zeta.
    split; [lia|]. split; [exact Hb|]. intros q Hq. lia.
  - destruct (Nat.ltb bp p) eqn:E1; cbn [andb].
    + apply Nat.ltb_lt in E1.
      destruct (Ascii.eqb (byte_at buf (p - 1)) eol) eqn:E2; cbn [negb].
      * apply Ascii.eqb_eq in E2. cbn zeta.
        split; [lia|]. split; [split; [lia|right; exact E2]|].
        intros q Hq. lia.
      * apply Ascii.eqb_neq in E2.
        destruct (IH (p - 1)%nat) as (Hr & Hbr & Hno); try lia; auto.
        cbn zeta. split; [lia|]. split; [exact Hbr|].
        intros q Hq [_ [Hq0|Hqe]]; [lia|].
        destruct (Nat.eq_dec q p) as [->|Hne]; [contradiction|].
        apply (Hno q); [lia|]. split; [lia|right; exact Hqe].
    + apply Nat.ltb_ge in E1. assert (p = bp) by lia. subst p. cbn zeta.
      split; [lia|]. split; [exact Hb|]. intros q Hq. lia.
Qed.

Lemma last_eol_spec (cfg : config) (buf : list ascii) (beg : nat)
  (fuel : nat) :
  forall lim,
    (beg <= lim)%nat -> (lim <= List.length buf)%nat ->
    (lim - beg <= fuel)%nat ->
    bol (eolbyte cfg) buf beg ->
    (beg <= last_eol cfg fuel buf beg lim <= lim)%nat
    /\ bol (eolbyte cfg) buf (last_eol cfg fuel buf beg lim).
Proof.
  induction fuel as [|fuel IH]; intros lim Hb Hl Hf Hbol; cbn [last_eol].
  - assert (lim = beg) by lia. subst lim. split; [lia|exact Hbol].
  - destruct (Nat.ltb beg lim) eqn:E1; cbn [andb].
    + apply Nat.ltb_lt in E1.
      destruct (Ascii.eqb (byte_at buf (lim - 1)) (eolbyte cfg)) eqn:E2;
        cbn [negb].
      * apply Ascii.eqb_eq in E2. split; [lia|].
        split; [lia|right; exact E2].
      * destruct (IH (lim - 1)%nat) as [Hr Hbr]; try lia; auto.
        split; [lia|exact Hbr].
    + apply Nat.ltb_ge in E1. assert (lim = beg) by lia. subst lim.
      split; [lia|exact Hbol].
Qed.

Lemma slice_length (buf : list ascii) (p lim : nat) :
  (p <= lim)%nat -> (lim <= List.length buf)%nat ->
  List.length (slice buf p lim) = (lim - p)%nat.
Proof.
  intros Hp Hl. unfold slice. rewrite length_firstn, length_skipn. lia.
Qed.

Lemma slice_byte_at (buf : list ascii) (p lim i : nat) :
  (i < lim - p)%nat ->
  byte_at (slice buf p lim) i = byte_at buf (p + i).
Proof.
  intros Hi. unfold byte_at, slice.
  rewrite nth_firstn.
  destruct (Nat.ltb i (lim - p)) eqn:E; [|apply Nat.ltb_ge in E; lia].
  rewrite nth_skipn. reflexivity.
Qed.

Lemma slice_complete (eol : ascii) (buf : list ascii) (p lim : nat) :
  (p <= lim)%nat -> bol eol buf lim -> complete eol (slice buf p lim).
Proof.
  intros Hp [Hl Hb]. unfold complete. rewrite slice_length by lia.
  split; [rewrite slice_length by lia; lia|].
  destruct (Nat.eq_dec lim p) as [->|Hne]; [left; lia|]. right.
  rewrite slice_byte_at by lia.
  destruct Hb as [->|Hb]; [lia|].
  replace (p + (lim - p - 1))%nat with (lim - 1)%nat by lia. exact Hb.
Qed.

Lemma slice_bol (eol : ascii) (buf : list ascii) (p lim off : nat) :
  (p <= lim)%nat -> (lim <= List.length buf)%nat ->
  bol eol buf p -> bol eol (slice buf p lim) off ->
  bol eol buf (p + off) /\ (p + off <= lim)%nat.
Proof.
  intros Hp Hl Hbp [Ho Hb]. rewrite slice_length in Ho by lia.
  split; [|lia].
  destruct (Nat.eq_dec off 0) as [->|Hne];
    [rewrite Nat.add_0_r; exact Hbp|].
  destruct Hb as [->|Hb]; [contradiction|].
  split; [lia|]. right.
  rewrite slice_byte_at in Hb by lia.
  replace (p + off - 1)%nat with (p + (off - 1))%nat by lia. exact Hb.
Qed.

(** A line boundary survives the move of the saved bytes to the front of
    the buffer and what is read after them. *)
Lemma bol_refill (eol : ascii) (buf chunk : list ascii) (beg lim : nat) :
  (beg <= lim)%nat -> bol eol buf lim ->
  bol eol (skipn beg buf ++ chunk) (lim - beg).
Proof.
  intros Hb [Hl Hq]. split.
  - rewrite length_app, length_skipn. lia.
  - destruct (Nat.eq_dec lim beg) as [->|Hne]; [left; lia|]. right.
    destruct Hq as [->|Hq]; [lia|].
    unfold byte_at in *. rewrite app_nth1 by (rewrite length_skipn; lia).
    rewrite nth_skipn.
    replace (beg + (lim - beg - 1))%nat with (lim - 1)%nat by lia.
    exact Hq.
Qed.

(** Line boundaries of the buffer once the missing end of line of the
    last line is put after it. *)
Lemma bol_snoc (eol : ascii) (buf : list ascii) (q : nat) :
  bol eol buf q -> bol eol (buf ++ [eol]) q.
Proof.
  intros [Hl Hq]. split; [rewrite length_app; lia|].
  destruct Hq as [->|Hq]; [left; reflexivity|].
  destruct (Nat.eq_dec q 0) as [->|Hne]; [left; reflexivity|]. right.
  unfold byte_at in *. rewrite app_nth1 by lia. exact Hq.
Qed.

Lemma bol_snoc_end (eol : ascii) (buf : list ascii) :
  bol eol (buf ++ [eol]) (List.length (buf ++ [eol])).
Proof.
  split; [lia|]. right. rewrite length_app. cbn [List.length].
  unfold byte_at. rewrite app_nth2 by lia.
  replace (List.length buf + 1 - 1 - List.length buf)%nat with O by lia.
  reflexivity.
Qed.

Section Safety.

Variable cfg : config.
Variable w : world.

Lemma nlscan_loop_safe (fuel : nat) :
  forall beg lim s,
    (beg <= lim)%nat ->
    bol (eolbyte cfg) (bufdata s) lim ->
    post ok_safe
      (fun _ s' => bufdata s' = bufdata s /\ lastout s' = lastout s
                   /\ lastnl s' = lastnl s)
      (nlscan_loop cfg fuel beg lim s).
Proof.
  induction fuel as [|fuel IH]; intros beg lim s Hb Hl;
    cbn [nlscan_loop]; destruct (Nat.eqb beg lim) eqn:E; mred; auto;
    [exact I|].
  apply Nat.eqb_neq in E. cbn [bufdata set_totalnl].
  destruct (memchr_bol (eolbyte cfg) (bufdata s) beg lim Hl ltac:(lia))
    as (q & Hq & Hr & Hbq).
  rewrite Hq.
  eapply post_weaken; [apply IH; [lia|exact Hl]| |auto].
  cbn beta. intros _ s' H. exact H.
Qed.

Lemma nlscan_safe (lim : nat) (s : state) :
  (lastnl s <= lim)%nat ->
  bol (eolbyte cfg) (bufdata s) lim ->
  post ok_safe
    (fun _ s' => bufdata s' = bufdata s /\ lastout s' = lastout s
                 /\ lastnl s' = lim)
    (nlscan cfg lim s).
Proof.
  intros Hn Hl. unfold nlscan. mred.
  eapply post_bind; [apply nlscan_loop_safe; [exact Hn|exact Hl]|].
  cbn beta. intros _ s' (B & L & N). mred. cbn. auto.
Qed.

Lemma prline_safe (buf : list ascii) (beg lim : nat) (sep : ascii)
  (s : state) :
  scan_inv cfg buf s ->
  (ptr_or_bufbeg (lastout s) <= beg)%nat ->
  bol (eolbyte cfg) buf beg ->
  (beg <= lim)%nat ->
  bol (eolbyte cfg) buf lim ->
  post ok_safe
    (fun _ s' => scan_inv cfg buf s' /\ lastout s' = Some lim)
    (prline cfg w beg lim sep s).
Proof.
  intros (B & N & L) Hlo Hbeg Hle Hlim. unfold prline. mred.
  eapply post_bind with
    (Q := fun _ s' => bufdata s' = buf /\ (lastnl s' <= beg)%nat).
  { apply post_when; intros _; mred; cbn; split; auto; lia. }
  cbn beta. intros _ s1 (B1 & N1).
  eapply post_bind with
    (Q := fun _ s' => bufdata s' = buf /\ (lastnl s' <= lim)%nat).
  { apply post_when; intros _; [|split; [auto|lia]].
    eapply post_bind;
      [apply nlscan_safe; [exact N1|rewrite B1; exact Hbeg]|].
    cbn beta. intros _ s2 (B2 & L2 & N2). mred.
    unfold print_offset_sep. mred. cbn. split; [congruence|lia]. }
  cbn beta. intros _ s2 (B2 & N2).
  eapply post_bind with
    (Q := fun _ s' => bufdata s' = buf /\ (lastnl s' <= lim)%nat).
  { apply post_when; intros _; [|auto]. mred.
    unfold print_offset_sep. mred. cbn. auto. }
  cbn beta. intros _ s3 (B3 & N3). mred.
  eapply post_bind with
    (Q := fun _ s' => bufdata s' = buf /\ (lastnl s' <= lim)%nat).
  { apply post_when; intros _; mred; cbn; auto. }
  cbn beta. intros _ s4 (B4 & N4). mred. cbn.
  split; [|reflexivity]. split; [exact B4|]. split; [exact N4|exact Hlim].
Qed.

Lemma prpending_loop_safe (buf : list ascii) (fuel : nat) :
  forall lim s,
    scan_inv cfg buf s ->
    bol (eolbyte cfg) buf lim ->
    post ok_safe
      (fun _ s' =>
         scan_inv cfg buf s'
         /\ ((ptr_or_bufbeg (lastout s) <= lim)%nat ->
             (ptr_or_bufbeg (lastout s') <= lim)%nat))
      (prpending_loop cfg w fuel lim s).
Proof.
  induction fuel as [|fuel IH]; intros lim s Hinv Hlim;
    cbn [prpending_loop]; mred;
    destruct ((0 <? pending s) && Nat.ltb (ptr_or_bufbeg (lastout s)) lim)
      eqn:C; mred; auto; [exact I|].
  apply andb_prop in C. destruct C as [_ C]. apply Nat.ltb_lt in C.
  pose proof Hinv as (B & N & L). rewrite B.
  destruct (memchr_bol (eolbyte cfg) buf (ptr_or_bufbeg (lastout s)) lim
              Hlim C) as (nl & Hq & Hr & Hbq).
  rewrite Hq. mred.
  match goal with
  | |- context [if ?b then _ else _] => destruct b
  end.
  - eapply post_bind.
    { apply prline_safe with (buf := buf).
      - exact Hinv.
      - cbn. lia.
      - exact L.
      - lia.
      - exact Hbq. }
    cbn beta. intros _ s1 (I1 & L1).
    eapply post_weaken; [apply IH; [exact I1|exact Hlim]| |auto].
    cbn beta. intros _ s2 (I2 & H2). split; [exact I2|].
    intros _. apply H2. rewrite L1. cbn. lia.
  - mred.
    eapply post_weaken; [apply IH; [exact Hinv|exact Hlim]| |auto].
    cbn beta. intros _ s2 (I2 & H2). split; [exact I2|exact H2].
Qed.

Lemma prpending_safe (buf : list ascii) (lim : nat) (s : state) :
  scan_inv cfg buf s ->
  bol (eolbyte cfg) buf lim ->
  post ok_safe
    (fun _ s' =>
       scan_inv cfg buf s'
       /\ ((ptr_or_bufbeg (lastout s) <= lim)%nat ->
           (ptr_or_bufbeg (lastout s') <= lim)%nat))
    (prpending cfg w lim s).
Proof.
  intros Hinv Hlim. unfold prpending. mred.
  destruct (lastout s) as [lo|] eqn:L; mred.
  - eapply post_weaken;
      [apply (prpending_loop_safe buf _ lim s Hinv Hlim)| |auto].
    cbn beta. intros _ s' (I' & H'). rewrite L in H'. auto.
  - assert (Hinv' : scan_inv cfg buf (set_lastout (Some 0%nat) s)).
    { destruct Hinv as (B & N & Lb). rewrite L in N, Lb.
      split; [exact B|]. split; [exact N|exact Lb]. }
    eapply post_weaken;
      [apply (prpending_loop_safe buf _ lim _ Hinv' Hlim)| |auto].
    cbn beta. intros _ s' (I' & H'). split; [exact I'|].
    intros _. apply H'. cbn. lia.
Qed.

Ltac sides :=
  repeat (split; [solve [auto | lia]|]); solve [auto | lia].

Lemma leading_context_start_spec (buf : list ascii) (bp : nat) (i : nat) :
  forall p,
    (bp <= p)%nat -> (p <= List.length buf)%nat ->
    bol (eolbyte cfg) buf bp -> bol (eolbyte cfg) buf p ->
    (bp <= leading_context_start cfg i buf bp p <= p)%nat
    /\ bol (eolbyte cfg) buf (leading_context_start cfg i buf bp p).
Proof.
  induction i as [|i IH]; intros p Hbp Hl Hb Hp;
    cbn [leading_context_start]; [split; [lia|exact Hp]|].
  destruct (Nat.ltb bp p) eqn:E.
  - apply Nat.ltb_lt in E.
    destruct (back_to_bol_spec (eolbyte cfg) buf bp p (p - 1)%nat)
      as (Hr & Hbr & _); try lia; auto.
    destruct (IH (back_to_bol p buf (eolbyte cfg) bp (p - 1))) as [H1 H2];
      try lia; auto.
    split; [lia|exact H2].
  - destruct (IH p) as [H1 H2]; auto.
Qed.

Lemma leading_context_loop_safe (buf : list ascii) (fuel : nat) :
  forall p beg s,
    scan_inv cfg buf s ->
    (ptr_or_bufbeg (lastout s) <= p)%nat ->
    bol (eolbyte cfg) buf p ->
    (p <= beg)%nat ->
    bol (eolbyte cfg) buf beg ->
    post ok_safe
      (fun r s' => r = beg /\ scan_inv cfg buf s'
                   /\ (ptr_or_bufbeg (lastout s') <= beg)%nat)
      (leading_context_loop cfg w fuel p beg s).
Proof.
  induction fuel as [|fuel IH]; intros p beg s Hinv Hlo Hp Hle Hbeg;
    cbn [leading_context_loop]; destruct (Nat.ltb p beg) eqn:C; mred;
    try (apply Nat.ltb_ge in C; split; [lia|split; [exact Hinv|lia]]);
    [exact I|].
  apply Nat.ltb_lt in C. pose proof Hinv as (B & N & L). rewrite B.
  destruct (memchr_bol (eolbyte cfg) buf p beg Hbeg C)
    as (nl & Hq & Hr & Hbq).
  rewrite Hq.
  eapply post_bind.
  { apply prline_safe with (buf := buf); auto. lia. }
  cbn beta. intros _ s1 (I1 & L1).
  apply IH; auto; try lia. rewrite L1. cbn. lia.
Qed.

Lemma count_loop_safe (buf : list ascii) (fuel : nat) :
  forall p lim n s,
    scan_inv cfg buf s ->
    (ptr_or_bufbeg (lastout s) <= p)%nat ->
    bol (eolbyte cfg) buf p ->
    (p <= lim)%nat ->
    bol (eolbyte cfg) buf lim ->
    post ok_safe
      (fun _ s' => scan_inv cfg buf s'
                   /\ (ptr_or_bufbeg (lastout s') <= lim)%nat)
      (count_loop cfg w fuel p lim n s).
Proof.
  induction fuel as [|fuel IH]; intros p lim n s Hinv Hlo Hp Hle Hlim;
    cbn [count_loop]; mred;
    destruct (Nat.ltb p lim && (n <? outleft s)) eqn:C; mred;
    try (split; [exact Hinv|lia]); [exact I|].
  apply andb_prop in C. destruct C as [C _]. apply Nat.ltb_lt in C.
  pose proof Hinv as (B & N & L). rewrite B.
  destruct (memchr_bol (eolbyte cfg) buf p lim Hlim C)
    as (nl & Hq & Hr & Hbq).
  rewrite Hq.
  eapply post_bind with
    (Q := fun _ s1 => scan_inv cfg buf s1
                      /\ (ptr_or_bufbeg (lastout s1) <= S nl)%nat).
  { apply post_when; intros _.
    - eapply post_weaken;
        [apply prline_safe with (buf := buf); auto; lia| |auto].
      cbn beta. intros _ s1 (I1 & L1). split; [exact I1|].
      rewrite L1. cbn. lia.
    - split; [exact Hinv|lia]. }
  cbn beta. intros _ s1 (I1 & L1).
  apply IH; auto. lia.
Qed.

Lemma prtext_safe (buf : list ascii) (beg lim : nat) (nlinesp : bool)
  (s : state) :
  scan_inv cfg buf s ->
  (ptr_or_bufbeg (lastout s) <= beg)%nat ->
  bol (eolbyte cfg) buf beg ->
  (beg <= lim)%nat ->
  bol (eolbyte cfg) buf lim ->
  post ok_safe
    (fun _ s' => scan_inv cfg buf s'
                 /\ (ptr_or_bufbeg (lastout s') <= lim)%nat)
    (prtext cfg w beg lim nlinesp s).
Proof.
  intros Hinv Hlo Hbeg Hle Hlim. unfold prtext. mred.
  eapply post_bind with
    (Q := fun _ s1 => scan_inv cfg buf s1
                      /\ (ptr_or_bufbeg (lastout s1) <= beg)%nat).
  { apply post_when; intros _; [|auto].
    eapply post_weaken; [apply (prpending_safe buf beg s Hinv Hbeg)| |auto].
    cbn beta. intros _ s1 (I1 & H1). auto. }
  cbn beta. intros _ s1 (I1 & L1). mred.
  eapply post_bind with
    (Q := fun p s2 => p = beg /\ scan_inv cfg buf s2
                      /\ (ptr_or_bufbeg (lastout s2) <= beg)%nat).
  { destruct (negb (nz (out_quiet s1))); [|mred; auto].
    pose proof I1 as (B1 & N1 & Lb1).
    destruct (leading_context_start_spec buf (ptr_or_bufbeg (lastout s1))
                (Z.to_nat (out_before cfg)) beg) as [Hs Hbs]; auto.
    { destruct Hbeg; auto. }
    rewrite B1.
    eapply post_bind with
      (Q := fun _ s2 => scan_inv cfg buf s2
                        /\ lastout s2 = lastout s1).
    { apply post_when; intros _; mred; [|auto].
      split; [|reflexivity]. exact I1. }
    cbn beta. intros _ s2 (I2 & L2).
    apply leading_context_loop_safe; auto; try lia.
    rewrite L2. lia. }
  cbn beta. intros p s2 (-> & I2 & L2).
  eapply post_bind with
    (Q := fun _ s3 => scan_inv cfg buf s3
                      /\ (ptr_or_bufbeg (lastout s3) <= lim)%nat).
  { destruct nlinesp.
    - eapply post_bind; [apply count_loop_safe with (buf := buf); auto|].
      cbn beta. intros np s3 (I3 & L3). mred. auto.
    - mred.
      eapply post_bind with
        (Q := fun _ s3 => scan_inv cfg buf s3
                          /\ (ptr_or_bufbeg (lastout s3) <= lim)%nat).
      + apply post_when; intros _.
        * eapply post_weaken;
            [apply prline_safe with (buf := buf); auto| |auto].
          cbn beta. intros _ s3 (I3 & L3). split; [exact I3|].
          rewrite L3. cbn. lia.
        * split; [exact I2|lia].
      + cbn beta. intros _ s3 H3. mred. exact H3. }
  cbn beta. intros n s3 (I3 & L3). mred. cbn. auto.
Qed.

Lemma grepbuf_loop_safe (buf : list ascii) (fuel : nat) :
  on_lines (eolbyte cfg) (execute cfg) ->
  forall lim p nlines s,
    scan_inv cfg buf s ->
    (ptr_or_bufbeg (lastout s) <= p)%nat ->
    bol (eolbyte cfg) buf p ->
    (p <= lim)%nat ->
    bol (eolbyte cfg) buf lim ->
    post ok_safe
      (fun r s' =>
         scan_inv cfg buf s'
         /\ (ptr_or_bufbeg (lastout s') <= lim)%nat
         /\ match r with
            | LoopDone p' _ =>
                (ptr_or_bufbeg (lastout s') <= p')%nat
                /\ bol (eolbyte cfg) buf p' /\ (p' <= lim)%nat
            | LoopReturn _ => True
            end)
      (grepbuf_loop cfg w fuel lim p nlines s).
Proof.
  intros Hm.
  induction fuel as [|fuel IH]; intros lim p nlines s Hinv Hlo Hp Hle Hlim;
    cbn [grepbuf_loop]; [exact I|].
  mred. pose proof Hinv as (B & N & L). rewrite B.
  destruct (execute cfg (slice buf p lim)) as [[off sz]|] eqn:Ex;
    [|mred; sides].
  destruct (Hm _ _ _ (slice_complete (eolbyte cfg) buf p lim Hle Hlim) Ex)
    as [Hb He].
  destruct Hlim as [Hll Hlb].
  destruct (slice_bol (eolbyte cfg) buf p lim off Hle Hll Hp Hb)
    as [Hbb Hbl].
  destruct (slice_bol (eolbyte cfg) buf p lim (off + sz) Hle Hll Hp He)
    as [Hbe Hel].
  rewrite Nat.add_assoc in Hbe, Hel.
  assert (Hlim : bol (eolbyte cfg) buf lim) by (split; assumption).
  destruct (Nat.eqb (p + off) lim); [mred; sides|].
  destruct (negb (nz (out_invert cfg))).
  - eapply post_bind;
      [apply prtext_safe with (buf := buf); auto; lia|].
    cbn beta. intros _ s1 (I1 & L1). mred.
    cbn [outleft done_on_match set_outleft bufoffset bufdata].
    assert (I1' : scan_inv cfg buf (set_outleft (outleft s1 - 1) s1))
      by exact I1.
    destruct (negb (nz (outleft s1 - 1)) || nz (done_on_match s1)).
    + destruct (nz (exit_on_match cfg)); mred; [exact I|].
      cbn. repeat split; try apply I1. cbn. lia.
    + apply IH; auto.
  - destruct (Nat.ltb p (p + off)).
    + eapply post_bind;
        [apply prtext_safe with (buf := buf); auto; lia|].
      cbn beta. intros n s1 (I1 & L1). mred.
      cbn [outleft set_outleft].
      assert (I1' : scan_inv cfg buf (set_outleft (outleft s1 - n) s1))
        by exact I1.
      destruct (negb (nz (outleft s1 - n))); mred.
      * repeat split; try apply I1. cbn. lia.
      * apply IH; auto. cbn. lia.
    + apply IH; auto. lia.
Qed.

Lemma grepbuf_safe (buf : list ascii) (fuel : nat) (beg lim : nat)
  (s : state) :
  on_lines (eolbyte cfg) (execute cfg) ->
  scan_inv cfg buf s ->
  (ptr_or_bufbeg (lastout s) <= beg)%nat ->
  bol (eolbyte cfg) buf beg ->
  (beg <= lim)%nat ->
  bol (eolbyte cfg) buf lim ->
  post ok_safe
    (fun _ s' => scan_inv cfg buf s'
                 /\ (ptr_or_bufbeg (lastout s') <= lim)%nat)
    (grepbuf cfg w fuel beg lim s).
Proof.
  intros Hm Hinv Hlo Hbeg Hle Hlim. unfold grepbuf.
  eapply post_bind; [apply grepbuf_loop_safe with (buf := buf); auto|].
  cbn beta. intros [p nlines|nlines] s1 (I1 & L1 & H1); [|mred; auto].
  destruct H1 as (Lp & Hp & Hpl).
  destruct (nz (out_invert cfg) && Nat.ltb p lim); [|mred; auto].
  eapply post_bind; [apply prtext_safe with (buf := buf); auto|].
  cbn beta. intros n s2 (I2 & L2). mred. cbn. auto.
Qed.

(** The leading context that grep keeps for the next buffer starts at a
    line boundary, not before the end of the last output. *)
Lemma context_reserve_spec (buf : list ascii) (lo : option nat) (n : nat) :
  forall beg,
    (ptr_or_bufbeg lo <= beg)%nat ->
    bol (eolbyte cfg) buf (ptr_or_bufbeg lo) ->
    bol (eolbyte cfg) buf beg ->
    (ptr_or_bufbeg lo <= context_reserve cfg n buf lo beg <= beg)%nat
    /\ bol (eolbyte cfg) buf (context_reserve cfg n buf lo beg).
Proof.
  induction n as [|n IH]; intros beg Hlo Hbl Hb; cbn [context_reserve];
    [split; [lia|exact Hb]|].
  destruct (Nat.ltb 0 beg && negb (ptr_eqb (Some beg) lo)) eqn:C;
    [|split; [lia|exact Hb]].
  apply andb_prop in C. destruct C as [C1 C2]. apply Nat.ltb_lt in C1.
  destruct Hb as [Hlen Hq].
  destruct (back_to_bol_spec (eolbyte cfg) buf 0 beg (beg - 1)%nat)
    as (Hr & Hbr & Hno); try lia; [apply bol_0|]. cbn zeta in *.
  assert (Hle : (ptr_or_bufbeg lo
                 <= back_to_bol beg buf (eolbyte cfg) 0 (beg - 1))%nat).
  { destruct lo as [l|]; cbn [ptr_or_bufbeg] in *; [|lia].
    cbn [ptr_eqb] in C2. apply negb_true_iff, Nat.eqb_neq in C2.
    destruct (Nat.le_gt_cases l
                (back_to_bol beg buf (eolbyte cfg) 0 (beg - 1)))
      as [H|H]; [exact H|].
    exfalso. apply (Hno l); [lia|exact Hbl]. }
  destruct (IH _ Hle Hbl Hbr) as [H1 H2].
  split; [lia|exact H2].
Qed.

Lemma fatal_safe {A} (Q : A -> state -> Prop) (mesg : string) (e : Z)
  (s : state) :
  post ok_safe Q (fatal mesg e s).
Proof.
  unfold fatal. mred. exact I.
Qed.

Lemma suppressible_error_safe (mesg : string) (e : Z) (s : state) :
  post ok_safe (fun _ _ => True) (suppressible_error cfg mesg e s).
Proof.
  unfold suppressible_error.
  destruct (negb (nz (suppress_errors cfg))); mred; exact I.
Qed.

Lemma finish_grep_safe (not_text nlines : Z) (s : state) :
  post ok_safe (fun _ _ => True) (finish_grep not_text nlines s).
Proof.
  unfold finish_grep. mred.
  match goal with
  | |- context [when ?b _] => destruct b
  end; mred; exact I.
Qed.

Lemma reset_safe (file : option string) (st : stat) (s : state) :
  post ok_safe
    (fun r _ => fst r <> 0 -> w_fstat w file = inr (snd r))
    (reset cfg w file st s).
Proof.
  unfold reset.
  eapply post_bind with (Q := fun _ _ => True).
  { unfold reset_buffer. mred.
    destruct (nz (pagesize s)); [mred; exact I|].
    unfold reset_first_time. mred.
    destruct (w_pagesize w =? 0); [mred; exact I|]. mred.
    match goal with
    | |- context [if ?b then _ else _] => destruct b
    end; [apply fatal_safe|].
    destruct (page_alloc w (w_pagesize w) _);
      [mred; exact I|apply fatal_safe]. }
  cbn beta. intros _ s1 _. mred.
  destruct (w_fstat w file) as [e|st'] eqn:Ef; mred; [intros H; lia|].
  destruct (directories_eqb (directories cfg) SKIP_DIRECTORIES
            && S_ISDIR (st_mode st')); [mred; intros H; lia|].
  destruct (S_ISREG (st_mode st')); [|mred; auto].
  destruct file as [f|]; [mred; auto|].
  destruct (w_lseek_cur w); mred; auto.
Qed.

(** What fillbuf leaves in the buffer: the last [save] bytes of what was
    there, then what [read] gave. *)
Lemma fillbuf_data (save : nat) (st : stat) (s : state) :
  post ok_safe
    (fun _ s' =>
       exists chunk,
         bufdata s'
         = skipn (List.length (bufdata s) - save) (bufdata s) ++ chunk)
    (fillbuf w save st s).
Proof.
  unfold fillbuf. mred.
  eapply post_bind with (Q := fun _ s1 => bufdata s1 = bufdata s).
  { apply post_when; intros _; [|reflexivity].
    unfold fillbuf_grow. mred.
    match goal with
    | |- context [if ?b then _ else _] => destruct b
    end; [apply fatal_safe|].
    match goal with
    | |- context [if ?b then _ else _] => destruct b
    end; [|mred; reflexivity].
    mred. destruct (page_alloc w _ _); [mred; reflexivity|apply fatal_safe]. }
  cbn beta. intros _ s1 B1. mred.
  destruct (sys_read _ _) as [[e|chunk] rest]; mred; cbn [bufdata].
  - exists []. rewrite app_nil_r. reflexivity.
  - exists chunk. reflexivity.
Qed.

(** The scanning loop of grep keeps [save - residue], where the part of
    the buffer not yet scanned starts, at a line boundary. *)
Lemma grep_loop_safe (fuel : nat) :
  on_lines (eolbyte cfg) (execute cfg) ->
  forall file st nlines residue save s,
    (residue <= save <= List.length (bufdata s))%nat ->
    bol (eolbyte cfg) (bufdata s) (save - residue) ->
    post ok_safe
      (fun r s' =>
         match r with
         | ScanBreak _ residue' save' =>
             (residue' <= save')%nat
             /\ save' = List.length (bufdata s')
             /\ bol (eolbyte cfg) (bufdata s') (save' - residue')
             /\ lastnl s' = O
             /\ ptr_or_bufbeg (lastout s') = O
         | ScanFinish _ => True
         end)
      (grep_loop cfg w fuel file st nlines residue save s).
Proof.
  intros Hm.
  induction fuel as [|fuel IH]; intros file st nlines residue save s Hrs Hb;
    cbn [grep_loop]; [exact I|].
  eapply post_bind with (Q := fun _ s1 => s1 = set_lastnl O s);
    [reflexivity|].
  cbn beta. intros _ s1 ->.
  eapply post_bind with
    (Q := fun _ s0 => bufdata s0 = bufdata s /\ lastnl s0 = O
                      /\ ptr_or_bufbeg (lastout s0) = O).
  { unfold modify. cbn.
    destruct (lastout s) eqn:El; cbn; rewrite ?El; auto. }
  cbn beta. intros _ s0 (B0 & N0 & L0). mred.
  rewrite B0. set (buf := bufdata s) in *.
  destruct (Nat.eqb (List.length buf) save) eqn:E.
  { mred. apply Nat.eqb_eq in E. rewrite B0. fold buf. sides. }
  destruct (last_eol_spec cfg buf (save - residue) (List.length buf)
              (List.length buf)) as [Hlim Hbl]; try lia; auto.
  set (lim := last_eol cfg (List.length buf) buf (save - residue)
                (List.length buf)) in *.
  assert (I0 : scan_inv cfg buf s0).
  { split; [exact B0|]. split; [lia|]. rewrite L0. apply bol_0. }
  eapply post_bind with
    (Q := fun _ s1 => scan_inv cfg buf s1
                      /\ (ptr_or_bufbeg (lastout s1) <= lim)%nat).
  { destruct (Nat.ltb (save - residue) lim) eqn:C;
      [|mred; split; [exact I0|lia]].
    apply Nat.ltb_lt in C.
    eapply post_bind with
      (Q := fun _ s1 => scan_inv cfg buf s1
                        /\ (ptr_or_bufbeg (lastout s1) <= lim)%nat).
    { destruct (nz (outleft s0)); [|mred; split; [exact I0|lia]].
      apply grepbuf_safe; auto; lia. }
    cbn beta. intros n s1 (I1 & L1). mred.
    eapply post_bind with
      (Q := fun _ s2 => scan_inv cfg buf s2
                        /\ (ptr_or_bufbeg (lastout s2) <= lim)%nat).
    { apply post_when; intros _; [|auto].
      eapply post_weaken; [apply (prpending_safe buf lim s1 I1 Hbl)| |auto].
      cbn beta. intros _ s2 (I2 & H2). auto. }
    cbn beta. intros _ s2 H2. mred. exact H2. }
  cbn beta. intros [nlines' finish] s1 (I1 & L1).
  destruct finish; [mred; exact I|]. mred.
  pose proof I1 as (B1 & N1 & Lb1). rewrite B1.
  destruct (context_reserve_spec buf (lastout s1)
              (Z.to_nat (out_before cfg)) lim L1 Lb1 Hbl) as [Hbeg Hbb].
  set (beg := context_reserve cfg (Z.to_nat (out_before cfg)) buf
                (lastout s1) lim) in *.
  eapply post_bind with
    (Q := fun _ s2 => bufdata s2 = buf /\ (lastnl s2 <= beg)%nat).
  { apply post_when; intros _; mred; cbn; split; auto; lia. }
  cbn beta. intros _ s2 (B2 & N2). mred.
  eapply post_bind with (Q := fun _ s3 => bufdata s3 = buf).
  { apply post_when; intros _; [|exact B2].
    eapply post_weaken; [apply nlscan_safe| |auto].
    - exact N2.
    - cbn [bufdata set_totalcc]. rewrite B2. exact Hbb.
    - cbn beta. intros _ s3 (B3 & _). rewrite B3. exact B2. }
  cbn beta. intros _ s3 B3.
  eapply post_bind; [apply fillbuf_data|].
  cbn beta. intros cc s4 (chunk & B4).
  destruct (cc =? 0).
  - mred.
    eapply post_bind with (Q := fun _ _ => True).
    { apply post_when; intros _; [apply suppressible_error_safe|exact I]. }
    cbn beta. intros _ s5 _. mred. exact I.
  - rewrite B3 in B4.
    replace (List.length buf - (List.length buf - lim + lim - beg))%nat
      with beg in B4 by lia.
    apply IH.
    + rewrite B4, length_app, length_skipn. lia.
    + rewrite B4.
      replace (List.length buf - lim + lim - beg
               - (List.length buf - lim))%nat with (lim - beg)%nat by lia.
      apply bol_refill; [lia|exact Hbl].
Qed.

(** A search of one file, over a walker that is safe, is safe. *)
Lemma grep_safe (grepdir : grepdir_t) (fuel : nat) (file : option string)
  (st : stat) (anc : list stat) (s : state) :
  on_lines (eolbyte cfg) (execute cfg) ->
  (forall f st' s',
      w_fstat w (Some f) = inr st' ->
      post ok_safe (fun _ _ => True) (grepdir f st' anc s')) ->
  post ok_safe (fun _ _ => True) (grep cfg w grepdir fuel file st anc s).
Proof.
  intros Hm Hdir. unfold grep.
  eapply post_bind; [apply reset_safe|].
  cbn beta. intros [ok st'] s1 Hok. cbn [fst snd] in Hok.
  destruct (ok =? 0) eqn:Eok; [mred; exact I|].
  apply Z.eqb_neq in Eok. specialize (Hok Eok).
  match goal with
  | |- post _ _ (match ?x with _ => _ end _) => destruct x as [f|] eqn:Erec
  end.
  - assert (file = Some f) as ->.
    { destruct file as [f'|]; [|discriminate].
      destruct (_ && _); congruence. }
    eapply post_bind with (Q := fun _ _ => True).
    { destruct (w_close w f); mred; exact I. }
    cbn beta. intros _ s2 _.
    eapply post_bind; [apply Hdir; exact Hok|].
    cbn beta. intros status s3 _. mred. exact I.
  - mred.
    eapply post_bind; [apply fillbuf_data|].
    cbn beta. intros cc s2 _.
    destruct (cc =? 0).
    { mred.
      eapply post_bind with (Q := fun _ _ => True).
      { apply post_when; intros _; [apply suppressible_error_safe|exact I]. }
      cbn beta. intros _ s3 _. mred. exact I. }
    mred.
    match goal with
    | |- context [if ?b then ret (0, st') else _] => destruct b
    end; [mred; exact I|].
    mred.
    eapply post_bind.
    { apply (grep_loop_safe fuel Hm); [cbn; lia|apply bol_0]. }
    cbn beta. intros [nlines residue save|nlines] s3 H3.
    + destruct H3 as (Hrs & Hsv & Hb & N3 & L3).
      eapply post_bind with (Q := fun _ _ => True);
        [|cbn beta; intros n s4 _;
          eapply post_bind; [apply finish_grep_safe|];
          cbn beta; intros n' s5 _; mred; exact I].
      destruct (Nat.ltb 0 residue); [|mred; exact I].
      mred. cbn [bufdata set_bufdata outleft pending].
      set (buf := bufdata s3 ++ [eolbyte cfg]).
      set (s4 := set_bufdata buf s3).
      assert (I4 : scan_inv cfg buf s4).
      { split; [reflexivity|]. cbn. split; [lia|].
        rewrite L3. apply bol_0. }
      eapply post_bind with
        (Q := fun _ s5 => scan_inv cfg buf s5).
      { destruct (nz (outleft s3)); [|mred; exact I4].
        eapply post_weaken;
          [apply grepbuf_safe with (buf := buf); auto| |auto].
        - cbn. lia.
        - apply bol_snoc. exact Hb.
        - unfold buf. rewrite length_app. lia.
        - apply bol_snoc_end.
        - cbn beta. tauto. }
      cbn beta. intros n s5 I5. mred.
      pose proof I5 as (B5 & _). rewrite B5.
      eapply post_bind with (Q := fun _ _ => True).
      { apply post_when; intros _; [|exact I].
        eapply post_weaken;
          [apply (prpending_safe buf (List.length buf) s5 I5)| |auto].
        - apply bol_snoc_end.
        - auto. }
      cbn beta. intros _ s6 _. mred. exact I.
    + eapply post_bind; [apply finish_grep_safe|].
      cbn beta. intros n' s5 _. mred. exact I.
Qed.

End Safety.

(** A matcher that reports lines reports them from boundary to boundary
    when the region ends at one. *)
Lemma line_matcher_from_on_lines (c eol : ascii) (data : list ascii) :
  complete eol data ->
  forall rest pre start len hit off sz,
    data = pre ++ rest ->
    List.length pre = (start + len)%nat ->
    bol eol data start ->
    line_matcher_from c eol rest start len hit = Some (off, sz) ->
    bol eol data off /\ bol eol data (off + sz).
Proof.
  intros Hc.
  induction rest as [|x rest IH];
    intros pre start len hit off sz Hd Hl Hs H; cbn [line_matcher_from] in H.
  - destruct hit; [|discriminate]. injection H as <- <-.
    split; [exact Hs|]. rewrite <- Hl. rewrite Hd, app_nil_r in Hc.
    rewrite Hd, app_nil_r. exact Hc.
  - assert (Hn : bol eol data (start + S len) \/ Ascii.eqb x eol = false).
    { destruct (Ascii.eqb x eol) eqn:E; [left|right; reflexivity].
      apply Ascii.eqb_eq in E. subst x. split.
      - rewrite Hd, length_app. cbn [List.length]. lia.
      - right. unfold byte_at.
        replace (start + S len - 1)%nat with (List.length pre) by lia.
        rewrite Hd. apply nth_middle. }
    assert (Hd' : data = (pre ++ [x]) ++ rest)
      by (rewrite <- app_assoc; exact Hd).
    assert (Hl' : List.length (pre ++ [x]) = (start + S len)%nat)
      by (rewrite length_app; cbn [List.length]; lia).
    destruct (Ascii.eqb x eol).
    + destruct Hn as [Hn|Hn]; [|discriminate].
      destruct hit.
      * injection H as <- <-. split; [exact Hs|exact Hn].
      * apply (IH (pre ++ [x]) _ _ _ _ _ Hd') in H; auto.
        rewrite Hl'. lia.
    + apply (IH (pre ++ [x]) _ _ _ _ _ Hd') in H; auto.
Qed.

Lemma line_matcher_on_lines (c eol : ascii) :
  on_lines eol (line_matcher c eol).
Proof.
  intros data off sz Hc H. unfold line_matcher in H.
  apply (line_matcher_from_on_lines c eol data Hc data [] 0%nat 0%nat false);
    auto. apply bol_0.
Qed.

(** Up to a line boundary, nlscan runs to its end. *)
Lemma nlscan_loop_returns (cfg : config) (fuel : nat) :
  forall beg lim s,
    (beg <= lim)%nat -> (lim - beg < fuel)%nat ->
    bol (eolbyte cfg) (bufdata s) lim ->
    exists s',
      nlscan_loop cfg fuel beg lim s = Ret tt s'
      /\ bufdata s' = bufdata s /\ lastout s' = lastout s.
Proof.
  induction fuel as [|fuel IH]; intros beg lim s Hb Hf Hl; [lia|].
  cbn [nlscan_loop]. destruct (Nat.eqb beg lim) eqn:E;
    [mred; exists s; auto|].
  apply Nat.eqb_neq in E. mred. cbn [bufdata set_totalnl].
  destruct (memchr_bol (eolbyte cfg) (bufdata s) beg lim Hl ltac:(lia))
    as (q & Hq & Hr & Hbq).
  rewrite Hq.
  destruct (IH (S q) lim (set_totalnl (totalnl s + 1) s)) as (s' & H1 & H2);
    [lia|lia|exact Hl|].
  exists s'. split; [exact H1|exact H2].
Qed.

Lemma nlscan_returns (cfg : config) (lim : nat) (s : state) :
  (lastnl s <= lim)%nat ->
  bol (eolbyte cfg) (bufdata s) lim ->
  exists s', nlscan cfg lim s = Ret tt s' /\ lastnl s' = lim.
Proof.
  intros Hn Hl. unfold nlscan. mred.
  destruct (nlscan_loop_returns cfg (S (lim - lastnl s)) (lastnl s) lim s)
    as (s' & H1 & _); [exact Hn|lia|exact Hl|].
  unfold bind at 1. rewrite H1. mred.
  exists (set_lastnl lim s'). split; reflexivity.
Qed.

(** And only up to a line boundary, unless there is nothing to scan. *)
Lemma nlscan_loop_boundary (cfg : config) (fuel : nat) :
  forall beg lim s s',
    nlscan_loop cfg fuel beg lim s = Ret tt s' ->
    beg = lim
    \/ ((beg <= lim)%nat /\ bol (eolbyte cfg) (bufdata s) lim).
Proof.
  induction fuel as [|fuel IH]; intros beg lim s s' H;
    cbn [nlscan_loop] in H; destruct (Nat.eqb beg lim) eqn:E;
    try (left; apply Nat.eqb_eq; exact E); [discriminate|].
  right. mred_in H. cbn [bufdata set_totalnl] in H.
  destruct (memchr (bufdata s) beg (eolbyte cfg) (lim - beg)) as [q|] eqn:Hq;
    [|discriminate].
  apply memchr_some in Hq. destruct Hq as [Hr Hn].
  assert (Hlen : (q < List.length (bufdata s))%nat)
    by (apply nth_error_Some; rewrite Hn; discriminate).
  apply IH in H. cbn [bufdata set_totalnl] in H.
  destruct H as [<-|[Hle Hb]]; [|split; [lia|exact Hb]].
  split; [lia|]. split; [lia|]. right.
  replace (S q - 1)%nat with q by lia.
  apply nth_error_byte_at. exact Hn.
Qed.

Lemma nlscan_returns_iff (cfg : config) (lim : nat) (s : state) :
  (exists s', nlscan cfg lim s = Ret tt s')
  <-> (lim = lastnl s
       \/ ((lastnl s <= lim)%nat /\ bol (eolbyte cfg) (bufdata s) lim)).
Proof.
  split.
  - intros [s' H]. unfold nlscan in H. mred_in H.
    destruct (nlscan_loop cfg (S (lim - lastnl s)) (lastnl s) lim s)
      as [[] s1|r] eqn:E.
    + apply nlscan_loop_boundary in E. destruct E as [E|E]; auto.
    + unfold bind in H. rewrite E in H. discriminate.
  - intros [E|[Hn Hl]].
    + unfold nlscan. mred. cbn [nlscan_loop]. rewrite E, Nat.eqb_refl.
      mred. eexists. reflexivity.
    + destruct (nlscan_returns cfg lim s Hn Hl) as (s' & H & _). eauto.
Qed.

(** nlscan has no other way to end. *)
Lemma nlscan_loop_ends (cfg : config) (fuel : nat) :
  forall beg lim s,
    (lim - beg < fuel)%nat ->
    (exists s', nlscan_loop cfg fuel beg lim s = Ret tt s')
    \/ nlscan_loop cfg fuel beg lim s = Stop (Undef UB_nlscan).
Proof.
  induction fuel as [|fuel IH]; intros beg lim s Hf; [lia|].
  cbn [nlscan_loop]. destruct (Nat.eqb beg lim);
    [left; mred; eexists; reflexivity|].
  mred. cbn [bufdata set_totalnl].
  destruct (memchr (bufdata s) beg (eolbyte cfg) (lim - beg)) as [q|] eqn:Hq;
    [|right; reflexivity].
  apply memchr_some in Hq. destruct Hq as [Hr _].
  apply IH. lia.
Qed.

Lemma nlscan_null_iff (cfg : config) (lim : nat) (s : state) :
  nlscan cfg lim s = Stop (Undef UB_nlscan)
  <-> ~ (lim = lastnl s
         \/ ((lastnl s <= lim)%nat /\ bol (eolbyte cfg) (bufdata s) lim)).
Proof.
  rewrite <- nlscan_returns_iff. split.
  - intros H [s' E]. rewrite H in E. discriminate.
  - intros H. unfold nlscan. mred.
    destruct (nlscan_loop_ends cfg (S (lim - lastnl s)) (lastnl s) lim s)
      as [[s1 E]|E]; [lia| |].
    + exfalso. apply H. unfold nlscan. mred.
      unfold bind at 1. rewrite E. mred. eexists. reflexivity.
    + unfold bind. rewrite E. reflexivity.
Qed.

Lemma post_and {A} (ok1 ok2 : stop -> Prop) (Q1 Q2 : A -> state -> Prop)
  (o : outcome A) :
  post ok1 Q1 o -> post ok2 Q2 o ->
  post (fun r => ok1 r /\ ok2 r) (fun a s => Q1 a s /\ Q2 a s) o.
Proof.
  destruct o; simpl; auto.
Qed.

Lemma tame_and_safe (cfg : config) (d sc : bool) (r : stop) :
  ok_tame cfg d sc true r /\ ok_safe r -> ok_tame cfg d sc false r.
Proof.
  intros [H1 H2]. destruct r; cbn in *; auto; contradiction.
Qed.

Lemma tame_is_safe (cfg : config) (d sc : bool) (r : stop) :
  ok_tame cfg d sc false r -> ok_safe r.
Proof.
  destruct r; cbn; auto; discriminate.
Qed.

(** A search of one operand, directories under it included, never uses
    a NULL pointer. *)
Lemma grepfile_safe (cfg : config) (w : world) (fuel depth : nat) :
  on_lines (eolbyte cfg) (execute cfg) ->
  forall file st anc s,
    post (ok_tame cfg true true false) (fun r _ => is_status (fst r))
      (grepfile cfg w depth fuel file st anc s).
Proof.
  intros Hm file st anc s.
  apply (grepfile_post cfg w true false [] fuel); [|discriminate].
  clear file st anc s. intros grepdir file st anc s Hdir.
  assert (H1 : post (ok_tame cfg true true true)
                 (fun r _ => is_count (fst r))
                 (grep cfg w grepdir fuel file st anc s)).
  { apply grep_tame. intros f st' s' Hf.
    eapply post_tame_weaken; [apply Hdir; left; exact Hf| | | |]; auto. }
  assert (H2 : post ok_safe (fun _ _ => True)
                 (grep cfg w grepdir fuel file st anc s)).
  { apply grep_safe; [exact Hm|]. intros f st' s' Hf.
    eapply post_weaken;
      [apply (Hdir f st' s'); left; exact Hf| |apply tame_is_safe]; auto. }
  eapply post_weaken; [apply (post_and _ _ _ _ _ H1 H2)| |].
  - cbn beta. tauto.
  - apply tame_and_safe.
Qed.

Lemma main_loop_safe (cfg : config) (w : world) (depth fuel : nat)
  (files : list string) :
  on_lines (eolbyte cfg) (execute cfg) ->
  forall st status s,
    post ok_safe (fun _ _ => True)
      (main_loop cfg w depth fuel files st status s).
Proof.
  intros Hm.
  induction files as [|file rest IH]; intros st status s; cbn [main_loop].
  - mred. exact I.
  - eapply post_bind.
    { eapply post_weaken;
        [apply (grepfile_safe cfg w fuel depth Hm)| |apply tame_is_safe].
      intros a s' H. exact H. }
    cbn beta. intros r s1 _. apply IH.
Qed.

Lemma main_scan_safe (cfg : config) (w : world) (depth fuel : nat)
  (files : list string) (s : state) :
  on_lines (eolbyte cfg) (execute cfg) ->
  post ok_safe (fun _ _ => True) (main_scan cfg w depth fuel files s).
Proof.
  intros Hm. unfold main_scan.
  destruct (max_count cfg =? 0); [exact I|].
  eapply post_bind with (Q := fun _ _ => True).
  { destruct files as [|f rest].
    - eapply post_bind.
      { eapply post_weaken;
          [apply (grepfile_safe cfg w fuel depth Hm)| |apply tame_is_safe].
        intros a s' H. exact H. }
      cbn beta. intros r s1 _. mred. exact I.
    - apply main_loop_safe. exact Hm. }
  cbn beta. intros status s1 _.
  destruct (w_fclose_stdout w); mred; exact I.
Qed.

(** C10 (as amended).  Over a matcher that reports whole lines (in a
    region that ends at a line boundary, each match lies in the region
    and starts and ends at line boundaries): a call of nlscan runs to its
    end exactly when [lim] equals [lastnl] or is a line boundary not
    before [lastnl], and any other call ends by advancing from the NULL
    of a failed memchr; and no run of the scan, over one operand or over
    all of them, ends that way, in nlscan or in the printing loops. *)
Theorem nlscan_never_null (cfg : config) (w : world) :
  on_lines (eolbyte cfg) (execute cfg) ->
  (forall lim s,
      let boundary :=
        lim = lastnl s
        \/ ((lastnl s <= lim)%nat /\ bol (eolbyte cfg) (bufdata s) lim) in
      ((exists s', nlscan cfg lim s = Ret tt s') <-> boundary)
      /\ (nlscan cfg lim s = Stop (Undef UB_nlscan) <-> ~ boundary))
  /\ (forall depth fuel file st anc s site,
        grepfile cfg w depth fuel file st anc s <> Stop (Undef site))
  /\ (forall depth fuel files s site,
        main_scan cfg w depth fuel files s <> Stop (Undef site)).
Proof.
  intros Hm. split; [|split].
  - intros lim s. split; [apply nlscan_returns_iff|apply nlscan_null_iff].
  - intros depth fuel file st anc s site E.
    pose proof (grepfile_safe cfg w fuel depth Hm file st anc s) as H.
    rewrite E in H. cbn in H. discriminate.
  - intros depth fuel files s site E.
    pose proof (main_scan_safe cfg w depth fuel files s Hm) as H.
    rewrite E in H. exact H.
Qed.

(** ** The separator of prtext *)

(** C6 (as amended).  In quiet mode prtext writes nothing.  Otherwise it
    writes the pending trailing context, then a line [--] exactly when
    context is asked for ([out_before] or [out_after] nonzero), prtext
    has run before ([used]), and the group, leading context included,
    does not start at [lastout]; then the group.  The [--] goes through
    [puts]: a newline follows it whatever [eolbyte] is. *)
Theorem prtext_separator (cfg : config) (w : world) (beg lim : nat)
  (nlinesp : bool) (s s' : state) (n : Z) :
  prtext cfg w beg lim nlinesp s = Ret n s' ->
  prtext_output cfg w beg s s'
  /\ bytes_of_call separator = bytes "--" ++ [newline].
Proof.
  intros H. pose proof (prtext_post cfg w beg lim nlinesp s) as P.
  rewrite H in P. destruct P as (_ & _ & P & _).
  split; [exact P|reflexivity].
Qed.

(** ** Examples *)

Lemma prtext_separator_witness :
  exists n s',
    prtext context_config pipe_world 10 12 false after_first_group
    = Ret n s'
    /\ prtext_output context_config pipe_world 10 after_first_group s'
    /\ bytes_of_call separator = bytes "--" ++ [newline].
Proof.
  eexists. eexists. split; [vm_compute; reflexivity|].
  eapply prtext_separator with (lim := 12%nat) (nlinesp := false).
  vm_compute. reflexivity.
Defined.

(** With [-z] the separator is still followed by a newline; and under
    [-c] nothing is written although the test for the separator holds. *)
Lemma prtext_separator_counterexample :
  match prtext null_data_config pipe_world 4 6 false after_first_record with
  | Ret _ s' =>
      stdout_bytes (sout s') = bytes ("--" ++ nl ++ "3" ++ nul)
      /\ stdout_bytes (sout s') <> bytes ("--" ++ nul ++ "3" ++ nul)
  | Stop _ => False
  end
  /\ match prtext null_data_config pipe_world 4 6 false counting_records with
     | Ret _ s' =>
         separator_due null_data_config 4 counting_records = true
         /\ sout s' = []
     | Stop _ => False
     end.
Proof.
  vm_compute. repeat split. discriminate.
Qed.


(** C3.  On a full disk: the failure to close standard output is
    reported, but [errseen] stays 0 and the status is that of the match,
    0, not 2. *)
Theorem fclose_failure_status :
  match main_scan (default_config (line_matcher "a" newline))
          full_disk_world 2 64 [] (initial_state a_line) with
  | Ret status s' =>
      status = 0 /\ errseen s' = 0
      /\ serr s' = [ErrorMsg "writing output" ENOSPC]
  | Stop _ => False
  end.
Proof.
  vm_compute. auto.
Qed.


Lemma match_at_lim_witness :
  execute (default_config empty_at_end)
    (slice (bufdata (scanning ("a" ++ nl) 5)) 0 2) = Some (2%nat, 0%nat)
  /\ (0 + 2 = 2)%nat
  /\ grepbuf_loop (default_config empty_at_end) pipe_world 1 2 0 0
       (scanning ("a" ++ nl) 5)
     = Ret (LoopDone 0 0) (scanning ("a" ++ nl) 5)
  /\ (out_invert (default_config empty_at_end) = 0 ->
      grepbuf (default_config empty_at_end) pipe_world 1 0 2
        (scanning ("a" ++ nl) 5)
      = Ret 0 (scanning ("a" ++ nl) 5))
  /\ (out_invert (default_config empty_at_end) <> 0 ->
      grepbuf (default_config empty_at_end) pipe_world 1 0 2
        (scanning ("a" ++ nl) 5)
      = (if Nat.ltb 0 2
         then n <- prtext (default_config empty_at_end) pipe_world 0 2 true ;;
              modify (fun s => set_outleft (outleft s - n) s) ;;
              ret (0 + n)
         else ret 0) (scanning ("a" ++ nl) 5)).
Proof.
  split; [reflexivity|]. split; [reflexivity|].
  apply (match_at_lim_ends_scan (default_config empty_at_end) pipe_world
           0 2 0 0 (scanning ("a" ++ nl) 5) 2 0); reflexivity.
Defined.

Lemma grepbuf_terminates_witness :
  advancing (execute (default_config (line_matcher "a" newline)))
  /\ (2 - 0 < 3)%nat
  /\ grepbuf (default_config (line_matcher "a" newline)) pipe_world 3 0 2
       (scanning ("a" ++ nl) 5) <> Stop (OutOfFuel ScanFuel).
Proof.
  split; [apply line_matcher_advancing|]. split; [cbn; lia|].
  apply grepbuf_terminates; [apply line_matcher_advancing|cbn; lia].
Defined.

(** Over a matcher that finds the empty string at the start of every
    region, which lies within the region, the loop of [grep -v] never
    moves on: whatever the fuel, it runs out. *)
Lemma grepbuf_terminates_counterexample :
  ~ (exists fuel,
        grepbuf stuck_config pipe_world fuel 0 2 (scanning ("a" ++ nl) 5)
        <> Stop (OutOfFuel ScanFuel)).
Proof.
  intros [fuel H]. apply H. clear H.
  assert (L : forall n,
             grepbuf_loop stuck_config pipe_world fuel 2 0 n
               (scanning ("a" ++ nl) 5) = Stop (OutOfFuel ScanFuel)).
  { induction fuel as [|fuel IH]; intros n; [reflexivity|].
    cbn [grepbuf_loop]. rewrite bind_get. cbv beta.
    change (execute stuck_config (slice (bufdata (scanning ("a" ++ nl) 5)) 0 2))
      with (Some (0%nat, 0%nat)).
    cbv beta iota. exact (IH n). }
  unfold grepbuf. rewrite (bind_of_stop _ _ _ _ (L 0)). reflexivity.
Qed.

Lemma loop_world_finite : finite_inodes loop_world loop_ids.
Proof.
  intros f st [H|H]; cbn in H; injection H as <-;
    destruct (Ascii.eqb (last_char f) "f"); cbn; auto.
Qed.

Lemma directory_loop_witness :
  In (stat_id loop_dir) (map stat_id [loop_dir])
  /\ finite_inodes loop_world loop_ids
  /\ (List.length loop_ids < 3)%nat
  /\ grepdir_with recursive_config loop_world
       (grepfile recursive_config loop_world 2 64) "d/loop"%string loop_dir
       [loop_dir] (initial_state [])
     = Ret 1 (if nz (suppress_errors recursive_config)
              then initial_state []
              else set_serr (serr (initial_state [])
                             ++ [LoopWarning "d/loop"]) (initial_state []))
  /\ grepfile recursive_config loop_world 3 64 (Some "d"%string) stats_base
       [] (initial_state []) <> Stop (OutOfFuel DepthFuel).
Proof.
  split; [left; reflexivity|]. split; [apply loop_world_finite|].
  split; [cbn; lia|].
  apply directory_loop with (ids := loop_ids);
    [left; reflexivity|apply loop_world_finite|cbn; lia].
Defined.

Lemma fstat_failure_witness :
  exists s',
    grepfile no_messages_config fstat_fails_world 2 64 (operand_file "x")
      stats_base [] (initial_state []) = Ret (1, stats_base) s'
    /\ (exists more,
           serr s' = serr (initial_state []) ++ ErrorMsg "fstat" EIO :: more)
    /\ rd s' = rd (set_rd [] (set_filename "x" (initial_state [])))
    /\ bufdata s' = []
    /\ main_loop no_messages_config fstat_fails_world 2 64
         ("x"%string :: ["y"%string]) stats_base 1 (initial_state [])
       = main_loop no_messages_config fstat_fails_world 2 64 ["y"%string]
           stats_base (Z.land 1 1) s'.
Proof.
  eapply fstat_failure; [reflexivity|vm_compute; reflexivity|reflexivity].
Defined.

(** With [-s] the failure of fstat is reported all the same. *)
Lemma fstat_failure_counterexample :
  suppress_errors no_messages_config <> 0
  /\ match grepfile no_messages_config fstat_fails_world 2 64
             (Some "x"%string) stats_base [] (initial_state []) with
     | Ret _ s' => serr s' = [ErrorMsg "fstat" EIO]
     | Stop _ => False
     end.
Proof.
  vm_compute. split; [discriminate|reflexivity].
Qed.

Lemma fillbuf_grow_witness :
  0 < pagesize long_line_read <= SIZE_MAX
  /\ (pagesize long_line_read | bufsalloc long_line_read)
  /\ bufsalloc long_line_read <= SIZE_MAX
  /\ 8194 <= SIZE_MAX
  /\ bufsalloc long_line_read * 2 ^ (1 - 1) < 8194
      <= bufsalloc long_line_read * 2 ^ 1
  /\ exists s',
       fillbuf_grow pipe_world 8194 long_line_file long_line_read = Ret tt s'
       /\ bufsalloc s' = 12288
       /\ bufalloc s' = 40960.
Proof.
  assert (H : 0 < pagesize long_line_read <= SIZE_MAX)
    by (vm_compute; split; [reflexivity|discriminate]).
  assert (D : (pagesize long_line_read | bufsalloc long_line_read))
    by (exists 2; reflexivity).
  assert (B : bufsalloc long_line_read <= SIZE_MAX)
    by (vm_compute; discriminate).
  assert (S : 8194 <= SIZE_MAX) by (vm_compute; discriminate).
  assert (K : bufsalloc long_line_read * 2 ^ (1 - 1) < 8194
              <= bufsalloc long_line_read * 2 ^ 1)
    by (vm_compute; split; [reflexivity|discriminate]).
  split; [exact H|]. split; [exact D|]. split; [exact B|].
  split; [exact S|]. split; [exact K|].
  destruct (fillbuf_grow pipe_world 8194 long_line_file long_line_read)
    as [[] s'|r] eqn:E; [|vm_compute in E; discriminate].
  exists s'. split; [reflexivity|].
  destruct (fillbuf_grow_spec pipe_world 8194 long_line_file long_line_read
              s' 1 H D B S ltac:(lia) K E) as (H1 & _ & _ & H2 & _).
  split; [rewrite H1|rewrite H2]; vm_compute; reflexivity.
Defined.

(** One line of 8194 bytes, the whole file: [bufsalloc] becomes the
    page-aligned 12288 though doubling 8192 would not overflow, and the
    buffer keeps its 40960 bytes, which is neither [5 * bufsalloc] nor
    within a page of the 0 bytes that are left to read. *)
Lemma fillbuf_grow_counterexample :
  match fillbuf_grow pipe_world 8194 long_line_file long_line_read with
  | Ret _ s' =>
      bufsalloc s' = 12288
      /\ bufsalloc s' <> 2 * bufsalloc long_line_read
      /\ bufalloc s' = 40960
      /\ bufalloc s' <> PREFERRED_SAVE_FACTOR * bufsalloc s'
      /\ st_size long_line_file - bufoffset s' + pagesize s' < bufalloc s'
  | Stop _ => False
  end.
Proof.
  vm_compute. repeat split; discriminate.
Qed.

Lemma nlscan_never_null_witness :
  on_lines (eolbyte numbering_config) (execute numbering_config)
  /\ main_scan numbering_config pipe_world 8 64 [] (initial_state two_lines)
     <> Stop (Undef UB_nlscan).
Proof.
  split; [apply line_matcher_on_lines|].
  apply (nlscan_never_null numbering_config pipe_world
           (line_matcher_on_lines "b" newline)).
Defined.

(** [grep -n] over a matcher that reports the byte [b] alone: prline is
    asked to print [[1, 2)] of [ab], its nlscan is called with a [lim]
    inside the line, and the memchr for the end of line fails. *)
Lemma nlscan_never_null_counterexample :
  ~ bol newline (bytes ("ab" ++ nl ++ "c" ++ nl)) 1
  /\ prline midline_config pipe_world 1 2 ":"
       (scanning ("ab" ++ nl ++ "c" ++ nl) 5)
     = Stop (Undef UB_nlscan)
  /\ main_scan midline_config pipe_world 8 64 [] (initial_state two_lines)
     = Stop (Undef UB_nlscan).
Proof.
  split; [|split; vm_compute; reflexivity].
  intros [_ [H|H]]; [discriminate|]. vm_compute in H. discriminate.
Qed.

(** ** The numbers that prline prints *)

Lemma Z_of_ascii_of_Z (x : Z) : 0 <= x < 256 -> Z_of_ascii (ascii_of_Z x) = x.
Proof.
  intros H. unfold Z_of_ascii, ascii_of_Z.
  rewrite Z.mod_small by lia.
  rewrite N_ascii_embedding by lia. lia.
Qed.

Lemma decimal_value_snoc (ds : list ascii) (d : ascii) :
  forall acc,
    decimal_value acc (ds ++ [d])
    = 10 * decimal_value acc ds + (Z_of_ascii d - 48).
Proof.
  induction ds as [|x ds IH]; intros acc; cbn [decimal_value app];
    [reflexivity|apply IH].
Qed.

Lemma offset_digits_spec (fuel : nat) :
  forall pos acc,
    0 <= pos < 10 ^ Z.of_nat (S fuel) ->
    exists ds,
      offset_digits fuel pos acc = ds ++ acc
      /\ Forall is_digit ds
      /\ decimal_value 0 ds = pos
      /\ (1 <= List.length ds <= S fuel)%nat
      /\ (0 < pos ->
          hd "0"%char ds <> "0"%char
          /\ 10 ^ (Z.of_nat (List.length ds) - 1) <= pos)
      /\ (pos = 0 -> ds = ["0"%char]).
Proof.
  induction fuel as [|fuel IH]; intros pos acc Hpos.
  - exists [ascii_of_Z (48 + Z.rem pos 10)].
    change (10 ^ Z.of_nat 1) with 10 in Hpos.
    rewrite Z.rem_small by lia.
    assert (Hd : Z_of_ascii (ascii_of_Z (48 + pos)) = 48 + pos)
      by (apply Z_of_ascii_of_Z; lia).
    split; [unfold offset_digits; rewrite Z.rem_small by lia; reflexivity|].
    split; [constructor; [unfold is_digit; lia|constructor]|].
    split; [cbn [decimal_value]; lia|].
    split; [cbn; lia|].
    split; [|intros ->; reflexivity].
    intros Hp. split; [|cbn; lia].
    cbn [hd]. intros E. rewrite E in Hd.
    change (Z_of_ascii "0"%char) with 48 in Hd. lia.
  - assert (Hq : Z.quot pos 10 = pos / 10)
      by (apply Z.quot_div_nonneg; lia).
    assert (Hr : Z.rem pos 10 = pos mod 10)
      by (apply Z.rem_mod_nonneg; lia).
    pose proof (Z.mod_pos_bound pos 10 ltac:(lia)) as Hm.
    pose proof (Z.div_mod pos 10 ltac:(lia)) as Hdm.
    assert (Hd : Z_of_ascii (ascii_of_Z (48 + pos mod 10)) = 48 + pos mod 10)
      by (apply Z_of_ascii_of_Z; lia).
    unfold offset_digits; fold offset_digits. rewrite Hq, Hr.
    destruct (pos / 10 =? 0) eqn:E.
    + apply Z.eqb_eq in E.
      exists [ascii_of_Z (48 + pos mod 10)].
      split; [reflexivity|].
      split; [constructor; [unfold is_digit; lia|constructor]|].
      split; [cbn [decimal_value]; lia|].
      split; [cbn [List.length]; lia|].
      split.
      * intros Hp. split; [|cbn; lia].
        cbn [hd]. intros E'. rewrite E' in Hd.
        change (Z_of_ascii "0"%char) with 48 in Hd. lia.
      * intros ->. reflexivity.
    + apply Z.eqb_neq in E.
      assert (Hpos' : 0 <= pos / 10 < 10 ^ Z.of_nat (S fuel)).
      { split; [apply Z.div_pos; lia|].
        apply Z.div_lt_upper_bound; [lia|].
        replace (10 * 10 ^ Z.of_nat (S fuel)) with (10 ^ Z.of_nat (S (S fuel)));
          [lia|].
        rewrite (Nat2Z.inj_succ (S fuel)), Z.pow_succ_r by lia. reflexivity. }
      destruct (IH (pos / 10) (ascii_of_Z (48 + pos mod 10) :: acc) Hpos')
        as (ds & E1 & F1 & V1 & L1 & P1 & _).
      assert (Hq0 : 0 < pos / 10) by lia.
      destruct (P1 Hq0) as [Hh Hp10].
      exists (ds ++ [ascii_of_Z (48 + pos mod 10)]).
      split; [rewrite E1, <- app_assoc; reflexivity|].
      split.
      { apply Forall_app. split; [exact F1|].
        constructor; [unfold is_digit; lia|constructor]. }
      split; [rewrite decimal_value_snoc, V1, Hd; lia|].
      rewrite length_app. cbn [List.length].
      split; [lia|]. split; [|intros ->; cbn in Hq0; lia].
      intros _. split.
      * destruct ds as [|x ds]; [cbn in L1; lia|exact Hh].
      * replace (Z.of_nat (List.length ds + 1) - 1)
          with (Z.succ (Z.of_nat (List.length ds) - 1)) by lia.
        rewrite Z.pow_succ_r by lia. lia.
Qed.

(** ** Counting lines *)

Lemma memchr_first (buf : list ascii) (c : ascii) (n : nat) :
  forall p q,
    memchr buf p c n = Some q ->
    forall i, (p <= i < q)%nat -> nth_error buf i <> Some c.
Proof.
  induction n as [|n IH]; intros p q H i Hi; simpl in H; [discriminate|].
  destruct (nth_error buf p) as [x|] eqn:E; [|discriminate].
  destruct (Ascii.eqb x c) eqn:Ex.
  - injection H as <-. lia.
  - destruct (Nat.eq_dec i p) as [->|Hne].
    + rewrite E. intros [= ->]. rewrite Ascii.eqb_refl in Ex. discriminate.
    + apply (IH (S p) q H). lia.
Qed.

Lemma firstn_plus {A} (a b : nat) (l : list A) :
  firstn (a + b) l = firstn a l ++ firstn b (skipn a l).
Proof.
  revert l. induction a as [|a IH]; intros l; [reflexivity|].
  destruct l as [|x l]; cbn [Nat.add firstn skipn app].
  - rewrite firstn_nil. reflexivity.
  - rewrite IH. reflexivity.
Qed.

Lemma slice_split (buf : list ascii) (beg m lim : nat) :
  (beg <= m <= lim)%nat ->
  slice buf beg lim = slice buf beg m ++ slice buf m lim.
Proof.
  intros H. unfold slice.
  replace (lim - beg)%nat with ((m - beg) + (lim - m))%nat by lia.
  rewrite firstn_plus, skipn_skipn.
  replace (m - beg + beg)%nat with m by lia. reflexivity.
Qed.

Lemma slice_one (buf : list ascii) (q : nat) (c : ascii) :
  nth_error buf q = Some c -> slice buf q (S q) = [c].
Proof.
  intros H. unfold slice. replace (S q - q)%nat with 1%nat by lia.
  revert q H. induction buf as [|x buf IH]; intros [|q] H;
    try discriminate; cbn in *.
  - injection H as ->. reflexivity.
  - apply IH. exact H.
Qed.

Lemma slice_without (buf : list ascii) (c : ascii) (beg q : nat) :
  (q <= List.length buf)%nat ->
  (forall i, (beg <= i < q)%nat -> nth_error buf i <> Some c) ->
  count_occ ascii_dec (slice buf beg q) c = O.
Proof.
  intros Hq H. apply count_occ_not_In. intros Hin.
  apply In_nth_error in Hin. destruct Hin as [i Hi].
  assert (Hlt : (i < List.length (slice buf beg q))%nat)
    by (apply nth_error_Some; rewrite Hi; discriminate).
  destruct (Nat.le_gt_cases beg q) as [Hle|Hgt].
  - rewrite slice_length in Hlt by lia.
    apply (H (beg + i)%nat); [lia|].
    rewrite byte_at_nth_error by lia.
    rewrite <- slice_byte_at with (lim := q) by lia.
    apply nth_error_byte_at in Hi. rewrite Hi. reflexivity.
  - unfold slice in Hlt. replace (q - beg)%nat with O in Hlt by lia.
    cbn in Hlt. lia.
Qed.

Lemma set_totalnl_twice (a b : Z) (s : state) :
  set_totalnl a (set_totalnl b s) = set_totalnl a s.
Proof. destruct s; reflexivity. Qed.

Lemma set_totalnl_same (s : state) : set_totalnl (totalnl s) s = s.
Proof. destruct s; reflexivity. Qed.

Lemma nlscan_loop_counts (cfg : config) (fuel : nat) :
  forall beg lim s,
    (beg <= lim)%nat -> (lim - beg < fuel)%nat ->
    bol (eolbyte cfg) (bufdata s) lim ->
    nlscan_loop cfg fuel beg lim s
    = Ret tt (set_totalnl
                (totalnl s + eol_count (eolbyte cfg) (bufdata s) beg lim) s).
Proof.
  induction fuel as [|fuel IH]; intros beg lim s Hb Hf Hl; [lia|].
  cbn [nlscan_loop]. destruct (Nat.eqb beg lim) eqn:E.
  - apply Nat.eqb_eq in E. subst lim. unfold eol_count, slice.
    rewrite Nat.sub_diag. cbn [firstn count_occ Z.of_nat].
    rewrite Z.add_0_r, set_totalnl_same. reflexivity.
  - apply Nat.eqb_neq in E. mred. cbn [bufdata set_totalnl].
    destruct (memchr_bol (eolbyte cfg) (bufdata s) beg lim Hl ltac:(lia))
      as (q & Hq & Hr & Hbq).
    rewrite Hq.
    pose proof (memchr_first _ _ _ _ _ Hq) as Hfirst.
    apply memchr_some in Hq. destruct Hq as [_ Hn].
    rewrite IH; [|lia|lia|exact Hl].
    cbn [bufdata totalnl set_totalnl]. rewrite set_totalnl_twice.
    f_equal. f_equal. unfold eol_count.
    destruct Hl as [Hlen _].
    rewrite (slice_split (bufdata s) beg q lim) by lia.
    rewrite (slice_split (bufdata s) q (S q) lim) by lia.
    rewrite (slice_one _ _ _ Hn).
    rewrite !count_occ_app.
    rewrite (slice_without (bufdata s) (eolbyte cfg) beg q);
      [|lia|exact Hfirst].
    cbn [count_occ].
    destruct (ascii_dec (eolbyte cfg) (eolbyte cfg)); [lia|contradiction].
Qed.

Lemma nlscan_eq (cfg : config) (lim : nat) (s : state) :
  (lastnl s <= lim)%nat ->
  bol (eolbyte cfg) (bufdata s) lim ->
  nlscan cfg lim s
  = Ret tt
      (set_lastnl lim
         (set_totalnl
            (totalnl s + eol_count (eolbyte cfg) (bufdata s) (lastnl s) lim)
            s)).
Proof.
  intros Hn Hl. unfold nlscan. mred.
  rewrite (bind_of_ret _ _ _ _ _
             (nlscan_loop_counts cfg (S (lim - lastnl s)) (lastnl s) lim s
                Hn ltac:(lia) Hl)).
  reflexivity.
Qed.


(** ** What scanning a buffer keeps and counts *)

Lemma post_never {A} (Q : A -> state -> Prop) (o : outcome A) :
  post never Q o -> exists a s', o = Ret a s' /\ Q a s'.
Proof.
  destruct o as [a s'|r]; cbn; [eauto|contradiction].
Qed.

Lemma post_three {A} (cfg : config) (Q1 Q2 Q3 : A -> state -> Prop)
  (o : outcome A) :
  post ok_safe Q1 o ->
  post (ok_tame cfg false false true) Q2 o ->
  post no_exit Q3 o ->
  post never (fun a s => Q1 a s /\ Q2 a s /\ Q3 a s) o.
Proof.
  destruct o as [a s'|[c s'|s'|u|[|]]]; cbn; auto; try tauto; discriminate.
Qed.

Lemma prints_refl (s : state) : prints s s.
Proof. repeat split. Qed.

Lemma prints_trans (s1 s2 s3 : state) :
  prints s1 s2 -> prints s2 s3 -> prints s1 s3.
Proof. unfold prints. intuition congruence. Qed.

Ltac prints_step :=
  first [ apply prints_refl | solve [repeat split] ].

Lemma eol_count_same (eol : ascii) (buf : list ascii) (p : nat) :
  eol_count eol buf p p = 0.
Proof.
  unfold eol_count, slice. rewrite Nat.sub_diag. reflexivity.
Qed.

Lemma eol_count_nonneg (eol : ascii) (buf : list ascii) (p q : nat) :
  0 <= eol_count eol buf p q.
Proof. unfold eol_count. lia. Qed.

Lemma eol_count_split (eol : ascii) (buf : list ascii) (a m b : nat) :
  (a <= m <= b)%nat ->
  eol_count eol buf a b = eol_count eol buf a m + eol_count eol buf m b.
Proof.
  intros H. unfold eol_count.
  rewrite (slice_split buf a m b H), count_occ_app. lia.
Qed.

Lemma eol_count_line (buf : list ascii) (eol : ascii) (n p q : nat) :
  memchr buf p eol n = Some q -> eol_count eol buf p (S q) = 1.
Proof.
  intros H. pose proof (memchr_first _ _ _ _ _ H) as Hfirst.
  apply memchr_some in H. destruct H as [Hr Hn].
  assert (Hlen : (q < List.length buf)%nat)
    by (apply nth_error_Some; rewrite Hn; discriminate).
  rewrite (eol_count_split eol buf p q (S q)) by lia.
  unfold eol_count.
  rewrite (slice_without buf eol p q); [|lia|exact Hfirst].
  rewrite (slice_one _ _ _ Hn). cbn [count_occ].
  destruct (ascii_dec eol eol); [reflexivity|contradiction].
Qed.

Lemma back_to_bol_le (fuel : nat) (buf : list ascii) (eol : ascii)
  (bp : nat) :
  forall p, (back_to_bol fuel buf eol bp p <= p)%nat.
Proof.
  induction fuel as [|fuel IH]; intros p; cbn [back_to_bol]; [lia|].
  destruct (Nat.ltb bp p && negb (Ascii.eqb (byte_at buf (p - 1)) eol));
    [|lia].
  pose proof (IH (p - 1)%nat). lia.
Qed.

Lemma sys_read_length (script : read_script) :
  forall n chunk rest,
    sys_read n script = (inr chunk, rest) ->
    (List.length chunk <= n)%nat.
Proof.
  induction script as [|[e|c] script IH]; intros n chunk rest H; cbn in H.
  - injection H as <- _. cbn. lia.
  - destruct (e =? EINTR); [apply IH in H; exact H|discriminate].
  - injection H as <- _. rewrite length_firstn. lia.
Qed.

Section Keeps.

Variable cfg : config.
Variable w : world.

Lemma nlscan_loop_prints (fuel : nat) :
  forall beg lim s,
    post no_exit
      (fun _ s' => prints s s' /\ pending s' = pending s
                   /\ lastout s' = lastout s /\ sout s' = sout s)
      (nlscan_loop cfg fuel beg lim s).
Proof.
  induction fuel as [|fuel IH]; intros beg lim s;
    cbn [nlscan_loop]; destruct (Nat.eqb beg lim); mred;
    try (split; [apply prints_refl|auto]); [exact I|].
  cbn [bufdata set_totalnl].
  destruct (memchr (bufdata s) beg (eolbyte cfg) (lim - beg)) as [q|];
    [|exact I].
  eapply post_weaken; [apply IH| |auto].
  cbn beta. intros _ s' (P & Pe & L & So).
  split; [|auto]. eapply prints_trans; [|exact P]. repeat split.
Qed.

Lemma nlscan_prints (lim : nat) (s : state) :
  post no_exit
    (fun _ s' => prints s s' /\ pending s' = pending s
                 /\ lastout s' = lastout s /\ sout s' = sout s)
    (nlscan cfg lim s).
Proof.
  unfold nlscan. mred.
  eapply post_bind; [apply nlscan_loop_prints|].
  cbn beta. intros _ s' (P & Pe & L & So). mred.
  split; [|auto]. eapply prints_trans; [exact P|]. repeat split.
Qed.

Lemma prline_prints (beg lim : nat) (sep : ascii) (s : state) :
  post no_exit
    (fun _ s' => prints s s' /\ pending s' = pending s
                 /\ lastout s' = Some lim)
    (prline cfg w beg lim sep s).
Proof.
  unfold prline. mred.
  eapply post_bind with
    (Q := fun _ s' => prints s s' /\ pending s' = pending s).
  { apply post_when; intros _; mred; split; auto; repeat split. }
  cbn beta. intros _ s1 (P1 & Pe1).
  eapply post_bind with
    (Q := fun _ s' => prints s s' /\ pending s' = pending s).
  { apply post_when; intros _; [|auto].
    eapply post_bind; [apply nlscan_prints|].
    cbn beta. intros _ s2 (P2 & Pe2 & _). mred.
    unfold print_offset_sep. mred. cbn.
    split; [|congruence].
    eapply prints_trans; [exact P1|]. eapply prints_trans; [exact P2|].
    repeat split. }
  cbn beta. intros _ s2 (P2 & Pe2).
  eapply post_bind with
    (Q := fun _ s' => prints s s' /\ pending s' = pending s).
  { apply post_when; intros _; [|auto]. mred.
    unfold print_offset_sep. mred.
    split; [|auto]. eapply prints_trans; [exact P2|]. repeat split. }
  cbn beta. intros _ s3 (P3 & Pe3). mred.
  eapply post_bind with
    (Q := fun _ s' => prints s s' /\ pending s' = pending s).
  { apply post_when; intros _; mred; (split; [|auto]);
      (eapply prints_trans; [exact P3|]); repeat split. }
  cbn beta. intros _ s4 (P4 & Pe4). mred.
  split; [|auto]. eapply prints_trans; [exact P4|]. repeat split.
Qed.

Lemma prpending_loop_prints (fuel : nat) :
  forall lim s,
    post no_exit
      (fun _ s' =>
         prints s s'
         /\ (ptr_or_bufbeg (lastout s) <= ptr_or_bufbeg (lastout s'))%nat
         /\ (pending s <= 0 -> pending s' = pending s)
         /\ (0 <= pending s ->
             0 <= pending s'
             /\ eol_count (eolbyte cfg) (bufdata s)
                  (ptr_or_bufbeg (lastout s)) (ptr_or_bufbeg (lastout s'))
                <= pending s - pending s'))
      (prpending_loop cfg w fuel lim s).
Proof.
  induction fuel as [|fuel IH]; intros lim s; cbn [prpending_loop]; mred;
    destruct ((0 <? pending s) && Nat.ltb (ptr_or_bufbeg (lastout s)) lim)
      eqn:C; mred; try exact I;
    try (split; [apply prints_refl|]; split; [lia|]; split; [auto|];
         intros H; rewrite eol_count_same; lia).
  apply andb_prop in C. destruct C as [C1 C2].
  apply Z.ltb_lt in C1. apply Nat.ltb_lt in C2.
  destruct (memchr (bufdata s) (ptr_or_bufbeg (lastout s)) (eolbyte cfg)
              (lim - ptr_or_bufbeg (lastout s))) as [nl|] eqn:Hm;
    [|exact I].
  pose proof (eol_count_line _ _ _ _ _ Hm) as Hline.
  apply memchr_some in Hm. destruct Hm as [Hq Hn]. mred.
  match goal with
  | |- context [if ?b then _ else _] => destruct b
  end.
  - eapply post_bind; [apply prline_prints|].
    cbn beta. intros _ s1 (P1 & Pe1 & L1).
    eapply post_weaken; [apply IH| |auto].
    cbn beta. intros _ s2 (P2 & Lo2 & _ & H2).
    cbn [pending set_pending] in Pe1. rewrite L1 in *.
    cbn [ptr_or_bufbeg] in *.
    assert (B1 : bufdata s1 = bufdata s).
    { destruct P1 as (Hc & _). unfold scan_core in Hc. cbn in Hc.
      congruence. }
    split; [eapply prints_trans; [|exact P2];
            eapply prints_trans; [|exact P1]; repeat split|].
    split; [lia|]. split; [lia|]. intros _.
    destruct H2 as [H2 H3]; [lia|]. split; [exact H2|].
    rewrite B1 in H3.
    rewrite (eol_count_split (eolbyte cfg) (bufdata s)
               (ptr_or_bufbeg (lastout s)) (S nl)) by lia.
    lia.
  - mred. eapply post_weaken; [apply IH| |auto].
    cbn beta. intros _ s2 (P2 & Lo2 & Z2 & H2).
    cbn [pending set_pending lastout bufdata] in *.
    split; [eapply prints_trans; [|exact P2]; repeat split|].
    split; [exact Lo2|]. split; [lia|]. intros _.
    destruct H2 as [H2 H3]; [lia|]. split; [exact H2|].
    specialize (Z2 ltac:(lia)). lia.
Qed.

Lemma prpending_prints (lim : nat) (s : state) :
  post no_exit
    (fun _ s' =>
       prints s s'
       /\ (ptr_or_bufbeg (lastout s) <= ptr_or_bufbeg (lastout s'))%nat
       /\ (pending s <= 0 -> pending s' = pending s)
       /\ (0 <= pending s ->
           0 <= pending s'
           /\ eol_count (eolbyte cfg) (bufdata s)
                (ptr_or_bufbeg (lastout s)) (ptr_or_bufbeg (lastout s'))
              <= pending s - pending s'))
    (prpending cfg w lim s).
Proof.
  unfold prpending. mred.
  destruct (lastout s) as [lo|] eqn:L; mred.
  - eapply post_weaken; [apply prpending_loop_prints| |auto].
    cbn beta. intros _ s' H. rewrite L in H. exact H.
  - eapply post_weaken; [apply prpending_loop_prints| |auto].
    cbn beta. intros _ s' (P & H).
    cbn [lastout set_lastout pending bufdata ptr_or_bufbeg] in H.
    split; [eapply prints_trans; [|exact P]; repeat split|exact H].
Qed.

Lemma leading_context_start_le (buf : list ascii) (bp : nat) (i : nat) :
  forall p, (leading_context_start cfg i buf bp p <= p)%nat.
Proof.
  induction i as [|i IH]; intros p; cbn [leading_context_start]; [lia|].
  destruct (Nat.ltb bp p) eqn:E; [|apply IH].
  apply Nat.ltb_lt in E.
  pose proof (back_to_bol_le p buf (eolbyte cfg) bp (p - 1)) as H1.
  pose proof (IH (back_to_bol p buf (eolbyte cfg) bp (p - 1))) as H2.
  lia.
Qed.

Lemma leading_context_loop_prints (fuel : nat) :
  forall p beg s,
    post no_exit
      (fun r s' => prints s s' /\ pending s' = pending s
                   /\ ((p <= beg)%nat -> r = beg))
      (leading_context_loop cfg w fuel p beg s).
Proof.
  induction fuel as [|fuel IH]; intros p beg s;
    cbn [leading_context_loop]; destruct (Nat.ltb p beg) eqn:C; mred;
    try exact I;
    try (apply Nat.ltb_ge in C; split; [apply prints_refl|];
         split; [reflexivity|lia]).
  apply Nat.ltb_lt in C.
  destruct (memchr (bufdata s) p (eolbyte cfg) (beg - p)) as [nl|] eqn:Hm;
    [|exact I].
  apply memchr_some in Hm. destruct Hm as [Hq _].
  eapply post_bind; [apply prline_prints|].
  cbn beta. intros _ s1 (P1 & Pe1 & _).
  eapply post_weaken; [apply IH| |auto].
  cbn beta. intros r s2 (P2 & Pe2 & R2).
  split; [eapply prints_trans; eauto|]. split; [congruence|].
  intros _. apply R2. lia.
Qed.

Lemma count_loop_counts (fuel : nat) :
  forall p lim n s,
    post no_exit
      (fun r s' =>
         prints s s' /\ pending s' = pending s
         /\ (p <= snd r)%nat
         /\ ((p <= lim)%nat -> (snd r <= lim)%nat)
         /\ fst r = n + eol_count (eolbyte cfg) (bufdata s) p (snd r)
         /\ ((snd r < lim)%nat -> outleft s <= fst r)
         /\ (n <= outleft s -> fst r <= outleft s))
      (count_loop cfg w fuel p lim n s).
Proof.
  induction fuel as [|fuel IH]; intros p lim n s;
    cbn [count_loop]; mred;
    destruct (Nat.ltb p lim && (n <? outleft s)) eqn:C; mred;
    try exact I;
    try (apply andb_false_iff in C;
         split; [apply prints_refl|]; split; [reflexivity|];
         split; [lia|]; split; [lia|];
         split; [rewrite eol_count_same; lia|];
         split; [intros H; destruct C as [C|C];
                 [apply Nat.ltb_ge in C; lia|apply Z.ltb_ge in C; lia]|];
         lia).
  apply andb_prop in C. destruct C as [C1 C2].
  apply Nat.ltb_lt in C1. apply Z.ltb_lt in C2.
  destruct (memchr (bufdata s) p (eolbyte cfg) (lim - p)) as [nl|] eqn:Hm;
    [|exact I].
  pose proof (eol_count_line _ _ _ _ _ Hm) as Hline.
  apply memchr_some in Hm. destruct Hm as [Hq _].
  eapply post_bind with
    (Q := fun _ s' => prints s s' /\ pending s' = pending s).
  { apply post_when; intros _.
    - eapply post_weaken; [apply prline_prints| |auto].
      cbn beta. intros _ s1 (P1 & Pe1 & _). auto.
    - split; [apply prints_refl|reflexivity]. }
  cbn beta. intros _ s1 (P1 & Pe1).
  eapply post_weaken; [apply IH| |auto].
  cbn beta. intros r s2 (P2 & Pe2 & H1 & H2 & H3 & H4 & H5).
  assert (B1 : bufdata s1 = bufdata s).
  { destruct P1 as (Hc & _). unfold scan_core in Hc. congruence. }
  assert (O1 : outleft s1 = outleft s) by (destruct P1 as (_ & Ho & _); auto).
  rewrite B1 in H3. rewrite O1 in H4, H5.
  split; [eapply prints_trans; eauto|]. split; [congruence|].
  split; [lia|]. split; [intros _; apply H2; lia|].
  split; [|split; [exact H4|intros _; apply H5; lia]].
  rewrite (eol_count_split (eolbyte cfg) (bufdata s) p (S nl)) by lia.
  lia.
Qed.

Lemma scan_core_bufdata (s s' : state) :
  scan_core s' = scan_core s -> bufdata s' = bufdata s.
Proof. unfold scan_core. congruence. Qed.

Lemma scan_core_out_quiet (s s' : state) :
  scan_core s' = scan_core s -> out_quiet s' = out_quiet s.
Proof. unfold scan_core. congruence. Qed.

Lemma scan_core_done_on_match (s s' : state) :
  scan_core s' = scan_core s -> done_on_match s' = done_on_match s.
Proof. unfold scan_core. congruence. Qed.

(** What prtext keeps, sets and counts. *)
Lemma prtext_counts (beg lim : nat) (nlinesp : bool) (s : state) :
  post no_exit
    (fun n s' =>
       scan_core s' = scan_core s /\ outleft s' = outleft s
       /\ used s' = 1
       /\ pending s' = (if nz (out_quiet s) then 0 else out_after cfg)
       /\ (nlinesp = false ->
           n = 0 /\ after_last_match s' = after_last_match s)
       /\ (nlinesp = true -> 0 <= outleft s -> (beg <= lim)%nat ->
           n = Z.min (outleft s)
                 (eol_count (eolbyte cfg) (bufdata s) beg lim))
       /\ (0 <= outleft s -> 0 <= n <= outleft s))
    (prtext cfg w beg lim nlinesp s).
Proof.
  unfold prtext. mred.
  eapply post_bind with (Q := fun _ s1 => prints s s1).
  { apply post_when; intros _; [|apply prints_refl].
    eapply post_weaken; [apply prpending_prints| |auto].
    cbn beta. tauto. }
  cbn beta. intros _ s1 P1. mred.
  eapply post_bind with
    (Q := fun p s2 => prints s s2 /\ p = beg).
  { destruct (negb (nz (out_quiet s1))); [|mred; auto].
    eapply post_bind with (Q := fun _ s2 => prints s s2).
    { apply post_when; intros _; mred; [|exact P1].
      eapply prints_trans; [exact P1|]. repeat split. }
    cbn beta. intros _ s2 P2.
    eapply post_weaken; [apply leading_context_loop_prints| |auto].
    cbn beta. intros r s3 (P3 & _ & R3).
    split; [eapply prints_trans; eauto|].
    apply R3. apply leading_context_start_le. }
  cbn beta. intros p s2 (P2 & ->).
  pose proof P2 as (C2 & O2 & U2 & A2).
  pose proof (scan_core_bufdata _ _ C2) as B2.
  pose proof (scan_core_out_quiet _ _ C2) as Q2.
  destruct nlinesp.
  - rewrite bind_bind.
    eapply post_bind; [apply count_loop_counts|].
    cbn beta. intros [n p'] s3 (P3 & _ & H1 & H2 & H3 & H4 & H5).
    cbn [fst snd] in *. mred. cbn.
    pose proof P3 as (C3 & O3 & U3 & A3).
    pose proof (scan_core_out_quiet _ _ C3) as Q3.
    rewrite B2, O2 in *.
    split; [transitivity (scan_core s3); [reflexivity|congruence]|].
    split; [congruence|]. split; [reflexivity|].
    split; [rewrite Q3, Q2; reflexivity|].
    split; [discriminate|].
    pose proof (eol_count_nonneg (eolbyte cfg) (bufdata s) beg p') as Hnn.
    split; [|intros Ho; specialize (H5 Ho); lia].
    intros _ Ho Hle. specialize (H5 Ho). specialize (H2 Hle).
    destruct (Nat.eq_dec p' lim) as [->|Hne]; [lia|].
    specialize (H4 ltac:(lia)).
    rewrite (eol_count_split (eolbyte cfg) (bufdata s) beg p' lim) by lia.
    pose proof (eol_count_nonneg (eolbyte cfg) (bufdata s) p' lim).
    lia.
  - rewrite bind_bind. mred. rewrite bind_bind.
    eapply post_bind with (Q := fun _ s3 => prints s s3).
    { apply post_when; intros _; [|exact P2].
      eapply post_weaken; [apply prline_prints| |auto].
      cbn beta. intros _ s3 (P3 & _). eapply prints_trans; eauto. }
    cbn beta. intros _ s3 P3. mred. cbn.
    pose proof P3 as (C3 & O3 & U3 & A3).
    pose proof (scan_core_out_quiet _ _ C3) as Q3.
    split; [exact C3|]. split; [exact O3|]. split; [reflexivity|].
    split; [rewrite Q3; reflexivity|].
    split; [auto|]. split; [discriminate|]. lia.
Qed.

Lemma no_exit_quiet {A} (Q : A -> state -> Prop) (o : outcome A) :
  post no_exit Q o -> post (quiet_exit cfg) Q o.
Proof.
  destruct o as [a s'|[c s'|s'|u|k]]; cbn; auto; contradiction.
Qed.

(** The budget of lines that grepbuf keeps in [outleft]. *)
Lemma grepbuf_loop_budget (fuel : nat) :
  forall lim p nlines s,
    0 < outleft s ->
    post (quiet_exit cfg)
      (fun r s' =>
         scan_core s' = scan_core s
         /\ exit_nlines r - nlines = outleft s - outleft s'
         /\ 0 <= outleft s'
         /\ match r with
            | LoopDone _ _ => 0 < outleft s'
            | LoopReturn _ => True
            end)
      (grepbuf_loop cfg w fuel lim p nlines s).
Proof.
  induction fuel as [|fuel IH]; intros lim p nlines s Ho;
    cbn [grepbuf_loop]; [exact I|].
  mred.
  destruct (execute cfg (slice (bufdata s) p lim)) as [[off sz]|];
    [|mred; cbn; repeat split; lia].
  destruct (Nat.eqb (p + off) lim); [mred; cbn; repeat split; lia|].
  destruct (negb (nz (out_invert cfg))).
  - eapply post_bind;
      [apply no_exit_quiet; apply prtext_counts|].
    cbn beta. intros n s1 (C1 & O1 & _ & _ & _ & _ & _). mred.
    cbn [outleft done_on_match set_outleft bufoffset bufdata].
    destruct (negb (nz (outleft s1 - 1)) || nz (done_on_match s1)) eqn:E.
    + destruct (nz (exit_on_match cfg)) eqn:Ee; mred.
      * split; [reflexivity|]. unfold nz in Ee.
        destruct (exit_on_match cfg =? 0) eqn:E0; [discriminate|].
        apply Z.eqb_neq in E0. exact E0.
      * cbn. repeat split; auto; lia.
    + apply orb_false_iff in E. destruct E as [E _].
      apply negb_false_iff in E. unfold nz in E.
      apply negb_true_iff, Z.eqb_neq in E.
      eapply post_weaken; [apply IH| |auto].
      * cbn. lia.
      * cbn beta. intros r s2 (C2 & N2 & O2 & R2).
        change (scan_core s2 = scan_core s1) in C2. cbn in N2.
        split; [congruence|]. split; [lia|]. split; [exact O2|exact R2].
  - destruct (Nat.ltb p (p + off)).
    + eapply post_bind;
        [apply no_exit_quiet; apply prtext_counts|].
      cbn beta. intros n s1 (C1 & O1 & _ & _ & _ & _ & N1). mred.
      cbn [outleft set_outleft].
      specialize (N1 ltac:(lia)).
      destruct (negb (nz (outleft s1 - n))) eqn:E; mred.
      * cbn. repeat split; auto; lia.
      * apply negb_false_iff in E. unfold nz in E.
        apply negb_true_iff, Z.eqb_neq in E.
        eapply post_weaken; [apply IH| |auto].
        -- cbn. lia.
        -- cbn beta. intros r s2 (C2 & N2 & O2 & R2).
           change (scan_core s2 = scan_core s1) in C2. cbn in N2.
           split; [congruence|]. split; [lia|]. split; [exact O2|exact R2].
    + eapply post_weaken; [apply IH; exact Ho| |auto].
      cbn beta. tauto.
Qed.

Lemma grepbuf_budget (fuel : nat) (beg lim : nat) (s : state) :
  0 < outleft s ->
  post (quiet_exit cfg)
    (fun n s' =>
       scan_core s' = scan_core s
       /\ n = outleft s - outleft s' /\ 0 <= outleft s')
    (grepbuf cfg w fuel beg lim s).
Proof.
  intros Ho. unfold grepbuf.
  eapply post_bind; [apply grepbuf_loop_budget; exact Ho|].
  cbn beta. intros [p nlines|nlines] s1 (C1 & N1 & O1 & R1);
    cbn [exit_nlines] in N1; [|mred; repeat split; auto; lia].
  destruct (nz (out_invert cfg) && Nat.ltb p lim);
    [|mred; repeat split; auto; lia].
  eapply post_bind;
    [apply no_exit_quiet; apply prtext_counts|].
  cbn beta. intros n s2 (C2 & O2 & _ & _ & _ & _ & N2). mred. cbn.
  specialize (N2 ltac:(lia)).
  split; [transitivity (scan_core s2); [reflexivity|congruence]|].
  split; lia.
Qed.

Lemma quiet_exit_any {A} (Q : A -> state -> Prop) (o : outcome A) :
  post (quiet_exit cfg) Q o -> post any_stop Q o.
Proof.
  destruct o; cbn; auto. intros _. exact I.
Qed.

Lemma no_exit_any {A} (Q : A -> state -> Prop) (o : outcome A) :
  post no_exit Q o -> post any_stop Q o.
Proof.
  destruct o; cbn; auto. intros _. exact I.
Qed.

(** What fillbuf does to the buffer and the read offset, and what it
    keeps. *)
Lemma fillbuf_keeps (save : nat) (st : stat) (s : state) :
  post only_fatal
    (fun cc s' =>
       exists chunk,
         bufdata s'
         = skipn (List.length (bufdata s) - save) (bufdata s) ++ chunk
         /\ bufoffset s' = bufoffset s + Z.of_nat (List.length chunk)
         /\ (List.length chunk
             <= Z.to_nat (wrap (bufalloc s' - bufsalloc s')))%nat
         /\ (cc = 0 \/ cc = 1)
         /\ (cc = 0 -> chunk = [])
         /\ totalcc s' = totalcc s /\ outleft s' = outleft s
         /\ sout s' = sout s /\ serr s' = serr s
         /\ errseen s' = errseen s /\ pagesize s' = pagesize s)
    (fillbuf w save st s).
Proof.
  unfold fillbuf. mred.
  eapply post_bind with
    (Q := fun _ s1 =>
            bufdata s1 = bufdata s /\ bufoffset s1 = bufoffset s
            /\ rd s1 = rd s
            /\ totalcc s1 = totalcc s /\ outleft s1 = outleft s
            /\ sout s1 = sout s /\ serr s1 = serr s
            /\ errseen s1 = errseen s /\ pagesize s1 = pagesize s).
  { apply post_when; intros _; [|repeat split].
    unfold fillbuf_grow. mred.
    match goal with
    | |- context [if ?b then _ else _] => destruct b
    end; [unfold fatal; mred; reflexivity|].
    match goal with
    | |- context [if ?b then _ else _] => destruct b
    end; [|mred; repeat split].
    mred. destruct (page_alloc w _ _);
      [mred; repeat split|unfold fatal; mred; reflexivity]. }
  cbn beta. intros _ s1 (B1 & O1 & R1 & T1 & L1 & So1 & Se1 & E1 & P1). mred.
  destruct (sys_read (Z.to_nat (wrap (bufalloc s1 - bufsalloc s1))) (rd s1))
    as [[e|chunk] rest] eqn:Er; mred; cbn.
  - exists []. rewrite app_nil_r, Z.add_0_r. cbn [List.length].
    repeat split; auto; lia.
  - exists chunk.
    assert (Hc : (List.length chunk
                  <= Z.to_nat (wrap (bufalloc s1 - bufsalloc s1)))%nat).
    { apply (sys_read_length _ _ _ _ Er). }
    repeat split; auto; try congruence; try discriminate.
Qed.

Lemma last_eol_range (fuel : nat) (buf : list ascii) (beg : nat) :
  forall lim,
    (last_eol cfg fuel buf beg lim <= lim)%nat
    /\ ((beg <= lim)%nat -> (beg <= last_eol cfg fuel buf beg lim)%nat).
Proof.
  induction fuel as [|fuel IH]; intros lim; cbn [last_eol]; [lia|].
  destruct (Nat.ltb beg lim) eqn:E; cbn [andb]; [|lia].
  apply Nat.ltb_lt in E.
  destruct (negb (Ascii.eqb (byte_at buf (lim - 1)) (eolbyte cfg))); [|lia].
  destruct (IH (lim - 1)%nat) as [H1 H2]. lia.
Qed.

Lemma context_reserve_le (buf : list ascii) (lo : option nat) (n : nat) :
  forall beg, (context_reserve cfg n buf lo beg <= beg)%nat.
Proof.
  induction n as [|n IH]; intros beg; cbn [context_reserve]; [lia|].
  destruct (Nat.ltb 0 beg && negb (ptr_eqb (Some beg) lo)); [|lia].
  pose proof (back_to_bol_le beg buf (eolbyte cfg) 0 (beg - 1)) as H1.
  pose proof (IH (back_to_bol beg buf (eolbyte cfg) 0 (beg - 1))) as H2.
  lia.
Qed.

(** The two accounts that the scanning loop of grep keeps: the lines
    counted and the lines still allowed add up to the same number, and
    [totalcc] stays the number of bytes read that lie before the
    buffer. *)
Lemma grep_loop_accounts (fuel : nat) :
  forall file st nlines residue save s,
    0 <= outleft s ->
    post any_stop
      (fun r s' =>
         scan_nlines r + outleft s' = nlines + outleft s
         /\ 0 <= outleft s'
         /\ bufoffset s' - totalcc s' - Z.of_nat (List.length (bufdata s'))
            = bufoffset s - totalcc s - Z.of_nat (List.length (bufdata s)))
      (grep_loop cfg w fuel file st nlines residue save s).
Proof.
  induction fuel as [|fuel IH]; intros file st nlines residue save s Ho;
    cbn [grep_loop]; [exact I|].
  eapply post_bind with (Q := fun _ s1 => s1 = set_lastnl O s);
    [reflexivity|].
  cbn beta. intros _ s1 ->.
  eapply post_bind with
    (Q := fun _ s0 => scan_core s0 = scan_core s
                      /\ outleft s0 = outleft s).
  { unfold modify. cbn. destruct (lastout s); cbn; auto. }
  cbn beta. intros _ s0 (C0 & O0). mred.
  pose proof (scan_core_bufdata _ _ C0) as B0.
  assert (T0 : bufoffset s0 = bufoffset s /\ totalcc s0 = totalcc s)
    by (unfold scan_core in C0; split; congruence).
  destruct T0 as [F0 T0].
  destruct (Nat.eqb (List.length (bufdata s0)) save).
  { mred. cbn. rewrite B0, F0, T0. lia. }
  set (buflim := List.length (bufdata s0)).
  set (lim := last_eol cfg buflim (bufdata s0) (save - residue) buflim).
  destruct (last_eol_range buflim (bufdata s0) (save - residue) buflim)
    as [Hlim _]. fold lim in Hlim.
  eapply post_bind with
    (Q := fun r s1 => scan_core s1 = scan_core s
                      /\ fst r + outleft s1 = nlines + outleft s
                      /\ 0 <= outleft s1).
  { destruct (Nat.ltb (save - residue) lim); [|mred; cbn; split; auto; lia].
    eapply post_bind with
      (Q := fun n s1 => scan_core s1 = scan_core s
                        /\ n + outleft s1 = outleft s /\ 0 <= outleft s1).
    { destruct (nz (outleft s0)) eqn:En; [|mred; split; auto; lia].
      unfold nz in En. apply negb_true_iff, Z.eqb_neq in En.
      eapply post_weaken;
        [apply quiet_exit_any; apply grepbuf_budget; lia| |auto].
      cbn beta. intros n s1 (C1 & N1 & O1).
      split; [congruence|]. lia. }
    cbn beta. intros n s1 (C1 & N1 & O1). mred.
    eapply post_bind with
      (Q := fun _ s2 => scan_core s2 = scan_core s
                        /\ outleft s2 = outleft s1).
    { apply post_when; intros _; [|auto].
      eapply post_weaken; [apply no_exit_any; apply prpending_prints| |auto].
      cbn beta. intros _ s2 ((C2 & O2 & _) & _). split; congruence. }
    cbn beta. intros _ s2 (C2 & O2). mred. cbn [fst].
    split; [exact C2|]. lia. }
  cbn beta. intros [nlines' finish] s1 (C1 & N1 & O1). cbn [fst] in N1.
  pose proof (scan_core_bufdata _ _ C1) as B1.
  assert (T1 : bufoffset s1 = bufoffset s /\ totalcc s1 = totalcc s)
    by (unfold scan_core in C1; split; congruence).
  destruct T1 as [F1 T1].
  destruct finish; [mred; cbn; rewrite B1, F1, T1; lia|]. mred.
  set (beg := context_reserve cfg (Z.to_nat (out_before cfg)) (bufdata s1)
                (lastout s1) lim).
  pose proof (context_reserve_le (bufdata s1) (lastout s1)
                (Z.to_nat (out_before cfg)) lim) as Hbeg. fold beg in Hbeg.
  eapply post_bind with
    (Q := fun _ s2 => scan_core s2 = scan_core s1
                      /\ outleft s2 = outleft s1).
  { apply post_when; intros _; mred; cbn; auto. }
  cbn beta. intros _ s2 (C2 & O2). mred.
  eapply post_bind with
    (Q := fun _ s3 =>
            bufdata s3 = bufdata s /\ bufoffset s3 = bufoffset s
            /\ totalcc s3
               = totalcc s + Z.of_nat buflim
                 - Z.of_nat (buflim - lim + lim - beg)
            /\ outleft s3 = outleft s1).
  { assert (H2 : bufdata s2 = bufdata s /\ bufoffset s2 = bufoffset s
                 /\ totalcc s2 = totalcc s).
    { unfold scan_core in C2, C1. repeat split; congruence. }
    destruct H2 as (B2 & F2 & T2).
    apply post_when; intros _.
    - eapply post_weaken; [apply no_exit_any; apply nlscan_prints| |auto].
      cbn beta. intros _ s3 ((C3 & O3 & _) & _).
      unfold scan_core in C3. cbn in C3, O3.
      repeat split; congruence.
    - cbn. repeat split; congruence. }
  cbn beta. intros _ s3 (B3 & F3 & T3 & O3).
  eapply post_bind;
    [eapply post_weaken; [apply fillbuf_keeps| |intros r _; exact I];
     cbn beta; intros a s4 H; exact H|].
  cbn beta.
  intros cc s4 (chunk & B4 & F4 & _ & _ & _ & T4 & O4 & _).
  assert (Hacc : bufoffset s4 - totalcc s4
                 - Z.of_nat (List.length (bufdata s4))
                 = bufoffset s - totalcc s
                   - Z.of_nat (List.length (bufdata s))).
  { rewrite B4, F4, T4, length_app, length_skipn, B3, F3, T3.
    unfold buflim in *. rewrite B0 in *. lia. }
  destruct (cc =? 0).
  - mred.
    eapply post_bind with
      (Q := fun _ s5 =>
              bufdata s5 = bufdata s4 /\ bufoffset s5 = bufoffset s4
              /\ totalcc s5 = totalcc s4 /\ outleft s5 = outleft s4).
    { apply post_when; intros _; [|auto].
      unfold suppressible_error.
      destruct (negb (nz (suppress_errors cfg))); mred; cbn; auto. }
    cbn beta. intros _ s5 (B5 & F5 & T5 & O5). mred. cbn.
    rewrite B5, F5, T5, O5, O4, O3. lia.
  - eapply post_weaken; [apply IH| |auto].
    + lia.
    + cbn beta. intros r s5 (N5 & O5 & A5).
      split; [rewrite N5; lia|]. split; [exact O5|]. lia.
Qed.

Lemma post_three_quiet {A} (Q1 Q2 Q3 : A -> state -> Prop)
  (o : outcome A) :
  post ok_safe Q1 o ->
  post (ok_tame cfg false false true) Q2 o ->
  post (quiet_exit cfg) Q3 o ->
  post (only_quiet_exit cfg) (fun a s => Q1 a s /\ Q2 a s /\ Q3 a s) o.
Proof.
  destruct o as [a s'|[c s'|s'|u|[|]]]; cbn; auto; try tauto; discriminate.
Qed.

(** grep never counts more lines than [max_count]. *)
Lemma grep_budget (grepdir : grepdir_t) (fuel : nat) (file : option string)
  (st : stat) (anc : list stat) (s : state) :
  0 <= max_count cfg ->
  (forall f st' s',
      post any_stop (fun status _ => is_status status)
        (grepdir f st' anc s')) ->
  post any_stop (fun r _ => fst r <= max_count cfg)
    (grep cfg w grepdir fuel file st anc s).
Proof.
  intros Hmax Hdir. unfold grep.
  eapply post_bind with (Q := fun _ _ => True).
  { destruct (reset cfg w file st s); exact I. }
  cbn beta. intros [ok st'] s1 _.
  destruct (ok =? 0); [mred; exact Hmax|].
  match goal with
  | |- post _ _ (match ?x with _ => _ end _) => destruct x as [f|]
  end.
  - eapply post_bind with (Q := fun _ _ => True).
    { destruct (w_close w f); mred; exact I. }
    cbn beta. intros _ s2 _.
    eapply post_bind; [apply Hdir|].
    cbn beta. intros status s3 [-> | ->]; mred; cbn; lia.
  - mred.
    eapply post_bind;
      [eapply post_weaken; [apply fillbuf_keeps| |intros r _; exact I];
       cbn beta; intros a s4 H; exact H|].
    cbn beta. intros cc s2 (chunk & _ & _ & _ & _ & _ & _ & O2 & _).
    cbn [outleft set_pending set_after_last_match set_outleft] in O2.
    destruct (cc =? 0).
    { mred.
      eapply post_bind with (Q := fun _ _ => True).
      { match goal with |- post _ _ ?o => destruct o; exact I end. }
      cbn beta. intros _ s3 _. mred. exact Hmax. }
    mred.
    match goal with
    | |- context [if ?b then ret (0, st') else _] => destruct b
    end; [mred; exact Hmax|].
    mred.
    eapply post_bind.
    { apply grep_loop_accounts. cbn. lia. }
    cbn beta. intros r s3 (N3 & O3 & _). cbn in N3. rewrite O2 in N3.
    destruct r as [nlines residue save|nlines]; cbn [scan_nlines] in N3.
    + eapply post_bind with
        (Q := fun n s4 => n <= max_count cfg);
        [|cbn beta; intros n s4 Hn;
          eapply post_bind with (Q := fun n' _ => n' = n);
          [unfold finish_grep; mred;
           match goal with
           | |- context [when ?b _] => destruct b
           end; mred; reflexivity
          |cbn beta; intros n' s5 ->; mred; exact Hn]].
      destruct (Nat.ltb 0 residue); [|mred; lia].
      mred. cbn [bufdata set_bufdata outleft pending].
      eapply post_bind with
        (Q := fun n s4 => nlines + n <= max_count cfg).
      { destruct (nz (outleft s3)) eqn:En; [|mred; lia].
        unfold nz in En. apply negb_true_iff, Z.eqb_neq in En.
        eapply post_weaken;
          [apply quiet_exit_any; apply grepbuf_budget; cbn; lia| |auto].
        cbn beta. intros n s4 (_ & N4 & O4). cbn in N4. lia. }
      cbn beta. intros n s4 N4. mred.
      eapply post_bind with (Q := fun _ _ => True).
      { match goal with |- post _ _ ?o => destruct o; exact I end. }
      cbn beta. intros _ s5 _. mred. exact N4.
    + eapply post_bind with (Q := fun n' _ => n' = nlines).
      { unfold finish_grep. mred.
        match goal with
        | |- context [when ?b _] => destruct b
        end; mred; reflexivity. }
      cbn beta. intros n' s5 ->. mred. cbn. lia.
Qed.

End Keeps.

(** ** Reading the options *)

Section OptionsFacts.

Variable ISSPACE : ascii -> bool.

Lemma skip_space_length (o : list ascii) :
  (List.length (skip_space ISSPACE o) <= List.length o)%nat.
Proof.
  induction o as [|c o IH]; cbn [skip_space]; [lia|].
  destruct (ISSPACE c); cbn [List.length] in *; lia.
Qed.

Lemma skip_space_head (o : list ascii) (c : ascii) (o1 : list ascii) :
  skip_space ISSPACE o = c :: o1 -> ISSPACE c = false.
Proof.
  induction o as [|x o IH]; cbn [skip_space]; [discriminate|].
  destruct (ISSPACE x) eqn:E; [exact IH|].
  intros [= <- _]. exact E.
Qed.

(** One option copied: it is not empty, it and what is left are no
    longer than what was there, and what is left is empty or starts with
    a space. *)
Lemma copy_option_spec (o1 : list ascii) :
  forall c arg rest,
    copy_option ISSPACE c o1 = (arg, rest) ->
    arg <> []
    /\ (List.length arg + List.length rest <= S (List.length o1))%nat
    /\ (List.length rest <= List.length o1)%nat
    /\ match rest with
       | [] => True
       | x :: _ => ISSPACE x = true
       end.
Proof.
  induction o1 as [o1 IH] using (well_founded_induction
                                   (Wf_nat.well_founded_ltof _ (@List.length ascii))).
  intros c arg rest H. unfold Wf_nat.ltof in IH.
  destruct o1 as [|d o2]; cbn [copy_option] in H.
  - destruct (Ascii.eqb c "\"%char); injection H as <- <-;
      cbn; repeat split; auto; try lia; discriminate.
  - destruct (Ascii.eqb c "\"%char).
    + destruct o2 as [|x o3].
      * injection H as <- <-. cbn. repeat split; auto; try lia; discriminate.
      * destruct (ISSPACE x) eqn:Ex.
        -- injection H as <- <-. cbn [List.length].
           split; [discriminate|]. split; [lia|]. split; [lia|].
           exact Ex.
        -- destruct (copy_option ISSPACE x o3) as [t r] eqn:Er.
           injection H as <- <-.
           destruct (IH o3 ltac:(cbn; lia) x t r Er) as (H1 & H2 & H3 & H4).
           cbn [List.length]. split; [discriminate|].
           split; [lia|]. split; [lia|].
           exact H4.
    + destruct (ISSPACE d) eqn:Ed.
      * injection H as <- <-. cbn [List.length].
        split; [discriminate|]. split; [lia|]. split; [lia|]. exact Ed.
      * destruct (copy_option ISSPACE d o2) as [t r] eqn:Er.
        injection H as <- <-.
        destruct (IH o2 ltac:(cbn; lia) d t r Er) as (H1 & H2 & H3 & H4).
        cbn [List.length]. split; [discriminate|].
        split; [lia|]. split; [lia|].
        exact H4.
Qed.

Lemma buf_bytes_cons (arg : list ascii) (args : list (list ascii)) :
  List.length (buf_bytes (arg :: args))
  = (List.length arg + 1 + List.length (buf_bytes args))%nat.
Proof.
  unfold buf_bytes. cbn [map List.concat].
  rewrite !length_app. cbn [List.length]. lia.
Qed.

(** With a round of fuel for each byte, prepend_args returns; its
    options are not empty, and with their NULs they take no more bytes
    than what is left of the string once the leading spaces are
    skipped, and one more. *)
Lemma prepend_args_spec (fuel : nat) :
  forall options,
    (List.length options <= fuel)%nat ->
    exists args,
      prepend_args ISSPACE fuel options = Some args
      /\ Forall (fun arg => arg <> []) args
      /\ (List.length args <= List.length options)%nat
      /\ match args with
         | [] => True
         | _ => (List.length (buf_bytes args)
                 <= List.length (skip_space ISSPACE options) + 1)%nat
         end.
Proof.
  induction fuel as [|fuel IH]; intros options Hf.
  - destruct options; [|cbn in Hf; lia].
    exists []. cbn. repeat split; auto.
  - pose proof (skip_space_length options) as Hs.
    cbn [prepend_args].
    destruct (skip_space ISSPACE options) as [|c o1] eqn:Es.
    + exists []. repeat split; auto; cbn; lia.
    + destruct (copy_option ISSPACE c o1) as [arg rest] eqn:Ec.
      destruct (copy_option_spec o1 c arg rest Ec) as (H1 & H2 & H3 & H4).
      cbn [List.length] in Hs.
      destruct (IH rest ltac:(lia)) as (args & E & F & L & B).
      rewrite E. exists (arg :: args).
      split; [reflexivity|]. split; [constructor; auto|].
      split; [cbn [List.length]; lia|].
      rewrite buf_bytes_cons. cbn [List.length].
      destruct args as [|a args'].
      * cbn. lia.
      * pose proof (skip_space_length rest) as Hr.
        destruct rest as [|x r].
        -- cbn in E. destruct fuel; discriminate.
        -- assert (Hx : ISSPACE x = true) by exact H4.
           cbn [skip_space] in B. rewrite Hx in B.
           pose proof (skip_space_length r) as Hr'.
           cbn [List.length] in *. lia.
Qed.

Lemma escape_option_head (arg : list ascii) :
  ISSPACE backslash = false ->
  arg <> [] ->
  exists x r, escape_option ISSPACE arg = x :: r /\ ISSPACE x = false.
Proof.
  intros Hb Ha. destruct arg as [|a arg]; [contradiction|].
  unfold escape_option. cbn [flat_map].
  destruct (ISSPACE a || Ascii.eqb a backslash) eqn:E; cbn [app].
  - eauto.
  - apply orb_false_iff in E. destruct E as [E _]. eauto.
Qed.

(** The copy of an escaped option is the option. *)
Lemma copy_option_escaped (arg : list ascii) :
  ISSPACE backslash = false ->
  forall c o1 rest,
    arg <> [] ->
    match rest with [] => True | x :: _ => ISSPACE x = true end ->
    escape_option ISSPACE arg ++ rest = c :: o1 ->
    copy_option ISSPACE c o1 = (arg, rest).
Proof.
  intros Hb.
  induction arg as [|a arg IH]; intros c o1 rest Ha Hr E; [contradiction|].
  unfold escape_option in E. cbn [flat_map] in E.
  fold (escape_option ISSPACE arg) in E.
  assert (Htail : forall o2,
             escape_option ISSPACE arg ++ rest = o2 ->
             match o2 with
             | [] => arg = [] /\ rest = []
             | x :: o3 =>
                 if ISSPACE x then arg = [] /\ rest = o2
                 else copy_option ISSPACE x o3 = (arg, rest)
             end).
  { intros o2 <-. destruct arg as [|b arg'].
    - cbn. destruct rest as [|x r]; [auto|]. rewrite Hr. auto.
    - destruct (escape_option_head (b :: arg') Hb ltac:(discriminate))
        as (x & r & Ex & Hx).
      rewrite Ex. cbn [app]. rewrite Hx.
      apply IH; [discriminate|exact Hr|]. rewrite Ex. reflexivity. }
  destruct (ISSPACE a || Ascii.eqb a backslash) eqn:Es.
  - cbn [app] in E. injection E as <- <-.
    cbn [copy_option]. change (Ascii.eqb backslash "\"%char) with true.
    cbv iota.
    specialize (Htail _ eq_refl).
    destruct (escape_option ISSPACE arg ++ rest) as [|x o3].
    + destruct Htail as [-> ->]. reflexivity.
    + destruct (ISSPACE x).
      * destruct Htail as [-> ->]. reflexivity.
      * rewrite Htail. reflexivity.
  - apply orb_false_iff in Es. destruct Es as [_ Eb].
    cbn [app] in E. injection E as <- <-.
    specialize (Htail _ eq_refl).
    destruct (escape_option ISSPACE arg ++ rest) as [|x o3];
      cbn [copy_option]; unfold backslash in Eb; rewrite Eb.
    + destruct Htail as [-> ->]. reflexivity.
    + destruct (ISSPACE x).
      * destruct Htail as [-> ->]. reflexivity.
      * rewrite Htail. reflexivity.
Qed.

Lemma prepend_args_skip (fuel : nat) (x : ascii) (o : list ascii) :
  ISSPACE x = true ->
  prepend_args ISSPACE fuel (x :: o) = prepend_args ISSPACE fuel o.
Proof.
  intros Hx. destruct fuel; cbn [prepend_args skip_space]; rewrite Hx;
    reflexivity.
Qed.

Lemma prepend_args_escaped (args : list (list ascii)) :
  ISSPACE " "%char = true ->
  ISSPACE backslash = false ->
  Forall (fun arg => arg <> []) args ->
  forall fuel,
    (List.length args <= fuel)%nat ->
    prepend_args ISSPACE fuel
      (join_options (map (escape_option ISSPACE) args))
    = Some args.
Proof.
  intros Hsp Hb.
  induction args as [|a args IH]; intros Hne fuel Hf.
  - destruct fuel; reflexivity.
  - inversion Hne as [|? ? Ha Hne']; subst.
    destruct fuel as [|fuel]; [cbn in Hf; lia|].
    set (R := match args with
              | [] => []
              | _ => " "%char
                     :: join_options (map (escape_option ISSPACE) args)
              end).
    assert (Ej : join_options (map (escape_option ISSPACE) (a :: args))
                 = escape_option ISSPACE a ++ R).
    { unfold R. destruct args; cbn [map join_options];
        [rewrite app_nil_r|]; reflexivity. }
    rewrite Ej.
    destruct (escape_option_head a Hb Ha) as (x & r & Ex & Hx).
    assert (Es : skip_space ISSPACE (escape_option ISSPACE a ++ R)
                 = x :: (r ++ R)).
    { rewrite Ex. cbn [app skip_space]. rewrite Hx. reflexivity. }
    cbn [prepend_args]. rewrite Es.
    rewrite (copy_option_escaped a Hb x (r ++ R) R Ha).
    + assert (Er : prepend_args ISSPACE fuel R = Some args).
      { unfold R. destruct args as [|b args'].
        - destruct fuel; reflexivity.
        - rewrite prepend_args_skip by exact Hsp.
          apply IH; [exact Hne'|cbn [List.length] in *; lia]. }
      rewrite Er. reflexivity.
    + unfold R. destruct args; [exact I|exact Hsp].
    + rewrite Ex. reflexivity.
Qed.

Lemma join_options_length (args : list (list ascii)) :
  Forall (fun arg => arg <> []) args ->
  (List.length args <= List.length (join_options args))%nat.
Proof.
  induction args as [|a args IH]; intros H; [cbn; lia|].
  inversion H as [|? ? Ha H']; subst.
  destruct a as [|c a]; [contradiction|].
  destruct args as [|b args']; [cbn; lia|].
  specialize (IH H'). cbn [join_options] in *.
  rewrite length_app. cbn [List.length] in *. lia.
Qed.

End OptionsFacts.

(** The digits of a [-NUM] option. *)

Lemma decimal_value_grows (ds : list ascii) :
  Forall is_digit ds ->
  forall acc, 0 <= acc -> acc <= decimal_value acc ds.
Proof.
  induction 1 as [|d ds Hd _ IH]; intros acc Ha; cbn [decimal_value]; [lia|].
  unfold is_digit in Hd.
  specialize (IH (10 * acc + (Z_of_ascii d - 48)) ltac:(lia)). lia.
Qed.

Lemma digit_options_bound (opts : list Z) :
  forall buf,
    (List.length buf < 64)%nat ->
    (List.length (fst (fst (digit_options opts buf))) <= 67)%nat.
Proof.
  induction opts as [|opt rest IH]; intros buf Hb; cbn [digit_options];
    [cbn; lia|].
  destruct ((48 <=? opt) && (opt <=? 57)); [|cbn; lia].
  set (buf1 := if Ascii.eqb (hd NUL buf) "0"%char
               then removelast buf else buf).
  assert (H1 : (List.length buf1 <= List.length buf)%nat).
  { unfold buf1. destruct (Ascii.eqb (hd NUL buf) "0"%char); [|lia].
    destruct buf as [|x b]; [cbn; lia|].
    rewrite removelast_firstn_len, length_firstn. lia. }
  destruct (Nat.eqb (List.length (buf1 ++ [ascii_of_Z opt])) 64) eqn:E.
  - apply Nat.eqb_eq in E. cbn [fst]. rewrite length_app, E. cbn. lia.
  - apply Nat.eqb_neq in E. apply IH.
    rewrite length_app in *. cbn [List.length] in *. lia.
Qed.

Lemma kept_digits_step (buf : list ascii) (opt : Z) :
  kept_digits buf ->
  48 <= opt <= 57 ->
  let buf1 := if Ascii.eqb (hd NUL buf) "0"%char
              then removelast buf else buf in
  kept_digits (buf1 ++ [ascii_of_Z opt])
  /\ decimal_value 0 (buf1 ++ [ascii_of_Z opt])
     = 10 * decimal_value 0 buf + (opt - 48).
Proof.
  intros (Hd & Hk) Ho. cbn zeta.
  assert (Ec : Z_of_ascii (ascii_of_Z opt) = opt)
    by (apply Z_of_ascii_of_Z; lia).
  assert (Hc : is_digit (ascii_of_Z opt)) by (unfold is_digit; lia).
  assert (Hone : kept_digits [ascii_of_Z opt]
                 /\ decimal_value 0 [ascii_of_Z opt] = opt - 48).
  { split; [|cbn [decimal_value]; lia].
    split; [constructor; [exact Hc|constructor]|].
    destruct (Ascii.eqb (ascii_of_Z opt) "0"%char) eqn:E.
    - apply Ascii.eqb_eq in E. left. right. rewrite E. reflexivity.
    - apply Ascii.eqb_neq in E. right. split; [exact E|].
      cbn [List.length decimal_value]. change (10 ^ (Z.of_nat 1 - 1)) with 1.
      assert (opt <> 48).
      { intros ->. apply E. reflexivity. }
      lia. }
  destruct Hk as [[-> | ->]|[Hh Hp]].
  - cbn. cbn in Hone. destruct Hone as [H1 H2]. split; [exact H1|].
    cbn [decimal_value] in *. lia.
  - cbn. cbn in Hone. destruct Hone as [H1 H2]. split; [exact H1|].
    cbn [decimal_value] in *. lia.
  - destruct buf as [|x b].
    { cbn. cbn in Hone. destruct Hone as [H1 H2]. split; [exact H1|].
      cbn [decimal_value] in *. lia. }
    destruct (Ascii.eqb (hd NUL (x :: b)) "0"%char) eqn:E;
      [apply Ascii.eqb_eq in E; contradiction|].
    rewrite decimal_value_snoc, Ec.
    split; [|reflexivity].
    split; [apply Forall_app; split; [exact Hd|constructor; auto]|].
    right. split; [exact Hh|].
    rewrite length_app, decimal_value_snoc, Ec. cbn [List.length] in *.
    replace (Z.of_nat (S (List.length b) + 1) - 1)
      with (Z.succ (Z.of_nat (S (List.length b)) - 1)) by lia.
    rewrite Z.pow_succ_r by lia. lia.
Qed.

Lemma digit_options_digits (ds : list Z) :
  forall buf opt rest,
    Forall (fun d => 48 <= d <= 57) ds ->
    ~ (48 <= opt <= 57) ->
    kept_digits buf ->
    decimal_value (decimal_value 0 buf) (map ascii_of_Z ds) < 10 ^ 63 ->
    exists buf',
      digit_options (ds ++ opt :: rest) buf = (buf', opt, rest)
      /\ kept_digits buf'
      /\ decimal_value 0 buf'
         = decimal_value (decimal_value 0 buf) (map ascii_of_Z ds)
      /\ (buf <> [] \/ ds <> [] -> buf' <> []).
Proof.
  induction ds as [|d ds IH]; intros buf opt rest Hds Ho Hk Hv.
  - cbn [app digit_options].
    destruct ((48 <=? opt) && (opt <=? 57)) eqn:E.
    + apply andb_prop in E. destruct E as [E1 E2].
      apply Z.leb_le in E1. apply Z.leb_le in E2. lia.
    + exists buf. repeat split; try apply Hk.
      intros [H|H]; [exact H|contradiction].
  - inversion Hds as [|? ? Hd Hds']; subst.
    cbn [app digit_options].
    assert (E : (48 <=? d) && (d <=? 57) = true).
    { apply andb_true_intro. split; apply Z.leb_le; lia. }
    rewrite E.
    destruct (kept_digits_step buf d Hk Hd) as [Hk2 Hv2].
    cbn zeta in Hk2, Hv2.
    set (buf2 := (if Ascii.eqb (hd NUL buf) "0"%char
                  then removelast buf else buf) ++ [ascii_of_Z d]) in *.
    assert (Ec : Z_of_ascii (ascii_of_Z d) = d)
      by (apply Z_of_ascii_of_Z; lia).
    cbn [map decimal_value] in Hv. rewrite Ec, <- Hv2 in Hv.
    assert (Hdig : Forall is_digit (map ascii_of_Z ds)).
    { clear - Hds'. induction Hds' as [|x l Hx _ IH]; constructor; auto.
      unfold is_digit. rewrite Z_of_ascii_of_Z by lia. exact Hx. }
    assert (H0 : 0 <= decimal_value 0 buf2)
      by (apply (decimal_value_grows buf2 (proj1 Hk2) 0); lia).
    pose proof (decimal_value_grows _ Hdig _ H0) as Hg.
    assert (Hlen : Nat.eqb (List.length buf2) 64 = false).
    { apply Nat.eqb_neq. intros E64.
      destruct Hk2 as (_ & [[Hk2 | Hk2]|[_ Hk2]]);
        try (rewrite Hk2 in E64; cbn in E64; lia).
      rewrite E64 in Hk2. change (10 ^ (Z.of_nat 64 - 1)) with (10 ^ 63) in Hk2.
      lia. }
    rewrite Hlen.
    destruct (IH buf2 opt rest Hds' Ho Hk2 Hv) as (buf' & E' & K' & V' & N').
    exists buf'. split; [exact E'|]. split; [exact K'|].
    split; [rewrite V'; cbn [map decimal_value]; rewrite Ec, Hv2; reflexivity|].
    intros _. apply N'. left. unfold buf2.
    intros Hnil. apply app_eq_nil in Hnil. destruct Hnil as [_ Hnil].
    discriminate.
Qed.

(** ** The sizes of the buffer *)

Lemma buffer_ok_sizes (s s' : state) :
  pagesize s' = pagesize s -> bufsalloc s' = bufsalloc s ->
  bufalloc s' = bufalloc s ->
  buffer_ok s -> buffer_ok s'.
Proof.
  unfold buffer_ok. intros -> -> ->. auto.
Qed.

(** What the growth that fillbuf computes comes to when the sizes are far
    from overflow and the file has not shrunk below the read offset. *)
Lemma growth_capacity (ps bsa save : Z) (st : stat) (off : Z) :
  0 < ps <= SIZE_MAX ->
  (ps | bsa) ->
  0 <= bsa < save ->
  10 * save + 5 * ps <= SIZE_MAX ->
  (S_ISREG (st_mode st) = true ->
   0 <= off <= st_size st /\ st_size st + save + 2 * ps < 2 ^ 63) ->
  save <= g_bufsalloc (fillbuf_growth ps bsa save st off) ->
  (ps | g_bufsalloc (fillbuf_growth ps bsa save st off))
  /\ (ps | g_newalloc (fillbuf_growth ps bsa save st off))
  /\ g_bufsalloc (fillbuf_growth ps bsa save st off)
     <= g_newalloc (fillbuf_growth ps bsa save st off)
  /\ g_newalloc (fillbuf_growth ps bsa save st off) <= SIZE_MAX.
Proof.
  intros Hps Hdiv Hb Hsz Hreg. unfold fillbuf_growth.
  destruct (round_up_spec save ps (proj1 Hps) ltac:(lia)) as [Hru Hrd].
  assert (Hal : ALIGN_TO save ps = round_up save ps)
    by (apply ALIGN_TO_round_up; unfold SIZE_MAX in *; lia).
  rewrite Hal.
  set (aligned_save := round_up save ps) in *.
  set (bsa1 := grow_bufsalloc 65 bsa save aligned_save).
  assert (Hg : (ps | bsa1) /\ 0 <= bsa1 /\ 5 * bsa1 <= SIZE_MAX
               /\ (save <= bsa1 \/ bsa1 = aligned_save)).
  { destruct (grow_bufsalloc_spec save aligned_save 65 bsa)
      as [Ha|(Hs & k & Hk & Hgk & Hm)].
    - unfold SIZE_MAX in *. lia.
    - destruct (Z.eq_dec bsa 0) as [E0|E0]; [left; lia|].
      right. change (Z.of_nat 65) with 65.
      change (2 ^ 64) with 18446744073709551616.
      change (2 ^ 65) with 36893488147419103232. lia.
    - fold bsa1 in Ha. rewrite Ha.
      split; [exact Hrd|]. split; [lia|]. split; [lia|]. right. reflexivity.
    - fold bsa1 in Hgk, Hs.
      destruct Hm as [->|Hm]; [rewrite Z.pow_0_r in Hgk; lia|].
      assert (Hk0 : k <> 0).
      { intros ->. rewrite Z.pow_0_r in Hgk. lia. }
      assert (E2 : bsa1 = 2 * (bsa * 2 ^ (k - 1))).
      { rewrite Hgk. replace k with (k - 1 + 1) at 1 by lia.
        rewrite Z.pow_add_r by lia. lia. }
      split; [rewrite Hgk; apply Z.divide_mul_l; exact Hdiv|].
      split; [lia|]. split; [lia|]. left. lia. }
  destruct Hg as (Hd1 & H01 & H51 & _).
  rewrite (wrap_small (PREFERRED_SAVE_FACTOR * bsa1))
    by (unfold PREFERRED_SAVE_FACTOR; lia).
  unfold PREFERRED_SAVE_FACTOR.
  destruct (fillbuf_maxalloc ps aligned_save st off <? 5 * bsa1) eqn:Ecap;
    cbn [g_bufsalloc g_newalloc]; intros Hsave.
  - apply Z.ltb_lt in Ecap.
    destruct (fillbuf_maxalloc_cases ps aligned_save st off) as [Hmx|Hr];
      [lia|].
    destruct (Hreg Hr) as [Hoff Hfs].
    rewrite fillbuf_maxalloc_regular in * by (auto; lia).
    destruct (round_up_spec (st_size st - off) ps (proj1 Hps) ltac:(lia))
      as [Hrt Hrtd].
    split; [exact Hrd|]. split; [apply Z.divide_add_r; assumption|]. lia.
  - split; [exact Hd1|]. split; [apply Z.divide_mul_r; exact Hd1|]. lia.
Qed.

Section Sizes.

Variable cfg : config.
Variable w : world.

Lemma fillbuf_grow_sizes (save : Z) (st : stat) (s : state) :
  buffer_ok s ->
  bufsalloc s < save ->
  10 * save + 5 * pagesize s <= SIZE_MAX ->
  (S_ISREG (st_mode st) = true ->
   0 <= bufoffset s <= st_size st
   /\ st_size st + save + 2 * pagesize s < 2 ^ 63) ->
  post only_fatal
    (fun _ s' => buffer_ok s' /\ save <= bufsalloc s')
    (fillbuf_grow w save st s).
Proof.
  intros (Hps & Hd1 & Hd2 & Hb & Hmax) Hlt Hsz Hreg.
  unfold fillbuf_grow. mred.
  set (g := fillbuf_growth (pagesize s) (bufsalloc s) save st (bufoffset s)).
  destruct ((g_bufsalloc g <? save) || (g_newalloc g <? save)
            || ((g_newalloc g =? save) && negb (g_newalloc g =? g_maxalloc g)))
    eqn:Echeck; [unfold fatal; mred; reflexivity|].
  apply orb_false_elim in Echeck. destruct Echeck as [Echeck _].
  apply orb_false_elim in Echeck. destruct Echeck as [E1 E2].
  apply Z.ltb_ge in E1. apply Z.ltb_ge in E2.
  destruct (growth_capacity (pagesize s) (bufsalloc s) save st (bufoffset s)
              Hps Hd1 ltac:(lia) Hsz Hreg E1) as (G1 & G2 & G3 & G4).
  fold g in G1, G2, G3, G4.
  destruct (bufalloc s <? g_newalloc g) eqn:Eb.
  - mred. destruct (page_alloc w (pagesize s) _);
      [|unfold fatal; mred; reflexivity].
    mred. cbn. split; [|exact E1].
    unfold buffer_ok. cbn.
    split; [exact Hps|]. split; [exact G1|]. split; [exact G2|].
    split; unfold SIZE_MAX in *; lia.
  - apply Z.ltb_ge in Eb. mred. cbn. split; [|exact E1].
    unfold buffer_ok. cbn.
    split; [exact Hps|]. split; [exact G1|]. split; [exact Hd2|].
    split; unfold SIZE_MAX in *; lia.
Qed.

Lemma fillbuf_sizes (save : nat) (st : stat) (s : state) :
  buffer_ok s ->
  10 * Z.of_nat save + 5 * pagesize s <= SIZE_MAX ->
  (S_ISREG (st_mode st) = true ->
   0 <= bufoffset s <= st_size st
   /\ st_size st + Z.of_nat save + 2 * pagesize s < 2 ^ 63) ->
  post only_fatal
    (fun _ s' => buffer_ok s' /\ Z.of_nat save <= bufsalloc s')
    (fillbuf w save st s).
Proof.
  intros Hok Hsz Hreg. unfold fillbuf. mred.
  assert (Hw : wrap (Z.of_nat save) = Z.of_nat save).
  { destruct Hok as (Hps & _). apply wrap_small. lia. }
  rewrite Hw.
  eapply post_bind with
    (Q := fun _ s1 => buffer_ok s1 /\ Z.of_nat save <= bufsalloc s1).
  { apply post_when; intros C.
    - apply Z.ltb_lt in C. apply fillbuf_grow_sizes; auto.
    - apply Z.ltb_ge in C. auto. }
  cbn beta. intros _ s1 (Hok1 & Hs1). mred.
  destruct (sys_read _ _) as [[e|chunk] rest]; mred; cbn;
    (split; [|exact Hs1]);
    (eapply buffer_ok_sizes; [| | |exact Hok1]); reflexivity.
Qed.

Lemma reset_sizes (file : option string) (st : stat) (s : state) :
  (pagesize s = 0 -> 0 < w_pagesize w <= SIZE_MAX) ->
  (pagesize s <> 0 -> buffer_ok s) ->
  post only_fatal
    (fun _ s' =>
       buffer_ok s' /\ bufdata s' = []
       /\ (pagesize s = 0 ->
           pagesize s' = w_pagesize w
           /\ bufsalloc s' = round_up (Z.max 8192 (w_pagesize w))
                               (w_pagesize w)
           /\ bufalloc s' = 5 * bufsalloc s'))
    (reset cfg w file st s).
Proof.
  intros H0 H1. unfold reset.
  eapply post_bind with
    (Q := fun _ s1 =>
            buffer_ok s1
            /\ (pagesize s = 0 ->
                pagesize s1 = w_pagesize w
                /\ bufsalloc s1 = round_up (Z.max 8192 (w_pagesize w))
                                    (w_pagesize w)
                /\ bufalloc s1 = 5 * bufsalloc s1)).
  { unfold reset_buffer. mred. unfold nz.
    destruct (pagesize s =? 0) eqn:E; cbn [negb].
    - apply Z.eqb_eq in E. specialize (H0 E).
      unfold reset_first_time. mred.
      destruct (w_pagesize w =? 0) eqn:E0;
        [apply Z.eqb_eq in E0; lia|]. mred.
      set (ps := w_pagesize w) in *.
      set (ub := Z.max 8192 ps).
      destruct ((ALIGN_TO ub ps <? ub)
                || negb (wrap (PREFERRED_SAVE_FACTOR * ALIGN_TO ub ps)
                         / PREFERRED_SAVE_FACTOR =? ALIGN_TO ub ps)) eqn:Ec;
        [unfold fatal; mred; reflexivity|].
      apply orb_false_elim in Ec. destruct Ec as [Ec1 Ec2].
      apply Z.ltb_ge in Ec1. apply negb_false_iff, Z.eqb_eq in Ec2.
      assert (Hub : 0 <= ub <= SIZE_MAX) by (unfold ub, SIZE_MAX in *; lia).
      pose proof (ALIGN_TO_no_wrap ub ps H0 Hub Ec1) as Hal.
      destruct (round_up_spec ub ps (proj1 H0) (proj1 Hub)) as [Hr Hd].
      assert (Hrange : ALIGN_TO ub ps <= SIZE_MAX).
      { unfold ALIGN_TO. destruct (ub mod ps =? 0); [lia|apply wrap_range]. }
      unfold PREFERRED_SAVE_FACTOR in *.
      assert (H5 : wrap (5 * ALIGN_TO ub ps) = 5 * ALIGN_TO ub ps).
      { pose proof (wrap_range (5 * ALIGN_TO ub ps)) as Hw.
        pose proof (Z.div_mod (wrap (5 * ALIGN_TO ub ps)) 5 ltac:(lia)) as Hdm.
        pose proof (Z.mod_pos_bound (wrap (5 * ALIGN_TO ub ps)) 5 ltac:(lia)).
        assert (Hle : wrap (5 * ALIGN_TO ub ps) <= 5 * ALIGN_TO ub ps).
        { unfold wrap. apply Z.mod_le; lia. }
        lia. }
      destruct (page_alloc w ps _); [|unfold fatal; mred; reflexivity].
      rewrite H5, Hal. unfold modify. cbn [post].
      assert (Hw : 5 * round_up ub ps <= SIZE_MAX).
      { pose proof (wrap_range (5 * ALIGN_TO ub ps)) as Hw.
        rewrite H5, Hal in Hw. lia. }
      split; [|intros _; repeat split; reflexivity].
      unfold buffer_ok.
      cbn [pagesize bufsalloc bufalloc set_buffer set_bufalloc
           set_bufsalloc set_pagesize].
      split; [exact H0|]. split; [exact Hd|].
      split; [apply Z.divide_mul_r; exact Hd|].
      unfold ub in *. split; lia.
    - apply Z.eqb_neq in E. specialize (H1 E).
      destruct H1 as (Hps & Hd1 & Hd2 & Hb & Hmax).
      mred. cbn [post]. split; [|intros; contradiction].
      unfold PREFERRED_SAVE_FACTOR.
      assert (Hx : 0 <= bufalloc s / 5 <= bufalloc s).
      { split; [apply Z.div_pos; lia|].
        apply Z.div_le_upper_bound; lia. }
      pose proof (round_up_le_multiple (bufalloc s / 5) (pagesize s)
                    (bufalloc s) (proj1 Hps) Hx Hd2) as Hle.
      destruct (round_up_spec (bufalloc s / 5) (pagesize s) (proj1 Hps)
                  (proj1 Hx)) as [Hr Hd].
      unfold buffer_ok.
      cbn [pagesize bufsalloc bufalloc set_bufsalloc].
      rewrite ALIGN_TO_round_up by lia.
      split; [exact Hps|]. split; [exact Hd|]. split; [exact Hd2|].
      split; unfold SIZE_MAX in *; lia. }
  cbn beta. intros _ s1 (Hok & H2). mred.
  assert (Hkeep : forall s2,
             pagesize s2 = pagesize s1 -> bufsalloc s2 = bufsalloc s1 ->
             bufalloc s2 = bufalloc s1 -> bufdata s2 = [] ->
             buffer_ok s2 /\ bufdata s2 = []
             /\ (pagesize s = 0 ->
                 pagesize s2 = w_pagesize w
                 /\ bufsalloc s2 = round_up (Z.max 8192 (w_pagesize w))
                                     (w_pagesize w)
                 /\ bufalloc s2 = 5 * bufsalloc s2)).
  { intros s2 E1 E2 E3 E4.
    split; [eapply buffer_ok_sizes; eauto|]. split; [exact E4|].
    intros Hz. rewrite E1, E2, E3. auto. }
  destruct (w_fstat w file) as [e|st']; mred;
    [apply Hkeep; reflexivity|].
  destruct (directories_eqb (directories cfg) SKIP_DIRECTORIES
            && S_ISDIR (st_mode st')); [mred; apply Hkeep; reflexivity|].
  destruct (S_ISREG (st_mode st')); [|mred; apply Hkeep; reflexivity].
  destruct file as [f|]; [mred; apply Hkeep; reflexivity|].
  destruct (w_lseek_cur w); mred; apply Hkeep; reflexivity.
Qed.

End Sizes.

(** ** The flags are put back *)

Lemma scan_core_flags (s s' : state) :
  scan_core s' = scan_core s -> scan_flags s' = scan_flags s.
Proof. unfold scan_core, scan_flags. congruence. Qed.

Lemma post_any {A} (Q : A -> state -> Prop) (ok : stop -> Prop)
  (o : outcome A) :
  post ok Q o -> post any_stop Q o.
Proof.
  destruct o; cbn; auto. intros _. exact I.
Qed.

Section Flags.

Variable cfg : config.
Variable w : world.

Lemma reset_flags (file : option string) (st : stat) (s : state) :
  post any_stop (fun _ s' => scan_flags s' = scan_flags s)
    (reset cfg w file st s).
Proof.
  unfold reset.
  eapply post_bind with (Q := fun _ s1 => scan_flags s1 = scan_flags s).
  { unfold reset_buffer. mred.
    destruct (nz (pagesize s)); [mred; reflexivity|].
    unfold reset_first_time. mred.
    destruct (w_pagesize w =? 0); [mred; exact I|]. mred.
    match goal with
    | |- context [if ?b then _ else _] => destruct b
    end; [unfold fatal; mred; exact I|].
    destruct (page_alloc w (w_pagesize w) _);
      [mred; reflexivity|unfold fatal; mred; exact I]. }
  cbn beta. intros _ s1 F1. mred.
  destruct (w_fstat w file) as [e|st']; mred; [exact F1|].
  destruct (directories_eqb (directories cfg) SKIP_DIRECTORIES
            && S_ISDIR (st_mode st')); [mred; exact F1|].
  destruct (S_ISREG (st_mode st')); [|mred; exact F1].
  destruct file as [f|]; [mred; exact F1|].
  destruct (w_lseek_cur w); mred; exact F1.
Qed.

Lemma fillbuf_flags (save : nat) (st : stat) (s : state) :
  post any_stop (fun _ s' => scan_flags s' = scan_flags s)
    (fillbuf w save st s).
Proof.
  unfold fillbuf. mred.
  eapply post_bind with (Q := fun _ s1 => scan_flags s1 = scan_flags s).
  { apply post_when; intros _; [|reflexivity].
    unfold fillbuf_grow. mred.
    match goal with
    | |- context [if ?b then _ else _] => destruct b
    end; [unfold fatal; mred; exact I|].
    match goal with
    | |- context [if ?b then _ else _] => destruct b
    end; [|mred; reflexivity].
    mred. destruct (page_alloc w _ _);
      [mred; reflexivity|unfold fatal; mred; exact I]. }
  cbn beta. intros _ s1 F1. mred.
  destruct (sys_read _ _) as [[e|chunk] rest]; mred; exact F1.
Qed.

Lemma grepbuf_loop_core (fuel : nat) :
  forall lim p nlines s,
    post any_stop (fun _ s' => scan_core s' = scan_core s)
      (grepbuf_loop cfg w fuel lim p nlines s).
Proof.
  induction fuel as [|fuel IH]; intros lim p nlines s;
    cbn [grepbuf_loop]; [exact I|].
  mred.
  destruct (execute cfg (slice (bufdata s) p lim)) as [[off sz]|];
    [|mred; reflexivity].
  destruct (Nat.eqb (p + off) lim); [mred; reflexivity|].
  destruct (negb (nz (out_invert cfg))).
  - eapply post_bind; [eapply post_any; apply prtext_counts|].
    cbn beta. intros n s1 (C1 & _). mred.
    cbn [outleft done_on_match set_outleft bufoffset bufdata].
    destruct (negb (nz (outleft s1 - 1)) || nz (done_on_match s1)).
    + destruct (nz (exit_on_match cfg)); mred; [exact I|exact C1].
    + eapply post_weaken; [apply IH| |auto].
      cbn beta. intros r s2 C2.
      change (scan_core s2 = scan_core s1) in C2. congruence.
  - destruct (Nat.ltb p (p + off)).
    + eapply post_bind; [eapply post_any; apply prtext_counts|].
      cbn beta. intros n s1 (C1 & _). mred.
      cbn [outleft set_outleft].
      destruct (negb (nz (outleft s1 - n))); mred; [exact C1|].
      eapply post_weaken; [apply IH| |auto].
      cbn beta. intros r s2 C2.
      change (scan_core s2 = scan_core s1) in C2. congruence.
    + apply IH.
Qed.

Lemma grepbuf_core (fuel : nat) (beg lim : nat) (s : state) :
  post any_stop (fun _ s' => scan_core s' = scan_core s)
    (grepbuf cfg w fuel beg lim s).
Proof.
  unfold grepbuf.
  eapply post_bind; [apply grepbuf_loop_core|].
  cbn beta. intros [p nlines|nlines] s1 C1; [|mred; exact C1].
  destruct (nz (out_invert cfg) && Nat.ltb p lim); [|mred; exact C1].
  eapply post_bind; [eapply post_any; apply prtext_counts|].
  cbn beta. intros n s2 (C2 & _). mred.
  transitivity (scan_core s2); [reflexivity|congruence].
Qed.

Lemma grep_loop_flags (fuel : nat) :
  forall file st nlines residue save s,
    post any_stop (fun _ s' => scan_flags s' = scan_flags s)
      (grep_loop cfg w fuel file st nlines residue save s).
Proof.
  induction fuel as [|fuel IH]; intros file st nlines residue save s;
    cbn [grep_loop]; [exact I|].
  eapply post_bind with (Q := fun _ s1 => s1 = set_lastnl O s);
    [reflexivity|].
  cbn beta. intros _ s1 ->.
  eapply post_bind with (Q := fun _ s0 => scan_flags s0 = scan_flags s).
  { unfold modify. cbn. destruct (lastout s); reflexivity. }
  cbn beta. intros _ s0 F0. mred.
  destruct (Nat.eqb (List.length (bufdata s0)) save); [mred; exact F0|].
  eapply post_bind with (Q := fun _ s1 => scan_flags s1 = scan_flags s).
  { match goal with
    | |- context [if Nat.ltb ?a ?b then _ else _] => destruct (Nat.ltb a b)
    end; [|mred; exact F0].
    eapply post_bind with (Q := fun _ s1 => scan_flags s1 = scan_flags s).
    { destruct (nz (outleft s0)); [|mred; exact F0].
      eapply post_weaken; [apply grepbuf_core| |auto].
      cbn beta. intros n s1 C1. apply scan_core_flags in C1. congruence. }
    cbn beta. intros n s1 F1. mred.
    eapply post_bind with (Q := fun _ s2 => scan_flags s2 = scan_flags s).
    { apply post_when; intros _; [|exact F1].
      eapply post_weaken; [eapply post_any; apply prpending_prints| |auto].
      cbn beta. intros _ s2 ((C2 & _) & _).
      apply scan_core_flags in C2. congruence. }
    cbn beta. intros _ s2 F2. mred. exact F2. }
  cbn beta. intros [nlines' finish] s1 F1.
  destruct finish; [mred; exact F1|]. mred.
  eapply post_bind with (Q := fun _ s2 => scan_flags s2 = scan_flags s).
  { apply post_when; intros _; mred; exact F1. }
  cbn beta. intros _ s2 F2. mred.
  eapply post_bind with (Q := fun _ s3 => scan_flags s3 = scan_flags s).
  { apply post_when; intros _; [|exact F2].
    eapply post_weaken; [eapply post_any; apply nlscan_prints| |auto].
    cbn beta. intros _ s3 ((C3 & _) & _).
    apply scan_core_flags in C3. rewrite C3. exact F2. }
  cbn beta. intros _ s3 F3.
  eapply post_bind; [apply fillbuf_flags|].
  cbn beta. intros cc s4 F4.
  destruct (cc =? 0).
  - mred.
    eapply post_bind with (Q := fun _ s5 => scan_flags s5 = scan_flags s).
    { apply post_when; intros _; [|congruence].
      unfold suppressible_error.
      destruct (negb (nz (suppress_errors cfg))); mred;
        (transitivity (scan_flags s4); [reflexivity|congruence]). }
    cbn beta. intros _ s5 F5. mred. exact F5.
  - eapply post_weaken; [apply IH| |auto].
    cbn beta. intros r s5 F5. congruence.
Qed.

Lemma grep_flags (grepdir : grepdir_t) (fuel : nat) (file : option string)
  (st : stat) (anc : list stat) (s : state) :
  (forall f st' s',
      post any_stop (fun _ s2 => scan_flags s2 = scan_flags s')
        (grepdir f st' anc s')) ->
  post any_stop (fun _ s' => scan_flags s' = scan_flags s)
    (grep cfg w grepdir fuel file st anc s).
Proof.
  intros Hdir. unfold grep.
  eapply post_bind; [apply reset_flags|].
  cbn beta. intros [ok st'] s1 F1.
  destruct (ok =? 0); [mred; exact F1|].
  match goal with
  | |- post _ _ (match ?x with _ => _ end _) => destruct x as [f|]
  end.
  - eapply post_bind with (Q := fun _ s2 => scan_flags s2 = scan_flags s).
    { destruct (w_close w f); mred; exact F1. }
    cbn beta. intros _ s2 F2.
    eapply post_bind; [apply Hdir|].
    cbn beta. intros status s3 F3. mred. congruence.
  - mred.
    eapply post_bind; [apply fillbuf_flags|].
    cbn beta. intros cc s2 F2.
    assert (F2' : scan_flags s2 = scan_flags s) by (rewrite F2; exact F1).
    clear F2.
    destruct (cc =? 0).
    { mred.
      eapply post_bind with (Q := fun _ s3 => scan_flags s3 = scan_flags s).
      { apply post_when; intros _; [|exact F2'].
        unfold suppressible_error.
        destruct (negb (nz (suppress_errors cfg))); mred;
          (transitivity (scan_flags s2); [reflexivity|exact F2']). }
      cbn beta. intros _ s3 F3. mred. exact F3. }
    mred.
    match goal with
    | |- context [if ?b then ret (0, st') else _] => destruct b
    end; [mred; exact F2'|].
    match goal with
    | |- context [if ?b then 1 else 0] =>
        set (not_text := if b then 1 else 0)
    end.
    clearbody not_text. mred.
    assert (Hfin : forall n s5,
               out_file s5 = out_file s ->
               out_quiet s5 = out_quiet s + not_text ->
               done_on_match s5 = done_on_match s + not_text ->
               post any_stop
                 (fun _ s' => scan_flags s' = scan_flags s)
                 (bind (finish_grep not_text n)
                    (fun n' => ret (n', st')) s5)).
    { intros n s5 E1 E2 E3. unfold finish_grep.
      repeat (rewrite bind_bind; mred).
      match goal with
      | |- context [when ?b _] => destruct b
      end; repeat (rewrite bind_bind; mred); mred; unfold scan_flags; cbn;
        rewrite E1, E2, E3; repeat f_equal; lia. }
    assert (F3 : forall s3,
               scan_flags s3
               = scan_flags
                   (set_out_quiet (out_quiet s2 + not_text)
                      (set_done_on_match (done_on_match s2 + not_text) s2)) ->
               out_file s3 = out_file s
               /\ out_quiet s3 = out_quiet s + not_text
               /\ done_on_match s3 = done_on_match s + not_text).
    { intros s3 H. unfold scan_flags in H, F2'. cbn in H.
      injection H as H1 H2 H3. injection F2' as G1 G2 G3.
      repeat split; congruence. }
    eapply post_bind; [apply grep_loop_flags|].
    cbn beta. intros r s3 H3. apply F3 in H3. destruct H3 as (E1 & E2 & E3).
    destruct r as [nlines residue save|nlines]; [|apply Hfin; assumption].
    eapply post_bind with
      (Q := fun _ s4 => out_file s4 = out_file s
                        /\ out_quiet s4 = out_quiet s + not_text
                        /\ done_on_match s4 = done_on_match s + not_text);
      [|cbn beta; intros n s4 (G1 & G2 & G3); apply Hfin; assumption].
    destruct (Nat.ltb 0 residue); [|mred; auto].
    mred. cbn [bufdata set_bufdata outleft pending].
    eapply post_bind with
      (Q := fun _ s4 => out_file s4 = out_file s
                        /\ out_quiet s4 = out_quiet s + not_text
                        /\ done_on_match s4 = done_on_match s + not_text).
    { destruct (nz (outleft s3)); [|mred; auto].
      eapply post_weaken; [apply grepbuf_core| |auto].
      cbn beta. intros n s4 C4. apply scan_core_flags in C4.
      unfold scan_flags in C4. cbn in C4. injection C4 as G1 G2 G3.
      repeat split; congruence. }
    cbn beta. intros n s4 (G1 & G2 & G3). mred.
    eapply post_bind with
      (Q := fun _ s5 => out_file s5 = out_file s
                        /\ out_quiet s5 = out_quiet s + not_text
                        /\ done_on_match s5 = done_on_match s + not_text).
    { apply post_when; intros _; [|auto].
      eapply post_weaken; [eapply post_any; apply prpending_prints| |auto].
      cbn beta. intros _ s5 ((C5 & _) & _). apply scan_core_flags in C5.
      unfold scan_flags in C5. injection C5 as H1 H2 H3.
      repeat split; congruence. }
    cbn beta. intros _ s5 G. mred. exact G.
Qed.

Lemma grepfile_open_flags (grepdir : grepdir_t) (file : option string)
  (st : stat) (anc : list stat) (s : state) :
  (forall f st' s',
      post any_stop (fun _ s2 => scan_flags s2 = scan_flags s')
        (grepdir f st' anc s')) ->
  post any_stop (fun _ s' => scan_flags s' = scan_flags s)
    (grepfile_open cfg w grepdir file st anc s).
Proof.
  intros Hdir. unfold grepfile_open.
  destruct file as [f|]; [|mred; reflexivity].
  destruct (w_open w f) as [e|d]; [|mred; reflexivity].
  mred.
  assert (Hs : forall s1 st1,
             scan_flags s1 = scan_flags s ->
             post any_stop (fun _ s' => scan_flags s' = scan_flags s)
               (bind (suppressible_error cfg f e)
                  (fun _ => ret (Returned 1 st1)) s1)).
  { intros s1 st1 F1. unfold suppressible_error.
    destruct (negb (nz (suppress_errors cfg))); mred;
      (transitivity (scan_flags s1); [reflexivity|exact F1]). }
  match goal with
  | |- context [if ?b then _ else _] => destruct b
  end.
  - destruct (w_stat w f) as [e'|st']; [mred; reflexivity|].
    eapply post_bind; [apply Hdir|].
    cbn beta. intros status s1 F1. mred. exact F1.
  - match goal with
    | |- context [if ?b then _ else _] => destruct b
    end; [mred; reflexivity|].
    match goal with
    | |- context [if ?b then _ else _] => destruct b
    end; [|apply Hs; reflexivity].
    destruct (w_stat w f) as [e'|st'].
    + mred. apply Hs. reflexivity.
    + destruct (S_ISDIR (st_mode st')); [mred; reflexivity|].
      apply Hs. reflexivity.
Qed.

Lemma grepfile_report_flags (file : option string) (st : stat) (count : Z)
  (s : state) :
  post any_stop (fun _ s' => scan_flags s' = scan_flags s)
    (grepfile_report cfg w file st count s).
Proof.
  unfold grepfile_report. mred.
  eapply post_bind with (Q := fun _ s1 => scan_flags s1 = scan_flags s).
  { apply post_when; intros _; [|reflexivity].
    eapply post_bind with (Q := fun _ s1 => scan_flags s1 = scan_flags s).
    { apply post_when; intros _; mred; reflexivity. }
    cbn beta. intros _ s1 F1. mred. exact F1. }
  cbn beta. intros _ s1 F1.
  eapply post_bind with (Q := fun _ s2 => scan_flags s2 = scan_flags s).
  { apply post_when; intros _; mred; exact F1. }
  cbn beta. intros _ s2 F2.
  eapply post_bind with (Q := fun _ s3 => scan_flags s3 = scan_flags s);
    [|cbn beta; intros _ s3 F3; mred; exact F3].
  destruct file as [f|].
  - destruct (w_close w f); mred; exact F2.
  - eapply post_bind with (Q := fun _ s3 => scan_flags s3 = scan_flags s);
      [|cbn beta; intros _ s3 F3; mred; exact F3].
    match goal with
    | |- context [if ?b then _ else _] => destruct b
    end; [|mred; exact F2].
    destruct (w_lseek_set w _); mred; [|exact F2].
    destruct (S_ISREG (st_mode st)); mred; exact F2.
Qed.

Lemma grepfile_with_flags (grepdir : grepdir_t) (fuel : nat)
  (file : option string) (st : stat) (anc : list stat) (s : state) :
  (forall f st' s',
      post any_stop (fun _ s2 => scan_flags s2 = scan_flags s')
        (grepdir f st' anc s')) ->
  post any_stop (fun _ s' => scan_flags s' = scan_flags s)
    (grepfile_with cfg w grepdir fuel file st anc s).
Proof.
  intros Hdir. unfold grepfile_with.
  eapply post_bind; [apply grepfile_open_flags; exact Hdir|].
  cbn beta. intros [status st'|] s1 F1; [mred; exact F1|].
  eapply post_bind; [apply grep_flags; exact Hdir|].
  cbn beta. intros [count st'] s2 F2.
  destruct (count <? 0); [mred; congruence|].
  eapply post_bind; [apply grepfile_report_flags|].
  cbn beta. intros status s3 F3. mred. congruence.
Qed.

Lemma grepdir_loop_flags (grepfile : grepfile_t) (dir : string)
  (needs_slash : bool) (parents : list stat) (names : list string) :
  (forall file st1 s1,
      post any_stop (fun _ s2 => scan_flags s2 = scan_flags s1)
        (grepfile file st1 parents s1)) ->
  forall child status s,
    post any_stop (fun _ s' => scan_flags s' = scan_flags s)
      (grepdir_loop grepfile dir needs_slash parents names child status s).
Proof.
  intros Hfile.
  induction names as [|name rest IH]; intros child status s;
    cbn [grepdir_loop]; [mred; reflexivity|].
  destruct name as [|c name']; [mred; reflexivity|].
  eapply post_bind; [apply Hfile|].
  cbn beta. intros r s1 F1.
  eapply post_weaken; [apply IH| |auto].
  cbn beta. intros st' s2 F2. congruence.
Qed.

Lemma grepdir_with_flags (grepfile : grepfile_t) (dir : string)
  (st : stat) (anc : list stat) (s : state) :
  (forall file st1 s1,
      post any_stop (fun _ s2 => scan_flags s2 = scan_flags s1)
        (grepfile file st1 (st :: anc) s1)) ->
  post any_stop (fun _ s' => scan_flags s' = scan_flags s)
    (grepdir_with cfg w grepfile dir st anc s).
Proof.
  intros Hfile. unfold grepdir_with.
  destruct (ancestor_loop st anc).
  { destruct (negb (nz (suppress_errors cfg))); mred; reflexivity. }
  destruct (w_savedir w dir) as [e|names].
  - mred. destruct (nz e); [|unfold fatal; mred; exact I].
    unfold suppressible_error.
    destruct (negb (nz (suppress_errors cfg))); mred; reflexivity.
  - mred.
    eapply post_bind; [apply grepdir_loop_flags; exact Hfile|].
    cbn beta. intros status s1 F1. mred.
    unfold scan_flags in *. cbn in *. injection F1 as -> -> ->.
    f_equal. f_equal. lia.
Qed.

Lemma grepfile_flags (depth fuel : nat) :
  forall file st anc s,
    post any_stop (fun _ s' => scan_flags s' = scan_flags s)
      (grepfile cfg w depth fuel file st anc s).
Proof.
  induction depth as [|depth IH]; intros file st anc s; cbn [grepfile].
  - apply grepfile_with_flags. intros f st' s'. exact I.
  - apply grepfile_with_flags. intros f st' s'.
    apply grepdir_with_flags. intros file1 st1 s1. apply IH.
Qed.

End Flags.

(** ** Standard output under [out_quiet] *)

Lemma post_hushed_weaken {A} (out : list stdout_call) (q : Z)
  (Q : A -> state -> Prop) (o : outcome A) :
  post (silent out) (fun a s' => Q a s' /\ pending s' = 0) o ->
  (forall a s', Q a s' -> hushed out q s') ->
  post (silent out) (fun _ s' => hushed out q s') o.
Proof.
  intros H HQ. eapply post_weaken; [exact H| |auto].
  cbn beta. intros a s' (Ha & _). eauto.
Qed.

Section Quiet.

Variable cfg : config.
Variable w : world.
Variable out : list stdout_call.
Variable q : Z.
Hypothesis Hq : nz q = true.

Ltac hush H :=
  cbn [post silent];
  first [ exact I | exact H | exact (proj1 H)
        | split; [exact H|reflexivity] ].

Lemma reset_hushed (file : option string) (st : stat) (s : state) :
  hushed out q s ->
  post (silent out) (fun _ s' => hushed out q s' /\ pending s' = pending s)
    (reset cfg w file st s).
Proof.
  intros H. unfold reset.
  eapply post_bind with
    (Q := fun _ s1 => hushed out q s1 /\ pending s1 = pending s).
  { unfold reset_buffer. mred.
    destruct (nz (pagesize s)); [mred; hush H|].
    unfold reset_first_time. mred.
    destruct (w_pagesize w =? 0); [mred; hush H|]. mred.
    match goal with
    | |- context [if ?b then _ else _] => destruct b
    end; [unfold fatal; mred; hush H|].
    destruct (page_alloc w (w_pagesize w) _);
      [mred; hush H|unfold fatal; mred; hush H]. }
  cbn beta. intros _ s1 F1. mred.
  destruct (w_fstat w file) as [e|st']; mred; [exact F1|].
  destruct (directories_eqb (directories cfg) SKIP_DIRECTORIES
            && S_ISDIR (st_mode st')); [mred; exact F1|].
  destruct (S_ISREG (st_mode st')); [|mred; exact F1].
  destruct file as [f|]; [mred; exact F1|].
  destruct (w_lseek_cur w); mred; exact F1.
Qed.

Lemma fillbuf_hushed (save : nat) (st : stat) (s : state) :
  hushed out q s ->
  post (silent out) (fun _ s' => hushed out q s' /\ pending s' = pending s)
    (fillbuf w save st s).
Proof.
  intros H. unfold fillbuf. mred.
  eapply post_bind with
    (Q := fun _ s1 => hushed out q s1 /\ pending s1 = pending s).
  { apply post_when; intros _; [|hush H].
    unfold fillbuf_grow. mred.
    match goal with
    | |- context [if ?b then _ else _] => destruct b
    end; [unfold fatal; mred; hush H|].
    match goal with
    | |- context [if ?b then _ else _] => destruct b
    end; [|mred; hush H].
    mred. destruct (page_alloc w _ _);
      [mred; hush H|unfold fatal; mred; hush H]. }
  cbn beta. intros _ s1 F1. mred.
  destruct (sys_read _ _) as [[e|chunk] rest]; mred; exact F1.
Qed.

Lemma nlscan_hushed (lim : nat) (s : state) :
  hushed out q s ->
  post (silent out) (fun _ s' => hushed out q s' /\ pending s' = pending s)
    (nlscan cfg lim s).
Proof.
  intros (Ho & Hq').
  eapply post_weaken; [apply nlscan_prints| |].
  - cbn beta. intros _ s' (P & Pe & _ & So). destruct P as (C & _).
    apply scan_core_out_quiet in C.
    repeat split; congruence.
  - intros [c s'|s'|u|k] Hr; cbn in *; auto; contradiction.
Qed.

Lemma count_loop_hushed (fuel : nat) :
  forall p lim n s,
    hushed out q s ->
    post (silent out) (fun _ s' => s' = s) (count_loop cfg w fuel p lim n s).
Proof.
  induction fuel as [|fuel IH]; intros p lim n s H;
    cbn [count_loop]; mred;
    destruct (Nat.ltb p lim && (n <? outleft s)); mred;
    try reflexivity; try exact I.
  destruct (memchr (bufdata s) p (eolbyte cfg) (lim - p)) as [nl|];
    [|exact I].
  destruct H as (Ho & Hq'). rewrite Hq', Hq. mred.
  apply IH. split; assumption.
Qed.

Lemma pending_quiet (s : state) (v : Z) :
  out_quiet s = q -> (if nz (out_quiet s) then 0 else v) = 0.
Proof. intros ->. rewrite Hq. reflexivity. Qed.

Lemma prtext_hushed (beg lim : nat) (nlinesp : bool) (s : state) :
  hushed out q s ->
  post (silent out) (fun _ s' => hushed out q s' /\ pending s' = 0)
    (prtext cfg w beg lim nlinesp s).
Proof.
  intros H. pose proof H as (Ho & Hq').
  unfold prtext. mred. rewrite Hq', Hq. mred. rewrite Hq', Hq. mred.
  destruct nlinesp.
  - rewrite bind_bind.
    eapply post_bind; [apply count_loop_hushed; exact H|].
    cbn beta. intros np s1 ->. mred.
    split; [exact H|exact (pending_quiet s (out_after cfg) Hq')].
  - rewrite bind_bind. mred. rewrite ?Hq', ?Hq. mred.
    split; [exact H|exact (pending_quiet s (out_after cfg) Hq')].
Qed.

Lemma grepbuf_loop_hushed (fuel : nat) :
  forall lim p nlines s,
    hushed out q s -> pending s = 0 ->
    post (silent out) (fun _ s' => hushed out q s' /\ pending s' = 0)
      (grepbuf_loop cfg w fuel lim p nlines s).
Proof.
  induction fuel as [|fuel IH]; intros lim p nlines s H Hp;
    cbn [grepbuf_loop]; [exact I|].
  mred.
  destruct (execute cfg (slice (bufdata s) p lim)) as [[off sz]|];
    [|mred; split; assumption].
  destruct (Nat.eqb (p + off) lim); [mred; split; assumption|].
  destruct (negb (nz (out_invert cfg))).
  - eapply post_bind; [apply prtext_hushed; exact H|].
    cbn beta. intros n s1 (H1 & P1). mred.
    cbn [outleft done_on_match set_outleft bufoffset bufdata].
    destruct (negb (nz (outleft s1 - 1)) || nz (done_on_match s1)).
    + destruct (nz (exit_on_match cfg)); mred;
        [exact (proj1 H1)|split; assumption].
    + apply IH; assumption.
  - destruct (Nat.ltb p (p + off)).
    + eapply post_bind; [apply prtext_hushed; exact H|].
      cbn beta. intros n s1 (H1 & P1). mred.
      cbn [outleft set_outleft].
      destruct (negb (nz (outleft s1 - n))); mred; [split; assumption|].
      apply IH; assumption.
    + apply IH; assumption.
Qed.

Lemma grepbuf_hushed (fuel : nat) (beg lim : nat) (s : state) :
  hushed out q s -> pending s = 0 ->
  post (silent out) (fun _ s' => hushed out q s' /\ pending s' = 0)
    (grepbuf cfg w fuel beg lim s).
Proof.
  intros H Hp. unfold grepbuf.
  eapply post_bind; [apply grepbuf_loop_hushed; assumption|].
  cbn beta. intros [p nlines|nlines] s1 (H1 & P1); [|mred; split; assumption].
  destruct (nz (out_invert cfg) && Nat.ltb p lim); [|mred; split; assumption].
  eapply post_bind; [apply prtext_hushed; exact H1|].
  cbn beta. intros n s2 (H2 & P2). mred. split; assumption.
Qed.

Lemma grep_loop_hushed (fuel : nat) :
  forall file st nlines residue save s,
    hushed out q s -> pending s = 0 ->
    post (silent out) (fun _ s' => hushed out q s' /\ pending s' = 0)
      (grep_loop cfg w fuel file st nlines residue save s).
Proof.
  induction fuel as [|fuel IH]; intros file st nlines residue save s H Hp;
    cbn [grep_loop]; [exact I|].
  eapply post_bind with (Q := fun _ s1 => s1 = set_lastnl O s);
    [reflexivity|].
  cbn beta. intros _ s1 ->.
  eapply post_bind with
    (Q := fun _ s0 => hushed out q s0 /\ pending s0 = 0).
  { unfold modify. cbn [post set_lastnl lastout].
    destruct (lastout s); split; assumption. }
  cbn beta. intros _ s0 (H0 & P0). mred.
  destruct (Nat.eqb (List.length (bufdata s0)) save);
    [mred; split; assumption|].
  eapply post_bind with
    (Q := fun _ s1 => hushed out q s1 /\ pending s1 = 0).
  { match goal with
    | |- context [if Nat.ltb ?a ?b then _ else _] => destruct (Nat.ltb a b)
    end; [|mred; split; assumption].
    eapply post_bind with
      (Q := fun _ s1 => hushed out q s1 /\ pending s1 = 0).
    { destruct (nz (outleft s0)); [|mred; split; assumption].
      apply grepbuf_hushed; assumption. }
    cbn beta. intros n s1 (H1 & P1). mred.
    rewrite P1. mred. split; assumption. }
  cbn beta. intros [nl fin] s1 (H1 & P1).
  destruct fin; [mred; split; assumption|].
  mred.
  match goal with
  | |- context [when ?b (modify (set_lastout None))] => destruct b
  end; mred.
  - cbn [totalcc set_lastout bufdata lastout].
    eapply post_bind with
      (Q := fun _ s2 => hushed out q s2 /\ pending s2 = 0).
    { apply post_when; intros _; [|split; assumption].
      eapply post_weaken; [apply nlscan_hushed; exact H1| |auto].
      cbn beta. intros _ s2 (H2 & P2). split; [exact H2|].
      rewrite P2. exact P1. }
    cbn beta. intros _ s2 (H2 & P2).
    eapply post_bind; [apply fillbuf_hushed; exact H2|].
    cbn beta. intros cc s3 (H3 & P3). rewrite P2 in P3.
    destruct (cc =? 0).
    + mred.
      eapply post_bind with
        (Q := fun _ s4 => hushed out q s4 /\ pending s4 = 0).
      { apply post_when; intros _; [|split; assumption].
        unfold suppressible_error.
        destruct (negb (nz (suppress_errors cfg))); mred; split; assumption. }
      cbn beta. intros _ s4 (H4 & P4). mred. split; assumption.
    + apply IH; assumption.
  - cbn [totalcc set_lastout bufdata lastout].
    eapply post_bind with
      (Q := fun _ s2 => hushed out q s2 /\ pending s2 = 0).
    { apply post_when; intros _; [|split; assumption].
      eapply post_weaken; [apply nlscan_hushed; exact H1| |auto].
      cbn beta. intros _ s2 (H2 & P2). split; [exact H2|].
      rewrite P2. exact P1. }
    cbn beta. intros _ s2 (H2 & P2).
    eapply post_bind; [apply fillbuf_hushed; exact H2|].
    cbn beta. intros cc s3 (H3 & P3). rewrite P2 in P3.
    destruct (cc =? 0).
    + mred.
      eapply post_bind with
        (Q := fun _ s4 => hushed out q s4 /\ pending s4 = 0).
      { apply post_when; intros _; [|split; assumption].
        unfold suppressible_error.
        destruct (negb (nz (suppress_errors cfg))); mred; split; assumption. }
      cbn beta. intros _ s4 (H4 & P4). mred. split; assumption.
    + apply IH; assumption.
Qed.

Hypothesis Hcount : count_matches cfg = 0.
Hypothesis Hlist : list_files cfg = 0.

Lemma finish_grep_hushed {A} (n : Z) (a : Z -> A) (s : state) :
  hushed out q s ->
  post (silent out) (fun _ s' => hushed out q s')
    (bind (finish_grep 0 n) (fun n' => ret (a n')) s).
Proof.
  intros (Ho & Hq'). unfold finish_grep.
  repeat (rewrite bind_bind; mred).
  split; [exact Ho|].
  change (out_quiet s - 0 = q). rewrite Z.sub_0_r. exact Hq'.
Qed.

Lemma grep_hushed (grepdir : grepdir_t) (fuel : nat) (file : option string)
  (st : stat) (anc : list stat) (s : state) :
  (forall f st' s',
      hushed out q s' ->
      post (silent out) (fun _ s2 => hushed out q s2)
        (grepdir f st' anc s')) ->
  hushed out q s ->
  post (silent out) (fun _ s' => hushed out q s')
    (grep cfg w grepdir fuel file st anc s).
Proof.
  intros Hdir H. unfold grep.
  eapply post_bind; [apply reset_hushed; exact H|].
  cbn beta. intros [ok st'] s1 (H1 & _).
  destruct (ok =? 0); [mred; exact H1|].
  match goal with
  | |- post _ _ (match ?x with _ => _ end _) => destruct x as [f|]
  end.
  - eapply post_bind with (Q := fun _ s2 => hushed out q s2).
    { destruct (w_close w f); mred; exact H1. }
    cbn beta. intros _ s2 H2.
    eapply post_bind; [apply Hdir; exact H2|].
    cbn beta. intros status s3 H3. mred. exact H3.
  - mred.
    eapply post_bind; [apply fillbuf_hushed; exact H1|].
    cbn beta. intros cc s2 (H2 & P2).
    change (pending s2 = 0) in P2.
    destruct (cc =? 0).
    { mred.
      eapply post_bind with (Q := fun _ s3 => hushed out q s3).
      { apply post_when; intros _; [|exact H2].
        unfold suppressible_error.
        destruct (negb (nz (suppress_errors cfg))); mred; exact H2. }
      cbn beta. intros _ s3 H3. mred. exact H3. }
    mred.
    match goal with
    | |- context [if ?b then 1 else 0] =>
        set (not_text := if b then 1 else 0)
    end.
    assert (Hnt : nz not_text
                  && binary_files_eqb (binary_files cfg)
                       WITHOUT_MATCH_BINARY_FILES = false ->
                  not_text = 0).
    { subst not_text. rewrite (proj2 H2), Hq. cbn [negb].
      rewrite andb_false_r. cbn [orb].
      destruct (binary_files_eqb (binary_files cfg)
                  WITHOUT_MATCH_BINARY_FILES);
        destruct (memchr (bufdata s2) 0 _ _); cbn;
        intros; try reflexivity; discriminate. }
    clearbody not_text.
    destruct (nz not_text
              && binary_files_eqb (binary_files cfg)
                   WITHOUT_MATCH_BINARY_FILES);
      [mred; exact H2|].
    specialize (Hnt eq_refl). subst not_text. mred.
    assert (H3 : hushed out q
                   (set_out_quiet (out_quiet s2 + 0)
                      (set_done_on_match (done_on_match s2 + 0) s2))).
    { split; [exact (proj1 H2)|].
      change (out_quiet s2 + 0 = q). rewrite Z.add_0_r. exact (proj2 H2). }
    eapply post_bind; [apply grep_loop_hushed; [exact H3|exact P2]|].
    cbn beta. intros r s3 (H4 & P4).
    destruct r as [nlines residue save|nlines];
      [|apply finish_grep_hushed; exact H4].
    eapply post_bind with (Q := fun _ s4 => hushed out q s4);
      [|cbn beta; intros n s4 H5; apply finish_grep_hushed; exact H5].
    destruct (Nat.ltb 0 residue); [|mred; exact H4].
    mred. cbn [bufdata set_bufdata outleft pending].
    eapply post_bind with
      (Q := fun _ s4 => hushed out q s4 /\ pending s4 = 0).
    { destruct (nz (outleft s3)); [|mred; split; assumption].
      apply grepbuf_hushed; assumption. }
    cbn beta. intros n s4 (H5 & P5). mred. rewrite P5. mred. exact H5.
Qed.

Lemma grepfile_open_hushed (grepdir : grepdir_t) (file : option string)
  (st : stat) (anc : list stat) (s : state) :
  (forall f st' s',
      hushed out q s' ->
      post (silent out) (fun _ s2 => hushed out q s2)
        (grepdir f st' anc s')) ->
  hushed out q s ->
  post (silent out) (fun _ s' => hushed out q s')
    (grepfile_open cfg w grepdir file st anc s).
Proof.
  intros Hdir H. unfold grepfile_open.
  destruct file as [f|]; [|mred; exact H].
  destruct (w_open w f) as [e|d]; [|mred; exact H].
  mred.
  assert (Hs : forall s1 st1,
             hushed out q s1 ->
             post (silent out) (fun _ s' => hushed out q s')
               (bind (suppressible_error cfg f e)
                  (fun _ => ret (Returned 1 st1)) s1)).
  { intros s1 st1 F1. unfold suppressible_error.
    destruct (negb (nz (suppress_errors cfg))); mred; exact F1. }
  match goal with
  | |- context [if ?b then _ else _] => destruct b
  end.
  - destruct (w_stat w f) as [e'|st']; [mred; exact H|].
    eapply post_bind; [apply Hdir; exact H|].
    cbn beta. intros status s1 F1. mred. exact F1.
  - match goal with
    | |- context [if ?b then _ else _] => destruct b
    end; [mred; exact H|].
    match goal with
    | |- context [if ?b then _ else _] => destruct b
    end; [|apply Hs; exact H].
    destruct (w_stat w f) as [e'|st'].
    + mred. apply Hs. exact H.
    + destruct (S_ISDIR (st_mode st')); [mred; exact H|].
      apply Hs. exact H.
Qed.

Lemma grepfile_report_hushed (file : option string) (st : stat) (count : Z)
  (s : state) :
  hushed out q s ->
  post (silent out) (fun _ s' => hushed out q s')
    (grepfile_report cfg w file st count s).
Proof.
  intros H. unfold grepfile_report. mred.
  rewrite Hcount, Hlist. change (nz 0) with false.
  assert (Hl : (0 =? 1 - 2 * lnot count) = false)
    by (unfold lnot; destruct (count =? 0); reflexivity).
  rewrite Hl. mred.
  eapply post_bind with (Q := fun _ s3 => hushed out q s3);
    [|cbn beta; intros _ s3 F3; mred; exact F3].
  destruct file as [f|].
  - destruct (w_close w f); mred; exact H.
  - eapply post_bind with (Q := fun _ s3 => hushed out q s3);
      [|cbn beta; intros _ s3 F3; mred; exact F3].
    match goal with
    | |- context [if ?b then _ else _] => destruct b
    end; [|mred; exact H].
    destruct (w_lseek_set w _); mred; [|exact H].
    destruct (S_ISREG (st_mode st)); mred; exact H.
Qed.

Lemma grepfile_with_hushed (grepdir : grepdir_t) (fuel : nat)
  (file : option string) (st : stat) (anc : list stat) (s : state) :
  (forall f st' s',
      hushed out q s' ->
      post (silent out) (fun _ s2 => hushed out q s2)
        (grepdir f st' anc s')) ->
  hushed out q s ->
  post (silent out) (fun _ s' => hushed out q s')
    (grepfile_with cfg w grepdir fuel file st anc s).
Proof.
  intros Hdir H. unfold grepfile_with.
  eapply post_bind; [apply grepfile_open_hushed; [exact Hdir|exact H]|].
  cbn beta. intros [status st'|] s1 F1; [mred; exact F1|].
  eapply post_bind; [apply grep_hushed; [exact Hdir|exact F1]|].
  cbn beta. intros [count st'] s2 F2.
  destruct (count <? 0); [mred; exact F2|].
  eapply post_bind; [apply grepfile_report_hushed; exact F2|].
  cbn beta. intros status s3 F3. mred. exact F3.
Qed.

Lemma grepdir_loop_hushed (grepfile : grepfile_t) (dir : string)
  (needs_slash : bool) (parents : list stat) (names : list string) :
  (forall file st1 s1,
      hushed out q s1 ->
      post (silent out) (fun _ s2 => hushed out q s2)
        (grepfile file st1 parents s1)) ->
  forall child status s,
    hushed out q s ->
    post (silent out) (fun _ s' => hushed out q s')
      (grepdir_loop grepfile dir needs_slash parents names child status s).
Proof.
  intros Hfile.
  induction names as [|name rest IH]; intros child status s H;
    cbn [grepdir_loop]; [mred; exact H|].
  destruct name as [|c name']; [mred; exact H|].
  eapply post_bind; [apply Hfile; exact H|].
  cbn beta. intros r s1 F1. apply IH. exact F1.
Qed.

Lemma grepdir_with_hushed (grepfile : grepfile_t) (dir : string)
  (st : stat) (anc : list stat) (s : state) :
  (forall file st1 s1,
      hushed out q s1 ->
      post (silent out) (fun _ s2 => hushed out q s2)
        (grepfile file st1 (st :: anc) s1)) ->
  hushed out q s ->
  post (silent out) (fun _ s' => hushed out q s')
    (grepdir_with cfg w grepfile dir st anc s).
Proof.
  intros Hfile H. unfold grepdir_with.
  destruct (ancestor_loop st anc).
  { destruct (negb (nz (suppress_errors cfg))); mred; exact H. }
  destruct (w_savedir w dir) as [e|names].
  - mred. destruct (nz e); [|unfold fatal; mred; exact (proj1 H)].
    unfold suppressible_error.
    destruct (negb (nz (suppress_errors cfg))); mred; exact H.
  - mred.
    eapply post_bind; [apply grepdir_loop_hushed; [exact Hfile|exact H]|].
    cbn beta. intros status s1 F1. mred. exact F1.
Qed.

Lemma grepfile_hushed (depth fuel : nat) :
  forall file st anc s,
    hushed out q s ->
    post (silent out) (fun _ s' => hushed out q s')
      (grepfile cfg w depth fuel file st anc s).
Proof.
  induction depth as [|depth IH]; intros file st anc s H; cbn [grepfile].
  - apply grepfile_with_hushed; [|exact H]. intros f st' s' _. exact I.
  - apply grepfile_with_hushed; [|exact H]. intros f st' s' H'.
    apply grepdir_with_hushed; [|exact H']. intros file1 st1 s1 H1.
    apply IH. exact H1.
Qed.

Lemma main_loop_hushed (depth fuel : nat) (files : list string) :
  forall st status s,
    hushed out q s ->
    post (silent out) (fun _ s' => hushed out q s')
      (main_loop cfg w depth fuel files st status s).
Proof.
  induction files as [|file rest IH]; intros st status s H;
    cbn [main_loop]; [mred; exact H|].
  eapply post_bind; [apply grepfile_hushed; exact H|].
  cbn beta. intros r s1 F1. apply IH. exact F1.
Qed.

Lemma main_scan_hushed (depth fuel : nat) (files : list string) (s : state) :
  hushed out q s ->
  post (silent out) (fun _ s' => hushed out q s')
    (main_scan cfg w depth fuel files s).
Proof.
  intros H. unfold main_scan.
  destruct (max_count cfg =? 0); [exact (proj1 H)|].
  eapply post_bind with (Q := fun _ s1 => hushed out q s1).
  { destruct files as [|file rest].
    - eapply post_bind; [apply grepfile_hushed; exact H|].
      cbn beta. intros r s1 F1. mred. exact F1.
    - apply main_loop_hushed. exact H. }
  cbn beta. intros status s1 F1.
  destruct (w_fclose_stdout w); mred; exact F1.
Qed.

End Quiet.

(** ** What a call of fillbuf reads *)

(** fillbuf makes one read of [bufalloc - bufsalloc] bytes, the sizes
    taken after the buffer has grown, and touches nothing of the scan
    but the buffer, the read offset, [errno] and what is left to read. *)
Lemma fillbuf_reads (w : world) (save : nat) (st : stat) (s : state) :
  post only_fatal
    (fun cc s' =>
       let saved := skipn (List.length (bufdata s) - save) (bufdata s) in
       let readsize := Z.to_nat (wrap (bufalloc s' - bufsalloc s')) in
       rd s' = snd (sys_read readsize (rd s))
       /\ match fst (sys_read readsize (rd s)) with
          | inr chunk =>
              cc = 1 /\ bufdata s' = saved ++ chunk
              /\ bufoffset s' = bufoffset s + Z.of_nat (List.length chunk)
              /\ (List.length chunk <= readsize)%nat
          | inl e =>
              cc = 0 /\ bufdata s' = saved /\ bufoffset s' = bufoffset s
              /\ errno s' = e
          end
       /\ sout s' = sout s /\ serr s' = serr s /\ totalcc s' = totalcc s
       /\ outleft s' = outleft s /\ pending s' = pending s
       /\ errseen s' = errseen s /\ lastout s' = lastout s
       /\ lastnl s' = lastnl s /\ scan_flags s' = scan_flags s
       /\ stdin_rd s' = stdin_rd s /\ filename s' = filename s)
    (fillbuf w save st s).
Proof.
  unfold fillbuf. mred.
  eapply post_bind with
    (Q := fun _ s1 =>
            bufdata s1 = bufdata s /\ bufoffset s1 = bufoffset s
            /\ rd s1 = rd s
            /\ sout s1 = sout s /\ serr s1 = serr s /\ totalcc s1 = totalcc s
            /\ outleft s1 = outleft s /\ pending s1 = pending s
            /\ errseen s1 = errseen s /\ lastout s1 = lastout s
            /\ lastnl s1 = lastnl s /\ scan_flags s1 = scan_flags s
            /\ stdin_rd s1 = stdin_rd s /\ filename s1 = filename s).
  { apply post_when; intros _; [|repeat split].
    unfold fillbuf_grow. mred.
    match goal with
    | |- context [if ?b then _ else _] => destruct b
    end; [unfold fatal; mred; reflexivity|].
    match goal with
    | |- context [if ?b then _ else _] => destruct b
    end; [|mred; repeat split].
    mred. destruct (page_alloc w _ _);
      [mred; repeat split|unfold fatal; mred; reflexivity]. }
  cbn beta.
  intros _ s1 (B1 & O1 & R1 & So1 & Se1 & T1 & L1 & P1 & E1 & Lo1 & Ln1
               & F1 & Sr1 & Fn1).
  mred. rewrite R1.
  destruct (sys_read (Z.to_nat (wrap (bufalloc s1 - bufsalloc s1))) (rd s))
    as [[e|chunk] rest] eqn:Er; mred;
    cbn [rd bufalloc bufsalloc bufdata bufoffset errno
         set_rd set_errno set_bufdata set_bufoffset];
    rewrite Er; cbn [fst snd].
  - repeat split; assumption.
  - rewrite O1.
    assert (Hc : (List.length chunk
                  <= Z.to_nat (wrap (bufalloc s1 - bufsalloc s1)))%nat)
      by apply (sys_read_length _ _ _ _ Er).
    repeat split; assumption.
Qed.

(** ** Lines *)

Lemma complete_nil (eol : ascii) : complete eol [].
Proof. split; [apply Nat.le_refl|left; reflexivity]. Qed.

Lemma byte_at_last (d : list ascii) (x : ascii) :
  byte_at (d ++ [x]) (List.length (d ++ [x]) - 1) = x.
Proof.
  unfold byte_at. rewrite length_app. cbn [List.length].
  replace (List.length d + 1 - 1)%nat with (List.length d) by lia.
  rewrite app_nth2 by lia. rewrite Nat.sub_diag. reflexivity.
Qed.

Lemma complete_snoc (eol : ascii) (d : list ascii) :
  complete eol (d ++ [eol]).
Proof.
  split; [apply Nat.le_refl|]. right. apply byte_at_last.
Qed.

Lemma complete_inv (eol : ascii) (d : list ascii) :
  complete eol d -> d = [] \/ exists d0, d = d0 ++ [eol].
Proof.
  intros [_ H]. destruct d as [|x d'] using rev_ind; [left; reflexivity|].
  right. destruct H as [H|H].
  - rewrite length_app in H. cbn in H. lia.
  - rewrite byte_at_last in H. subst x. exists d'. reflexivity.
Qed.

Lemma complete_app (eol : ascii) (a b : list ascii) :
  complete eol a -> complete eol b -> complete eol (a ++ b).
Proof.
  intros Ha Hb. destruct (complete_inv eol b Hb) as [->|[b0 ->]].
  - rewrite app_nil_r. exact Ha.
  - rewrite app_assoc. apply complete_snoc.
Qed.

Lemma complete_cons (eol : ascii) (x : ascii) (rest : list ascii) :
  complete eol (x :: rest) ->
  (rest = [] /\ x = eol) \/ (rest <> [] /\ complete eol rest).
Proof.
  intros H. destruct (complete_inv eol _ H) as [E|[d0 E]]; [discriminate|].
  destruct d0 as [|y d0]; cbn in E.
  - injection E as -> ->. left. auto.
  - injection E as -> ->. right. split.
    + destruct d0; discriminate.
    + apply complete_snoc.
Qed.

Lemma lines_nonempty (eol : ascii) (d : list ascii) :
  d <> [] -> lines eol d <> [].
Proof.
  destruct d as [|x rest]; [congruence|]. intros _. cbn [lines].
  destruct (Ascii.eqb x eol); [discriminate|].
  destruct (lines eol rest); discriminate.
Qed.

Lemma concat_lines (eol : ascii) (d : list ascii) :
  List.concat (lines eol d) = d.
Proof.
  induction d as [|x rest IH]; [reflexivity|]. cbn [lines].
  destruct (Ascii.eqb x eol).
  - cbn. rewrite IH. reflexivity.
  - destruct (lines eol rest) as [|l ls]; cbn in *.
    + rewrite <- IH. reflexivity.
    + rewrite <- IH. reflexivity.
Qed.

Lemma lines_complete (eol : ascii) (d : list ascii) :
  complete eol d -> Forall (is_line eol) (lines eol d).
Proof.
  induction d as [|x rest IH]; intros H; [constructor|].
  cbn [lines]. destruct (Ascii.eqb x eol) eqn:Ex.
  - apply Ascii.eqb_eq in Ex. subst x. constructor.
    + exists []. split; [reflexivity|]. intros [].
    + destruct (complete_cons eol eol rest H) as [[-> _]|[_ Hc]];
        [constructor|apply IH; exact Hc].
  - apply Ascii.eqb_neq in Ex.
    destruct (complete_cons eol x rest H) as [[_ E]|[Hne Hc]];
      [contradiction|].
    specialize (IH Hc).
    pose proof (lines_nonempty eol rest Hne) as Hl.
    destruct (lines eol rest) as [|l ls]; [contradiction|].
    inversion IH as [|l' ls' (c & -> & Hc') Hls]; subst.
    constructor; [|exact Hls].
    exists (x :: c). split; [reflexivity|].
    intros [E|E]; [congruence|contradiction].
Qed.

Lemma lines_first (eol : ascii) (c rest : list ascii) :
  ~ In eol c ->
  lines eol (c ++ eol :: rest) = (c ++ [eol]) :: lines eol rest.
Proof.
  induction c as [|x c IH]; intros H.
  - cbn. rewrite Ascii.eqb_refl. reflexivity.
  - cbn [app lines].
    destruct (Ascii.eqb x eol) eqn:Ex.
    + apply Ascii.eqb_eq in Ex. subst x. exfalso. apply H. left. reflexivity.
    + rewrite IH; [reflexivity|]. intros Hin. apply H. right. exact Hin.
Qed.

Lemma lines_concat (eol : ascii) (ls : list (list ascii)) :
  Forall (is_line eol) ls -> lines eol (List.concat ls) = ls.
Proof.
  induction 1 as [|l ls (c & -> & Hc) _ IH]; [reflexivity|].
  cbn [List.concat]. rewrite <- app_assoc. cbn [app].
  rewrite lines_first by exact Hc. rewrite IH. reflexivity.
Qed.

Lemma complete_concat (eol : ascii) (ls : list (list ascii)) :
  Forall (is_line eol) ls -> complete eol (List.concat ls).
Proof.
  induction 1 as [|l ls (c & -> & Hc) _ IH]; [apply complete_nil|].
  cbn [List.concat]. apply complete_app; [apply complete_snoc|exact IH].
Qed.



(** ** The first line that matches *)


Lemma first_line_some (sel : list ascii -> bool) (ls : list (list ascii)) :
  forall off0 off sz,
    first_line sel ls off0 = Some (off, sz) ->
    exists lp l lr,
      ls = lp ++ l :: lr
      /\ forallb (fun l => negb (sel l)) lp = true
      /\ sel l = true
      /\ off = (off0 + List.length (List.concat lp))%nat
      /\ sz = List.length l.
Proof.
  induction ls as [|l ls IH]; intros off0 off sz H; [discriminate|].
  cbn in H. destruct (sel l) eqn:El.
  - injection H as <- <-. exists [], l, ls. cbn.
    repeat split; auto.
  - destruct (IH _ _ _ H) as (lp & l' & lr & -> & Hf & Hs & -> & ->).
    exists (l :: lp), l', lr. cbn. rewrite El. cbn.
    rewrite length_app. repeat split; auto. lia.
Qed.

(** What a line-by-line matcher found in a region of complete lines:
    lines that do not match, the line that does, and the rest. *)
Lemma linewise_some (eol : ascii) (sel : list ascii -> bool) (m : matcher)
  (data : list ascii) (off sz : nat) :
  linewise eol sel m ->
  complete eol data ->
  m data = Some (off, sz) ->
  exists pre l rest,
    data = pre ++ l ++ rest
    /\ off = List.length pre /\ sz = List.length l
    /\ complete eol pre /\ is_line eol l /\ complete eol rest
    /\ forallb (fun l => negb (sel l)) (lines eol pre) = true
    /\ sel l = true.
Proof.
  intros Hm Hc H. rewrite (Hm data Hc) in H.
  destruct (first_line_some sel _ _ _ _ H)
    as (lp & l & lr & E & Hf & Hs & -> & ->).
  pose proof (lines_complete eol data Hc) as Hl. rewrite E in Hl.
  apply Forall_app in Hl. destruct Hl as [Hlp Hl].
  inversion Hl as [|l' lr' Hline Hlr]; subst.
  exists (List.concat lp), l, (List.concat lr).
  split.
  { rewrite <- (concat_lines eol data), E, concat_app. reflexivity. }
  split; [reflexivity|]. split; [reflexivity|].
  split; [apply complete_concat; exact Hlp|].
  split; [exact Hline|].
  split; [apply complete_concat; exact Hlr|].
  split; [rewrite lines_concat by exact Hlp; exact Hf|exact Hs].
Qed.



Lemma is_line_length (eol : ascii) (l : list ascii) :
  is_line eol l -> (0 < List.length l)%nat.
Proof. intros (c & -> & _). rewrite length_app. cbn. lia. Qed.



Lemma linewise_advancing (eol : ascii) (sel : list ascii -> bool)
  (m : matcher) :
  linewise eol sel m ->
  forall data off sz,
    complete eol data -> m data = Some (off, sz) ->
    (1 <= sz /\ off + sz <= List.length data)%nat.
Proof.
  intros Hm data off sz Hc H.
  destruct (linewise_some eol sel m data off sz Hm Hc H)
    as (pre & l & rest & -> & -> & -> & Hp & Hl & Hr & _).
  pose proof (is_line_length eol l Hl).
  rewrite !length_app. lia.
Qed.

(** ** Selection *)

Section Selection.

Variable cfg : config.
Variable sel : list ascii -> bool.

Local Abbreviation eol := (eolbyte cfg).

Lemma any_selected_nil : any_selected cfg sel [] = false.
Proof. reflexivity. Qed.




Lemma terminated_complete (d : list ascii) :
  complete eol (terminated eol d).
Proof.
  unfold terminated. destruct (Ascii.eqb (last d eol) eol) eqn:E.
  - apply Ascii.eqb_eq in E.
    destruct d as [|x d'] using rev_ind; [apply complete_nil|].
    rewrite last_last in E. subst x. apply complete_snoc.
  - apply complete_snoc.
Qed.



End Selection.

(** ** Reads *)


(** ** The matcher of the examples works line by line *)





(** ** What grepbuf counts *)





Section Counting.

Variable cfg : config.
Variable w : world.
Variable sel : list ascii -> bool.
Hypothesis Hm : linewise (eolbyte cfg) sel (execute cfg).

Local Abbreviation eol := (eolbyte cfg).





End Counting.

(** ** What grep counts *)








Section Scanning.

Variable cfg : config.
Variable w : world.
Variable sel : list ascii -> bool.
Hypothesis Hm : linewise (eolbyte cfg) sel (execute cfg).

Local Abbreviation eol := (eolbyte cfg).








End Scanning.

(** ** Trouble seen is not forgotten *)

Lemma errseen_kept_refl (s : state) : errseen_kept s s.
Proof. left. reflexivity. Qed.

Lemma errseen_kept_eq (s s' : state) :
  errseen s' = errseen s -> errseen_kept s s'.
Proof. intros H. left. exact H. Qed.



Section Kept.

Variable cfg : config.
Variable w : world.














End Kept.

(** ** What the status of a file tells *)


Section Verdict.

Variable cfg : config.
Variable w : world.
Variable sel : list ascii -> bool.
Hypothesis Hm : linewise (eolbyte cfg) sel (execute cfg).
Hypothesis Hmax : 0 < max_count cfg.






End Verdict.

(** ** Exit status *)


Section ExitStatus.

Variable cfg : config.
Variable w : world.
Variable sel : list ascii -> bool.
Hypothesis Hm : linewise (eolbyte cfg) sel (execute cfg).
Hypothesis Hmax : 0 < max_count cfg.




End ExitStatus.





(** ** Further properties of the code *)

(** X1.  For a position that is not negative, print_offset_sep writes,
    in one fwrite, the decimal digits of the position and then the
    separator: between 1 and 19 digits that denote the position, the
    first one 0 only for the position 0.  They fit the 64 bytes of its
    array. *)
Theorem print_offset_sep_decimal (pos : Z) (sep : ascii) (s : state) :
  0 <= pos < 2 ^ 63 ->
  exists ds,
    print_offset_sep pos sep s
    = Ret tt (set_sout (sout s ++ [Fwrite (ds ++ [sep])]) s)
    /\ Forall is_digit ds
    /\ decimal_value 0 ds = pos
    /\ (1 <= List.length ds <= 19)%nat
    /\ (hd "0"%char ds = "0"%char -> pos = 0 /\ ds = ["0"%char]).
Proof.
  intros Hpos.
  destruct (offset_digits_spec 62 pos [sep]) as (ds & E & F & V & L & P & Z0).
  { split; [lia|]. change (10 ^ Z.of_nat 63) with (10 ^ 63). lia. }
  exists ds. split; [unfold print_offset_sep; rewrite E; reflexivity|].
  split; [exact F|]. split; [exact V|]. split.
  - split; [lia|].
    destruct (Z.eq_dec pos 0) as [->|Hne];
      [rewrite (Z0 eq_refl); cbn; lia|].
    destruct (P ltac:(lia)) as [_ Hp].
    destruct (Nat.le_gt_cases (List.length ds) 19) as [H|H]; [exact H|].
    exfalso.
    assert (10 ^ 19 <= 10 ^ (Z.of_nat (List.length ds) - 1))
      by (apply Z.pow_le_mono_r; lia).
    lia.
  - intros Hh. destruct (Z.eq_dec pos 0) as [->|Hne]; [auto|].
    destruct (P ltac:(lia)) as [Hh' _]. contradiction.
Qed.

Lemma print_offset_sep_decimal_witness :
  0 <= 1234 < 2 ^ 63
  /\ exists ds,
       print_offset_sep 1234 ":" (initial_state [])
       = Ret tt (set_sout (sout (initial_state [])
                           ++ [Fwrite (ds ++ [":"%char])])
                   (initial_state []))
       /\ Forall is_digit ds
       /\ decimal_value 0 ds = 1234
       /\ (1 <= List.length ds <= 19)%nat
       /\ (hd "0"%char ds = "0"%char -> 1234 = 0 /\ ds = ["0"%char]).
Proof.
  split; [lia|].
  apply (print_offset_sep_decimal 1234 ":" (initial_state [])). lia.
Defined.

(** X2.  A call of nlscan whose [lim] is a line boundary not before
    [lastnl] adds to [totalnl] the number of end-of-line bytes in
    [[lastnl, lim)], moves [lastnl] to [lim], and changes nothing else. *)
Theorem nlscan_counts (cfg : config) (lim : nat) (s : state) :
  (lastnl s <= lim)%nat ->
  bol (eolbyte cfg) (bufdata s) lim ->
  nlscan cfg lim s
  = Ret tt
      (set_lastnl lim
         (set_totalnl
            (totalnl s + eol_count (eolbyte cfg) (bufdata s) (lastnl s) lim)
            s)).
Proof.
  exact (nlscan_eq cfg lim s).
Qed.

Lemma nlscan_counts_witness :
  (lastnl (scanning ("a" ++ nl ++ "b" ++ nl ++ "c" ++ nl) 5) <= 4)%nat
  /\ bol (eolbyte numbering_config)
       (bufdata (scanning ("a" ++ nl ++ "b" ++ nl ++ "c" ++ nl) 5)) 4
  /\ totalnl
       (set_lastnl 4
          (set_totalnl
             (totalnl (scanning ("a" ++ nl ++ "b" ++ nl ++ "c" ++ nl) 5)
              + eol_count (eolbyte numbering_config)
                  (bufdata (scanning ("a" ++ nl ++ "b" ++ nl ++ "c" ++ nl) 5))
                  (lastnl (scanning ("a" ++ nl ++ "b" ++ nl ++ "c" ++ nl) 5))
                  4)
             (scanning ("a" ++ nl ++ "b" ++ nl ++ "c" ++ nl) 5))) = 2
  /\ nlscan numbering_config 4
       (scanning ("a" ++ nl ++ "b" ++ nl ++ "c" ++ nl) 5)
     = Ret tt
         (set_lastnl 4
            (set_totalnl
               (totalnl (scanning ("a" ++ nl ++ "b" ++ nl ++ "c" ++ nl) 5)
                + eol_count (eolbyte numbering_config)
                    (bufdata
                       (scanning ("a" ++ nl ++ "b" ++ nl ++ "c" ++ nl) 5))
                    (lastnl
                       (scanning ("a" ++ nl ++ "b" ++ nl ++ "c" ++ nl) 5))
                    4)
               (scanning ("a" ++ nl ++ "b" ++ nl ++ "c" ++ nl) 5))).
Proof.
  assert (H1 : (lastnl (scanning ("a" ++ nl ++ "b" ++ nl ++ "c" ++ nl) 5)
                <= 4)%nat) by (vm_compute; lia).
  assert (H2 : bol (eolbyte numbering_config)
                 (bufdata (scanning ("a" ++ nl ++ "b" ++ nl ++ "c" ++ nl) 5))
                 4).
  { split; [vm_compute; lia|right; vm_compute; reflexivity]. }
  split; [exact H1|]. split; [exact H2|].
  split; [vm_compute; reflexivity|].
  apply (nlscan_counts numbering_config 4 _ H1 H2).
Defined.

(** X3.  When the line starts at a line boundary not before [lastnl]
    (which only matters under [-n]), prline returns, having written the
    prefix that the flags ask for (the file name, the number of the
    line, which is [totalnl] plus the end-of-line bytes up to the line
    plus one, and the byte offset [totalcc + (beg - bufbeg)]) and then
    the bytes of [[beg, lim)]; it leaves [lastout] at [lim], and under
    [-n] [lastnl] at [lim] and the number of the line in [totalnl]. *)
Theorem prline_output (cfg : config) (w : world) (beg lim : nat)
  (sep : ascii) (s : state) :
  (out_line cfg <> 0 ->
   (lastnl s <= beg)%nat /\ bol (eolbyte cfg) (bufdata s) beg) ->
  exists s',
    prline cfg w beg lim sep s = Ret tt s'
    /\ sout s' = sout s ++ prline_prefix cfg beg sep s
                 ++ [Fwrite (slice (bufdata s) beg lim)]
    /\ lastout s' = Some lim
    /\ (out_line cfg <> 0 ->
        lastnl s' = lim
        /\ totalnl s'
           = totalnl s
             + eol_count (eolbyte cfg) (bufdata s) (lastnl s) beg + 1)
    /\ (out_line cfg = 0 -> lastnl s' = lastnl s /\ totalnl s' = totalnl s)
    /\ scan_core s' = scan_core s.
Proof.
  intros Hl. unfold prline, prline_prefix. mred.
  assert (Hnz : forall x, nz x = true <-> x <> 0).
  { intros x. unfold nz. rewrite negb_true_iff. apply Z.eqb_neq. }
  assert (Hnz' : forall x, nz x = false <-> x = 0).
  { intros x. unfold nz. rewrite negb_false_iff. apply Z.eqb_eq. }
  destruct (nz (out_line cfg)) eqn:El.
  - apply Hnz in El. destruct (Hl El) as [Hn Hb].
    destruct (nz (out_file s)); mred; rewrite bind_bind;
      (rewrite (bind_of_ret _ _ _ _ _ (nlscan_eq cfg beg _ Hn Hb))
       || (erewrite bind_of_ret by (apply nlscan_eq; [exact Hn|exact Hb])));
      mred; unfold print_offset_sep; mred;
      destruct (nz (out_byte cfg)); mred;
      destruct (w_ferror_stdout w); mred;
      eexists; (split; [reflexivity|]);
      cbn; rewrite <- ?app_assoc; cbn;
      repeat split; auto; try contradiction.
  - apply Hnz' in El.
    destruct (nz (out_file s)); mred;
      destruct (nz (out_byte cfg)); mred; unfold print_offset_sep; mred;
      destruct (w_ferror_stdout w); mred;
      eexists; (split; [reflexivity|]);
      cbn; rewrite <- ?app_assoc; cbn;
      repeat split; auto; try contradiction.
Qed.

Lemma prline_output_witness :
  (out_line numbering_config <> 0 ->
   (lastnl (scanning ("a" ++ nl ++ "b" ++ nl) 5) <= 2)%nat
   /\ bol (eolbyte numbering_config)
        (bufdata (scanning ("a" ++ nl ++ "b" ++ nl) 5)) 2)
  /\ exists s',
       prline numbering_config pipe_world 2 4 ":"
         (scanning ("a" ++ nl ++ "b" ++ nl) 5) = Ret tt s'
       /\ stdout_bytes (sout s') = bytes ("2:b" ++ nl)
       /\ totalnl s' = 2.
Proof.
  assert (H : out_line numbering_config <> 0 ->
              (lastnl (scanning ("a" ++ nl ++ "b" ++ nl) 5) <= 2)%nat
              /\ bol (eolbyte numbering_config)
                   (bufdata (scanning ("a" ++ nl ++ "b" ++ nl) 5)) 2).
  { intros _. split; [vm_compute; lia|].
    split; [vm_compute; lia|right; vm_compute; reflexivity]. }
  split; [exact H|].
  destruct (prline_output numbering_config pipe_world 2 4 ":"
              (scanning ("a" ++ nl ++ "b" ++ nl) 5) H)
    as (s' & E & Ho & _ & Hn & _).
  exists s'. split; [exact E|]. split.
  - rewrite Ho. vm_compute. reflexivity.
  - destruct Hn as [_ Hn]; [vm_compute; discriminate|].
    rewrite Hn. vm_compute. reflexivity.
Defined.

(** X4.  Where the buffer is in the state that the scan keeps it in and
    [lim] is a line boundary, prpending returns.  It moves [lastout]
    forward over whole lines, not beyond [lim] if it was not beyond;
    [pending], if it was not negative, stays so and goes down by at least
    the number of lines passed; with nothing pending, [pending] is left
    as it is.  The budget [outleft] and the buffer are untouched. *)
Theorem prpending_trailing (cfg : config) (w : world) (buf : list ascii)
  (lim : nat) (s : state) :
  scan_inv cfg buf s ->
  bol (eolbyte cfg) buf lim ->
  exists s',
    prpending cfg w lim s = Ret tt s'
    /\ (ptr_or_bufbeg (lastout s) <= ptr_or_bufbeg (lastout s'))%nat
    /\ ((ptr_or_bufbeg (lastout s) <= lim)%nat ->
        (ptr_or_bufbeg (lastout s') <= lim)%nat)
    /\ bol (eolbyte cfg) buf (ptr_or_bufbeg (lastout s'))
    /\ (pending s <= 0 -> pending s' = pending s)
    /\ (0 <= pending s ->
        0 <= pending s'
        /\ eol_count (eolbyte cfg) buf
             (ptr_or_bufbeg (lastout s)) (ptr_or_bufbeg (lastout s'))
           <= pending s - pending s')
    /\ outleft s' = outleft s
    /\ scan_core s' = scan_core s.
Proof.
  intros Hinv Hlim.
  destruct (post_never _ _
              (post_three cfg _ _ _ _
                 (prpending_safe cfg w buf lim s Hinv Hlim)
                 (prpending_frame cfg w lim s)
                 (prpending_prints cfg w lim s)))
    as ([] & s' & E & (I1 & L1) & _ & (P & Lo & Z0 & Hp)).
  exists s'. split; [exact E|]. split; [exact Lo|]. split; [exact L1|].
  split; [apply I1|]. split; [exact Z0|].
  destruct Hinv as (B & _). rewrite B in Hp.
  split; [exact Hp|]. destruct P as (C & O & _). auto.
Qed.

Lemma prpending_trailing_witness :
  scan_inv context_config (bytes six_lines) context_pending
  /\ bol (eolbyte context_config) (bytes six_lines) 12
  /\ exists s',
       prpending context_config pipe_world 12 context_pending = Ret tt s'
       /\ lastout s' = Some 6%nat /\ pending s' = 0.
Proof.
  assert (H1 : scan_inv context_config (bytes six_lines) context_pending).
  { split; [reflexivity|]. split; [vm_compute; lia|].
    split; [vm_compute; lia|right; vm_compute; reflexivity]. }
  assert (H2 : bol (eolbyte context_config) (bytes six_lines) 12).
  { split; [vm_compute; lia|right; vm_compute; reflexivity]. }
  split; [exact H1|]. split; [exact H2|].
  destruct (prpending_trailing context_config pipe_world (bytes six_lines)
              12 context_pending H1 H2) as (s' & E & _).
  exists s'. split; [exact E|].
  assert (E' : prpending context_config pipe_world 12 context_pending
               = Ret tt s') by exact E.
  vm_compute in E'. injection E' as <-. split; reflexivity.
Defined.

(** X5.  Where the buffer is in the state that the scan keeps it in,
    [[beg, lim)] is made of whole lines after the last output and
    [outleft] is not negative, prtext with a place for the count returns
    and stores the lesser of [outleft] and the number of lines in
    [[beg, lim)].  It leaves [outleft] and the buffer alone, sets [used],
    and sets [pending] to [out_after], or to 0 in quiet mode. *)
Theorem prtext_line_count (cfg : config) (w : world) (buf : list ascii)
  (beg lim : nat) (s : state) :
  scan_inv cfg buf s ->
  (ptr_or_bufbeg (lastout s) <= beg)%nat ->
  bol (eolbyte cfg) buf beg ->
  (beg <= lim)%nat ->
  bol (eolbyte cfg) buf lim ->
  0 <= outleft s ->
  exists n s',
    prtext cfg w beg lim true s = Ret n s'
    /\ n = Z.min (outleft s) (eol_count (eolbyte cfg) buf beg lim)
    /\ outleft s' = outleft s
    /\ used s' = 1
    /\ pending s' = (if nz (out_quiet s) then 0 else out_after cfg)
    /\ scan_core s' = scan_core s.
Proof.
  intros Hinv Hlo Hbeg Hle Hlim Ho.
  destruct (post_never _ _
              (post_three cfg _ _ _ _
                 (prtext_safe cfg w buf beg lim true s Hinv Hlo Hbeg Hle Hlim)
                 (prtext_post cfg w beg lim true s)
                 (prtext_counts cfg w beg lim true s)))
    as (n & s' & E & _ & _ & (C & O & U & P & _ & N & _)).
  exists n, s'. split; [exact E|].
  destruct Hinv as (B & _). rewrite B in N.
  split; [apply N; auto|]. auto.
Qed.

Lemma prtext_line_count_witness :
  scan_inv invert_config (bytes six_lines) (scanning six_lines 2)
  /\ (ptr_or_bufbeg (lastout (scanning six_lines 2)) <= 0)%nat
  /\ bol (eolbyte invert_config) (bytes six_lines) 0
  /\ (0 <= 6)%nat
  /\ bol (eolbyte invert_config) (bytes six_lines) 6
  /\ 0 <= outleft (scanning six_lines 2)
  /\ exists n s',
       prtext invert_config pipe_world 0 6 true (scanning six_lines 2)
       = Ret n s'
       /\ n = 2
       /\ stdout_bytes (sout s') = bytes ("1" ++ nl ++ "2" ++ nl).
Proof.
  assert (H1 : scan_inv invert_config (bytes six_lines)
                 (scanning six_lines 2)).
  { split; [reflexivity|]. split; [vm_compute; lia|].
    split; [vm_compute; lia|left; reflexivity]. }
  assert (H2 : bol (eolbyte invert_config) (bytes six_lines) 0)
    by (split; [vm_compute; lia|left; reflexivity]).
  assert (H3 : bol (eolbyte invert_config) (bytes six_lines) 6)
    by (split; [vm_compute; lia|right; vm_compute; reflexivity]).
  assert (H4 : (ptr_or_bufbeg (lastout (scanning six_lines 2)) <= 0)%nat)
    by (vm_compute; lia).
  assert (H5 : 0 <= outleft (scanning six_lines 2)) by (vm_compute; discriminate).
  repeat (split; [assumption || lia|]).
  destruct (prtext_line_count invert_config pipe_world (bytes six_lines)
              0 6 (scanning six_lines 2) H1 H4 H2 ltac:(lia) H3 H5)
    as (n & s' & E & N & _).
  exists n, s'. split; [exact E|].
  assert (E' : prtext invert_config pipe_world 0 6 true
                 (scanning six_lines 2) = Ret n s') by exact E.
  vm_compute in E'. injection E' as <- <-. split; reflexivity.
Defined.

(** X6.  Over a matcher that reports whole lines and moves on, with
    lines still allowed ([outleft] positive) and enough fuel for the
    region, grepbuf either takes the [exit (0)] of [-q] or returns: the
    count it returns is what it took off [outleft], which does not go
    below 0, and the buffer, the read offset and the flags are as they
    were. *)
Theorem grepbuf_line_budget (cfg : config) (w : world) (buf : list ascii)
  (fuel : nat) (beg lim : nat) (s : state) :
  on_lines (eolbyte cfg) (execute cfg) ->
  advancing (execute cfg) ->
  (lim - beg < fuel)%nat ->
  scan_inv cfg buf s ->
  (ptr_or_bufbeg (lastout s) <= beg)%nat ->
  bol (eolbyte cfg) buf beg ->
  (beg <= lim)%nat ->
  bol (eolbyte cfg) buf lim ->
  0 < outleft s ->
  post (only_quiet_exit cfg)
    (fun n s' =>
       n = outleft s - outleft s' /\ 0 <= n /\ 0 <= outleft s'
       /\ scan_core s' = scan_core s)
    (grepbuf cfg w fuel beg lim s).
Proof.
  intros Hm Ha Hf Hinv Hlo Hbeg Hle Hlim Ho.
  eapply post_weaken;
    [apply (post_three_quiet cfg _ _ _ _
              (grepbuf_safe cfg w buf fuel beg lim s Hm Hinv Hlo Hbeg Hle Hlim)
              (grepbuf_tame cfg w false fuel beg lim s (fun _ => conj Ha Hf))
              (grepbuf_budget cfg w fuel beg lim s Ho))
    | |auto].
  cbn beta. intros n s' (_ & (_ & Hn) & (C & N & O)). auto.
Qed.

Lemma grepbuf_line_budget_witness :
  on_lines (eolbyte context_config) (execute context_config)
  /\ advancing (execute context_config)
  /\ (12 - 0 < 13)%nat
  /\ scan_inv context_config (bytes six_lines) (scanning six_lines 1)
  /\ (ptr_or_bufbeg (lastout (scanning six_lines 1)) <= 0)%nat
  /\ bol (eolbyte context_config) (bytes six_lines) 0
  /\ (0 <= 12)%nat
  /\ bol (eolbyte context_config) (bytes six_lines) 12
  /\ 0 < outleft (scanning six_lines 1)
  /\ exists s',
       grepbuf context_config pipe_world 13 0 12 (scanning six_lines 1)
       = Ret 1 s'
       /\ outleft s' = 0.
Proof.
  assert (H1 : scan_inv context_config (bytes six_lines)
                 (scanning six_lines 1)).
  { split; [reflexivity|]. split; [vm_compute; lia|].
    split; [vm_compute; lia|left; reflexivity]. }
  assert (H2 : bol (eolbyte context_config) (bytes six_lines) 0)
    by (split; [vm_compute; lia|left; reflexivity]).
  assert (H3 : bol (eolbyte context_config) (bytes six_lines) 12)
    by (split; [vm_compute; lia|right; vm_compute; reflexivity]).
  assert (H4 : (ptr_or_bufbeg (lastout (scanning six_lines 1)) <= 0)%nat)
    by (vm_compute; lia).
  assert (H5 : 0 < outleft (scanning six_lines 1)) by reflexivity.
  split; [apply line_matcher_on_lines|].
  split; [apply line_matcher_advancing|].
  repeat (split; [assumption || lia|]).
  pose proof (grepbuf_line_budget context_config pipe_world
                (bytes six_lines) 13 0 12 (scanning six_lines 1)
                (line_matcher_on_lines "3" newline)
                (line_matcher_advancing "3" newline)
                ltac:(lia) H1 H4 H2 ltac:(lia) H3 H5) as H.
  destruct (grepbuf context_config pipe_world 13 0 12
              (scanning six_lines 1)) as [n s'|r] eqn:E.
  - vm_compute in E. injection E as <- <-. eexists. split; reflexivity.
  - vm_compute in E. discriminate.
Defined.

(** X7.  With [max_count] not negative and a walker of directories that
    returns a status, the count that grep returns for a file is never
    above [max_count]. *)
Theorem grep_max_count (cfg : config) (w : world) (grepdir : grepdir_t)
  (fuel : nat) (file : option string) (st st' : stat) (anc : list stat)
  (s s' : state) (count : Z) :
  0 <= max_count cfg ->
  (forall f st1 s1,
      post any_stop (fun status _ => is_status status)
        (grepdir f st1 anc s1)) ->
  grep cfg w grepdir fuel file st anc s = Ret (count, st') s' ->
  count <= max_count cfg.
Proof.
  intros Hmax Hdir E.
  pose proof (grep_budget cfg w grepdir fuel file st anc s Hmax Hdir) as H.
  rewrite E in H. exact H.
Qed.

(** X8.  The scanning loop of grep keeps [totalcc] in step with the
    reads: however it is left, the read offset less [totalcc] and the
    bytes in the buffer is what it was, so [totalcc] goes on being the
    number of bytes read that lie before the buffer, and [outleft] plus
    the lines counted is what it was. *)
Theorem scan_loop_accounts (cfg : config) (w : world) (fuel : nat)
  (file : option string) (st : stat) (nlines : Z) (residue save : nat)
  (s s' : state) (r : scan_exit) :
  0 <= outleft s ->
  grep_loop cfg w fuel file st nlines residue save s = Ret r s' ->
  bufoffset s' - totalcc s' - Z.of_nat (List.length (bufdata s'))
  = bufoffset s - totalcc s - Z.of_nat (List.length (bufdata s))
  /\ scan_nlines r + outleft s' = nlines + outleft s
  /\ 0 <= outleft s'.
Proof.
  intros Ho E.
  pose proof (grep_loop_accounts cfg w fuel file st nlines residue save s Ho)
    as H.
  rewrite E in H. cbn in H. tauto.
Qed.

(** X9.  In the build modelled, where the buffer is never memory-mapped
    ([bufmapped] is 0), fillbuf either ends in the [exit (2)] of memory
    exhausted or returns after one read of [bufalloc - bufsalloc] bytes,
    the sizes as it leaves them, a read that is repeated while it is
    interrupted.  When the read gives bytes, fillbuf returns 1, the
    buffer holds the last [save] bytes of what it held and after them
    the bytes read, and the read offset has moved on by their number.
    When the read fails, fillbuf returns 0, keeps the saved bytes alone
    and the read offset, and [errno] holds the error.  What is left to
    read is what that read left, and nothing is written to standard
    output or standard error. *)
Theorem fillbuf_contents (w : world) (save : nat) (st : stat) (s : state) :
  post only_fatal
    (fun cc s' =>
       let saved := skipn (List.length (bufdata s) - save) (bufdata s) in
       let readsize := Z.to_nat (wrap (bufalloc s' - bufsalloc s')) in
       rd s' = snd (sys_read readsize (rd s))
       /\ match fst (sys_read readsize (rd s)) with
          | inr chunk =>
              cc = 1 /\ bufdata s' = saved ++ chunk
              /\ bufoffset s' = bufoffset s + Z.of_nat (List.length chunk)
              /\ (List.length chunk <= readsize)%nat
          | inl e =>
              cc = 0 /\ bufdata s' = saved /\ bufoffset s' = bufoffset s
              /\ errno s' = e
          end
       /\ sout s' = sout s /\ serr s' = serr s /\ totalcc s' = totalcc s)
    (fillbuf w save st s).
Proof.
  eapply post_weaken; [apply (fillbuf_reads w save st s)| |auto].
  cbn beta zeta.
  intros cc s' (R & M & So & Se & T & _).
  split; [exact R|]. split; [exact M|]. auto.
Qed.

Lemma grep_max_count_witness :
  0 <= max_count context_config
  /\ (forall f st1 s1,
         post any_stop (fun status _ => is_status status)
           (grepdir context_config pipe_world 0 64 f st1 [] s1))
  /\ exists st' s',
       grep context_config pipe_world (grepdir context_config pipe_world 0 64)
         64 None stats_base [] (reading six_lines) = Ret (2, st') s'
       /\ 2 <= max_count context_config.
Proof.
  assert (H1 : 0 <= max_count context_config) by (vm_compute; discriminate).
  assert (H2 : forall f st1 s1,
             post any_stop (fun status _ => is_status status)
               (grepdir context_config pipe_world 0 64 f st1 [] s1))
    by (intros f st1 s1; exact I).
  split; [exact H1|]. split; [exact H2|].
  destruct (grep context_config pipe_world
              (grepdir context_config pipe_world 0 64) 64 None stats_base []
              (reading six_lines)) as [[count st'] s'|r] eqn:E.
  - pose proof (grep_max_count context_config pipe_world
                  (grepdir context_config pipe_world 0 64) 64 None
                  stats_base st' [] (reading six_lines) s' count H1 H2 E)
      as Hc.
    assert (count = 2) as -> by (vm_compute in E; congruence).
    exists st', s'. split; [reflexivity|exact Hc].
  - vm_compute in E. discriminate.
Defined.

Lemma scan_loop_accounts_witness :
  0 <= outleft (scanning six_lines 5)
  /\ exists r s',
       grep_loop context_config pipe_world 8 None stats_base 0 0 0
         (scanning six_lines 5) = Ret r s'
       /\ totalcc s' = 12
       /\ bufoffset s' - totalcc s' - Z.of_nat (List.length (bufdata s'))
          = bufoffset (scanning six_lines 5)
            - totalcc (scanning six_lines 5)
            - Z.of_nat (List.length (bufdata (scanning six_lines 5))).
Proof.
  assert (H1 : 0 <= outleft (scanning six_lines 5))
    by (vm_compute; discriminate).
  split; [exact H1|].
  destruct (grep_loop context_config pipe_world 8 None stats_base 0 0 0
              (scanning six_lines 5)) as [r s'|r] eqn:E.
  - destruct (scan_loop_accounts context_config pipe_world 8 None stats_base
                0 0 0 (scanning six_lines 5) s' r H1 E) as (Ha & _).
    exists r, s'. split; [reflexivity|]. split; [|exact Ha].
    vm_compute in E. injection E as _ <-. reflexivity.
  - vm_compute in E. discriminate.
Defined.

(** X10.  With a round of the loop for each byte of [options],
    prepend_args returns; none of the options it stores is empty, their
    number is at most the length of [options], and with their NULs they
    take at most one byte more than [options] has: the buffer of
    [strlen (options) + 1] bytes that prepend_default_options gives it
    is never overrun. *)
Theorem prepend_args_buffer (ISSPACE : ascii -> bool)
  (options : list ascii) :
  exists args,
    prepend_args ISSPACE (List.length options) options = Some args
    /\ Forall (fun arg => arg <> []) args
    /\ (List.length args <= List.length options)%nat
    /\ (List.length (buf_bytes args) <= List.length options + 1)%nat.
Proof.
  destruct (prepend_args_spec ISSPACE (List.length options) options
              ltac:(lia)) as (args & E & F & L & B).
  exists args. split; [exact E|]. split; [exact F|]. split; [exact L|].
  pose proof (skip_space_length ISSPACE options) as Hs.
  destruct args as [|a args]; [cbn; lia|]. lia.
Qed.

(** X11.  Options written with a backslash before every space and every
    backslash, and joined by blanks, are read back as they were: given
    such a string, prepend_default_options puts the options, in their
    order, between [argv[0]] and the arguments of the command line, and
    adds their number to [argc]. *)
Theorem prepend_default_options_escaped (ISSPACE : ascii -> bool)
  (args : list (list ascii)) (argv0 : list ascii)
  (argv : list (list ascii)) :
  ISSPACE " "%char = true ->
  ISSPACE backslash = false ->
  Forall (fun arg => arg <> []) args ->
  prepend_default_options ISSPACE
    (Some (join_options (map (escape_option ISSPACE) args))) argv0 argv
  = Some (Z.of_nat (List.length args) + (1 + Z.of_nat (List.length argv)),
          argv0 :: args ++ argv).
Proof.
  intros Hsp Hb Hne. unfold prepend_default_options.
  assert (E : prepend_args ISSPACE
                (List.length
                   (join_options (map (escape_option ISSPACE) args)))
                (join_options (map (escape_option ISSPACE) args))
              = Some args).
  { apply prepend_args_escaped; auto.
    rewrite <- (length_map (escape_option ISSPACE) args).
    apply join_options_length.
    apply Forall_forall. intros x Hx. apply in_map_iff in Hx.
    destruct Hx as (a & <- & Ha).
    rewrite Forall_forall in Hne.
    destruct (escape_option_head ISSPACE a Hb (Hne a Ha))
      as (y & r & -> & _).
    discriminate. }
  rewrite E. reflexivity.
Qed.

Lemma prepend_default_options_escaped_witness :
  c_isspace " "%char = true
  /\ c_isspace backslash = false
  /\ Forall (fun arg => arg <> []) three_options
  /\ prepend_default_options c_isspace
       (Some (bytes "-i a\ b c\\d")) (bytes "grep") [bytes "x"; bytes "f"]
     = Some (6, [bytes "grep"; bytes "-i"; bytes "a b"; bytes "c\d";
                 bytes "x"; bytes "f"]).
Proof.
  assert (H3 : Forall (fun arg => arg <> []) three_options)
    by (repeat constructor; discriminate).
  split; [reflexivity|]. split; [reflexivity|]. split; [exact H3|].
  exact (prepend_default_options_escaped c_isspace three_options
           (bytes "grep") [bytes "x"; bytes "f"] eq_refl eq_refl H3).
Defined.

(** X12.  Whatever options [getopt_long] answers, the string that
    get_nondigit_option hands to context_length_arg has at most 67
    bytes: with its NUL it fits the array of
    [sizeof (uintmax_t) * CHAR_BIT + 4 = 68] bytes. *)
Theorem get_nondigit_option_buffer (opts : list Z) :
  match fst (fst (get_nondigit_option opts)) with
  | Some buf => (List.length buf <= 67)%nat
  | None => True
  end.
Proof.
  unfold get_nondigit_option.
  pose proof (digit_options_bound opts [] ltac:(cbn; lia)) as H.
  destruct (digit_options opts []) as [[buf opt] rest].
  cbn [fst] in *. destruct buf; [exact I|exact H].
Qed.

(** X13.  Digit options that come one after another, [-1 -2] or [-12],
    are put together into one number: when they are followed by another
    option and their value is below 10^63, get_nondigit_option returns
    that option and hands to context_length_arg the digits with the same
    value, without leading zeros (a single 0 for zero). *)
Theorem get_nondigit_option_digits (ds : list Z) (opt : Z)
  (rest : list Z) :
  Forall (fun d => 48 <= d <= 57) ds ->
  ds <> [] ->
  ~ (48 <= opt <= 57) ->
  decimal_value 0 (map ascii_of_Z ds) < 10 ^ 63 ->
  exists buf,
    get_nondigit_option (ds ++ opt :: rest) = (Some buf, opt, rest)
    /\ Forall is_digit buf
    /\ decimal_value 0 buf = decimal_value 0 (map ascii_of_Z ds)
    /\ (hd NUL buf = "0"%char -> buf = ["0"%char]).
Proof.
  intros Hds Hne Ho Hv.
  assert (Hk : kept_digits []) by (split; [constructor|left; left; reflexivity]).
  destruct (digit_options_digits ds [] opt rest Hds Ho Hk Hv)
    as (buf & E & (Hd & K) & V & N).
  exists buf. unfold get_nondigit_option. rewrite E.
  specialize (N (or_intror Hne)).
  destruct buf as [|x b]; [contradiction|].
  split; [reflexivity|]. split; [exact Hd|]. split; [exact V|].
  intros Hh. destruct K as [[K|K]|[K _]]; [discriminate|exact K|contradiction].
Qed.

Lemma get_nondigit_option_digits_witness :
  Forall (fun d => 48 <= d <= 57) [48; 48; 49; 50]
  /\ [48; 48; 49; 50] <> []
  /\ ~ (48 <= 110 <= 57)
  /\ decimal_value 0 (map ascii_of_Z [48; 48; 49; 50]) < 10 ^ 63
  /\ get_nondigit_option ([48; 48; 49; 50] ++ 110 :: [-1])
     = (Some (bytes "12"), 110, [-1]).
Proof.
  assert (H1 : Forall (fun d => 48 <= d <= 57) [48; 48; 49; 50])
    by (repeat constructor; lia).
  assert (H2 : [48; 48; 49; 50] <> []) by discriminate.
  assert (H3 : ~ (48 <= 110 <= 57)) by lia.
  assert (H4 : decimal_value 0 (map ascii_of_Z [48; 48; 49; 50]) < 10 ^ 63)
    by (vm_compute; reflexivity).
  repeat (split; [assumption|]).
  destruct (get_nondigit_option_digits [48; 48; 49; 50] 110 [-1] H1 H2 H3 H4)
    as (buf & E & _).
  rewrite E. vm_compute in E. injection E as <-. reflexivity.
Defined.

(** X14.  page_alloc gives NULL when [size + pagesize - 1] overflows or
    the allocation fails; otherwise the address it gives lies in the
    block of [size + pagesize - 1] bytes that was allocated, is a
    multiple of the page size, and leaves [size] bytes of the block
    after it. *)
Theorem page_alloc_aligned (w : world) (ps size : Z) :
  0 < ps <= SIZE_MAX ->
  0 <= size <= SIZE_MAX ->
  (SIZE_MAX < size + ps - 1 -> page_alloc w ps size = None)
  /\ forall b,
       page_alloc w ps size = Some b ->
       exists p,
         w_alloc w (size + ps - 1) = Some p
         /\ (0 <= p -> p + (size + ps - 1) <= SIZE_MAX ->
             (ps | b) /\ p <= b /\ b + size <= p + (size + ps - 1)).
Proof.
  intros Hps Hsize. unfold page_alloc.
  assert (Hwrap : SIZE_MAX < size + ps - 1 ->
                  wrap (size + ps - 1) < size).
  { intros H. unfold wrap, SIZE_MAX in *.
    assert (E : (size + ps - 1) mod 2 ^ 64 = size + ps - 1 - 2 ^ 64).
    { symmetry. apply Z.mod_unique with (q := 1); lia. }
    rewrite E. lia. }
  split.
  - intros H. specialize (Hwrap H).
    destruct (size <=? wrap (size + ps - 1)) eqn:E; [|reflexivity].
    apply Z.leb_le in E. lia.
  - intros b H.
    destruct (size <=? wrap (size + ps - 1)) eqn:E; [|discriminate].
    apply Z.leb_le in E.
    assert (Hno : size + ps - 1 <= SIZE_MAX).
    { destruct (Z_le_gt_dec (size + ps - 1) SIZE_MAX) as [Hle|Hgt];
        [exact Hle|]. specialize (Hwrap ltac:(lia)). lia. }
    rewrite wrap_small in H by lia.
    destruct (w_alloc w (size + ps - 1)) as [p|]; [|discriminate].
    injection H as <-. exists p. split; [reflexivity|].
    intros Hp0 Hp1.
    destruct (round_up_spec p ps (proj1 Hps) Hp0) as [Hr Hd].
    rewrite ALIGN_TO_round_up by lia.
    split; [exact Hd|]. lia.
Qed.

Lemma page_alloc_aligned_witness :
  0 < 4096 <= SIZE_MAX
  /\ 0 <= 40960 <= SIZE_MAX
  /\ exists b, page_alloc pipe_world 4096 40960 = Some b /\ (4096 | b).
Proof.
  assert (H1 : 0 < 4096 <= SIZE_MAX) by (unfold SIZE_MAX; lia).
  assert (H2 : 0 <= 40960 <= SIZE_MAX) by (unfold SIZE_MAX; lia).
  split; [exact H1|]. split; [exact H2|].
  destruct (page_alloc pipe_world 4096 40960) as [b|] eqn:E;
    [|vm_compute in E; discriminate].
  destruct (proj2 (page_alloc_aligned pipe_world 4096 40960 H1 H2) b E)
    as (p & Ep & Hp).
  exists b. split; [reflexivity|].
  vm_compute in Ep. injection Ep as <-.
  apply Hp; unfold SIZE_MAX; lia.
Defined.

(** X15.  reset either ends in the [exit (2)] of memory exhausted or
    returns with the sizes of the buffer in order, the page size
    positive, [bufsalloc] and [bufalloc] multiples of it,
    [0 <= bufsalloc <= bufalloc], and the buffer empty.  The first time
    through, with a positive page size, [bufsalloc] is 8192 or the page
    size, whichever is greater, rounded up to a page, and [bufalloc] is 5
    times that; later it keeps sizes that were in order. *)
Theorem reset_buffer_sizes (cfg : config) (w : world)
  (file : option string) (st : stat) (s : state) :
  (pagesize s = 0 -> 0 < w_pagesize w <= SIZE_MAX) ->
  (pagesize s <> 0 -> buffer_ok s) ->
  post only_fatal
    (fun _ s' =>
       buffer_ok s' /\ bufdata s' = []
       /\ (pagesize s = 0 ->
           pagesize s' = w_pagesize w
           /\ bufsalloc s' = round_up (Z.max 8192 (w_pagesize w))
                               (w_pagesize w)
           /\ bufalloc s' = 5 * bufsalloc s'))
    (reset cfg w file st s).
Proof.
  intros H0 H1. apply reset_sizes; assumption.
Qed.

Lemma reset_buffer_sizes_witness :
  (pagesize (initial_state []) = 0 -> 0 < w_pagesize pipe_world <= SIZE_MAX)
  /\ (pagesize (initial_state []) <> 0 -> buffer_ok (initial_state []))
  /\ exists r s',
       reset context_config pipe_world None stats_base (initial_state [])
       = Ret r s'
       /\ bufsalloc s' = 8192 /\ bufalloc s' = 40960.
Proof.
  assert (H0 : pagesize (initial_state []) = 0 ->
               0 < w_pagesize pipe_world <= SIZE_MAX)
    by (intros _; vm_compute; split; [reflexivity|discriminate]).
  assert (H1 : pagesize (initial_state []) <> 0 ->
               buffer_ok (initial_state []))
    by (intros H; exfalso; apply H; reflexivity).
  split; [exact H0|]. split; [exact H1|].
  pose proof (reset_buffer_sizes context_config pipe_world None stats_base
                (initial_state []) H0 H1) as H.
  destruct (reset context_config pipe_world None stats_base
              (initial_state [])) as [r s'|r] eqn:E.
  - exists r, s'. split; [reflexivity|].
    vm_compute in E. injection E as _ <-. split; reflexivity.
  - vm_compute in E. discriminate.
Defined.

(** X16.  With the sizes of the buffer in order and far from overflow,
    and for a regular file the read offset inside the file, fillbuf
    either ends in the [exit (2)] of memory exhausted or returns with
    the sizes still in order, the save region as large as [save], and
    the contents, the bytes saved and the bytes read, inside the
    allocation: at most [save] bytes before the end of the save region
    and at most [bufalloc - bufsalloc] after it. *)
Theorem fillbuf_capacity (w : world) (save : nat) (st : stat) (s : state) :
  buffer_ok s ->
  10 * Z.of_nat save + 5 * pagesize s <= SIZE_MAX ->
  (S_ISREG (st_mode st) = true ->
   0 <= bufoffset s <= st_size st
   /\ st_size st + Z.of_nat save + 2 * pagesize s < 2 ^ 63) ->
  post only_fatal
    (fun _ s' =>
       buffer_ok s'
       /\ Z.of_nat save <= bufsalloc s'
       /\ Z.of_nat (List.length (bufdata s'))
          <= Z.of_nat save + (bufalloc s' - bufsalloc s')
       /\ Z.of_nat (List.length (bufdata s')) <= bufalloc s')
    (fillbuf w save st s).
Proof.
  intros Hok Hsz Hreg.
  pose proof (fillbuf_sizes w save st s Hok Hsz Hreg) as H1.
  pose proof (fillbuf_keeps w save st s) as H2.
  destruct (fillbuf w save st s) as [cc s'|r]; [|exact H1].
  cbn in H1, H2. cbn.
  destruct H1 as (Hok' & Hs').
  destruct H2 as (chunk & B & _ & L & _).
  split; [exact Hok'|]. split; [exact Hs'|].
  destruct Hok' as (Hps & _ & _ & Hb & Hmax).
  rewrite wrap_small in L by lia.
  assert (Hlen : Z.of_nat (List.length (bufdata s'))
                 <= Z.of_nat save + (bufalloc s' - bufsalloc s')).
  { rewrite B, length_app, length_skipn. lia. }
  split; [exact Hlen|lia].
Qed.

Lemma fillbuf_capacity_witness :
  buffer_ok long_line_read
  /\ 10 * Z.of_nat (Z.to_nat 8194) + 5 * pagesize long_line_read <= SIZE_MAX
  /\ (S_ISREG (st_mode long_line_file) = true ->
      0 <= bufoffset long_line_read <= st_size long_line_file
      /\ st_size long_line_file + Z.of_nat (Z.to_nat 8194)
         + 2 * pagesize long_line_read < 2 ^ 63)
  /\ exists cc s',
       fillbuf pipe_world (Z.to_nat 8194) long_line_file long_line_read = Ret cc s'
       /\ bufsalloc s' = 12288 /\ bufalloc s' = 40960.
Proof.
  assert (H1 : buffer_ok long_line_read).
  { unfold buffer_ok. cbn. unfold SIZE_MAX.
    split; [lia|]. split; [exists 2; reflexivity|].
    split; [exists 10; reflexivity|]. lia. }
  assert (H2 : 10 * Z.of_nat (Z.to_nat 8194) + 5 * pagesize long_line_read <= SIZE_MAX)
    by (rewrite Z2Nat.id by lia; vm_compute; discriminate).
  assert (H3 : S_ISREG (st_mode long_line_file) = true ->
               0 <= bufoffset long_line_read <= st_size long_line_file
               /\ st_size long_line_file + Z.of_nat (Z.to_nat 8194)
                  + 2 * pagesize long_line_read < 2 ^ 63).
  { intros _. rewrite Z2Nat.id by lia. cbn. lia. }
  split; [exact H1|]. split; [exact H2|]. split; [exact H3|].
  pose proof (fillbuf_capacity pipe_world (Z.to_nat 8194) long_line_file long_line_read
                H1 H2 H3) as H.
  destruct (fillbuf pipe_world (Z.to_nat 8194) long_line_file long_line_read)
    as [cc s'|r] eqn:E.
  - exists cc, s'. split; [reflexivity|].
    vm_compute in E. injection E as _ <-. split; reflexivity.
  - vm_compute in E. discriminate.
Defined.

(** X17.  What grepfile prints once the count is known, and the status
    it returns.  Under [-c] it prints the count in decimal, after the
    file name if file names are wanted.  Then the file name alone is
    printed under [-l] ([list_files = 1]) exactly when the count is not
    0, and under [-L] ([list_files = -1]) exactly when it is 0.  The
    status is 0 when the count is not 0, and 1 when it is. *)
Theorem grepfile_report_output (cfg : config) (w : world)
  (file : option string) (st : stat) (count : Z) (s : state) :
  exists s',
    grepfile_report cfg w file st count s
    = Ret (if count =? 0 then 1 else 0) s'
    /\ sout s'
       = sout s
         ++ (if nz (count_matches cfg)
             then (if nz (out_file s)
                   then [Printf (list_ascii_of_string (filename s)
                                 ++ [masked cfg ":"%char])]
                   else [])
                  ++ [Printf (printf_d_nl count)]
             else [])
         ++ (if ((list_files cfg =? 1) && negb (count =? 0))
                || ((list_files cfg =? -1) && (count =? 0))
             then [Printf (list_ascii_of_string (filename s)
                           ++ [masked cfg newline])]
             else []).
Proof.
  unfold grepfile_report. mred.
  assert (Hl : (list_files cfg =? 1 - 2 * lnot count)
               = ((list_files cfg =? 1) && negb (count =? 0))
                 || ((list_files cfg =? -1) && (count =? 0))).
  { unfold lnot. destruct (count =? 0); cbn [negb andb orb].
    - rewrite andb_false_r, andb_true_r. reflexivity.
    - rewrite andb_false_r, andb_true_r, orb_false_r. reflexivity. }
  rewrite Hl.
  assert (Hs : lnot count = (if count =? 0 then 1 else 0)) by reflexivity.
  rewrite Hs.
  destruct (nz (count_matches cfg)); mred;
    [destruct (nz (out_file s)); mred|];
    destruct ((list_files cfg =? 1) && negb (count =? 0)
              || (list_files cfg =? -1) && (count =? 0)); mred;
    (destruct file as [f|];
     [destruct (w_close w f); mred
     |match goal with
      | |- context [if ?b then _ else _] =>
          lazymatch b with
          | negb _ => destruct b
          end
      end; mred;
      [destruct (w_lseek_set w _); mred;
       [destruct (S_ISREG (st_mode st)); mred|]|]]);
    eexists; (split; [reflexivity|]); cbn;
    rewrite <- ?app_assoc, ?app_nil_r; reflexivity.
Qed.

(** X18.  Whenever grepfile returns, [out_file], [out_quiet] and
    [done_on_match] are as they were before the call: what grep adds to
    [done_on_match] and [out_quiet] for a binary file it takes off again
    at [finish_grep], and what grepdir adds to [out_file] for the files
    of a directory it takes off after them. *)
Theorem grepfile_restores_flags (cfg : config) (w : world)
  (depth fuel : nat) (file : option string) (st st' : stat)
  (anc : list stat) (s s' : state) (status : Z) :
  grepfile cfg w depth fuel file st anc s = Ret (status, st') s' ->
  out_file s' = out_file s
  /\ out_quiet s' = out_quiet s
  /\ done_on_match s' = done_on_match s.
Proof.
  intros E.
  pose proof (grepfile_flags cfg w depth fuel file st anc s) as H.
  rewrite E in H. cbn [post] in H. unfold scan_flags in H.
  injection H as H1 H2 H3. auto.
Qed.

Lemma grepfile_restores_flags_witness :
  exists st' s',
    grepfile recursive_config loop_world 3 64 (Some "d"%string) stats_base []
      (initial_state []) = Ret (0, st') s'
    /\ sout s' = [Printf (bytes "d/f:"); Fwrite (bytes ("foo" ++ nl))]
    /\ out_file s' = out_file (initial_state [])
    /\ out_quiet s' = out_quiet (initial_state [])
    /\ done_on_match s' = done_on_match (initial_state []).
Proof.
  destruct (grepfile recursive_config loop_world 3 64 (Some "d"%string)
              stats_base [] (initial_state [])) as [[status st'] s'|r] eqn:E.
  - pose proof (grepfile_restores_flags recursive_config loop_world 3 64
                  (Some "d"%string) stats_base st' [] (initial_state []) s'
                  status E) as H.
    assert (status = 0) as -> by (vm_compute in E; congruence).
    exists st', s'. split; [reflexivity|]. split; [|exact H].
    vm_compute in E. injection E as _ <-. reflexivity.
  - vm_compute in E. discriminate.
Defined.

(** X19.  With [out_quiet] set and neither [-c] nor [-l] nor [-L] in
    force ([count_matches] and [list_files] are 0), as [-q] leaves
    them, the scan of main writes nothing to standard output, whatever
    the files hold and whichever way it ends: when it returns, and at
    every [exit] or [abort], standard output is as it was. *)
Theorem quiet_writes_nothing (cfg : config) (w : world) (depth fuel : nat)
  (files : list string) (s : state) :
  out_quiet s <> 0 -> count_matches cfg = 0 -> list_files cfg = 0 ->
  match main_scan cfg w depth fuel files s with
  | Ret _ s' => sout s' = sout s
  | Stop (Exit _ s') => sout s' = sout s
  | Stop (Abort s') => sout s' = sout s
  | Stop _ => True
  end.
Proof.
  intros Hq Hc Hl.
  assert (Hn : nz (out_quiet s) = true).
  { unfold nz. destruct (out_quiet s =? 0) eqn:E; [|reflexivity].
    apply Z.eqb_eq in E. contradiction. }
  pose proof (main_scan_hushed cfg w (sout s) (out_quiet s) Hn Hc Hl
                depth fuel files s (conj eq_refl eq_refl)) as H.
  destruct (main_scan cfg w depth fuel files s) as [status s'|r].
  - exact (proj1 H).
  - destruct r; exact H.
Qed.

Lemma quiet_writes_nothing_witness :
  out_quiet (quiet_state a_line) <> 0
  /\ count_matches quiet_config = 0
  /\ list_files quiet_config = 0
  /\ exists s',
       main_scan quiet_config pipe_world 8 64 [] (quiet_state a_line)
       = Stop (Exit 0 s')
       /\ sout s' = sout (quiet_state a_line).
Proof.
  assert (H1 : out_quiet (quiet_state a_line) <> 0)
    by (vm_compute; discriminate).
  assert (H2 : count_matches quiet_config = 0) by reflexivity.
  assert (H3 : list_files quiet_config = 0) by reflexivity.
  split; [exact H1|]. split; [exact H2|]. split; [exact H3|].
  pose proof (quiet_writes_nothing quiet_config pipe_world 8 64 []
                (quiet_state a_line) H1 H2 H3) as H.
  destruct (main_scan quiet_config pipe_world 8 64 [] (quiet_state a_line))
    as [status s'|[status s'|s'|u|k]] eqn:E;
    try (vm_compute in E; discriminate).
  assert (status = 0) as -> by (vm_compute in E; congruence).
  exists s'. split; [reflexivity|exact H].
Defined.
